(** * Memory & cache management simulator: a shallow embedding

    The development follows the two independent subsystems of the
    simulator:

    - [Cache]     : [cache/CacheSimulator.cpp], the two-level set-associative
                    cache hierarchy with FIFO / LRU / LFU replacement;
    - [Allocator] : [allocator/MemoryManager.cpp], the arena allocator with
                    in-band block headers, first/best/worst fit placement,
                    splitting and coalescing;
    - [CLI]       : the part of [main.cpp] that binds user-visible block ids
                    to allocator addresses;
    - [Stats]     : [stats/StatsManager.cpp], the counters behind the
                    [stats] command.

    Machine integers ([size_t]) are integers of [Z] with the 64-bit
    wrap-around written out ([wrap]). *)

From Stdlib Require Import ZArith Lia Bool List.
From Stdlib Require Import Ascii String DecimalString HexadecimalString.
From stdpp Require Import base option list gmap sorting.

Set Warnings "-abstract-large-number".
Local Open Scope Z_scope.

(** ** Machine words *)

Definition size_t_width : Z := 64.
Definition size_t_modulus : Z := 2 ^ size_t_width.

(** [wrap z] is the value a [size_t] holds after the mathematical result [z]
    has been stored into it. *)
Definition wrap (z : Z) : Z := z mod size_t_modulus.

(** Rendering of numbers by the stream inserters [<<] ([std::dec] and
    [std::hex], lower-case digits, no padding). *)
Definition dec_string (z : Z) : string :=
  DecimalString.NilZero.string_of_uint (N.to_uint (Z.to_N z)).

Definition hex_string (z : Z) : string :=
  HexadecimalString.NilZero.string_of_uint (N.to_hex_uint (Z.to_N z)).

(** * The cache hierarchy *)
Module Cache.

Inductive ReplacementPolicy := FIFO | LRU | LFU.

Record CacheBlock := mkCacheBlock {
  valid : bool;
  tag : Z;
  load_time : Z;
  last_access : Z;
  access_count : Z
}.

Record CacheSet := mkCacheSet {
  blocks : list CacheBlock;
  associativity : nat;
  fifoQueue : list nat;
  lruList : list nat
}.

Record CacheLevel := mkCacheLevel {
  size : Z;
  block_size : Z;
  level_associativity : Z;
  num_sets : Z;
  set_index_bits : Z;
  block_offset_bits : Z;
  tag_bits : Z;
  policy : ReplacementPolicy;
  levelNum : Z;
  sets : list CacheSet;
  hits : Z;
  misses : Z;
  evictions : Z;
  global_time : Z
}.

Record CacheSimulator := mkCacheSimulator {
  l1_cache : CacheLevel;
  l2_cache : CacheLevel;
  defaultPolicy : ReplacementPolicy
}.

Record CacheAccessReport := mkReport {
  l1Hit : bool;
  l2Hit : bool;
  l2Accessed : bool;
  events : list string
}.

(** Field updates, one per assignment form used by the source. *)
Definition set_sets (l : CacheLevel) (ss : list CacheSet) : CacheLevel :=
  mkCacheLevel (size l) (block_size l) (level_associativity l) (num_sets l)
    (set_index_bits l) (block_offset_bits l) (tag_bits l) (policy l)
    (levelNum l) ss (hits l) (misses l) (evictions l) (global_time l).

Definition set_hits (l : CacheLevel) (h : Z) : CacheLevel :=
  mkCacheLevel (size l) (block_size l) (level_associativity l) (num_sets l)
    (set_index_bits l) (block_offset_bits l) (tag_bits l) (policy l)
    (levelNum l) (sets l) h (misses l) (evictions l) (global_time l).

Definition set_misses (l : CacheLevel) (m : Z) : CacheLevel :=
  mkCacheLevel (size l) (block_size l) (level_associativity l) (num_sets l)
    (set_index_bits l) (block_offset_bits l) (tag_bits l) (policy l)
    (levelNum l) (sets l) (hits l) m (evictions l) (global_time l).

Definition set_evictions (l : CacheLevel) (e : Z) : CacheLevel :=
  mkCacheLevel (size l) (block_size l) (level_associativity l) (num_sets l)
    (set_index_bits l) (block_offset_bits l) (tag_bits l) (policy l)
    (levelNum l) (sets l) (hits l) (misses l) e (global_time l).

Definition set_global_time (l : CacheLevel) (t : Z) : CacheLevel :=
  mkCacheLevel (size l) (block_size l) (level_associativity l) (num_sets l)
    (set_index_bits l) (block_offset_bits l) (tag_bits l) (policy l)
    (levelNum l) (sets l) (hits l) (misses l) (evictions l) t.

Definition set_policy (l : CacheLevel) (p : ReplacementPolicy) : CacheLevel :=
  mkCacheLevel (size l) (block_size l) (level_associativity l) (num_sets l)
    (set_index_bits l) (block_offset_bits l) (tag_bits l) p
    (levelNum l) (sets l) (hits l) (misses l) (evictions l) (global_time l).

Definition set_blocks (s : CacheSet) (bs : list CacheBlock) : CacheSet :=
  mkCacheSet bs (associativity s) (fifoQueue s) (lruList s).

Definition set_fifoQueue (s : CacheSet) (q : list nat) : CacheSet :=
  mkCacheSet (blocks s) (associativity s) q (lruList s).

Definition set_lruList (s : CacheSet) (q : list nat) : CacheSet :=
  mkCacheSet (blocks s) (associativity s) (fifoQueue s) q.

Definition push_event (r : CacheAccessReport) (e : string) : CacheAccessReport :=
  mkReport (l1Hit r) (l2Hit r) (l2Accessed r) (events r ++ [e]).

(** *** Construction: [initCacheLevel] and the constructor *)

Definition empty_block : CacheBlock := mkCacheBlock false 0 0 0 0.

Definition empty_set (assoc : Z) : CacheSet :=
  mkCacheSet (replicate (Z.to_nat assoc) empty_block) (Z.to_nat assoc) [] [].

(** [static_cast<size_t>(std::log2(x))]: the floor of the binary logarithm.
    The source goes through [double]; the conversion is exact and the floor
    is [Z.log2] for the sizes a simulated cache has. *)
Definition log2_floor (x : Z) : Z := Z.log2 x.

(** [initCacheLevel].  Two steps of it are undefined in C++ and give no
    level here: the integer division [size / (block_size * associativity)]
    when the divisor is zero, and the conversion of [log2(0)] (minus
    infinity) to [size_t] when [num_sets] or [block_size] is zero.  The
    source has no other way not to produce a level: it validates nothing. *)
Definition initCacheLevel (levelNum size block_size associativity : Z)
    (policy : ReplacementPolicy) : option CacheLevel :=
  let divisor := wrap (block_size * associativity) in
  if divisor =? 0 then None else
  let num_sets := size / divisor in
  if (num_sets =? 0) || (block_size =? 0) then None else
  let block_offset_bits := log2_floor block_size in
  let set_index_bits := log2_floor num_sets in
  let tag_bits := wrap (64 - set_index_bits - block_offset_bits) in
  Some (mkCacheLevel size block_size associativity num_sets
          set_index_bits block_offset_bits tag_bits policy levelNum
          (replicate (Z.to_nat num_sets) (empty_set associativity))
          0 0 0 0).

(** The C++ default argument [policy = FIFO] is passed explicitly. *)
Definition new_CacheSimulator
    (l1_size l1_block_size l1_associativity
     l2_size l2_block_size l2_associativity : Z)
    (policy : ReplacementPolicy) : option CacheSimulator :=
  match initCacheLevel 1 l1_size l1_block_size l1_associativity policy with
  | None => None
  | Some l1 =>
    match initCacheLevel 2 l2_size l2_block_size l2_associativity policy with
    | None => None
    | Some l2 => Some (mkCacheSimulator l1 l2 policy)
    end
  end.

(** *** Address decoding.  The masks are [(1ULL << bits) - 1] in 64-bit
    arithmetic.  A shift by 64, which [tag_bits] asks for in a level of one
    set of one-byte blocks, is undefined in C++; here it gives the mask of
    all ones. *)

Definition extractTag (level : CacheLevel) (address : Z) : Z :=
  let mask := wrap (wrap (Z.shiftl 1 (tag_bits level)) - 1) in
  Z.land (Z.shiftr address (set_index_bits level + block_offset_bits level)) mask.

Definition extractSetIndex (level : CacheLevel) (address : Z) : Z :=
  let mask := wrap (wrap (Z.shiftl 1 (set_index_bits level)) - 1) in
  Z.land (Z.shiftr address (block_offset_bits level)) mask.

Definition extractBlockOffset (level : CacheLevel) (address : Z) : Z :=
  let mask := wrap (wrap (Z.shiftl 1 (block_offset_bits level)) - 1) in
  Z.land address mask.

(** *** Replacement policies *)

(** First index of a list whose element satisfies [p]: the shape of the two
    linear scans of [accessLevel]. *)
Fixpoint find_index_from {A} (p : A -> bool) (l : list A) (i : nat) : option nat :=
  match l with
  | [] => None
  | x :: l' => if p x then Some i else find_index_from p l' (S i)
  end.

Definition find_index {A} (p : A -> bool) (l : list A) : option nat :=
  find_index_from p l 0.

(** The loop shared by [findVictimLRU] and [findVictimLFU]: scanning from
    index [i], keep the first index whose key is strictly below the best
    key seen so far. *)
Fixpoint scan_min (key : CacheBlock -> Z) (bs : list CacheBlock)
    (i victim : nat) (best : Z) : nat :=
  match bs with
  | [] => victim
  | b :: bs' =>
      if key b <? best then scan_min key bs' (S i) i (key b)
      else scan_min key bs' (S i) victim best
  end.

(** [std::list::remove]: drops every element equal to [v]. *)
Definition list_remove (v : nat) (l : list nat) : list nat :=
  List.filter (fun x => negb (Nat.eqb x v)) l.

(** [front()] of an empty queue is undefined; it cannot arise for a set with
    at least one way, and is read as index 0 here. *)
Definition findVictimFIFO (set : CacheSet) : nat * CacheSet :=
  let q := match fifoQueue set with
           | [] => seq 0 (length (blocks set))
           | _ => fifoQueue set
           end in
  let victim := hd 0%nat q in
  (victim, set_fifoQueue set (tl q ++ [victim])).

Definition findVictimLRU (set : CacheSet) : nat * CacheSet :=
  let victim := match blocks set with
                | [] => 0%nat
                | b0 :: rest => scan_min last_access rest 1 0 (last_access b0)
                end in
  (victim, set_lruList set (list_remove victim (lruList set) ++ [victim])).

Definition findVictimLFU (set : CacheSet) : nat :=
  match blocks set with
  | [] => 0%nat
  | b0 :: rest => scan_min access_count rest 1 0 (access_count b0)
  end.

Definition touch_lru (t : Z) (b : CacheBlock) : CacheBlock :=
  mkCacheBlock (valid b) (tag b) (load_time b) t (access_count b).

Definition bump_count (b : CacheBlock) : CacheBlock :=
  mkCacheBlock (valid b) (tag b) (load_time b) (last_access b)
    (wrap (access_count b + 1)).

Definition updateReplacementData (level : CacheLevel) (set : CacheSet)
    (block_index : nat) (policy : ReplacementPolicy) : CacheSet :=
  match policy with
  | FIFO => set
  | LRU =>
      let set := set_lruList set (list_remove block_index (lruList set) ++ [block_index]) in
      set_blocks set (alter (touch_lru (global_time level)) block_index (blocks set))
  | LFU =>
      set_blocks set (alter bump_count block_index (blocks set))
  end.

(** *** One level access *)

(** [CacheSet& set = level.sets[set_index]] is a reference: what is done to
    [set] lands in the level. *)
Definition store_set (level : CacheLevel) (set_index : Z) (set : CacheSet) : CacheLevel :=
  set_sets level (<[Z.to_nat set_index := set]> (sets level)).

Definition eviction_event (level : CacheLevel) (old_tag set_index : Z) : string :=
  ("L" ++ dec_string (levelNum level) ++ " Eviction: Tag 0x" ++ hex_string old_tag
     ++ " (Set " ++ dec_string set_index ++ ")")%string.

Definition is_hit (tg : Z) (b : CacheBlock) : bool := valid b && (tag b =? tg).

(** Victim selection of a fill: the first invalid way, else the policy's
    choice together with the eviction bookkeeping. *)
Definition select_victim (level : CacheLevel) (set : CacheSet) (set_index : Z)
    (report : CacheAccessReport) : nat * CacheSet * CacheLevel * CacheAccessReport :=
  let victim_index :=
    default (associativity set) (find_index (fun b => negb (valid b)) (blocks set)) in
  if Nat.eqb victim_index (associativity set) then
    let '(victim_index, set) :=
      match policy level with
      | FIFO => findVictimFIFO set
      | LRU => findVictimLRU set
      | LFU => (findVictimLFU set, set)
      end in
    let level := set_evictions level (wrap (evictions level + 1)) in
    let old_tag := tag (nth victim_index (blocks set) empty_block) in
    (victim_index, set, level, push_event report (eviction_event level old_tag set_index))
  else (victim_index, set, level, report).

Definition accessLevel (level : CacheLevel) (physical_address : Z)
    (report : CacheAccessReport) (update_stats allocate : bool)
  : bool * CacheLevel * CacheAccessReport :=
  let level := if update_stats
               then set_global_time level (wrap (global_time level + 1))
               else level in
  let tg := extractTag level physical_address in
  let set_index := extractSetIndex level physical_address in
  match sets level !! Z.to_nat set_index with
  | None => (false, level, report)
  | Some set =>
    match find_index (is_hit tg) (blocks set) with
    | Some i =>
        if update_stats then
          let level := set_hits level (wrap (hits level + 1)) in
          let set := updateReplacementData level set i (policy level) in
          (true, store_set level set_index set, report)
        else (true, level, report)
    | None =>
        let level := if update_stats
                     then set_misses level (wrap (misses level + 1))
                     else level in
        if negb allocate then (false, level, report) else
        let '(victim_index, set, level, report) :=
          select_victim level set set_index report in
        let current_time := global_time level in
        let set := set_blocks set
                     (<[victim_index := mkCacheBlock true tg current_time current_time 1]>
                        (blocks set)) in
        let set := updateReplacementData level set victim_index (policy level) in
        (false, store_set level set_index set, report)
    end
  end.

(** *** The hierarchy: [access] and the policy setters *)

Definition with_l1Hit (r : CacheAccessReport) (b : bool) : CacheAccessReport :=
  mkReport b (l2Hit r) (l2Accessed r) (events r).
Definition with_l2Hit (r : CacheAccessReport) (b : bool) : CacheAccessReport :=
  mkReport (l1Hit r) b (l2Accessed r) (events r).
Definition with_l2Accessed (r : CacheAccessReport) (b : bool) : CacheAccessReport :=
  mkReport (l1Hit r) (l2Hit r) b (events r).

Definition access (c : CacheSimulator) (physical_address : Z)
  : CacheAccessReport * CacheSimulator :=
  let report := mkReport false false false [] in
  let '(h1, l1, report) := accessLevel (l1_cache c) physical_address report true false in
  let report := with_l1Hit report h1 in
  if h1 then (report, mkCacheSimulator l1 (l2_cache c) (defaultPolicy c)) else
  let report := with_l2Accessed report true in
  let '(h2, l2, report) := accessLevel (l2_cache c) physical_address report true false in
  let report := with_l2Hit report h2 in
  if h2 then
    let '(_, l1, report) := accessLevel l1 physical_address report false true in
    (report, mkCacheSimulator l1 l2 (defaultPolicy c))
  else
    let '(_, l2, report) := accessLevel l2 physical_address report false true in
    let '(_, l1, report) := accessLevel l1 physical_address report false true in
    (report, mkCacheSimulator l1 l2 (defaultPolicy c)).

Definition setReplacementPolicy (c : CacheSimulator) (p : ReplacementPolicy) : CacheSimulator :=
  mkCacheSimulator (set_policy (l1_cache c) p) (set_policy (l2_cache c) p) p.

Definition setReplacementPolicyLevel (c : CacheSimulator) (level : Z)
    (p : ReplacementPolicy) : CacheSimulator :=
  if level =? 1 then mkCacheSimulator (set_policy (l1_cache c) p) (l2_cache c) (defaultPolicy c)
  else if level =? 2 then mkCacheSimulator (l1_cache c) (set_policy (l2_cache c) p) (defaultPolicy c)
  else c.

Definition getHits (c : CacheSimulator) (level : Z) : Z :=
  if level =? 1 then hits (l1_cache c)
  else if level =? 2 then hits (l2_cache c) else 0.

Definition getMisses (c : CacheSimulator) (level : Z) : Z :=
  if level =? 1 then misses (l1_cache c)
  else if level =? 2 then misses (l2_cache c) else 0.

(** A client of the hierarchy: the calls [main.cpp] can make after
    construction, run in sequence; the reports of the accesses are collected
    in call order. *)
Inductive Call :=
| CallAccess (physical_address : Z)
| CallSetPolicy (p : ReplacementPolicy)
| CallSetPolicyLevel (level : Z) (p : ReplacementPolicy).

Fixpoint run (c : CacheSimulator) (calls : list Call)
  : CacheSimulator * list CacheAccessReport :=
  match calls with
  | [] => (c, [])
  | CallAccess a :: rest =>
      let '(r, c') := access c a in
      let '(c'', rs) := run c' rest in (c'', r :: rs)
  | CallSetPolicy p :: rest => run (setReplacementPolicy c p) rest
  | CallSetPolicyLevel l p :: rest => run (setReplacementPolicyLevel c l p) rest
  end.

(** *** Invariants of a level *)

(** What every set of a level satisfies at level time [T]. *)
Definition set_ok (T : Z) (s : CacheSet) : Prop :=
  length (blocks s) = associativity s
  /\ (0 < associativity s)%nat
  /\ (forall x, In x (fifoQueue s) -> (x < length (blocks s))%nat)
  /\ (forall i b, blocks s !! i = Some b -> last_access b <= T)
  /\ (forall i j bi bj,
        blocks s !! i = Some bi -> blocks s !! j = Some bj ->
        valid bi = true -> valid bj = true -> tag bi = tag bj -> i = j).

Definition level_ok (l : CacheLevel) : Prop :=
  (forall a, is_Some (sets l !! Z.to_nat (extractSetIndex l a)))
  /\ (forall k s, sets l !! k = Some s -> set_ok (global_time l) s)
  /\ hits l + misses l = global_time l
  /\ 0 <= hits l /\ 0 <= misses l.

(** The set an address maps to. *)
Definition addressed (l : CacheLevel) (a : Z) : option CacheSet :=
  sets l !! Z.to_nat (extractSetIndex l a).

(** Line [i] of the addressed set holds the tag of [a] and was accessed
    strictly later than every other line of that set. *)
Definition most_recent (l : CacheLevel) (a : Z) : Prop :=
  exists s i b,
    addressed l a = Some s /\ blocks s !! i = Some b
    /\ valid b = true /\ tag b = extractTag l a
    /\ forall j b', j <> i -> blocks s !! j = Some b' -> last_access b' < last_access b.

Definition cache_ok (c : CacheSimulator) : Prop :=
  level_ok (l1_cache c) /\ level_ok (l2_cache c)
  /\ global_time (l2_cache c) <= global_time (l1_cache c).

(** A value a [size_t] parameter can hold. *)
Definition is_size_t (z : Z) : Prop := 0 <= z < size_t_modulus.

(** Number of reports of accesses that went on to probe L2. *)
Definition l2_probes (rs : list CacheAccessReport) : Z :=
  Z.of_nat (length (List.filter l2Accessed rs)).

(** Every valid line of the addressed set that holds the tag of [a] was
    accessed later than all other lines of the set, and there is one. *)
Definition tag_line_latest (l : CacheLevel) (a : Z) : Prop :=
  exists s, addressed l a = Some s
    /\ (exists i b, blocks s !! i = Some b /\ valid b = true /\ tag b = extractTag l a)
    /\ forall i b, blocks s !! i = Some b -> valid b = true -> tag b = extractTag l a ->
         forall j b', j <> i -> blocks s !! j = Some b' -> last_access b' < last_access b.

(** The geometry check the specification asks of the constructor (each of
    [block_size], [associativity], [num_sets] a positive power of two,
    [block_size] dividing [cache_size], at least one set).  The source has
    no counterpart of it; it is used to state what construction does on
    geometries the specification calls invalid. *)
Definition is_pow2 (z : Z) : bool := (0 <? z) && (Z.land z (z - 1) =? 0).

Definition spec_geometry_ok (cache_size block_size associativity : Z) : bool :=
  let num_sets := cache_size / (block_size * associativity) in
  is_pow2 block_size && is_pow2 associativity && is_pow2 num_sets
  && (cache_size mod block_size =? 0) && (1 <=? num_sets).

(** Two levels that decode addresses alike and run the same policy. *)
Definition same_shape (l l' : CacheLevel) : Prop :=
  set_index_bits l' = set_index_bits l
  /\ block_offset_bits l' = block_offset_bits l
  /\ tag_bits l' = tag_bits l
  /\ policy l' = policy l
  /\ length (sets l') = length (sets l).

(** The line a fill installs, by policy: the load sets the count to one and
    [updateReplacementData] then runs on the line just loaded. *)
Definition filled_line (p : ReplacementPolicy) (tg t : Z) : CacheBlock :=
  mkCacheBlock true tg t t (match p with LFU => 2 | _ => 1 end).

(** The hierarchy of the README's usage example and of the specification's
    replacement scenarios: L1 of 128 bytes, L2 of 1024 bytes, 16-byte
    blocks, 2 and 4 ways. *)
Definition unbuilt : CacheSimulator :=
  let l := mkCacheLevel 0 0 0 0 0 0 0 FIFO 0 [] 0 0 0 0 in mkCacheSimulator l l FIFO.

Definition small_cache (p : ReplacementPolicy) : CacheSimulator :=
  default unbuilt (new_CacheSimulator 128 16 2 1024 16 4 p).

(** ** Notions used to state further properties of the cache *)

(** Number of eviction events in the reports of a run. *)
Definition eviction_events (rs : list CacheAccessReport) : Z :=
  Z.of_nat (length (concat (map events rs))).

(** A valid line of the addressed set holds the tag of [a]. *)
Definition present (l : CacheLevel) (a : Z) : Prop :=
  exists s i b, addressed l a = Some s /\ blocks s !! i = Some b
                /\ is_hit (extractTag l a) b = true.

(** A full set of two lines: way 1 was accessed before way 0, and less
    often. *)
Definition two_lines : CacheSet :=
  mkCacheSet [mkCacheBlock true 7 1 5 3; mkCacheBlock true 9 2 3 1] 2 [] [].

(** The queue [findVictimFIFO] takes its victim from: the set's queue,
    filled with all ways in order when it is empty. *)
Definition queue (s : CacheSet) : list nat :=
  match fifoQueue s with
  | [] => seq 0 (length (blocks s))
  | _ => fifoQueue s
  end.

(** Load time of way [i]. *)
Definition load (bs : list CacheBlock) (i : nat) : Z := load_time (nth i bs empty_block).

(** A set under FIFO at level time [T]: ways [0 .. m-1] are the valid ones;
    [ord] lists them from the oldest load to the latest; while the set is
    not full nothing was evicted and the ways were filled in order, and
    once it is full the queue is [ord]. *)
Definition fifo_set (T : Z) (s : CacheSet) : Prop :=
  length (blocks s) = associativity s /\ (0 < associativity s)%nat
  /\ exists (m : nat) (ord : list nat),
       (m <= length (blocks s))%nat
       /\ (forall i b, blocks s !! i = Some b -> valid b = bool_decide (i < m)%nat)
       /\ (forall i, In i ord <-> (i < m)%nat)
       /\ List.NoDup ord
       /\ StronglySorted (fun i j => load (blocks s) i < load (blocks s) j) ord
       /\ (forall i, (i < m)%nat -> load (blocks s) i <= T)
       /\ (if decide (m = length (blocks s)) then queue s = ord
           else fifoQueue s = [] /\ ord = seq 0 m).

(** A level that has run FIFO since it was built. *)
Definition fifo_level (N : Z) (l : CacheLevel) : Prop :=
  policy l = FIFO /\ 0 <= global_time l <= N
  /\ forall k s, sets l !! k = Some s -> fifo_set (global_time l) s.

End Cache.


(** * The allocator *)
Module Allocator.

Inductive AllocationStrategy := FIRST_FIT | BEST_FIT | WORST_FIT.

(** A [BlockHeader*] or user pointer is the offset of the byte it points to
    from [physicalMemory.data()]; the null pointer is [None]. *)
Record BlockHeader := mkBlockHeader {
  size : Z;
  is_free : bool;
  block_id : Z;
  next : option Z;
  prev : option Z
}.

(** The arena.  [physicalMemory] holds the headers written so far, by the
    offset they were written at; the vector is zero-filled at construction,
    so a header read where none was written has all fields zero.  Headers
    written at different offsets are kept apart: blocks being at least
    [sizeof(BlockHeader)] bytes long, they do not overlap. *)
Record MemoryManager := mkMemoryManager {
  totalMemorySize : Z;
  currentStrategy : AllocationStrategy;
  physicalMemory : gmap Z BlockHeader;
  firstBlock : Z;
  freeListHead : option Z;
  nextBlockId : Z;
  addressToHeader : gmap Z Z;
  idToHeader : gmap Z Z;
  idToRequestedSize : gmap Z Z;
  allocationSuccessCount : Z;
  allocationFailureCount : Z;
  totalRequestedSize : Z;
  totalAllocatedSize : Z
}.

Definition zero_header : BlockHeader := mkBlockHeader 0 false 0 None None.

(** [*p] for a header pointer [p]. *)
Definition header (mm : MemoryManager) (p : Z) : BlockHeader :=
  default zero_header (physicalMemory mm !! p).

Definition with_memory (mm : MemoryManager) (mem : gmap Z BlockHeader) : MemoryManager :=
  mkMemoryManager (totalMemorySize mm) (currentStrategy mm) mem (firstBlock mm)
    (freeListHead mm) (nextBlockId mm) (addressToHeader mm) (idToHeader mm)
    (idToRequestedSize mm) (allocationSuccessCount mm) (allocationFailureCount mm)
    (totalRequestedSize mm) (totalAllocatedSize mm).

Definition with_freeListHead (mm : MemoryManager) (h : option Z) : MemoryManager :=
  mkMemoryManager (totalMemorySize mm) (currentStrategy mm) (physicalMemory mm)
    (firstBlock mm) h (nextBlockId mm) (addressToHeader mm) (idToHeader mm)
    (idToRequestedSize mm) (allocationSuccessCount mm) (allocationFailureCount mm)
    (totalRequestedSize mm) (totalAllocatedSize mm).

Definition with_strategy (mm : MemoryManager) (s : AllocationStrategy) : MemoryManager :=
  mkMemoryManager (totalMemorySize mm) s (physicalMemory mm)
    (firstBlock mm) (freeListHead mm) (nextBlockId mm) (addressToHeader mm) (idToHeader mm)
    (idToRequestedSize mm) (allocationSuccessCount mm) (allocationFailureCount mm)
    (totalRequestedSize mm) (totalAllocatedSize mm).

(** [p->field = v]: one store into the header at [p]. *)
Definition store (mm : MemoryManager) (p : Z) (f : BlockHeader -> BlockHeader) : MemoryManager :=
  with_memory mm (<[p := f (header mm p)]> (physicalMemory mm)).

Definition put_size (v : Z) (h : BlockHeader) : BlockHeader :=
  mkBlockHeader v (is_free h) (block_id h) (next h) (prev h).
Definition put_is_free (v : bool) (h : BlockHeader) : BlockHeader :=
  mkBlockHeader (size h) v (block_id h) (next h) (prev h).
Definition put_block_id (v : Z) (h : BlockHeader) : BlockHeader :=
  mkBlockHeader (size h) (is_free h) v (next h) (prev h).
Definition put_next (v : option Z) (h : BlockHeader) : BlockHeader :=
  mkBlockHeader (size h) (is_free h) (block_id h) v (prev h).
Definition put_prev (v : option Z) (h : BlockHeader) : BlockHeader :=
  mkBlockHeader (size h) (is_free h) (block_id h) (next h) v.

(** The constructor with [initializeMemory]. *)
Definition new_MemoryManager (totalSize : Z) (strategy : AllocationStrategy) : MemoryManager :=
  mkMemoryManager totalSize strategy
    {[ 0 := mkBlockHeader totalSize true 0 None None ]}
    0 (Some 0) 1 {[ 0 := 0 ]} ∅ ∅ 0 0 0 0.

Definition setAllocationStrategy (mm : MemoryManager) (s : AllocationStrategy) : MemoryManager :=
  with_strategy mm s.

(** ** The free list *)

Definition removeFromFreeList (mm : MemoryManager) (block : Z) : MemoryManager :=
  let mm := match prev (header mm block) with
            | Some p => store mm p (put_next (next (header mm block)))
            | None => with_freeListHead mm (next (header mm block))
            end in
  let mm := match next (header mm block) with
            | Some n => store mm n (put_prev (prev (header mm block)))
            | None => mm
            end in
  let mm := store mm block (put_next None) in
  store mm block (put_prev None).

Definition is_null (p : option Z) : bool :=
  match p with None => true | Some _ => false end.

Definition ptr_eqb (p : option Z) (q : Z) : bool :=
  match p with Some o => o =? q | None => false end.

Definition addToFreeList (mm : MemoryManager) (block : Z) : MemoryManager :=
  let mm := if negb (is_null (prev (header mm block)))
               || negb (is_null (next (header mm block)))
               || ptr_eqb (freeListHead mm) block
            then removeFromFreeList mm block else mm in
  let mm := store mm block (put_next (freeListHead mm)) in
  let mm := store mm block (put_prev None) in
  let mm := match freeListHead mm with
            | Some h => store mm h (put_prev (Some block))
            | None => mm
            end in
  with_freeListHead mm (Some block).

(** ** Placement *)

(** [findFirstFit]: the loop has no bound of its own; [fuel] bounds the
    number of nodes visited, and [None] is the loop still running. *)
Fixpoint findFirstFit_loop (fuel : nat) (mm : MemoryManager) (current : option Z) (sz : Z)
  : option (option Z) :=
  match current with
  | None => Some None
  | Some c =>
    match fuel with
    | O => None
    | S fuel' =>
      if is_free (header mm c) && (sz <=? size (header mm c)) then Some (Some c)
      else findFirstFit_loop fuel' mm (next (header mm c)) sz
    end
  end.

Definition findFirstFit (fuel : nat) (mm : MemoryManager) (sz : Z) : option (option Z) :=
  findFirstFit_loop fuel mm (freeListHead mm) sz.

(** [findBestFit]: [iterations_left] is [maxIterations - iterations]. *)
Definition maxIterations_findBestFit : nat := Z.to_nat 10000.

Definition better (mm : MemoryManager) (best : option Z) (c : Z) : bool :=
  match best with
  | None => true
  | Some b => size (header mm c) <? size (header mm b)
  end.

Fixpoint findBestFit_loop (iterations_left : nat) (mm : MemoryManager)
    (best current : option Z) (sz : Z) : option Z :=
  match current, iterations_left with
  | Some c, S k =>
      let best := if is_free (header mm c) && (sz <=? size (header mm c))
                     && better mm best c
                  then Some c else best in
      findBestFit_loop k mm best (next (header mm c)) sz
  | _, _ => best
  end.

Definition findBestFit (mm : MemoryManager) (sz : Z) : option Z :=
  findBestFit_loop maxIterations_findBestFit mm None (freeListHead mm) sz.

Definition worse (mm : MemoryManager) (worst : option Z) (c : Z) : bool :=
  match worst with
  | None => true
  | Some w => size (header mm w) <? size (header mm c)
  end.

Fixpoint findWorstFit_loop (fuel : nat) (mm : MemoryManager) (worst current : option Z) (sz : Z)
  : option (option Z) :=
  match current with
  | None => Some worst
  | Some c =>
    match fuel with
    | O => None
    | S fuel' =>
      let worst := if is_free (header mm c) && (sz <=? size (header mm c))
                      && worse mm worst c
                   then Some c else worst in
      findWorstFit_loop fuel' mm worst (next (header mm c)) sz
    end
  end.

Definition findWorstFit (fuel : nat) (mm : MemoryManager) (sz : Z) : option (option Z) :=
  findWorstFit_loop fuel mm None (freeListHead mm) sz.

Definition with_counters (mm : MemoryManager) (ok failed requested allocated : Z)
  : MemoryManager :=
  mkMemoryManager (totalMemorySize mm) (currentStrategy mm) (physicalMemory mm)
    (firstBlock mm) (freeListHead mm) (nextBlockId mm) (addressToHeader mm) (idToHeader mm)
    (idToRequestedSize mm) ok failed requested allocated.

Definition count_failure (mm : MemoryManager) : MemoryManager :=
  with_counters mm (allocationSuccessCount mm) (wrap (allocationFailureCount mm + 1))
    (totalRequestedSize mm) (totalAllocatedSize mm).

Definition add_requested (mm : MemoryManager) (n : Z) : MemoryManager :=
  with_counters mm (allocationSuccessCount mm) (allocationFailureCount mm)
    (wrap (totalRequestedSize mm + n)) (totalAllocatedSize mm).

Definition add_allocated (mm : MemoryManager) (n : Z) : MemoryManager :=
  with_counters mm (allocationSuccessCount mm) (allocationFailureCount mm)
    (totalRequestedSize mm) (wrap (totalAllocatedSize mm + n)).

Definition count_success (mm : MemoryManager) : MemoryManager :=
  with_counters mm (wrap (allocationSuccessCount mm + 1)) (allocationFailureCount mm)
    (totalRequestedSize mm) (totalAllocatedSize mm).

Definition with_tracking (mm : MemoryManager) (nid : Z) (a2h i2h i2r : gmap Z Z)
  : MemoryManager :=
  mkMemoryManager (totalMemorySize mm) (currentStrategy mm) (physicalMemory mm)
    (firstBlock mm) (freeListHead mm) nid a2h i2h i2r
    (allocationSuccessCount mm) (allocationFailureCount mm)
    (totalRequestedSize mm) (totalAllocatedSize mm).

(** ** Allocation and release.  [H] is [sizeof(BlockHeader)], fixed by the
    compiler's layout of the struct. *)
Section WithHeaderSize.

Variable H : Z.

Definition splitBlock (mm : MemoryManager) (block requestedSize : Z) : MemoryManager :=
  let remainingSize := wrap (size (header mm block) - requestedSize) in
  if remainingSize <? wrap (H + 8) then mm else
  let newBlock := block + requestedSize in
  let mm := store mm newBlock (put_size remainingSize) in
  let mm := store mm newBlock (put_is_free true) in
  let mm := store mm newBlock (put_block_id 0) in
  let mm := store mm block (put_size requestedSize) in
  addToFreeList mm newBlock.

(** The search for the physical predecessor in [coalesceBlocks];
    [iterations_left] is [maxIterations - iterations]. *)
Definition maxIterations_coalesce : nat := Z.to_nat 10000.

Fixpoint find_prev (iterations_left : nat) (mm : MemoryManager) (current block : Z)
  : option Z :=
  match iterations_left with
  | O => None
  | S k =>
      if current =? block then None else
      let currentEnd := current + size (header mm current) in
      if currentEnd =? block then Some current
      else if currentEnd <? totalMemorySize mm then find_prev k mm currentEnd block
      else None
  end.

(** First half of [coalesceBlocks]: merge with the next block in physical
    memory when there is one and it is free. *)
Definition merge_next (mm : MemoryManager) (block : Z) : MemoryManager :=
  let blockEnd := block + size (header mm block) in
  if blockEnd <? totalMemorySize mm then
    if is_free (header mm blockEnd) then
      let mm := removeFromFreeList mm blockEnd in
      store mm block
        (put_size (wrap (size (header mm block) + size (header mm blockEnd))))
    else mm
  else mm.

(** Second half of [coalesceBlocks]: absorb [block] into a free predecessor
    [p]. *)
Definition merge_into_prev (mm : MemoryManager) (p block : Z) : MemoryManager :=
  let mm := removeFromFreeList mm block in
  store mm p (put_size (wrap (size (header mm p) + size (header mm block)))).

(** [coalesceBlocks] calls itself on the predecessor it merged into;
    [fuel] bounds the depth of that recursion. *)
Fixpoint coalesceBlocks (fuel : nat) (mm : MemoryManager) (block : Z)
  : option MemoryManager :=
  match fuel with
  | O => None
  | S fuel' =>
    let mm := merge_next mm block in
    match find_prev maxIterations_coalesce mm (firstBlock mm) block with
    | Some p =>
        if is_free (header mm p)
        then coalesceBlocks fuel' (merge_into_prev mm p block) p
        else Some mm
    | None => Some mm
    end
  end.

(** The [switch] of [allocate] over the placement strategy. *)
Definition find_block (fuel : nat) (mm : MemoryManager) (requiredSize : Z)
  : option (option Z) :=
  match currentStrategy mm with
  | FIRST_FIT => findFirstFit fuel mm requiredSize
  | BEST_FIT => Some (findBestFit mm requiredSize)
  | WORST_FIT => findWorstFit fuel mm requiredSize
  end.

(** What [allocate] does with the block it found.  First, split it if it
    is large enough to leave another block. *)
Definition maybe_split (mm : MemoryManager) (block requiredSize : Z) : MemoryManager :=
  if wrap (wrap (requiredSize + H) + 8) <=? size (header mm block)
  then splitBlock mm block requiredSize else mm.

(** Then mark it allocated, give it the next id and take it off the free
    list. *)
Definition mark_allocated (mm : MemoryManager) (block : Z) : MemoryManager :=
  let mm := store mm block (put_is_free false) in
  let id := nextBlockId mm in
  let mm := store mm block (put_block_id id) in
  let mm := with_tracking mm (wrap (id + 1)) (addressToHeader mm) (idToHeader mm)
              (idToRequestedSize mm) in
  removeFromFreeList mm block.

(** Last, track the allocation and count it. *)
Definition track (mm : MemoryManager) (block sz : Z) : MemoryManager :=
  let userPtr := block + H in
  let mm := with_tracking mm (nextBlockId mm)
              (<[userPtr := block]> (addressToHeader mm))
              (<[block_id (header mm block) := block]> (idToHeader mm))
              (<[block_id (header mm block) := sz]> (idToRequestedSize mm)) in
  let mm := add_allocated mm (size (header mm block) - H) in
  count_success mm.

Definition claim_block (mm : MemoryManager) (block sz requiredSize : Z) : MemoryManager :=
  track (mark_allocated (maybe_split mm block requiredSize) block) block sz.

(** [allocate]: the user pointer, or [None] for [nullptr], and the manager
    afterwards.  The outer [option] is [None] when the placement loop is
    still running after [fuel] nodes. *)
Definition allocate (fuel : nat) (mm : MemoryManager) (sz : Z)
  : option (option Z * MemoryManager) :=
  if sz =? 0 then Some (None, count_failure mm) else
  let requiredSize := wrap (sz + H) in
  let mm := add_requested mm sz in
  match find_block fuel mm requiredSize with
  | None => None
  | Some None => Some (None, count_failure mm)
  | Some (Some block) =>
      Some (Some (block + H), claim_block mm block sz requiredSize)
  end.

Definition isValidPointer (mm : MemoryManager) (ptr : Z) : bool :=
  (0 <=? ptr) && (ptr <? totalMemorySize mm).

Definition getHeader (mm : MemoryManager) (ptr : Z) : option Z :=
  addressToHeader mm !! ptr.

(** [deallocate] by pointer, in three steps.  First the block is marked
    free, taken out of the statistics and put on the free list. *)
Definition mark_free (mm : MemoryManager) (block : Z) : MemoryManager :=
  let mm := store mm block (put_is_free true) in
  let mm := add_allocated mm (- (size (header mm block) - H)) in
  let mm := with_tracking mm (nextBlockId mm) (addressToHeader mm) (idToHeader mm)
              (delete (block_id (header mm block)) (idToRequestedSize mm)) in
  addToFreeList mm block.

(** Last, after coalescing, the block leaves the tracking maps. *)
Definition untrack (mm : MemoryManager) (ptr block : Z) : MemoryManager :=
  with_tracking mm (nextBlockId mm)
    (delete ptr (addressToHeader mm))
    (delete (block_id (header mm block)) (idToHeader mm))
    (idToRequestedSize mm).

(** The outer [option] is [None] when [coalesceBlocks] is still recursing
    after [fuel] calls. *)
Definition deallocate (fuel : nat) (mm : MemoryManager) (ptr : Z)
  : option (bool * MemoryManager) :=
  if negb (isValidPointer mm ptr) then Some (false, mm) else
  match getHeader mm ptr with
  | None => Some (false, mm)
  | Some block =>
    if is_free (header mm block) then Some (false, mm) else
    match coalesceBlocks fuel (mark_free mm block) block with
    | None => None
    | Some mm => Some (true, untrack mm ptr block)
    end
  end.

(** [deallocate] by block id. *)
Definition deallocate_id (fuel : nat) (mm : MemoryManager) (id : Z)
  : option (bool * MemoryManager) :=
  match idToHeader mm !! id with
  | None => Some (false, mm)
  | Some block => deallocate fuel mm (block + H)
  end.

(** The two overloads of [deallocate] as one call on a block reference. *)
Inductive BlockRef :=
| ByPointer (ptr : Z)
| ByBlockId (block_id : Z).

Definition deallocate_ref (fuel : nat) (mm : MemoryManager) (r : BlockRef)
  : option (bool * MemoryManager) :=
  match r with
  | ByPointer ptr => deallocate fuel mm ptr
  | ByBlockId id => deallocate_id fuel mm id
  end.

(** The reference is not known to the tracking maps: a pointer outside the
    arena or without an entry in [addressToHeader], an id without an entry
    in [idToHeader]. *)
Definition untracked (mm : MemoryManager) (r : BlockRef) : Prop :=
  match r with
  | ByPointer ptr => isValidPointer mm ptr = false \/ getHeader mm ptr = None
  | ByBlockId id =>
      match idToHeader mm !! id with
      | None => True
      | Some block =>
          isValidPointer mm (block + H) = false \/ getHeader mm (block + H) = None
      end
  end.

(** The reference leads to a header whose free flag is set. *)
Definition leads_to_free (mm : MemoryManager) (r : BlockRef) : Prop :=
  match r with
  | ByPointer ptr =>
      exists block, getHeader mm ptr = Some block /\ is_free (header mm block) = true
  | ByBlockId id =>
      exists block block',
        idToHeader mm !! id = Some block
        /\ getHeader mm (block + H) = Some block'
        /\ is_free (header mm block') = true
  end.

(** ** Observers that walk the arena *)

Definition maxIterations_walk : nat := Z.to_nat 1000.

(** The loop of [getLargestFreeBlock]; [current] is the header at
    [address], and the test at the top of the loop is also the one before
    [current] is advanced. *)
Fixpoint getLargestFreeBlock_loop (iterations_left : nat) (mm : MemoryManager)
    (address largest : Z) : Z :=
  match iterations_left with
  | O => largest
  | S k =>
      if address <? totalMemorySize mm then
        let current := header mm address in
        let largest := if is_free current && (largest <? size current)
                       then size current else largest in
        getLargestFreeBlock_loop k mm (wrap (address + size current)) largest
      else largest
  end.

Definition getLargestFreeBlock (mm : MemoryManager) : Z :=
  getLargestFreeBlock_loop maxIterations_walk mm 0 0.

(** The loop of [getExternalFragmentation], returning
    [(totalFreeUsable, largestFreeUsable)]. *)
Fixpoint getExternalFragmentation_loop (iterations_left : nat) (mm : MemoryManager)
    (address totalFreeUsable largestFreeUsable : Z) : Z * Z :=
  match iterations_left with
  | O => (totalFreeUsable, largestFreeUsable)
  | S k =>
      if address <? totalMemorySize mm then
        let current := header mm address in
        let usableSize := wrap (size current - H) in
        let totalFreeUsable :=
          if is_free current then wrap (totalFreeUsable + usableSize)
          else totalFreeUsable in
        let largestFreeUsable :=
          if is_free current && (largestFreeUsable <? usableSize)
          then usableSize else largestFreeUsable in
        getExternalFragmentation_loop k mm (wrap (address + size current))
          totalFreeUsable largestFreeUsable
      else (totalFreeUsable, largestFreeUsable)
  end.

(** The end of [getExternalFragmentation], which returns the [double]
    [externalFrag / totalMemorySize * 100]: the two [size_t] operands of
    that quotient are returned here, [(0, 1)] standing for [return 0.0]. *)
Definition fragmentation_quotient (total : Z) (acc : Z * Z) : Z * Z :=
  let '(totalFreeUsable, largestFreeUsable) := acc in
  if totalFreeUsable =? 0 then (0, 1) else
  let externalFrag := if largestFreeUsable <? totalFreeUsable
                      then wrap (totalFreeUsable - largestFreeUsable) else 0 in
  (externalFrag, total).

Definition getExternalFragmentation (mm : MemoryManager) : Z * Z :=
  if totalMemorySize mm =? 0 then (0, 1) else
  fragmentation_quotient (totalMemorySize mm)
    (getExternalFragmentation_loop maxIterations_walk mm 0 0 0).

(** [std::setw(8)] with [std::setfill('0')] in front of a number. *)
Definition hex8 (z : Z) : string :=
  let digits := hex_string z in
  (string_of_list_ascii (repeat "0"%char (8 - String.length digits)) ++ digits)%string.

Definition dump_line (address : Z) (current : BlockHeader) : string :=
  let blockSize := size current in
  ("[0x" ++ hex8 address ++ " - 0x" ++ hex8 (wrap (address + blockSize - 1)) ++ "] "
   ++ (if is_free current then "FREE"
       else "USED (id=" ++ dec_string (block_id current) ++ ", size="
            ++ dec_string (wrap (blockSize - H)) ++ " bytes)"))%string.

(** The block lines [dumpMemory] prints between its banner lines. *)
Fixpoint dumpMemory_loop (iterations_left : nat) (mm : MemoryManager) (address : Z)
  : list string :=
  match iterations_left with
  | O => []
  | S k =>
      if address <? totalMemorySize mm then
        let current := header mm address in
        dump_line address current
          :: dumpMemory_loop k mm (wrap (address + size current))
      else []
  end.

Definition dumpMemory (mm : MemoryManager) : list string :=
  dumpMemory_loop maxIterations_walk mm 0.

End WithHeaderSize.

(** ** The physical layout *)

(** Physical adjacency is offset arithmetic: the block after the one at [o]
    starts at [o + size].  [tiles mm o bs e] says the blocks at offsets [bs]
    follow one another from [o] and end exactly at [e]. *)
Inductive tiles (mm : MemoryManager) : Z -> list Z -> Z -> Prop :=
| tiles_nil o : tiles mm o [] o
| tiles_cons o bs e :
    0 < size (header mm o) ->
    tiles mm (o + size (header mm o)) bs e ->
    tiles mm o (o :: bs) e.

(** What an observer sees of a block: offset, size, free flag. *)
Definition view (mm : MemoryManager) (o : Z) : Z * Z * bool :=
  (o, size (header mm o), is_free (header mm o)).

(** The arena of [mm] consists of the blocks at offsets [bs]. *)
Definition layout (mm : MemoryManager) (bs : list Z) : Prop :=
  tiles mm 0 bs (totalMemorySize mm).

(** The same walk as a function, for at most [n] blocks. *)
Fixpoint walk (n : nat) (mm : MemoryManager) (address : Z) : list (Z * Z * bool) :=
  match n with
  | O => []
  | S k =>
      if address <? totalMemorySize mm then
        view mm address :: walk k mm (address + size (header mm address))
      else []
  end.

(** Two neighbours in a sequence of free flags are both set. *)
Fixpoint adjacent (fs : list bool) : bool :=
  match fs with
  | f1 :: ((f2 :: _) as rest) => (f1 && f2) || adjacent rest
  | _ => false
  end.

(** Two neighbouring blocks of a walk are both free. *)
Definition adjacent_free (vs : list (Z * Z * bool)) : bool :=
  adjacent (map snd vs).

Definition no_adjacent_free (mm : MemoryManager) (bs : list Z) : Prop :=
  adjacent_free (map (view mm) bs) = false.

(** The nodes of the free list, from a given node on. *)
Inductive chain (mm : MemoryManager) : option Z -> list Z -> Prop :=
| chain_nil : chain mm None []
| chain_cons c cs :
    chain mm (next (header mm c)) cs -> chain mm (Some c) (c :: cs).

(** [c] is a node of the list that starts at [p]. *)
Inductive on_list (mm : MemoryManager) : option Z -> Z -> Prop :=
| on_list_here c : on_list mm (Some c) c
| on_list_next c d : on_list mm (next (header mm c)) d -> on_list mm (Some c) d.

(** What the tiling arguments need of the arena: it starts at offset 0 and
    its size is a [size_t]. *)
Definition arena_ok (mm : MemoryManager) : Prop :=
  firstBlock mm = 0 /\ 0 <= totalMemorySize mm < size_t_modulus.

(** The layout invariant of the allocator: the blocks at [bs] tile the
    arena, no two neighbours are both free, and the headers the address map
    refers to are blocks of the tiling. *)
Definition well_formed (mm : MemoryManager) (bs : list Z) : Prop :=
  arena_ok mm /\ layout mm bs /\ no_adjacent_free mm bs
  /\ forall p b, addressToHeader mm !! p = Some b -> In b bs.

(** The free list only offers blocks of the tiling: a node whose free flag
    is set is one of [bs]. *)
Definition free_list_live (mm : MemoryManager) (bs : list Z) : Prop :=
  forall c, on_list mm (freeListHead mm) c -> is_free (header mm c) = true -> In c bs.

(** A block a placement search accepts for a required size. *)
Definition fits (mm : MemoryManager) (sz : Z) (c : Z) : bool :=
  is_free (header mm c) && (sz <=? size (header mm c)).

(** ** Notions used to state and prove the allocator's properties *)

(** The part of a header the free list does not use. *)
Definition payload (h : BlockHeader) : Z * bool * Z := (size h, is_free h, block_id h).

(** [mm'] differs from [mm] in free-list links only. *)
Definition relinked (mm mm' : MemoryManager) : Prop :=
  totalMemorySize mm' = totalMemorySize mm
  /\ firstBlock mm' = firstBlock mm
  /\ currentStrategy mm' = currentStrategy mm
  /\ nextBlockId mm' = nextBlockId mm
  /\ addressToHeader mm' = addressToHeader mm
  /\ idToHeader mm' = idToHeader mm
  /\ idToRequestedSize mm' = idToRequestedSize mm
  /\ forall o, payload (header mm' o) = payload (header mm o).

Definition headb (fs : list bool) : bool := default false (head fs).
Definition lastb (fs : list bool) : bool := default false (last fs).

Definition flags (mm : MemoryManager) (bs : list Z) : list bool :=
  map (fun o => is_free (header mm o)) bs.

(** [mm'] is [mm] with free-list links changed and the block at [x] resized
    to [v]. *)
Definition resized (mm mm' : MemoryManager) (x v : Z) : Prop :=
  totalMemorySize mm' = totalMemorySize mm
  /\ firstBlock mm' = firstBlock mm
  /\ addressToHeader mm' = addressToHeader mm
  /\ idToHeader mm' = idToHeader mm
  /\ forall o, is_free (header mm' o) = is_free (header mm o)
               /\ block_id (header mm' o) = block_id (header mm o)
               /\ size (header mm' o) = if decide (o = x) then v else size (header mm o).

(** The walk, as a check: within [n] steps it ends exactly at the end of the
    arena, over blocks of positive size. *)
Fixpoint covers (n : nat) (mm : MemoryManager) (o : Z) : bool :=
  match n with
  | O => false
  | S k =>
      if o =? totalMemorySize mm then true
      else (0 <? size (header mm o)) && (o <? totalMemorySize mm)
           && covers k mm (o + size (header mm o))
  end.

Definition offsets (vs : list (Z * Z * bool)) : list Z := map (fun v => fst (fst v)) vs.

(** The nodes of the free list, by at most [n] steps along [next]. *)
Fixpoint chain_of (n : nat) (mm : MemoryManager) (p : option Z) : option (list Z) :=
  match p with
  | None => Some []
  | Some c =>
    match n with
    | O => None
    | S k => option_map (cons c) (chain_of k mm (next (header mm c)))
    end
  end.

(** A list of offsets as a lookup table. *)
Definition table_of (l : list Z) : gmap Z unit :=
  fold_right (fun x m => <[x := tt]> m) ∅ l.

Definition listed (m : gmap Z unit) (x : Z) : bool :=
  match m !! x with Some _ => true | None => false end.

(** [well_formed] and [free_list_live], as a check on a concrete manager. *)
Definition check_arena (n : nat) (mm : MemoryManager) : bool :=
  let bs := table_of (offsets (walk n mm 0)) in
  (firstBlock mm =? 0) && (0 <=? totalMemorySize mm)
  && (totalMemorySize mm <? size_t_modulus)
  && covers n mm 0
  && negb (adjacent_free (walk n mm 0))
  && forallb (fun pb => listed bs (snd pb)) (map_to_list (addressToHeader mm))
  && match chain_of n mm (freeListHead mm) with
     | Some cs => forallb (fun c => negb (is_free (header mm c)) || listed bs c) cs
     | None => false
     end.

Definition largest_step (largest : Z) (v : Z * Z * bool) : Z :=
  let '(_, sz, free) := v in if free && (largest <? sz) then sz else largest.

(** What [getLargestFreeBlock] makes of the blocks it visits. *)
Definition largest_of (vs : list (Z * Z * bool)) : Z := fold_left largest_step vs 0.

Definition best_step (mm : MemoryManager) (sz : Z) (best : option Z) (c : Z) : option Z :=
  if fits mm sz c && better mm best c then Some c else best.

(** What [findBestFit] makes of the nodes it visits. *)
Definition best_of (mm : MemoryManager) (sz : Z) (cs : list Z) : option Z :=
  fold_left (best_step mm sz) cs None.

(** ** The free list as a list of nodes *)

(** The node after [o] in the list [cs], and the node before it. *)
Fixpoint succ_in (cs : list Z) (o : Z) : option Z :=
  match cs with
  | [] => None
  | c :: rest => if decide (c = o) then head rest else succ_in rest o
  end.

Fixpoint pred_in (cs : list Z) (o : Z) : option Z :=
  match cs with
  | [] => None
  | c :: rest => if decide (head rest = Some o) then Some c else pred_in rest o
  end.

(** [cs] without its node [c]. *)
Fixpoint without (c : Z) (cs : list Z) : list Z :=
  match cs with
  | [] => []
  | x :: rest => if decide (x = c) then rest else x :: without c rest
  end.

(** The free list of [mm] is the doubly linked list of the nodes [cs], and
    no header outside it has a link set. *)
Definition linked (mm : MemoryManager) (cs : list Z) : Prop :=
  freeListHead mm = head cs /\ List.NoDup cs
  /\ forall o, next (header mm o) = succ_in cs o /\ prev (header mm o) = pred_in cs o.

(** The arena is tiled by [bs], and the free list is the doubly linked list
    [cs] of exactly the free blocks of the tiling. *)
Definition coherent (mm : MemoryManager) (bs cs : list Z) : Prop :=
  arena_ok mm /\ layout mm bs /\ linked mm cs
  /\ forall c, In c cs <-> In c bs /\ is_free (header mm c) = true.

(** The block at [x] absorbs its free successor [y]: [y] leaves the free
    list and [x] grows by its size. *)
Definition absorb (mm : MemoryManager) (x y : Z) : MemoryManager :=
  let mm := removeFromFreeList mm y in
  store mm x (put_size (wrap (size (header mm x) + size (header mm y)))).

Section NotionsWithHeaderSize.

Variable H : Z.

(** The blocks of [mm'] are those of [mm] with [b] allocated, and, when
    [split] is given, [b] cut down to [r] bytes with a new free block behind
    it. *)
Definition claimed (mm mm' : MemoryManager) (b r : Z) (split : bool) : Prop :=
  totalMemorySize mm' = totalMemorySize mm
  /\ firstBlock mm' = firstBlock mm
  /\ addressToHeader mm' = <[b + H := b]> (addressToHeader mm)
  /\ forall o,
       size (header mm' o)
       = (if split then
            if decide (o = b) then r
            else if decide (o = b + r) then size (header mm b) - r
            else size (header mm o)
          else size (header mm o))
       /\ is_free (header mm' o)
          = (if decide (o = b) then false
             else if split && bool_decide (o = b + r) then true
             else is_free (header mm o)).

Definition frag_step (acc : Z * Z) (v : Z * Z * bool) : Z * Z :=
  let '(_, sz, free) := v in
  let usableSize := wrap (sz - H) in
  (if free then wrap (fst acc + usableSize) else fst acc,
   if free && (snd acc <? usableSize) then usableSize else snd acc).

(** What [getExternalFragmentation] accumulates over the blocks it visits. *)
Definition frag_of (vs : list (Z * Z * bool)) : Z * Z := fold_left frag_step vs (0, 0).

(** What the address map holds: headers of blocks of the tiling, each under
    its user address and allocated, or the first block. *)
Definition tracked (mm : MemoryManager) (bs : list Z) : Prop :=
  forall p b, addressToHeader mm !! p = Some b ->
    In b bs /\ (b = 0 \/ (p = b + H /\ is_free (header mm b) = false)).

(** The invariant of the allocator. *)
Definition consistent (mm : MemoryManager) (bs cs : list Z) : Prop :=
  coherent mm bs cs /\ no_adjacent_free mm bs /\ tracked mm bs.

End NotionsWithHeaderSize.

(** ** Sessions: a sequence of calls on one manager *)

Inductive Request :=
| Malloc (n : Z)
| Free (r : BlockRef)
| SetAllocator (s : AllocationStrategy).

Definition serve (H : Z) (fuel : nat) (mm : MemoryManager) (rq : Request)
  : option MemoryManager :=
  match rq with
  | Malloc n => snd <$> allocate H fuel mm n
  | Free r => snd <$> deallocate_ref H fuel mm r
  | SetAllocator s => Some (setAllocationStrategy mm s)
  end.

Fixpoint serve_all (H : Z) (fuel : nat) (mm : MemoryManager) (rqs : list Request)
  : option MemoryManager :=
  match rqs with
  | [] => Some mm
  | rq :: rest => mm' ← serve H fuel mm rq; serve_all H fuel mm' rest
  end.

(** The size asked for plus the header fits a [size_t]. *)
Definition in_range (H : Z) (rq : Request) : Prop :=
  match rq with
  | Malloc n => 0 <= n /\ n + H < size_t_modulus
  | _ => True
  end.

(** ** Further notions: best and worst fit, bookkeeping *)

Definition worst_step (mm : MemoryManager) (sz : Z) (worst : option Z) (c : Z) : option Z :=
  if fits mm sz c && worse mm worst c then Some c else worst.

(** What [findWorstFit] makes of the nodes it visits. *)
Definition worst_of (mm : MemoryManager) (sz : Z) (cs : list Z) : option Z :=
  fold_left (worst_step mm sz) cs None.

(** [mm'] differs from [mm] in free-list links and in block sizes only. *)
Definition kept (mm mm' : MemoryManager) : Prop :=
  totalMemorySize mm' = totalMemorySize mm
  /\ firstBlock mm' = firstBlock mm
  /\ currentStrategy mm' = currentStrategy mm
  /\ nextBlockId mm' = nextBlockId mm
  /\ addressToHeader mm' = addressToHeader mm
  /\ idToHeader mm' = idToHeader mm
  /\ idToRequestedSize mm' = idToRequestedSize mm
  /\ allocationSuccessCount mm' = allocationSuccessCount mm
  /\ allocationFailureCount mm' = allocationFailureCount mm
  /\ totalRequestedSize mm' = totalRequestedSize mm
  /\ totalAllocatedSize mm' = totalAllocatedSize mm
  /\ forall o, is_free (header mm' o) = is_free (header mm o)
               /\ block_id (header mm' o) = block_id (header mm o).

(** The part of a manager the tracking of blocks does not use. *)
Definition same_books (mm mm' : MemoryManager) : Prop :=
  totalMemorySize mm' = totalMemorySize mm
  /\ firstBlock mm' = firstBlock mm
  /\ currentStrategy mm' = currentStrategy mm
  /\ nextBlockId mm' = nextBlockId mm
  /\ addressToHeader mm' = addressToHeader mm
  /\ idToHeader mm' = idToHeader mm
  /\ idToRequestedSize mm' = idToRequestedSize mm
  /\ allocationSuccessCount mm' = allocationSuccessCount mm
  /\ allocationFailureCount mm' = allocationFailureCount mm
  /\ totalRequestedSize mm' = totalRequestedSize mm.

Section AccountingWithHeaderSize.

Variable H : Z.

(** The three maps hold exactly the allocated blocks of the tiling: each
    under its id and its user address, with the size it was asked for;
    only the first block may also be found under the arena's base. *)
Definition accounted (mm : MemoryManager) (bs : list Z) : Prop :=
  (forall id b, idToHeader mm !! id = Some b ->
     In b bs /\ is_free (header mm b) = false /\ block_id (header mm b) = id
     /\ 0 < id < nextBlockId mm)
  /\ (forall b, In b bs -> is_free (header mm b) = false ->
        idToHeader mm !! block_id (header mm b) = Some b
        /\ addressToHeader mm !! (b + H) = Some b
        /\ exists n, idToRequestedSize mm !! block_id (header mm b) = Some n
             /\ 0 < n /\ n + H <= size (header mm b) < n + H + (H + 8))
  /\ (forall p b, addressToHeader mm !! p = Some b -> p = b + H \/ (p = 0 /\ b = 0))
  /\ 0 < nextBlockId mm.

End AccountingWithHeaderSize.

(** ** Observers over the tracking maps *)

(** A [std::map] is iterated in increasing key order. *)
Definition key_le (x y : Z * Z) : Prop := fst x <= fst y.

#[global] Instance key_le_dec : RelDecision key_le := fun x y => Z_le_dec (fst x) (fst y).

Definition in_key_order (m : gmap Z Z) : list (Z * Z) :=
  merge_sort key_le (map_to_list m).

Definition getTotalMemory (mm : MemoryManager) : Z := totalMemorySize mm.

(** The body of the loop of [getUsedMemory]. *)
Definition used_step (mm : MemoryManager) (used : Z) (pair : Z * Z) : Z :=
  let block := header mm (snd pair) in
  if negb (is_free block) then wrap (used + size block) else used.

Definition getUsedMemory (mm : MemoryManager) : Z :=
  fold_left (used_step mm) (in_key_order (idToHeader mm)) 0.

(** The subtraction is not reached with [used] above the total. *)
Definition getFreeMemory (mm : MemoryManager) : Z :=
  let used := getUsedMemory mm in
  if totalMemorySize mm <? used then 0 else totalMemorySize mm - used.

(** [getMemoryUtilization] returns the [double]
    [getUsedMemory() / totalMemorySize * 100]; the two [size_t] operands of
    the quotient are returned here, [(0, 1)] standing for [return 0.0]. *)
Definition getMemoryUtilization (mm : MemoryManager) : Z * Z :=
  if totalMemorySize mm =? 0 then (0, 1) else (getUsedMemory mm, totalMemorySize mm).

Definition getAllocationSuccessCount (mm : MemoryManager) : Z := allocationSuccessCount mm.
Definition getAllocationFailureCount (mm : MemoryManager) : Z := allocationFailureCount mm.

Record BlockInfo := mkBlockInfo {
  info_block_id : Z;
  info_address : Z;
  info_size : Z;
  info_is_free : bool
}.

(** Sum of [f] over a list of blocks. *)
Definition total_of (f : Z -> Z) (bs : list Z) : Z := fold_right (fun b acc => f b + acc) 0 bs.

Definition used_size (mm : MemoryManager) (b : Z) : Z :=
  if is_free (header mm b) then 0 else size (header mm b).

Definition free_size (mm : MemoryManager) (b : Z) : Z :=
  if is_free (header mm b) then size (header mm b) else 0.

Section Observers.

Variable H : Z.

Definition getAllBlocks (mm : MemoryManager) : list BlockInfo :=
  map (fun pair : Z * Z =>
         let hd := snd pair in
         mkBlockInfo (block_id (header mm hd)) (hd + H) (wrap (size (header mm hd) - H))
           (is_free (header mm hd)))
    (in_key_order (idToHeader mm)).

(** [info] is left uninitialised when the pointer has no header: there is
    no [BlockInfo] to speak of then. *)
Definition getBlockInfo (mm : MemoryManager) (ptr : Z) : option BlockInfo :=
  match getHeader mm ptr with
  | Some hd =>
      Some (mkBlockInfo (block_id (header mm hd)) ptr (wrap (size (header mm hd) - H))
              (is_free (header mm hd)))
  | None => None
  end.

(** The loop of [getInternalFragmentation], returning
    [(totalAllocated, totalRequested)]. *)
Definition internal_step (mm : MemoryManager) (acc : Z * Z) (pair : Z * Z) : Z * Z :=
  let block := header mm (snd pair) in
  if negb (is_free block) then
    let usableSize := wrap (size block - H) in
    (wrap (fst acc + usableSize),
     match idToRequestedSize mm !! block_id block with
     | Some requested => wrap (snd acc + requested)
     | None => snd acc
     end)
  else acc.

(** [getInternalFragmentation] returns the [double]
    [wasted / totalAllocated * 100]: its two [size_t] operands are returned
    here, [(0, 1)] standing for [return 0.0]. *)
Definition getInternalFragmentation (mm : MemoryManager) : Z * Z :=
  let '(totalAllocated, totalRequested) :=
    fold_left (internal_step mm) (in_key_order (idToHeader mm)) (0, 0) in
  if totalAllocated =? 0 then (0, 1)
  else (wrap (totalAllocated - totalRequested), totalAllocated).

End Observers.

Definition is_malloc (rq : Request) : bool :=
  match rq with Malloc _ => true | _ => false end.

(** Number of [allocate] calls of a session. *)
Definition mallocs (rqs : list Request) : nat := length (List.filter is_malloc rqs).

End Allocator.

(** * The command line's block bookkeeping ([main.cpp]) *)
Module CLI.
Import Allocator.

Record MemorySimulatorCLI := mkCLI {
  memoryManager : MemoryManager;
  nextBlockId : Z;
  blockIdToAddress : gmap Z Z;
  addressToBlockId : gmap Z Z
}.

Section WithHeaderSize.

Variable H : Z.

(** [init memory <size>]. *)
Definition handleInit (sz : Z) : MemorySimulatorCLI :=
  mkCLI (new_MemoryManager sz FIRST_FIT) 1 ∅ ∅.

(** [set allocator <strategy>]. *)
Definition handleSet (cli : MemorySimulatorCLI) (s : AllocationStrategy) : MemorySimulatorCLI :=
  mkCLI (setAllocationStrategy (memoryManager cli) s) (nextBlockId cli)
    (blockIdToAddress cli) (addressToBlockId cli).

(** [malloc <size>]: the id and address printed on success. *)
Definition handleMalloc (fuel : nat) (cli : MemorySimulatorCLI) (sz : Z)
  : option (option (Z * Z) * MemorySimulatorCLI) :=
  match allocate H fuel (memoryManager cli) sz with
  | None => None
  | Some (Some ptr, mm) =>
      let blockId := nextBlockId cli in
      Some (Some (blockId, ptr),
            mkCLI mm (wrap (blockId + 1))
              (<[blockId := ptr]> (blockIdToAddress cli))
              (<[ptr := blockId]> (addressToBlockId cli)))
  | Some (None, mm) =>
      Some (None, mkCLI mm (nextBlockId cli) (blockIdToAddress cli) (addressToBlockId cli))
  end.

(** [free <block_id>]. *)
Definition handleFree (fuel : nat) (cli : MemorySimulatorCLI) (blockId : Z)
  : option (bool * MemorySimulatorCLI) :=
  match blockIdToAddress cli !! blockId with
  | None => Some (false, cli)
  | Some ptr =>
    match deallocate H fuel (memoryManager cli) ptr with
    | None => None
    | Some (true, mm) =>
        Some (true, mkCLI mm (nextBlockId cli)
                      (delete blockId (blockIdToAddress cli))
                      (delete ptr (addressToBlockId cli)))
    | Some (false, mm) =>
        Some (false, mkCLI mm (nextBlockId cli) (blockIdToAddress cli) (addressToBlockId cli))
    end
  end.

End WithHeaderSize.

(** *** A session of commands *)

(** The commands on the allocator, with their arguments parsed. *)
Inductive Command :=
| CmdMalloc (size : Z)
| CmdFree (blockId : Z)
| CmdSet (s : AllocationStrategy).

Definition execute (H : Z) (fuel : nat) (cli : MemorySimulatorCLI) (cmd : Command)
  : option MemorySimulatorCLI :=
  match cmd with
  | CmdMalloc n => snd <$> handleMalloc H fuel cli n
  | CmdFree id => snd <$> handleFree H fuel cli id
  | CmdSet s => Some (handleSet cli s)
  end.

(** The loop of [run], over the commands read. *)
Fixpoint execute_all (H : Z) (fuel : nat) (cli : MemorySimulatorCLI) (cmds : list Command)
  : option MemorySimulatorCLI :=
  match cmds with
  | [] => Some cli
  | cmd :: rest => cli' ← execute H fuel cli cmd; execute_all H fuel cli' rest
  end.

Definition command_in_range (H : Z) (cmd : Command) : Prop :=
  match cmd with
  | CmdMalloc n => 0 <= n /\ n + H < size_t_modulus
  | _ => True
  end.

(** The ids and addresses the command line remembers are those of the
    manager. *)
Definition in_step (H : Z) (cli : MemorySimulatorCLI) : Prop :=
  nextBlockId cli = Allocator.nextBlockId (memoryManager cli)
  /\ forall id p, blockIdToAddress cli !! id = Some p
                  <-> exists b, idToHeader (memoryManager cli) !! id = Some b /\ p = b + H.

End CLI.

(** * The statistics ([stats/StatsManager.cpp]) *)
Module Stats.

(** The [double] members hold quotients; as for the allocator's observers
    the two operands are kept, [(0, 1)] standing for [0.0]. *)
Record StatsManager := mkStatsManager {
  totalAllocations : Z;
  successfulAllocations : Z;
  failedAllocations : Z;
  internalFragmentation : Z * Z;
  externalFragmentation : Z * Z;
  memoryUtilization : Z * Z;
  totalMemory : Z;
  usedMemory : Z;
  freeMemory : Z;
  l1CacheHits : Z;
  l1CacheMisses : Z;
  l2CacheHits : Z;
  l2CacheMisses : Z;
  pageFaults : Z;
  pageHits : Z
}.

Definition new_StatsManager : StatsManager :=
  mkStatsManager 0 0 0 (0, 1) (0, 1) (0, 1) 0 0 0 0 0 0 0 0 0.

Definition with_allocations (st : StatsManager) (total ok failed : Z) : StatsManager :=
  mkStatsManager total ok failed
    (internalFragmentation st) (externalFragmentation st) (memoryUtilization st)
    (totalMemory st) (usedMemory st) (freeMemory st)
    (l1CacheHits st) (l1CacheMisses st) (l2CacheHits st) (l2CacheMisses st)
    (pageFaults st) (pageHits st).

Definition with_cache (st : StatsManager) (h1 m1 h2 m2 : Z) : StatsManager :=
  mkStatsManager (totalAllocations st) (successfulAllocations st) (failedAllocations st)
    (internalFragmentation st) (externalFragmentation st) (memoryUtilization st)
    (totalMemory st) (usedMemory st) (freeMemory st)
    h1 m1 h2 m2 (pageFaults st) (pageHits st).

Definition with_pages (st : StatsManager) (faults hits : Z) : StatsManager :=
  mkStatsManager (totalAllocations st) (successfulAllocations st) (failedAllocations st)
    (internalFragmentation st) (externalFragmentation st) (memoryUtilization st)
    (totalMemory st) (usedMemory st) (freeMemory st)
    (l1CacheHits st) (l1CacheMisses st) (l2CacheHits st) (l2CacheMisses st)
    faults hits.

(** The [size] argument is not used. *)
Definition logMemoryAllocation (st : StatsManager) (size : Z) (success : bool)
  : StatsManager :=
  let total := wrap (totalAllocations st + 1) in
  if success
  then with_allocations st total (wrap (successfulAllocations st + 1)) (failedAllocations st)
  else with_allocations st total (successfulAllocations st) (wrap (failedAllocations st + 1)).

Definition logCacheAccess (st : StatsManager) (level : Z) (hit : bool) : StatsManager :=
  if level =? 1 then
    if hit
    then with_cache st (wrap (l1CacheHits st + 1)) (l1CacheMisses st)
           (l2CacheHits st) (l2CacheMisses st)
    else with_cache st (l1CacheHits st) (wrap (l1CacheMisses st + 1))
           (l2CacheHits st) (l2CacheMisses st)
  else if level =? 2 then
    if hit
    then with_cache st (l1CacheHits st) (l1CacheMisses st)
           (wrap (l2CacheHits st + 1)) (l2CacheMisses st)
    else with_cache st (l1CacheHits st) (l1CacheMisses st)
           (l2CacheHits st) (wrap (l2CacheMisses st + 1))
  else st.

Definition logPageFault (st : StatsManager) : StatsManager :=
  with_pages st (wrap (pageFaults st + 1)) (pageHits st).

Definition logPageHit (st : StatsManager) : StatsManager :=
  with_pages st (pageFaults st) (wrap (pageHits st + 1)).

Definition setCacheStats (st : StatsManager) (l1Hits l1Misses l2Hits l2Misses : Z)
  : StatsManager :=
  with_cache st l1Hits l1Misses l2Hits l2Misses.

Definition setFragmentationMetrics (st : StatsManager) (internal external utilization : Z * Z)
  : StatsManager :=
  mkStatsManager (totalAllocations st) (successfulAllocations st) (failedAllocations st)
    internal external utilization
    (totalMemory st) (usedMemory st) (freeMemory st)
    (l1CacheHits st) (l1CacheMisses st) (l2CacheHits st) (l2CacheMisses st)
    (pageFaults st) (pageHits st).

Definition setMemoryStats (st : StatsManager) (total used free : Z) : StatsManager :=
  mkStatsManager (totalAllocations st) (successfulAllocations st) (failedAllocations st)
    (internalFragmentation st) (externalFragmentation st) (memoryUtilization st)
    total used free
    (l1CacheHits st) (l1CacheMisses st) (l2CacheHits st) (l2CacheMisses st)
    (pageFaults st) (pageHits st).

(** The calls a client can make on the statistics. *)
Inductive StatsCall :=
| LogMemoryAllocation (size : Z) (success : bool)
| LogCacheAccess (level : Z) (hit : bool)
| LogPageFault
| LogPageHit
| SetCacheStats (l1Hits l1Misses l2Hits l2Misses : Z)
| SetFragmentationMetrics (internal external utilization : Z * Z)
| SetMemoryStats (total used free : Z).

Definition log_call (st : StatsManager) (call : StatsCall) : StatsManager :=
  match call with
  | LogMemoryAllocation size success => logMemoryAllocation st size success
  | LogCacheAccess level hit => logCacheAccess st level hit
  | LogPageFault => logPageFault st
  | LogPageHit => logPageHit st
  | SetCacheStats h1 m1 h2 m2 => setCacheStats st h1 m1 h2 m2
  | SetFragmentationMetrics i e u => setFragmentationMetrics st i e u
  | SetMemoryStats t u f => setMemoryStats st t u f
  end.

Definition log_calls (st : StatsManager) (calls : list StatsCall) : StatsManager :=
  fold_left log_call calls st.

(** Number of calls of a kind. *)
Definition count (p : StatsCall -> bool) (calls : list StatsCall) : Z :=
  Z.of_nat (length (List.filter p calls)).

Definition is_allocation (ok : bool) (call : StatsCall) : bool :=
  match call with
  | LogMemoryAllocation _ success => eqb success ok
  | _ => false
  end.

Definition is_page (hit : bool) (call : StatsCall) : bool :=
  match call with
  | LogPageFault => negb hit
  | LogPageHit => hit
  | _ => false
  end.

End Stats.

(** * Sessions used as examples *)
Module Sessions.
Import Allocator CLI.

(** The usage example of the README and scenario 1 of the specification,
    with the answers of the four commands and the final layout:
    [init memory 4096], [set allocator best_fit], [malloc 100],
    [malloc 200], [free 1], [malloc 50]. *)
Definition readme_session (H : Z)
  : option (option (Z * Z) * option (Z * Z) * bool * option (Z * Z)
            * list (Z * Z * bool)) :=
  let cli := handleSet (handleInit 4096) BEST_FIT in
  '(r1, cli) ← handleMalloc H 8 cli 100;
  '(r2, cli) ← handleMalloc H 8 cli 200;
  '(r3, cli) ← handleFree H 8 cli 1;
  '(r4, cli) ← handleMalloc H 8 cli 50;
  Some (r1, r2, r3, r4, walk 8 (memoryManager cli) 0).

Definition empty_manager : MemoryManager := new_MemoryManager 0 FIRST_FIT.

(** One allocation of 100 bytes in a fresh arena of 4096 bytes. *)
Definition one_block (H : Z) : MemoryManager :=
  default empty_manager
    ('(_, mm) ← allocate H 8 (new_MemoryManager 4096 FIRST_FIT) 100; Some mm).

(** Three allocations of 100 bytes under first fit, then the first and the
    third released: the free list then starts with the higher block. *)
Definition holes (H : Z) : MemoryManager :=
  default empty_manager
    ('(_, mm) ← allocate H 8 (new_MemoryManager 4096 FIRST_FIT) 100;
     '(_, mm) ← allocate H 8 mm 100;
     '(_, mm) ← allocate H 8 mm 100;
     '(_, mm) ← deallocate_ref H 8 mm (ByBlockId 1);
     '(_, mm) ← deallocate_ref H 8 mm (ByBlockId 3);
     Some mm).

(** [k] successful allocations of [sz] bytes in a row. *)
Fixpoint allocate_many (H : Z) (k : nat) (sz : Z) (mm : MemoryManager)
  : option MemoryManager :=
  match k with
  | O => Some mm
  | S k' =>
      match allocate H 1 mm sz with
      | Some (Some _, mm') => allocate_many H k' sz mm'
      | _ => None
      end
  end.

(** An arena of a million bytes after 10002 one-byte allocations
    ([init memory 1000000], then [malloc 1] 10002 times) and the release of
    block 10001, the block with 10000 predecessors. *)
Definition crowded (H : Z) : option MemoryManager :=
  mm ← allocate_many H (Z.to_nat 10002) 1 (new_MemoryManager 1000000 FIRST_FIT);
  '(_, mm) ← deallocate_ref H 2 mm (ByBlockId 10001);
  Some mm.

(** What is checked of the release of block 10002 in the crowded arena:
    the arena was well formed before, the release succeeds, and afterwards
    the arena is still tiled but has two free neighbours. *)
Definition crowded_release_check (H : Z) : bool :=
  match crowded H with
  | None => false
  | Some mm =>
      check_arena (Z.to_nat 10010) mm
      && match deallocate_ref H 2 mm (ByBlockId 10002) with
         | Some (true, mm') =>
             covers (Z.to_nat 10010) mm' 0
             && adjacent_free (walk (Z.to_nat 10010) mm' 0)
         | _ => false
         end
  end.

(** The crowded arena after that release, under best fit. *)
Definition crowded_best_fit (H : Z) : option MemoryManager :=
  mm ← crowded H;
  '(_, mm) ← deallocate_ref H 2 mm (ByBlockId 10002);
  Some (setAllocationStrategy mm BEST_FIT).

Definition views_eqb (v w : list (Z * Z * bool)) : bool :=
  bool_decide (v = w).

(** What is checked of [malloc 1] directly followed by the release of the
    block returned, in that arena: both succeed, the arena is tiled before
    and after, and the two layouts differ. *)
Definition crowded_roundtrip_check (H : Z) : bool :=
  match crowded_best_fit H with
  | None => false
  | Some mm =>
      match allocate H 4 mm 1 with
      | Some (Some ptr, mm1) =>
          match deallocate_ref H 2 mm1 (ByPointer ptr) with
          | Some (true, mm2) =>
              covers (Z.to_nat 10010) mm 0 && covers (Z.to_nat 10010) mm2 0
              && negb (views_eqb (walk (Z.to_nat 10010) mm 0)
                                 (walk (Z.to_nat 10010) mm2 0))
          | _ => false
          end
      | _ => false
      end
  end.

(** The requests of the README's usage example. *)
Definition short_session : list Request :=
  [Malloc 100; Malloc 200; Free (ByBlockId 1); Malloc 50].

(** The same session with both blocks released at the end. *)
Definition emptied_session : list Request :=
  [Malloc 100; Malloc 200; Free (ByBlockId 1); Free (ByBlockId 2)].

(** The state a session leaves a fresh arena of 4096 bytes in. *)
Definition served (H : Z) (rqs : list Request) : MemoryManager :=
  default empty_manager (serve_all H 8 (new_MemoryManager 4096 FIRST_FIT) rqs).

(** The README's commands. *)
Definition short_commands : list Command :=
  [CmdSet BEST_FIT; CmdMalloc 100; CmdMalloc 200; CmdFree 1; CmdMalloc 50].

End Sessions.

(** * Properties *)

(** ** Machine words *)

Lemma wrap_small z : 0 <= z < size_t_modulus -> wrap z = z.
Proof. intros Hz. unfold wrap. now apply Z.mod_small. Qed.

Lemma wrap_range z : 0 <= wrap z < size_t_modulus.
Proof. unfold wrap. apply Z.mod_pos_bound. reflexivity. Qed.

Lemma size_t_modulus_eq : size_t_modulus = 18446744073709551616.
Proof. reflexivity. Qed.

(** ** The cache hierarchy *)
Module CacheFacts.
Import Cache.

Lemma find_index_from_Some {A} (p : A -> bool) l k i :
  find_index_from p l k = Some i ->
  (k <= i)%nat /\ exists x, l !! (i - k)%nat = Some x /\ p x = true
  /\ forall j y, (j < i - k)%nat -> l !! j = Some y -> p y = false.
Proof.
  revert k. induction l as [|x l IH]; intros k H; simpl in H; [discriminate|].
  destruct (p x) eqn:Hp.
  - injection H as <-. split; [lia|]. exists x. rewrite Nat.sub_diag.
    split; [reflexivity|]. split; [assumption|]. intros j y Hj; lia.
  - apply IH in H as (Hk & y & Hy & Hpy & Hbefore).
    split; [lia|]. exists y.
    replace (i - k)%nat with (S (i - S k)) by lia.
    split; [exact Hy|]. split; [exact Hpy|].
    intros [|j] z Hj Hz; simpl in Hz.
    + injection Hz as <-. exact Hp.
    + apply (Hbefore j); [lia|exact Hz].
Qed.

Lemma find_index_Some {A} (p : A -> bool) l i :
  find_index p l = Some i ->
  exists x, l !! i = Some x /\ p x = true
  /\ forall j y, (j < i)%nat -> l !! j = Some y -> p y = false.
Proof.
  intros H. apply find_index_from_Some in H as (_ & x & Hx).
  rewrite Nat.sub_0_r in Hx. eauto.
Qed.

Lemma find_index_from_None {A} (p : A -> bool) l k :
  find_index_from p l k = None -> forall j y, l !! j = Some y -> p y = false.
Proof.
  revert k. induction l as [|x l IH]; intros k H j y Hy; [discriminate|].
  simpl in H. destruct (p x) eqn:Hp; [discriminate|].
  destruct j as [|j]; simpl in Hy.
  - now injection Hy as <-.
  - eapply IH; eauto.
Qed.

Lemma find_index_None {A} (p : A -> bool) l :
  find_index p l = None -> forall j y, l !! j = Some y -> p y = false.
Proof. apply find_index_from_None. Qed.

Lemma scan_min_range key bs i v best :
  scan_min key bs i v best = v
  \/ (i <= scan_min key bs i v best < i + length bs)%nat.
Proof.
  revert i v best. induction bs as [|b bs IH]; intros i v best; simpl; [now left|].
  destruct (key b <? best).
  - destruct (IH (S i) i (key b)) as [-> | H]; right; lia.
  - destruct (IH (S i) v best) as [-> | H]; [now left | right; lia].
Qed.

Lemma findVictimLRU_lt s :
  (0 < length (blocks s))%nat -> (fst (findVictimLRU s) < length (blocks s))%nat.
Proof.
  unfold findVictimLRU. simpl. destruct (blocks s) as [|b0 rest]; simpl; [lia|].
  intros _. destruct (scan_min_range last_access rest 1 0 (last_access b0)) as [-> | H]; lia.
Qed.

Lemma findVictimLFU_lt s :
  (0 < length (blocks s))%nat -> (findVictimLFU s < length (blocks s))%nat.
Proof.
  unfold findVictimLFU. destruct (blocks s) as [|b0 rest]; simpl; [lia|].
  intros _. destruct (scan_min_range access_count rest 1 0 (access_count b0)) as [-> | H]; lia.
Qed.

Lemma findVictimFIFO_spec s :
  (0 < length (blocks s))%nat ->
  (forall x, In x (fifoQueue s) -> (x < length (blocks s))%nat) ->
  (fst (findVictimFIFO s) < length (blocks s))%nat
  /\ forall x, In x (fifoQueue (snd (findVictimFIFO s))) -> (x < length (blocks s))%nat.
Proof.
  intros Hpos Hq. unfold findVictimFIFO. simpl.
  set (q := match fifoQueue s with [] => seq 0 (length (blocks s)) | _ => fifoQueue s end).
  assert (Hq' : forall x, In x q -> (x < length (blocks s))%nat).
  { subst q. destruct (fifoQueue s) eqn:E; [|exact Hq].
    intros x Hx. apply in_seq in Hx. lia. }
  assert (Hne : q <> []).
  { subst q. destruct (fifoQueue s) eqn:E; [|discriminate].
    destruct (length (blocks s)); [lia|discriminate]. }
  destruct q as [|v q']; [congruence|]. simpl. split.
  - apply Hq'. now left.
  - intros x Hx. apply in_app_or in Hx as [Hx | [<- | []]]; apply Hq'; simpl; auto.
Qed.

(** **** Victim selection *)

Lemma select_victim_spec T l s idx r v s' l' r' :
  set_ok T s ->
  select_victim l s idx r = (v, s', l', r') ->
  blocks s' = blocks s /\ associativity s' = associativity s
  /\ (forall x, In x (fifoQueue s') -> (x < length (blocks s))%nat)
  /\ exists b, blocks s !! v = Some b
     /\ ((valid b = false /\ r' = r /\ l' = l)
         \/ (valid b = true
             /\ (forall j y, blocks s !! j = Some y -> valid y = true)
             /\ r' = push_event r (eviction_event l (tag b) idx)
             /\ l' = set_evictions l (wrap (evictions l + 1)))).
Proof.
  intros (Hlen & Hpos & Hq & _ & _) H. unfold select_victim in H.
  destruct (find_index (fun b => negb (valid b)) (blocks s)) as [i|] eqn:Hfind; simpl in H.
  - apply find_index_Some in Hfind as (b & Hb & Hinv & _).
    assert (Hi : (i < length (blocks s))%nat) by (apply lookup_lt_is_Some; eauto).
    destruct (Nat.eqb_spec i (associativity s)) as [E|_]; [lia|].
    injection H as <- <- <- <-. repeat split; auto.
    exists b. split; [exact Hb|]. left. simpl in Hinv.
    destruct (valid b); [discriminate Hinv|auto].
  - rewrite Nat.eqb_refl in H.
    assert (Hall : forall j y, blocks s !! j = Some y -> valid y = true).
    { intros j y Hy. pose proof (find_index_None _ _ Hfind j y Hy) as Hn.
      simpl in Hn. destruct (valid y); [reflexivity|discriminate Hn]. }
    assert (Hlenpos : (0 < length (blocks s))%nat) by lia.
    assert (Hgoal : forall w sw,
      (w < length (blocks s))%nat -> blocks sw = blocks s ->
      associativity sw = associativity s ->
      (forall x, In x (fifoQueue sw) -> (x < length (blocks s))%nat) ->
      (w, sw, set_evictions l (wrap (evictions l + 1)),
       push_event r (eviction_event (set_evictions l (wrap (evictions l + 1)))
                       (tag (nth w (blocks sw) empty_block)) idx)) = (v, s', l', r') ->
      blocks s' = blocks s /\ associativity s' = associativity s
      /\ (forall x, In x (fifoQueue s') -> (x < length (blocks s))%nat)
      /\ exists b, blocks s !! v = Some b
         /\ ((valid b = false /\ r' = r /\ l' = l)
             \/ (valid b = true
                 /\ (forall j y, blocks s !! j = Some y -> valid y = true)
                 /\ r' = push_event r (eviction_event l (tag b) idx)
                 /\ l' = set_evictions l (wrap (evictions l + 1))))).
    { intros w sw Hw Hbl Has Hqw E. injection E as <- <- <- <-.
      repeat split; auto.
      destruct (lookup_lt_is_Some_2 (blocks s) w Hw) as [b Hb].
      exists b. split; [exact Hb|]. right. split; [eapply Hall; eauto|].
      split; [exact Hall|]. split; [|reflexivity].
      rewrite Hbl. rewrite (nth_lookup_Some _ _ _ _ Hb). reflexivity. }
    destruct (policy l).
    + pose proof (findVictimFIFO_spec s Hlenpos Hq) as [Hw Hqw].
      destruct (findVictimFIFO s) as [w sw] eqn:E.
      assert (Esw : sw = snd (findVictimFIFO s)) by now rewrite E.
      simpl in Hw, Hqw. apply (Hgoal w sw); auto; rewrite Esw; reflexivity.
    + pose proof (findVictimLRU_lt s Hlenpos) as Hw.
      destruct (findVictimLRU s) as [w sw] eqn:E.
      assert (Esw : sw = snd (findVictimLRU s)) by now rewrite E.
      simpl in Hw. apply (Hgoal w sw); auto; rewrite Esw; try reflexivity.
      exact Hq.
    + apply (Hgoal (findVictimLFU s) s); auto. apply findVictimLFU_lt; lia.
Qed.

(** **** Sets under line updates *)

Lemma set_ok_mono T T' s : T <= T' -> set_ok T s -> set_ok T' s.
Proof.
  intros HT (H1 & H2 & H3 & H4 & H5). repeat split; auto.
  intros i b Hb. specialize (H4 i b Hb). lia.
Qed.

Lemma set_ok_alter T s i (f : CacheBlock -> CacheBlock) fq lq :
  set_ok T s ->
  (forall b, blocks s !! i = Some b ->
     valid (f b) = valid b /\ tag (f b) = tag b /\ last_access (f b) <= T) ->
  (forall x, In x fq -> (x < length (blocks s))%nat) ->
  set_ok T (mkCacheSet (alter f i (blocks s)) (associativity s) fq lq).
Proof.
  intros (H1 & H2 & H3 & H4 & H5) Hf Hfq. unfold set_ok. simpl.
  rewrite length_alter. repeat split; auto.
  - intros j b Hb. rewrite list_lookup_alter in Hb. case_decide as E.
    + subst j. destruct (blocks s !! i) as [b0|] eqn:Hb0; [|discriminate].
      simpl in Hb. injection Hb as <-. now apply Hf.
    + eauto.
  - intros j k bj bk Hj Hk Vj Vk Htag.
    assert (Hview : forall n y, alter f i (blocks s) !! n = Some y ->
              exists y0, blocks s !! n = Some y0 /\ valid y0 = valid y /\ tag y0 = tag y).
    { intros n y Hy. rewrite list_lookup_alter in Hy. case_decide as E.
      - subst n. destruct (blocks s !! i) as [y0|] eqn:Hy0; [|discriminate].
        simpl in Hy. injection Hy as <-. exists y0.
        destruct (Hf y0 eq_refl) as (-> & -> & _). auto.
      - exists y. auto. }
    destruct (Hview _ _ Hj) as (bj0 & Hj0 & Vj0 & Tj0).
    destruct (Hview _ _ Hk) as (bk0 & Hk0 & Vk0 & Tk0).
    apply (H5 j k bj0 bk0); congruence.
Qed.

Lemma set_ok_fill T s v nb fq lq :
  set_ok T s -> (v < length (blocks s))%nat ->
  valid nb = true -> last_access nb <= T ->
  (forall j y, blocks s !! j = Some y -> is_hit (tag nb) y = false) ->
  (forall x, In x fq -> (x < length (blocks s))%nat) ->
  set_ok T (mkCacheSet (<[v:=nb]> (blocks s)) (associativity s) fq lq).
Proof.
  intros (H1 & H2 & H3 & H4 & H5) Hv Vnb Lnb Hmiss Hfq. unfold set_ok. simpl.
  rewrite length_insert. repeat split; auto.
  - intros j b Hb. rewrite list_lookup_insert in Hb. case_decide as E.
    + now injection Hb as <-.
    + eauto.
  - intros j k bj bk Hj Hk Vj Vk Htag.
    rewrite list_lookup_insert in Hj. rewrite list_lookup_insert in Hk.
    destruct (decide (v = j /\ (v < length (blocks s))%nat)) as [[Ej _]|Ej];
      destruct (decide (v = k /\ (v < length (blocks s))%nat)) as [[Ek _]|Ek].
    + congruence.
    + injection Hj as <-. pose proof (Hmiss k bk Hk) as Hm. unfold is_hit in Hm.
      rewrite Vk in Hm. simpl in Hm. apply Z.eqb_neq in Hm. congruence.
    + injection Hk as <-. pose proof (Hmiss j bj Hj) as Hm. unfold is_hit in Hm.
      rewrite Vj in Hm. simpl in Hm. apply Z.eqb_neq in Hm. congruence.
    + eauto.
Qed.

Lemma same_shape_refl l : same_shape l l.
Proof. repeat split. Qed.

Lemma same_shape_trans l1 l2 l3 : same_shape l1 l2 -> same_shape l2 l3 -> same_shape l1 l3.
Proof. unfold same_shape. intuition congruence. Qed.

Lemma same_shape_tag l l' a : same_shape l l' -> extractTag l' a = extractTag l a.
Proof. intros (H1 & H2 & H3 & _). unfold extractTag. now rewrite H1, H2, H3. Qed.

Lemma same_shape_index l l' a : same_shape l l' -> extractSetIndex l' a = extractSetIndex l a.
Proof. intros (H1 & H2 & H3 & _). unfold extractSetIndex. now rewrite H1, H2. Qed.

Lemma level_ok_index_shape l l' :
  same_shape l l' -> (forall a, is_Some (sets l !! Z.to_nat (extractSetIndex l a))) ->
  forall a, is_Some (sets l' !! Z.to_nat (extractSetIndex l' a)).
Proof.
  intros Hs H a. rewrite (same_shape_index _ _ a Hs).
  apply lookup_lt_is_Some. destruct Hs as (_ & _ & _ & _ & ->).
  apply lookup_lt_is_Some. apply H.
Qed.

Lemma sets_insert_ok T (ss : list CacheSet) k s' :
  (forall j s, ss !! j = Some s -> set_ok T s) -> set_ok T s' ->
  forall j s, <[k:=s']> ss !! j = Some s -> set_ok T s.
Proof.
  intros Hss Hs' j s Hj. rewrite list_lookup_insert in Hj. case_decide.
  - now injection Hj as <-.
  - eauto.
Qed.

Lemma level_ok_time_nonneg l : level_ok l -> 0 <= global_time l.
Proof. intros (_ & _ & H & ? & ?). lia. Qed.

(** **** A counting probe: [accessLevel(level, a, report, true, false)] *)

Lemma accessLevel_probe l a r h l' r' :
  level_ok l -> global_time l + 1 < size_t_modulus ->
  accessLevel l a r true false = (h, l', r') ->
  r' = r /\ level_ok l' /\ same_shape l l'
  /\ global_time l' = global_time l + 1
  /\ (h = true -> policy l = LRU -> most_recent l' a)
  /\ (h = false ->
      forall s i b, addressed l' a = Some s -> blocks s !! i = Some b ->
        is_hit (extractTag l' a) b = false /\ last_access b < global_time l').
Proof.
  intros Hok Hbound H.
  pose proof (level_ok_time_nonneg l Hok) as Hg0.
  destruct Hok as (Hidx & Hsets & Hcnt & Hh & Hm).
  assert (Hw : wrap (global_time l + 1) = global_time l + 1) by (apply wrap_small; lia).
  unfold accessLevel in H. cbv beta iota zeta in H. rewrite Hw in H.
  set (l1 := set_global_time l (global_time l + 1)) in *.
  change (extractTag l1 a) with (extractTag l a) in H.
  change (extractSetIndex l1 a) with (extractSetIndex l a) in H.
  change (sets l1) with (sets l) in H.
  destruct (Hidx a) as [s Hs]. rewrite Hs in H.
  pose proof (Hsets _ _ Hs) as Hsok.
  destruct (find_index (is_hit (extractTag l a)) (blocks s)) as [i|] eqn:Hfind.
  - (* hit *)
    injection H as <- <- <-.
    apply find_index_Some in Hfind as (b & Hb & Hhit & _).
    unfold is_hit in Hhit. apply andb_true_iff in Hhit as [Hv Ht]. apply Z.eqb_eq in Ht.
    assert (Hwh : wrap (hits l + 1) = hits l + 1) by (apply wrap_small; lia).
    rewrite Hwh.
    set (lh := set_hits l1 (hits l + 1)).
    assert (Hshape : same_shape l (store_set lh (extractSetIndex l a)
                       (updateReplacementData lh s i (policy l)))).
    { unfold same_shape, store_set. simpl. rewrite length_insert. repeat split. }
    assert (Hset' : set_ok (global_time l + 1) (updateReplacementData lh s i (policy l))).
    { apply (set_ok_mono (global_time l) (global_time l + 1)) in Hsok; [|lia].
      destruct (policy l); unfold updateReplacementData, set_blocks, set_lruList; simpl.
      - exact Hsok.
      - apply (set_ok_alter _ s); [exact Hsok| |apply Hsok].
        intros b0 _. simpl. repeat split; lia.
      - apply (set_ok_alter _ s); [exact Hsok| |apply Hsok].
        intros b0 Hb0. simpl. repeat split.
        destruct Hsok as (_ & _ & _ & H4 & _). eauto. }
    split; [reflexivity|]. split; [|split; [exact Hshape|split; [reflexivity|split]]].
    + split; [apply (level_ok_index_shape l); [exact Hshape|exact Hidx]|].
      split; [|simpl; lia].
      unfold store_set. simpl. apply sets_insert_ok; [|exact Hset'].
      intros j s0 Hj. apply (set_ok_mono (global_time l)); [lia|eauto].
    + intros _ Hlru. unfold most_recent, addressed.
      rewrite (same_shape_index _ _ a Hshape), (same_shape_tag _ _ a Hshape).
      unfold store_set. simpl. rewrite list_lookup_insert_eq
        by (apply lookup_lt_is_Some; eauto).
      rewrite Hlru. simpl.
      exists (mkCacheSet (alter (touch_lru (global_time l + 1)) i (blocks s))
                (associativity s) (fifoQueue s) (list_remove i (lruList s) ++ [i])).
      exists i, (touch_lru (global_time l + 1) b).
      split; [reflexivity|]. simpl. rewrite list_lookup_alter_eq, Hb.
      repeat split; auto.
      intros j b' Hji Hb'. rewrite list_lookup_alter_ne in Hb' by congruence.
      destruct Hsok as (_ & _ & _ & H4 & _). specialize (H4 j b' Hb'). lia.
    + discriminate.
  - (* miss *)
    injection H as <- <- <-.
    assert (Hwm : wrap (misses l + 1) = misses l + 1) by (apply wrap_small; lia).
    rewrite Hwm.
    split; [reflexivity|]. split; [|split; [repeat split|split; [reflexivity|split]]].
    + split; [exact Hidx|]. split; [|simpl; lia].
      intros j s0 Hj. apply (set_ok_mono (global_time l)); [simpl; lia|eauto].
    + discriminate.
    + intros _ s0 j b Hs0 Hb. unfold addressed in Hs0. simpl in Hs0.
      change (extractSetIndex _ a) with (extractSetIndex l a) in Hs0.
      rewrite Hs in Hs0. injection Hs0 as <-.
      split.
      * apply (find_index_None _ _ Hfind j b Hb).
      * simpl. destruct Hsok as (_ & _ & _ & H4 & _). specialize (H4 j b Hb). lia.
Qed.

Lemma find_index_from_all_false {A} (p : A -> bool) l k :
  (forall j y, l !! j = Some y -> p y = false) -> find_index_from p l k = None.
Proof.
  revert k. induction l as [|x l IH]; intros k H; simpl; [reflexivity|].
  rewrite (H 0%nat x eq_refl). apply IH. intros j y Hy. apply (H (S j) y Hy).
Qed.

(** **** A fill: [accessLevel(level, a, report, false, true)] on a miss *)

Lemma accessLevel_fill l a r h l' r' :
  level_ok l ->
  (forall s i b, addressed l a = Some s -> blocks s !! i = Some b ->
     is_hit (extractTag l a) b = false) ->
  accessLevel l a r false true = (h, l', r') ->
  h = false /\ level_ok l' /\ same_shape l l'
  /\ global_time l' = global_time l /\ hits l' = hits l /\ misses l' = misses l
  /\ exists s v b0 s',
       addressed l a = Some s /\ blocks s !! v = Some b0
       /\ addressed l' a = Some s'
       /\ blocks s' = <[v := filled_line (policy l) (extractTag l a) (global_time l)]> (blocks s)
       /\ r' = (if valid b0
                then push_event r (eviction_event l (tag b0) (extractSetIndex l a))
                else r).
Proof.
  intros Hok Hmiss H.
  destruct Hok as (Hidx & Hsets & Hcnt & Hh & Hm).
  unfold accessLevel in H. cbv beta iota zeta in H.
  destruct (Hidx a) as [s Hs]. rewrite Hs in H.
  pose proof (Hsets _ _ Hs) as Hsok.
  assert (Hnone : find_index (is_hit (extractTag l a)) (blocks s) = None).
  { apply find_index_from_all_false. intros j y Hy. apply (Hmiss s j y); auto. }
  rewrite Hnone in H.
  destruct (select_victim l s (extractSetIndex l a) r) as [[[v sv] lv] rv] eqn:Hsel.
  destruct (select_victim_spec _ _ _ _ _ _ _ _ _ Hsok Hsel)
    as (Hbl & Has & Hfq & b0 & Hb0 & Hcase).
  assert (Hv : (v < length (blocks s))%nat) by (apply lookup_lt_is_Some; eauto).
  assert (Hlv : sets lv = sets l /\ hits lv = hits l /\ misses lv = misses l
                /\ global_time lv = global_time l /\ same_shape l lv
                /\ rv = (if valid b0
                         then push_event r (eviction_event l (tag b0) (extractSetIndex l a))
                         else r)).
  { destruct Hcase as [(Hv0 & -> & ->) | (Hv1 & _ & -> & ->)].
    - rewrite Hv0. repeat split.
    - rewrite Hv1. repeat split. }
  destruct Hlv as (Hsetslv & Hhlv & Hmlv & Hglv & Hshlv & Hrv).
  injection H as <- <- <-.
  set (nb := mkCacheBlock true (extractTag l a) (global_time lv) (global_time lv) 1).
  set (s1 := set_blocks sv (<[v:=nb]> (blocks sv))).
  assert (Hs1ok : set_ok (global_time l) (mkCacheSet (<[v:=nb]> (blocks s))
                                            (associativity s) (fifoQueue sv) (lruList sv))).
  { apply set_ok_fill; auto.
    - subst nb. simpl. lia.
    - intros j y Hy. subst nb. simpl. apply (Hmiss s j y); auto. }
  assert (Hs1 : s1 = mkCacheSet (<[v:=nb]> (blocks s)) (associativity s)
                       (fifoQueue sv) (lruList sv)).
  { subst s1. unfold set_blocks. now rewrite Hbl, Has. }
  assert (Hfin : blocks (updateReplacementData lv s1 v (policy lv))
                 = <[v := filled_line (policy l) (extractTag l a) (global_time l)]> (blocks s)
               /\ set_ok (global_time l) (updateReplacementData lv s1 v (policy lv))).
  { destruct Hshlv as (_ & _ & _ & Hpol & _). rewrite Hpol, Hs1.
    assert (Hnbv : <[v:=nb]> (blocks s) !! v = Some nb) by now apply list_lookup_insert_eq.
    destruct (policy l); unfold updateReplacementData, set_blocks, set_lruList;
      cbn [blocks associativity fifoQueue lruList].
    - split; [|exact Hs1ok]. subst nb. unfold filled_line. now rewrite Hglv.
    - split.
      + apply list_eq. intros j. rewrite list_lookup_alter, !list_lookup_insert.
        case_decide as E; [subst j|rewrite !decide_False by tauto; reflexivity].
        rewrite !decide_True by auto. subst nb. simpl. unfold touch_lru, filled_line. simpl.
        now rewrite Hglv.
      + apply (set_ok_alter _ (mkCacheSet (<[v:=nb]> (blocks s)) (associativity s)
                                 (fifoQueue sv) (lruList sv))); [exact Hs1ok| |].
        * intros b _. simpl. rewrite Hglv. repeat split; lia.
        * intros x Hx. apply (Nat.lt_le_trans _ _ _ (Hfq x Hx)).
          apply Nat.eq_le_incl. symmetry. exact (length_insert (blocks s) v nb).
    - split.
      + apply list_eq. intros j. rewrite list_lookup_alter, !list_lookup_insert.
        case_decide as E; [subst j|rewrite !decide_False by tauto; reflexivity].
        rewrite !decide_True by auto. subst nb. simpl. unfold bump_count, filled_line. simpl.
        now rewrite Hglv.
      + apply (set_ok_alter _ (mkCacheSet (<[v:=nb]> (blocks s)) (associativity s)
                                 (fifoQueue sv) (lruList sv))); [exact Hs1ok| |].
        * intros b Hb. simpl. repeat split.
          destruct Hs1ok as (_ & _ & _ & H4 & _). apply (H4 v b Hb).
        * intros x Hx. apply (Nat.lt_le_trans _ _ _ (Hfq x Hx)).
          apply Nat.eq_le_incl. symmetry. exact (length_insert (blocks s) v nb). }
  destruct Hfin as (Hblocks & Hsetok).
  set (s2 := updateReplacementData lv s1 v (policy lv)) in *.
  assert (Hshape : same_shape l (store_set lv (extractSetIndex l a) s2)).
  { apply (same_shape_trans _ lv); [exact Hshlv|].
    unfold same_shape, store_set. simpl. rewrite length_insert. repeat split. }
  split; [reflexivity|]. split; [|split; [exact Hshape|]].
  - split; [apply (level_ok_index_shape l); [exact Hshape|exact Hidx]|].
    unfold store_set. simpl. rewrite Hglv, Hhlv, Hmlv, Hsetslv.
    split; [|auto]. apply sets_insert_ok; [exact Hsets|exact Hsetok].
  - unfold store_set. simpl. rewrite Hglv, Hhlv, Hmlv.
    split; [reflexivity|]. split; [reflexivity|]. split; [reflexivity|].
    exists s, v, b0, s2. split; [exact Hs|]. split; [exact Hb0|].
    split; [|split; [exact Hblocks|exact Hrv]].
    unfold addressed. simpl.
    change (extractSetIndex (set_sets lv _) a) with (extractSetIndex lv a).
    rewrite (same_shape_index _ _ a Hshlv), Hsetslv.
    apply list_lookup_insert_eq. apply lookup_lt_is_Some. eauto.
Qed.

Lemma most_recent_latest l a : level_ok l -> most_recent l a -> tag_line_latest l a.
Proof.
  intros (_ & Hsets & _) (s & i & b & Hs & Hb & Hv & Ht & Hlate).
  exists s. split; [exact Hs|]. split; [eauto|].
  intros i' b2 Hb2 Hv2 Ht2 j b' Hj Hb'.
  destruct (Hsets _ _ Hs) as (_ & _ & _ & _ & Huniq).
  assert (i' = i) by (apply (Huniq i' i b2 b); congruence). subst i'.
  assert (b2 = b) by congruence. subst b2. eauto.
Qed.

(** **** One access of the hierarchy *)

Lemma fill_most_recent l a r h l' r' :
  level_ok l ->
  (forall s i b, addressed l a = Some s -> blocks s !! i = Some b ->
     is_hit (extractTag l a) b = false /\ last_access b < global_time l) ->
  accessLevel l a r false true = (h, l', r') ->
  most_recent l' a.
Proof.
  intros Hok Hmiss H.
  destruct (accessLevel_fill l a r h l' r' Hok) as
    (_ & Hok' & Hshape & _ & _ & _ & s & v & b0 & s' & Hs & Hb0 & Hs' & Hbl & _); auto.
  { intros s i b Hs Hb. now apply (Hmiss s i b). }
  assert (Hv : (v < length (blocks s))%nat) by (apply lookup_lt_is_Some; eauto).
  exists s', v, (filled_line (policy l) (extractTag l a) (global_time l)).
  split; [exact Hs'|]. rewrite Hbl.
  split; [now apply list_lookup_insert_eq|]. split; [reflexivity|].
  split; [simpl; symmetry; now apply same_shape_tag|].
  intros j b' Hj Hb'. rewrite list_lookup_insert_ne in Hb' by congruence.
  simpl. now apply (Hmiss s j b').
Qed.

Lemma access_spec c a r c' :
  cache_ok c -> global_time (l1_cache c) + 1 < size_t_modulus ->
  access c a = (r, c') ->
  cache_ok c'
  /\ same_shape (l1_cache c) (l1_cache c') /\ same_shape (l2_cache c) (l2_cache c')
  /\ global_time (l1_cache c') = global_time (l1_cache c) + 1
  /\ global_time (l2_cache c')
     = global_time (l2_cache c) + (if l2Accessed r then 1 else 0)
  /\ (policy (l1_cache c) = LRU -> most_recent (l1_cache c') a)
  /\ (l2Accessed r = true -> policy (l2_cache c) = LRU -> most_recent (l2_cache c') a).
Proof.
  intros (Hok1 & Hok2 & Hle) Hbound H. unfold access in H.
  destruct (accessLevel (l1_cache c) a _ true false) as [[h1 l1] r1] eqn:E1.
  destruct (accessLevel_probe _ _ _ _ _ _ Hok1 Hbound E1)
    as (-> & Hok1' & Hsh1 & Hg1 & Hmr1 & Hmiss1).
  destruct h1.
  - injection H as <- <-. simpl.
    split; [split; [exact Hok1'|split; [exact Hok2|simpl; lia]]|].
    split; [exact Hsh1|]. split; [apply same_shape_refl|].
    split; [lia|]. split; [lia|]. split; [auto|discriminate].
  - specialize (Hmiss1 eq_refl). clear Hmr1.
    destruct (accessLevel (l2_cache c) a _ true false) as [[h2 l2] r2] eqn:E2.
    assert (Hbound2 : global_time (l2_cache c) + 1 < size_t_modulus) by lia.
    destruct (accessLevel_probe _ _ _ _ _ _ Hok2 Hbound2 E2)
      as (-> & Hok2' & Hsh2 & Hg2 & Hmr2 & Hmiss2).
    destruct h2.
    + destruct (accessLevel l1 a _ false true) as [[h3 l1'] r3] eqn:E3.
      injection H as <- <-. simpl.
      assert (Hm1 : forall s i b, addressed l1 a = Some s -> blocks s !! i = Some b ->
                      is_hit (extractTag l1 a) b = false).
      { intros s i b Hs Hb. now apply (Hmiss1 s i b). }
      destruct (accessLevel_fill _ _ _ _ _ _ Hok1' Hm1 E3)
        as (_ & Hok1'' & Hsh1' & Hg1' & _).
      pose proof (fill_most_recent _ _ _ _ _ _ Hok1' Hmiss1 E3) as Hmr.
      split; [split; [exact Hok1''|split; [exact Hok2'|simpl; lia]]|].
      split; [eapply same_shape_trans; eauto|]. split; [exact Hsh2|].
      split; [lia|].
      replace (l2Accessed r3) with true.
      2:{ apply accessLevel_fill in E3 as (_ & _ & _ & _ & _ & _ & s & v & b0 & s' & _ & _ & _ & _ & ->);
            auto. destruct (valid b0); reflexivity. }
      split; [lia|]. split; [intros _; exact Hmr|]. intros _ Hlru. now apply Hmr2.
    + specialize (Hmiss2 eq_refl). clear Hmr2.
      destruct (accessLevel l2 a _ false true) as [[h3 l2'] r3] eqn:E3.
      destruct (accessLevel l1 a r3 false true) as [[h4 l1'] r4] eqn:E4.
      injection H as <- <-. simpl.
      assert (Hm1 : forall s i b, addressed l1 a = Some s -> blocks s !! i = Some b ->
                      is_hit (extractTag l1 a) b = false).
      { intros s i b Hs Hb. now apply (Hmiss1 s i b). }
      assert (Hm2 : forall s i b, addressed l2 a = Some s -> blocks s !! i = Some b ->
                      is_hit (extractTag l2 a) b = false).
      { intros s i b Hs Hb. now apply (Hmiss2 s i b). }
      destruct (accessLevel_fill _ _ _ _ _ _ Hok1' Hm1 E4)
        as (_ & Hok1'' & Hsh1' & Hg1' & _ & _ & s & v & b0 & s' & _ & _ & _ & _ & Hr4).
      destruct (accessLevel_fill _ _ _ _ _ _ Hok2' Hm2 E3)
        as (_ & Hok2'' & Hsh2' & Hg2' & _ & _ & s2 & v2 & b2 & s2' & _ & _ & _ & _ & Hr3).
      pose proof (fill_most_recent _ _ _ _ _ _ Hok1' Hmiss1 E4) as Hmr1.
      pose proof (fill_most_recent _ _ _ _ _ _ Hok2' Hmiss2 E3) as Hmr2.
      split; [split; [exact Hok1''|split; [exact Hok2''|simpl; lia]]|].
      split; [eapply same_shape_trans; eauto|].
      split; [eapply same_shape_trans; eauto|].
      split; [lia|].
      replace (l2Accessed r4) with true.
      2:{ rewrite Hr4, Hr3. destruct (valid b0), (valid b2); reflexivity. }
      split; [lia|]. split; intros; assumption.
Qed.

(** **** Construction *)

Lemma extractSetIndex_bound l a :
  0 <= set_index_bits l < 64 ->
  0 <= extractSetIndex l a < 2 ^ set_index_bits l.
Proof.
  intros Hb. unfold extractSetIndex.
  assert (Hpow : 0 < 2 ^ set_index_bits l < size_t_modulus).
  { split; [apply Z.pow_pos_nonneg; lia|].
    unfold size_t_modulus, size_t_width. apply Z.pow_lt_mono_r; lia. }
  rewrite Z.shiftl_1_l. rewrite (wrap_small (2 ^ _)) by lia.
  rewrite wrap_small by lia.
  replace (2 ^ set_index_bits l - 1) with (Z.ones (set_index_bits l))
    by (rewrite Z.ones_equiv; lia).
  rewrite Z.land_ones by lia. apply Z.mod_pos_bound. lia.
Qed.

Lemma empty_set_ok assoc : 0 < assoc -> set_ok 0 (empty_set assoc).
Proof.
  intros Ha. unfold set_ok, empty_set. cbn [blocks associativity fifoQueue].
  rewrite length_replicate. split; [reflexivity|]. split; [lia|].
  split; [intros x []|]. split.
  - intros i b Hb. apply lookup_replicate in Hb as [-> _]. simpl. lia.
  - intros i j bi bj Hi _ Hv. apply lookup_replicate in Hi as [-> _]. discriminate.
Qed.

Lemma initCacheLevel_ok n sz bs assoc p l :
  is_size_t sz -> 0 <= assoc ->
  initCacheLevel n sz bs assoc p = Some l ->
  level_ok l /\ global_time l = 0 /\ policy l = p.
Proof.
  intros [Hsz0 Hsz1] Ha H. unfold initCacheLevel in H.
  destruct (Z.eqb_spec (wrap (bs * assoc)) 0) as [|Hdiv]; [discriminate|].
  destruct (Z.eqb_spec (sz / wrap (bs * assoc)) 0) as [|Hns]; [discriminate|].
  destruct (Z.eqb_spec bs 0) as [|Hbs]; [discriminate|]. simpl in H.
  injection H as <-.
  pose proof (wrap_range (bs * assoc)) as Hw.
  assert (Hns1 : 1 <= sz / wrap (bs * assoc)).
  { assert (0 <= sz / wrap (bs * assoc)) by (apply Z.div_pos; lia). lia. }
  assert (Hns2 : sz / wrap (bs * assoc) <= sz)
    by (apply Z.div_le_upper_bound; nia).
  assert (Hassoc : 0 < assoc).
  { destruct (Z.eq_dec assoc 0) as [->|]; [|lia].
    rewrite Z.mul_0_r in Hdiv. now contradiction Hdiv. }
  set (ns := sz / wrap (bs * assoc)) in *.
  assert (Hlog : 0 <= log2_floor ns < 64).
  { unfold log2_floor. split; [apply Z.log2_nonneg|].
    apply Z.log2_lt_pow2; [lia|]. fold size_t_width. fold size_t_modulus. lia. }
  split; [|split; reflexivity].
  split; [|split; [|cbn; lia]].
  - intros a. apply lookup_lt_is_Some. cbn [sets]. rewrite length_replicate.
    match goal with |- context [extractSetIndex ?l a] =>
      pose proof (extractSetIndex_bound l a Hlog) as Hidx end.
    cbn [set_index_bits] in Hidx.
    assert (2 ^ log2_floor ns <= ns) by (apply Z.log2_spec; lia).
    lia.
  - intros k s Hs. cbn [sets global_time] in *.
    apply lookup_replicate in Hs as [-> _]. now apply empty_set_ok.
Qed.

Lemma new_CacheSimulator_ok s1 b1 a1 s2 b2 a2 p c :
  is_size_t s1 -> 0 <= a1 -> is_size_t s2 -> 0 <= a2 ->
  new_CacheSimulator s1 b1 a1 s2 b2 a2 p = Some c ->
  cache_ok c /\ global_time (l1_cache c) = 0 /\ global_time (l2_cache c) = 0.
Proof.
  intros Hs1 Ha1 Hs2 Ha2 H. unfold new_CacheSimulator in H.
  destruct (initCacheLevel 1 s1 b1 a1 p) as [l1|] eqn:E1; [|discriminate].
  destruct (initCacheLevel 2 s2 b2 a2 p) as [l2|] eqn:E2; [|discriminate].
  injection H as <-.
  apply initCacheLevel_ok in E1 as (Hok1 & Hg1 & _); auto.
  apply initCacheLevel_ok in E2 as (Hok2 & Hg2 & _); auto.
  split; [split; [exact Hok1|split; [exact Hok2|simpl; lia]]|]. simpl. auto.
Qed.

(** **** Sequences of calls *)

Lemma set_policy_ok l p : level_ok l -> level_ok (set_policy l p).
Proof. intros H. exact H. Qed.

Lemma run_spec calls : forall c c' rs,
  cache_ok c -> run c calls = (c', rs) ->
  global_time (l1_cache c) + Z.of_nat (length rs) < size_t_modulus ->
  cache_ok c'
  /\ global_time (l1_cache c') = global_time (l1_cache c) + Z.of_nat (length rs)
  /\ global_time (l2_cache c') = global_time (l2_cache c) + l2_probes rs.
Proof.
  induction calls as [|call calls IH]; intros c c' rs Hok H Hb.
  - injection H as <- <-. unfold l2_probes. simpl. split; [exact Hok|]. split; lia.
  - destruct call as [a|p|lv p]; simpl in H.
    + destruct (access c a) as [r c1] eqn:Ea.
      destruct (run c1 calls) as [c2 rs'] eqn:Er.
      injection H as <- <-.
      change (length (r :: rs')) with (S (length rs')) in *.
      destruct (access_spec c a r c1 Hok) as (Hok1 & _ & _ & Hg1 & Hg2 & _); auto; [lia|].
      destruct (IH c1 c2 rs' Hok1 Er) as (Hok2 & Hg1' & Hg2'); [lia|].
      split; [exact Hok2|]. split; [lia|].
      rewrite Hg2', Hg2. unfold l2_probes. simpl.
      destruct (l2Accessed r); simpl length; lia.
    + apply (IH (setReplacementPolicy c p)); auto.
    + unfold setReplacementPolicyLevel in H.
      destruct (lv =? 1); [|destruct (lv =? 2)];
        (apply (IH _ c' rs) in H; [exact H|exact Hok|exact Hb]).
Qed.

Ltac size_t_bounds :=
  unfold is_size_t; rewrite ?size_t_modulus_eq; lia.

(** *** Parameter validation *)




(** *** Fills *)

(** C2 at its failing input: under LFU, the first access to address 0 of the
    128-byte / 1024-byte hierarchy misses at both levels and fills way 0 of
    set 0 at each; the line installed in L1 is valid with the new tag and
    [load_time = last_access = global_time = 1], but its [access_count] is 2,
    not 1: the load sets it to 1 and [updateReplacementData] increments it.
    No eviction is reported, the slot having been invalid. *)
Theorem lfu_fill_counts_twice :
  let '(r, c) := access (small_cache LFU) 0 in
  (sets (l1_cache c) !! 0%nat) ≫= (fun s => blocks s !! 0%nat)
    = Some (mkCacheBlock true 0 1 1 2)
  /\ global_time (l1_cache c) = 1
  /\ events r = [].
Proof. vm_compute. repeat split. Qed.

(** *** Counter conservation *)

(** C6: in a hierarchy built from [size_t] parameters, after any sequence of
    calls (accesses and policy changes), hits + misses at L1 is the number
    of accesses made (each probes L1 once), and hits + misses at L2 is the
    number of accesses that probed L2 (those reporting [l2Accessed]); the
    fills that follow a miss add to neither.  The counters being [size_t],
    the number of accesses is taken below 2^64. *)
Theorem hit_miss_conservation s1 b1 a1 s2 b2 a2 p c0 calls c rs :
  is_size_t s1 -> is_size_t a1 -> is_size_t s2 -> is_size_t a2 ->
  new_CacheSimulator s1 b1 a1 s2 b2 a2 p = Some c0 ->
  run c0 calls = (c, rs) ->
  Z.of_nat (length rs) < size_t_modulus ->
  getHits c 1 + getMisses c 1 = Z.of_nat (length rs)
  /\ getHits c 2 + getMisses c 2 = l2_probes rs.
Proof.
  intros Hs1 Ha1 Hs2 Ha2 Hnew Hrun Hlen.
  destruct (new_CacheSimulator_ok _ _ _ _ _ _ _ _ Hs1 (proj1 Ha1) Hs2 (proj1 Ha2) Hnew)
    as (Hok & Hg1 & Hg2).
  destruct (run_spec calls c0 c rs Hok Hrun) as (Hok' & Hg1' & Hg2'); [lia|].
  destruct Hok' as ((_ & _ & Hc1 & _) & (_ & _ & Hc2 & _) & _).
  unfold getHits, getMisses. simpl. lia.
Qed.

Lemma hit_miss_conservation_witness :
  let calls := [CallAccess 0; CallAccess 64; CallSetPolicy LFU; CallAccess 0;
                CallAccess 128; CallAccess 64] in
  let c := fst (run (small_cache LRU) calls) in
  let rs := snd (run (small_cache LRU) calls) in
  getHits c 1 + getMisses c 1 = Z.of_nat (length rs)
  /\ getHits c 2 + getMisses c 2 = l2_probes rs.
Proof.
  intros calls c rs.
  apply (hit_miss_conservation 128 16 2 1024 16 4 LRU (small_cache LRU) calls c rs).
  - size_t_bounds.
  - size_t_bounds.
  - size_t_bounds.
  - size_t_bounds.
  - reflexivity.
  - subst c rs. apply surjective_pairing.
  - vm_compute. reflexivity.
Defined.

(** *** LRU recency *)

(** C7: in a hierarchy built from [size_t] parameters and after any sequence
    of calls, an access to [a] leaves, at every level it touched (L1
    always, L2 when the report says [l2Accessed]) and that runs LRU, the
    addressed set with a valid line holding the tag of [a], and every such
    line has a [last_access] strictly above that of every other line of the
    set, be the access a probe hit or a fill.  The clock being a [size_t],
    the number of accesses is taken below 2^64. *)
Theorem lru_line_is_latest s1 b1 a1 s2 b2 a2 p c0 calls c rs a r c' :
  is_size_t s1 -> is_size_t a1 -> is_size_t s2 -> is_size_t a2 ->
  new_CacheSimulator s1 b1 a1 s2 b2 a2 p = Some c0 ->
  run c0 calls = (c, rs) ->
  Z.of_nat (length rs) + 1 < size_t_modulus ->
  access c a = (r, c') ->
  (policy (l1_cache c) = LRU -> tag_line_latest (l1_cache c') a)
  /\ (l2Accessed r = true -> policy (l2_cache c) = LRU -> tag_line_latest (l2_cache c') a).
Proof.
  intros Hs1 Ha1 Hs2 Ha2 Hnew Hrun Hlen Hacc.
  destruct (new_CacheSimulator_ok _ _ _ _ _ _ _ _ Hs1 (proj1 Ha1) Hs2 (proj1 Ha2) Hnew)
    as (Hok & Hg1 & Hg2).
  destruct (run_spec calls c0 c rs Hok Hrun) as (Hok' & Hg1' & Hg2'); [lia|].
  destruct (access_spec c a r c' Hok') as (Hok'' & _ & _ & _ & _ & Hm1 & Hm2); auto; [lia|].
  destruct Hok'' as (Hl1 & Hl2 & _).
  split.
  - intros Hp. apply most_recent_latest; auto.
  - intros Hacc2 Hp. apply most_recent_latest; auto.
Qed.

Lemma lru_line_is_latest_witness :
  let calls := [CallAccess 0; CallAccess 64; CallAccess 0] in
  let c := fst (run (small_cache LRU) calls) in
  let c' := snd (access c 128) in
  tag_line_latest (l1_cache c') 128 /\ tag_line_latest (l2_cache c') 128.
Proof.
  intros calls c c'.
  assert (H : (policy (l1_cache c) = LRU -> tag_line_latest (l1_cache c') 128)
              /\ (l2Accessed (fst (access c 128)) = true ->
                  policy (l2_cache c) = LRU -> tag_line_latest (l2_cache c') 128)).
  { apply (lru_line_is_latest 128 16 2 1024 16 4 LRU (small_cache LRU) calls c
             (snd (run (small_cache LRU) calls)) 128 (fst (access c 128)) c').
    - size_t_bounds.
    - size_t_bounds.
    - size_t_bounds.
    - size_t_bounds.
    - reflexivity.
    - subst c. apply surjective_pairing.
    - vm_compute. reflexivity.
    - subst c'. apply surjective_pairing. }
  destruct H as [H1 H2]. split; [apply H1|apply H2]; reflexivity.
Defined.

(** *** Further properties of the cache *)

Lemma select_victim_evictions l s idx r :
  let '(v, s', l', r') := select_victim l s idx r in
  sets l' = sets l /\ global_time l' = global_time l /\ policy l' = policy l
  /\ hits l' = hits l /\ misses l' = misses l
  /\ l1Hit r' = l1Hit r /\ l2Hit r' = l2Hit r /\ l2Accessed r' = l2Accessed r
  /\ ((events r' = events r /\ evictions l' = evictions l)
      \/ (exists e, events r' = events r ++ [e])
         /\ evictions l' = wrap (evictions l + 1))
  /\ forall x, extractSetIndex l' x = extractSetIndex l x.
Proof.
  unfold select_victim.
  destruct (Nat.eqb _ _).
  - destruct (match policy l with
              | FIFO => findVictimFIFO s
              | LRU => findVictimLRU s
              | LFU => (findVictimLFU s, s)
              end) as [v s'].
    cbn. repeat split. right. split; [eauto|reflexivity].
  - repeat split. now left.
Qed.

(** What any call of [accessLevel] does to the eviction counter, the
    events of the report and the sets other than the addressed one. *)
Lemma accessLevel_frame l a r u al :
  let '(h, l', r') := accessLevel l a r u al in
  (forall k, k <> Z.to_nat (extractSetIndex l a) -> sets l' !! k = sets l !! k)
  /\ (forall x, extractSetIndex l' x = extractSetIndex l x)
  /\ l1Hit r' = l1Hit r /\ l2Hit r' = l2Hit r /\ l2Accessed r' = l2Accessed r
  /\ ((events r' = events r /\ evictions l' = evictions l)
      \/ (al = true /\ h = false /\ (exists e, events r' = events r ++ [e])
          /\ evictions l' = wrap (evictions l + 1))).
Proof.
  unfold accessLevel. cbv zeta.
  set (l1 := if u then set_global_time l (wrap (global_time l + 1)) else l).
  assert (E1 : sets l1 = sets l /\ evictions l1 = evictions l
                /\ forall x, extractSetIndex l1 x = extractSetIndex l x)
    by (subst l1; destruct u; repeat split).
  destruct E1 as (Es & Ee & Ei). rewrite Ei. clearbody l1.
  destruct (sets l1 !! Z.to_nat (extractSetIndex l a)) as [s|] eqn:Hs.
  2:{ rewrite Es, Ee. repeat split; auto. }
  destruct (find_index (is_hit (extractTag l1 a)) (blocks s)) as [i|].
  - destruct u.
    + unfold store_set. cbn. rewrite Ee. split; [|split; [exact Ei|auto 6]].
      intros k Hk. rewrite list_lookup_insert_ne by congruence. now rewrite Es.
    + rewrite Es, Ee. repeat split; auto.
  - set (l2 := if u then set_misses l1 (wrap (misses l1 + 1)) else l1).
    assert (E2 : sets l2 = sets l /\ evictions l2 = evictions l
                  /\ forall x, extractSetIndex l2 x = extractSetIndex l x)
      by (subst l2; destruct u; repeat split; assumption).
    destruct E2 as (Es2 & Ee2 & Ei2). clearbody l2.
    destruct al; cbn [negb].
    2:{ rewrite Es2, Ee2. repeat split; auto. }
    pose proof (select_victim_evictions l2 s (extractSetIndex l a) r) as Hsel.
    destruct (select_victim l2 s (extractSetIndex l a) r) as [[[v s'] l3] r3].
    destruct Hsel as (S1 & _ & _ & _ & _ & R1 & R2 & R3 & Hev & Hshape).
    unfold store_set. cbn. split; [|split].
    + intros k Hk. rewrite list_lookup_insert_ne by congruence. now rewrite S1, Es2.
    + intros x. change (extractSetIndex l3 x = extractSetIndex l x).
      now rewrite Hshape, Ei2.
    + rewrite R1, R2, R3. repeat split.
      destruct Hev as [[-> ->]|[He ->]]; [left; auto|right]. rewrite Ee2. auto.
Qed.

(** One access: the sets it leaves alone, and its evictions. *)
Lemma access_frame c a :
  let '(r, c') := access c a in
  (forall k, k <> Z.to_nat (extractSetIndex (l1_cache c) a) ->
     sets (l1_cache c') !! k = sets (l1_cache c) !! k)
  /\ (forall k, k <> Z.to_nat (extractSetIndex (l2_cache c) a) ->
        sets (l2_cache c') !! k = sets (l2_cache c) !! k)
  /\ exists e1 e2 : bool,
       evictions (l1_cache c')
       = (if e1 then wrap (evictions (l1_cache c) + 1) else evictions (l1_cache c))
       /\ evictions (l2_cache c')
          = (if e2 then wrap (evictions (l2_cache c) + 1) else evictions (l2_cache c))
       /\ length (events r) = ((if e1 then 1 else 0) + (if e2 then 1 else 0))%nat.
Proof.
  unfold access.
  pose proof (accessLevel_frame (l1_cache c) a (mkReport false false false []) true false) as F1.
  destruct (accessLevel (l1_cache c) a _ true false) as [[h1 l1] r1].
  destruct F1 as (S1 & I1 & _ & _ & _ & [[Ev1 Ec1]|(? & _)]); [|discriminate].
  cbn [events] in Ev1.
  destruct h1.
  { cbn [l1_cache l2_cache]. split; [exact S1|]. split; [reflexivity|].
    exists false, false. cbn [events with_l1Hit]. rewrite Ev1. auto. }
  pose proof (accessLevel_frame (l2_cache c) a
                (with_l2Accessed (with_l1Hit r1 false) true) true false) as F2.
  destruct (accessLevel (l2_cache c) a _ true false) as [[h2 l2] r2].
  destruct F2 as (S2 & I2 & _ & _ & _ & [[Ev2 Ec2]|(? & _)]); [|discriminate].
  cbn [events with_l2Accessed with_l1Hit] in Ev2. rewrite Ev1 in Ev2.
  destruct h2.
  - pose proof (accessLevel_frame l1 a (with_l2Hit r2 true) false true) as F3.
    destruct (accessLevel l1 a _ false true) as [[h3 l1'] r3].
    destruct F3 as (S3 & _ & _ & _ & _ & Hev3). cbn [l1_cache l2_cache].
    split; [intros k Hk; rewrite S3, S1; auto; now rewrite I1|]. split; [exact S2|].
    cbn [events with_l2Hit] in Hev3. rewrite Ev2 in Hev3.
    destruct Hev3 as [[-> ->]|(_ & _ & [e ->] & ->)].
    + exists false, false. rewrite Ec1, Ec2. auto.
    + exists true, false. rewrite Ec1, Ec2. auto.
  - pose proof (accessLevel_frame l2 a (with_l2Hit r2 false) false true) as F3.
    destruct (accessLevel l2 a _ false true) as [[h3 l2'] r3].
    destruct F3 as (S3 & _ & _ & _ & _ & Hev3).
    pose proof (accessLevel_frame l1 a r3 false true) as F4.
    destruct (accessLevel l1 a r3 false true) as [[h4 l1'] r4].
    destruct F4 as (S4 & _ & _ & _ & _ & Hev4). cbn [l1_cache l2_cache].
    split; [intros k Hk; rewrite S4, S1; auto; now rewrite I1|].
    split; [intros k Hk; rewrite S3, S2; auto; now rewrite I2|].
    cbn [events with_l2Hit] in Hev3. rewrite Ev2 in Hev3. rewrite Ec1 in Hev4. rewrite Ec2 in Hev3.
    destruct Hev3 as [[E3 ->]|(_ & _ & [e3 E3] & ->)];
      destruct Hev4 as [[E4 ->]|(_ & _ & [e4 E4] & ->)]; rewrite E4, E3.
    + exists false, false. auto.
    + exists true, false. auto.
    + exists false, true. auto.
    + exists true, true. auto.
Qed.

Lemma run_evictions calls : forall c c' rs (N : Z),
  run c calls = (c', rs) ->
  0 <= evictions (l1_cache c) <= N -> 0 <= evictions (l2_cache c) <= N ->
  N + Z.of_nat (length rs) < size_t_modulus ->
  evictions (l1_cache c') + evictions (l2_cache c')
  = evictions (l1_cache c) + evictions (l2_cache c) + eviction_events rs
  /\ 0 <= evictions (l1_cache c') <= N + Z.of_nat (length rs)
  /\ 0 <= evictions (l2_cache c') <= N + Z.of_nat (length rs).
Proof.
  induction calls as [|call calls IH]; intros c c' rs N H H1 H2 HN.
  - injection H as <- <-. unfold eviction_events. simpl. lia.
  - destruct call as [a|p|lv p]; simpl in H.
    + pose proof (access_frame c a) as F.
      destruct (access c a) as [r c1]. destruct (run c1 calls) as [c2 rs'] eqn:Er.
      injection H as <- <-. cbn [length] in *.
      destruct F as (_ & _ & e1 & e2 & E1 & E2 & El).
      assert (B1 : evictions (l1_cache c1) = evictions (l1_cache c) + (if e1 then 1 else 0)).
      { rewrite E1. destruct e1; [apply wrap_small|]; lia. }
      assert (B2 : evictions (l2_cache c1) = evictions (l2_cache c) + (if e2 then 1 else 0)).
      { rewrite E2. destruct e2; [apply wrap_small|]; lia. }
      destruct (IH c1 c2 rs' (N + 1) Er) as (Es & R1 & R2);
        [destruct e1; lia|destruct e2; lia|lia|].
      unfold eviction_events in *. cbn [map concat]. rewrite length_app.
      destruct e1, e2; lia.
    + apply (IH (setReplacementPolicy c p)); auto.
    + unfold setReplacementPolicyLevel in H.
      destruct (lv =? 1); [|destruct (lv =? 2)]; apply (IH _ c' rs N) in H; auto.
Qed.

Lemma initCacheLevel_evictions n sz bs assoc p l :
  initCacheLevel n sz bs assoc p = Some l -> evictions l = 0.
Proof.
  unfold initCacheLevel. destruct (_ =? 0); [discriminate|].
  destruct (_ || _); [discriminate|]. now intros [= <-].
Qed.

(** X19: after any sequence of calls on a hierarchy just built, the
    eviction counters of the two levels add up to the number of eviction
    events the accesses have reported. *)
Theorem evictions_match_events s1 b1 a1 s2 b2 a2 p c0 calls c rs :
  new_CacheSimulator s1 b1 a1 s2 b2 a2 p = Some c0 ->
  run c0 calls = (c, rs) ->
  Z.of_nat (length rs) < size_t_modulus ->
  evictions (l1_cache c) + evictions (l2_cache c) = eviction_events rs.
Proof.
  intros Hnew Hrun Hlen. unfold new_CacheSimulator in Hnew.
  destruct (initCacheLevel 1 s1 b1 a1 p) as [l1|] eqn:E1; [|discriminate].
  destruct (initCacheLevel 2 s2 b2 a2 p) as [l2|] eqn:E2; [|discriminate].
  injection Hnew as <-.
  apply initCacheLevel_evictions in E1, E2.
  destruct (run_evictions calls _ c rs 0 Hrun) as (E & _); cbn [l1_cache l2_cache] in *; lia.
Qed.

Lemma evictions_match_events_witness :
  let calls := [CallAccess 0; CallAccess 128; CallAccess 256; CallSetPolicy LRU;
                CallAccess 384; CallAccess 0] in
  let c := fst (run (small_cache FIFO) calls) in
  let rs := snd (run (small_cache FIFO) calls) in
  evictions (l1_cache c) + evictions (l2_cache c) = eviction_events rs.
Proof.
  intros calls c rs.
  apply (evictions_match_events 128 16 2 1024 16 4 FIFO (small_cache FIFO) calls c rs).
  - reflexivity.
  - subst c rs. apply surjective_pairing.
  - vm_compute. reflexivity.
Defined.

(** X18: an access changes, at each level, no set other than the one the
    address maps to. *)
Theorem access_touches_one_set c a k1 k2 :
  k1 <> Z.to_nat (extractSetIndex (l1_cache c) a) ->
  k2 <> Z.to_nat (extractSetIndex (l2_cache c) a) ->
  sets (l1_cache (snd (access c a))) !! k1 = sets (l1_cache c) !! k1
  /\ sets (l2_cache (snd (access c a))) !! k2 = sets (l2_cache c) !! k2.
Proof.
  intros H1 H2. pose proof (access_frame c a) as F.
  destruct (access c a) as [r c']. destruct F as (F1 & F2 & _). cbn [snd]. auto.
Qed.

Lemma access_touches_one_set_witness :
  let c := fst (run (small_cache LRU) [CallAccess 16; CallAccess 80]) in
  sets (l1_cache (snd (access c 0))) !! 1%nat = sets (l1_cache c) !! 1%nat
  /\ sets (l2_cache (snd (access c 0))) !! 1%nat = sets (l2_cache c) !! 1%nat.
Proof.
  intros c. apply (access_touches_one_set c 0 1 1); vm_compute; discriminate.
Defined.

Lemma find_index_from_found {A} (p : A -> bool) l : forall k i x,
  l !! i = Some x -> p x = true -> exists j, find_index_from p l k = Some j.
Proof.
  induction l as [|y l IH]; intros k i x Hi Hp; [discriminate|]. simpl.
  destruct (p y) eqn:Hy; [eauto|].
  destruct i as [|i]; simpl in Hi.
  - injection Hi as ->. congruence.
  - eapply IH; eauto.
Qed.

(** A counting probe for an address whose line is present hits, and
    leaves the report as it is. *)
Lemma present_probe_hits l a r :
  level_ok l -> present l a ->
  exists l', accessLevel l a r true false = (true, l', r).
Proof.
  intros _ (s & i & b & Hs & Hb & Hhit). unfold accessLevel. cbv zeta.
  unfold addressed in Hs.
  change (extractSetIndex (set_global_time l _) a) with (extractSetIndex l a).
  change (extractTag (set_global_time l _) a) with (extractTag l a).
  change (sets (set_global_time l ?t)) with (sets l). rewrite Hs.
  destruct (find_index_from_found (is_hit (extractTag l a)) (blocks s) 0 i b Hb Hhit)
    as [j Hj].
  unfold find_index. rewrite Hj. eauto.
Qed.

(** After a counting probe that hit, the line is still present. *)
Lemma probe_hit_present l a r l' r' :
  accessLevel l a r true false = (true, l', r') -> present l' a.
Proof.
  unfold accessLevel. cbv zeta.
  set (l1 := set_global_time l (wrap (global_time l + 1))).
  destruct (sets l1 !! Z.to_nat (extractSetIndex l1 a)) as [s|] eqn:Hs; [|discriminate].
  destruct (find_index (is_hit (extractTag l1 a)) (blocks s)) as [i|] eqn:Hf; [|discriminate].
  intros [= <- _]. apply find_index_Some in Hf as (b & Hb & Hhit & _).
  set (lh := set_hits l1 (wrap (hits l1 + 1))).
  assert (Hlt : (Z.to_nat (extractSetIndex l1 a) < length (sets l1))%nat)
    by (apply lookup_lt_is_Some; eauto).
  unfold present, addressed.
  change (extractSetIndex (store_set lh _ _) a) with (extractSetIndex l1 a).
  change (extractTag (store_set lh _ _) a) with (extractTag l1 a).
  unfold store_set. cbn [sets set_sets]. change (sets lh) with (sets l1).
  rewrite list_lookup_insert_eq by exact Hlt.
  unfold is_hit in Hhit |- *.
  unfold updateReplacementData. change (policy lh) with (policy l).
  destruct (policy l); (eexists _, i, _; split; [reflexivity|]);
    unfold set_blocks, set_lruList; cbn [blocks].
  - split; [exact Hb|exact Hhit].
  - rewrite list_lookup_alter_eq, Hb. split; [reflexivity|exact Hhit].
  - rewrite list_lookup_alter_eq, Hb. split; [reflexivity|exact Hhit].
Qed.

(** After an access, the line of the address is present at L1. *)
Lemma access_present c a r c' :
  cache_ok c -> global_time (l1_cache c) + 1 < size_t_modulus ->
  access c a = (r, c') -> present (l1_cache c') a.
Proof.
  intros (Hok1 & Hok2 & Hle) Hbound H. unfold access in H.
  destruct (accessLevel (l1_cache c) a _ true false) as [[h1 l1] r1] eqn:E1.
  destruct (accessLevel_probe _ _ _ _ _ _ Hok1 Hbound E1)
    as (-> & Hok1' & Hsh1 & Hg1 & _ & Hmiss1).
  assert (Hfill : forall rr h3 l1' r3,
            accessLevel l1 a rr false true = (h3, l1', r3) -> h1 = false -> present l1' a).
  { intros rr h3 l1' r3 E3 ->. specialize (Hmiss1 eq_refl).
    assert (Hm1 : forall s i b, addressed l1 a = Some s -> blocks s !! i = Some b ->
                    is_hit (extractTag l1 a) b = false).
    { intros s i b Hs Hb. now apply (Hmiss1 s i b). }
    destruct (accessLevel_fill _ _ _ _ _ _ Hok1' Hm1 E3)
      as (_ & _ & Hsh & _ & _ & _ & s & v & b0 & s' & Hs & Hb0 & Hs' & Hbl & _).
    exists s', v, (filled_line (policy l1) (extractTag l1 a) (global_time l1)).
    split; [exact Hs'|]. rewrite Hbl. split.
    - apply list_lookup_insert_eq. apply lookup_lt_is_Some. eauto.
    - rewrite (same_shape_tag _ _ a Hsh). unfold is_hit, filled_line. cbn.
      now rewrite Z.eqb_refl. }
  destruct h1.
  - injection H as _ <-. cbn [l1_cache]. eapply probe_hit_present; eauto.
  - destruct (accessLevel (l2_cache c) a _ true false) as [[h2 l2] r2] eqn:E2.
    destruct h2.
    + destruct (accessLevel l1 a _ false true) as [[h3 l1'] r3] eqn:E3.
      injection H as _ <-. cbn [l1_cache]. eapply Hfill; eauto.
    + destruct (accessLevel l2 a _ false true) as [[h3 l2'] r3] eqn:E3.
      destruct (accessLevel l1 a r3 false true) as [[h4 l1'] r4] eqn:E4.
      injection H as _ <-. cbn [l1_cache]. eapply Hfill; eauto.
Qed.

(** X17: in a hierarchy built from [size_t] parameters and after any
    sequence of calls, an access to [a] leaves the line of [a] in L1: the
    next access to any address with the tag and set index of [a] is an L1
    hit, reports no event, and leaves L2 as it is. *)
Theorem reaccess_hits_l1 s1 b1 a1 s2 b2 a2 p c0 calls c rs a r c' a' :
  is_size_t s1 -> is_size_t a1 -> is_size_t s2 -> is_size_t a2 ->
  new_CacheSimulator s1 b1 a1 s2 b2 a2 p = Some c0 ->
  run c0 calls = (c, rs) ->
  Z.of_nat (length rs) + 2 < size_t_modulus ->
  access c a = (r, c') ->
  extractTag (l1_cache c) a' = extractTag (l1_cache c) a ->
  extractSetIndex (l1_cache c) a' = extractSetIndex (l1_cache c) a ->
  fst (access c' a') = mkReport true false false []
  /\ l2_cache (snd (access c' a')) = l2_cache c'.
Proof.
  intros Hs1 Ha1 Hs2 Ha2 Hnew Hrun Hlen Hacc Htag Hidx.
  destruct (new_CacheSimulator_ok _ _ _ _ _ _ _ _ Hs1 (proj1 Ha1) Hs2 (proj1 Ha2) Hnew)
    as (Hok & Hg1 & Hg2).
  destruct (run_spec calls c0 c rs Hok Hrun) as (Hok' & Hg1' & Hg2'); [lia|].
  destruct (access_spec c a r c' Hok') as (Hok'' & Hsh & _); auto; [lia|].
  pose proof (access_present c a r c' Hok' ltac:(lia) Hacc) as Hp.
  assert (Hp' : present (l1_cache c') a').
  { destruct Hp as (s & i & b & Hs & Hb & Hhit). exists s, i, b.
    unfold addressed in *.
    rewrite (same_shape_index _ _ a' Hsh), (same_shape_tag _ _ a' Hsh), Hidx, Htag.
    rewrite <- (same_shape_index _ _ a Hsh), <- (same_shape_tag _ _ a Hsh). auto. }
  destruct (present_probe_hits (l1_cache c') a' (mkReport false false false [])
              (proj1 Hok'') Hp') as [l' E].
  unfold access. rewrite E. cbn. auto.
Qed.

Lemma reaccess_hits_l1_witness :
  let calls := [CallAccess 0; CallAccess 128; CallSetPolicy LFU; CallAccess 256] in
  let c := fst (run (small_cache FIFO) calls) in
  let c' := snd (access c 384) in
  fst (access c' 391) = mkReport true false false []
  /\ l2_cache (snd (access c' 391)) = l2_cache c'.
Proof.
  intros calls c c'.
  apply (reaccess_hits_l1 128 16 2 1024 16 4 FIFO (small_cache FIFO) calls c
           (snd (run (small_cache FIFO) calls)) 384 (fst (access c 384)) c' 391).
  - size_t_bounds.
  - size_t_bounds.
  - size_t_bounds.
  - size_t_bounds.
  - reflexivity.
  - subst c. apply surjective_pairing.
  - vm_compute. reflexivity.
  - subst c'. apply surjective_pairing.
  - vm_compute. reflexivity.
  - vm_compute. reflexivity.
Defined.

(** [scan_min] returns the first index of least key. *)
Lemma scan_min_spec key bs : forall pre victim best bv,
  pre !! victim = Some bv -> key bv = best ->
  (forall j b, pre !! j = Some b -> best <= key b) ->
  (forall j b, (j < victim)%nat -> pre !! j = Some b -> best < key b) ->
  exists b,
    (pre ++ bs) !! scan_min key bs (length pre) victim best = Some b
    /\ (forall j b', (pre ++ bs) !! j = Some b' -> key b <= key b')
    /\ (forall j b', (j < scan_min key bs (length pre) victim best)%nat ->
          (pre ++ bs) !! j = Some b' -> key b < key b').
Proof.
  induction bs as [|x bs IH]; intros pre victim best bv Hv Hk Hall Hfirst.
  - simpl. rewrite app_nil_r. exists bv. subst best. auto.
  - cbn [scan_min].
    replace (pre ++ x :: bs) with ((pre ++ [x]) ++ bs) by (now rewrite <- app_assoc).
    replace (S (length pre)) with (length (pre ++ [x])) by (rewrite length_app; simpl; lia).
    destruct (Z.ltb_spec (key x) best) as [Hlt|Hge].
    + apply (IH (pre ++ [x]) (length pre) (key x) x).
      * rewrite lookup_app_r by lia. now rewrite Nat.sub_diag.
      * reflexivity.
      * intros j b Hj. apply lookup_app_Some in Hj as [Hj|[_ Hj]].
        -- specialize (Hall j b Hj). lia.
        -- destruct (j - length pre)%nat; [|discriminate]. injection Hj as <-. lia.
      * intros j b Hjl Hj. rewrite lookup_app_l in Hj by exact Hjl.
        specialize (Hall j b Hj). lia.
    + apply (IH (pre ++ [x]) victim best bv).
      * rewrite lookup_app_l; [exact Hv|]. apply lookup_lt_is_Some; eauto.
      * exact Hk.
      * intros j b Hj. apply lookup_app_Some in Hj as [Hj|[_ Hj]]; [eauto|].
        destruct (j - length pre)%nat; [|discriminate]. injection Hj as <-. lia.
      * intros j b Hjl Hj. assert (victim < length pre)%nat by (apply lookup_lt_is_Some; eauto).
        rewrite lookup_app_l in Hj by lia. eauto.
Qed.

Lemma scan_min_first key (l : list CacheBlock) b0 rest :
  l = b0 :: rest ->
  exists b,
    l !! scan_min key rest 1 0 (key b0) = Some b
    /\ (forall j b', l !! j = Some b' -> key b <= key b')
    /\ (forall j b', (j < scan_min key rest 1 0 (key b0))%nat ->
          l !! j = Some b' -> key b < key b').
Proof.
  intros ->. apply (scan_min_spec key rest [b0] 0%nat (key b0) b0); auto.
  - intros [|j] b Hj; simpl in Hj; [injection Hj as <-; lia|discriminate].
  - intros j b Hj. lia.
Qed.

(** X21: [findVictimLRU] picks, in a set with at least one way, a way whose
    [last_access] is least, and the lowest such way. *)
Theorem lru_victim_is_least_recent s :
  blocks s <> [] ->
  exists b,
    blocks s !! fst (findVictimLRU s) = Some b
    /\ (forall j b', blocks s !! j = Some b' -> last_access b <= last_access b')
    /\ (forall j b', (j < fst (findVictimLRU s))%nat -> blocks s !! j = Some b' ->
          last_access b < last_access b').
Proof.
  intros Hne. unfold findVictimLRU. cbn [fst].
  destruct (blocks s) as [|b0 rest] eqn:E; [contradiction|].
  now apply scan_min_first.
Qed.

Lemma lru_victim_is_least_recent_witness :
  exists b,
    blocks two_lines !! fst (findVictimLRU two_lines) = Some b
    /\ (forall j b', blocks two_lines !! j = Some b' -> last_access b <= last_access b')
    /\ (forall j b', (j < fst (findVictimLRU two_lines))%nat ->
          blocks two_lines !! j = Some b' -> last_access b < last_access b').
Proof. apply (lru_victim_is_least_recent two_lines). discriminate. Defined.

(** X22: [findVictimLFU] picks, in a set with at least one way, a way whose
    [access_count] is least, and the lowest such way. *)
Theorem lfu_victim_is_least_used s :
  blocks s <> [] ->
  exists b,
    blocks s !! findVictimLFU s = Some b
    /\ (forall j b', blocks s !! j = Some b' -> access_count b <= access_count b')
    /\ (forall j b', (j < findVictimLFU s)%nat -> blocks s !! j = Some b' ->
          access_count b < access_count b').
Proof.
  intros Hne. unfold findVictimLFU.
  destruct (blocks s) as [|b0 rest] eqn:E; [contradiction|].
  now apply scan_min_first.
Qed.

Lemma lfu_victim_is_least_used_witness :
  exists b,
    blocks two_lines !! findVictimLFU two_lines = Some b
    /\ (forall j b', blocks two_lines !! j = Some b' -> access_count b <= access_count b')
    /\ (forall j b', (j < findVictimLFU two_lines)%nat ->
          blocks two_lines !! j = Some b' -> access_count b < access_count b').
Proof. apply (lfu_victim_is_least_used two_lines). discriminate. Defined.

(** The masks [(1ULL << bits) - 1] for up to 64 bits. *)
Lemma mask_ones k : 0 <= k <= 64 -> wrap (wrap (Z.shiftl 1 k) - 1) = Z.ones k.
Proof.
  intros Hk. rewrite Z.shiftl_1_l, Z.ones_equiv.
  destruct (Z.eq_dec k 64) as [->|Hne].
  - reflexivity.
  - assert (0 < 2 ^ k < size_t_modulus).
    { split; [apply Z.pow_pos_nonneg; lia|].
      unfold size_t_modulus, size_t_width. apply Z.pow_lt_mono_r; lia. }
    rewrite (wrap_small (2 ^ k)) by lia. rewrite wrap_small; lia.
Qed.



(** *** FIFO order *)

Lemma fifo_set_mono T T' s : T <= T' -> fifo_set T s -> fifo_set T' s.
Proof.
  intros HT (H1 & H2 & m & ord & Hm & Hv & Hin & Hnd & Hs & Hl & Hq).
  split; [exact H1|]. split; [exact H2|]. exists m, ord. repeat split; auto; try apply Hin.
  intros i Hi. specialize (Hl i Hi). lia.
Qed.

Lemma fifo_set_empty T assoc : 0 < assoc -> fifo_set T (empty_set assoc).
Proof.
  intros Ha. unfold fifo_set, empty_set. cbn [blocks associativity fifoQueue].
  rewrite length_replicate. split; [reflexivity|]. split; [lia|].
  exists 0%nat, []. split; [lia|]. split.
  - intros i b Hb. apply lookup_replicate in Hb as [-> _]. reflexivity.
  - split; [intros i; simpl; split; [tauto|lia]|]. split; [constructor|].
    split; [constructor|]. split; [intros i Hi; lia|].
    destruct (decide (0%nat = Z.to_nat assoc)); [lia|auto].
Qed.

Lemma StronglySorted_ext {A} (R R' : A -> A -> Prop) l :
  (forall x y, In x l -> In y l -> R x y -> R' x y) ->
  StronglySorted R l -> StronglySorted R' l.
Proof.
  intros Hr Hs. induction Hs as [|x l Hs IH Hall]; constructor.
  - apply IH. intros a b Ha Hb. apply Hr; now right.
  - apply Forall_forall. intros y Hy. apply Hr; [now left|right; now apply list_elem_of_In|].
    exact (proj1 (Forall_forall _ _) Hall y Hy).
Qed.

Lemma load_insert_ne bs v nb i : i <> v -> load (<[v := nb]> bs) i = load bs i.
Proof.
  intros Hne. unfold load. f_equal.
  destruct (bs !! i) as [x|] eqn:Hx.
  - rewrite (nth_lookup_Some _ _ _ x Hx). apply nth_lookup_Some.
    rewrite list_lookup_insert_ne by congruence. exact Hx.
  - assert (Hlen : (length bs <= i)%nat) by now apply lookup_ge_None.
    rewrite !nth_overflow; [reflexivity|exact Hlen|now rewrite length_insert].
Qed.

Lemma load_insert_eq bs v nb :
  (v < length bs)%nat -> load (<[v := nb]> bs) v = load_time nb.
Proof.
  intros Hv. unfold load. f_equal. apply nth_lookup_Some.
  now apply list_lookup_insert_eq.
Qed.

(** The line loaded at time [T] into way [v] of a set whose loads are all
    before [T]: [ord'] lists the ways of [ord] other than [v], then [v]. *)
Lemma sorted_after_fill bs v nb T ord' :
  (v < length bs)%nat -> load_time nb = T ->
  ~ In v ord' ->
  (forall i, In i ord' -> load bs i < T) ->
  StronglySorted (fun i j => load bs i < load bs j) ord' ->
  StronglySorted (fun i j => load (<[v := nb]> bs) i < load (<[v := nb]> bs) j)
    (ord' ++ [v]).
Proof.
  intros Hv Hnb Hnin Hold Hs. apply StronglySorted_app_2.
  - intros x y Hx Hy. apply list_elem_of_In in Hx.
    apply list_elem_of_In in Hy. destruct Hy as [<-|[]].
    assert (x <> v) by (intros ->; contradiction).
    rewrite load_insert_ne by assumption. rewrite load_insert_eq by assumption.
    rewrite Hnb. now apply Hold.
  - apply (StronglySorted_ext (fun i j => load bs i < load bs j)); [|exact Hs].
    intros x y Hx Hy Hlt.
    rewrite !load_insert_ne; [exact Hlt| |]; intros ->; contradiction.
  - repeat constructor.
Qed.

Lemma findVictimFIFO_queue s :
  findVictimFIFO s
  = (hd 0%nat (queue s), set_fifoQueue s (tl (queue s) ++ [hd 0%nat (queue s)])).
Proof. reflexivity. Qed.

(** The fill of a set that has run FIFO, at a time after all its loads. *)
Lemma fill_fifo_set T0 T l s idx r v sv l' r' tg :
  fifo_set T0 s -> T0 < T -> policy l = FIFO ->
  select_victim l s idx r = (v, sv, l', r') ->
  fifo_set T (set_blocks sv (<[v := mkCacheBlock true tg T T 1]> (blocks sv)))
  /\ policy l' = FIFO /\ global_time l' = global_time l /\ sets l' = sets l.
Proof.
  intros (Hlen & Hpos & m & ord & Hm & Hv & Hin & Hnd & Hs & Hl & Hq) HT Hp Hsel.
  unfold select_victim in Hsel.
  destruct (decide (m = length (blocks s))) as [Hfull|Hpart].
  - (* the set is full *)
    assert (Hnone : find_index (fun b => negb (valid b)) (blocks s) = None).
    { apply find_index_from_all_false. intros j y Hy. rewrite (Hv j y Hy).
      rewrite bool_decide_eq_true_2; [reflexivity|].
      subst m. apply lookup_lt_is_Some. eauto. }
    rewrite Hnone in Hsel. cbn [default] in Hsel. rewrite Nat.eqb_refl, Hp in Hsel.
    rewrite findVictimFIFO_queue, Hq in Hsel.
    assert (H0 : In 0%nat ord) by (apply Hin; lia).
    destruct ord as [|w q']; [destruct H0|]. cbn [hd tl] in Hsel.
    injection Hsel as <- <- <- <-.
    assert (Hw : (w < length (blocks s))%nat) by (rewrite <- Hfull; apply Hin; now left).
    apply NoDup_cons_iff in Hnd as [Hwq Hndq].
    apply StronglySorted_inv in Hs as [Hsq Hwlt].
    split; [|repeat split; assumption].
    unfold fifo_set, set_blocks, set_fifoQueue.
    cbn [blocks associativity fifoQueue]. rewrite length_insert.
    split; [exact Hlen|]. split; [exact Hpos|].
    exists m, (q' ++ [w]). split; [exact Hm|]. split; [|split; [|split; [|split; [|split]]]].
    + intros i b Hb. destruct (decide (i = w)) as [->|Hne].
      * rewrite list_lookup_insert_eq in Hb by exact Hw. injection Hb as <-.
        cbn. symmetry. apply bool_decide_eq_true_2. lia.
      * rewrite list_lookup_insert_ne in Hb by congruence. eauto.
    + intros i. rewrite <- Hin, in_app_iff. simpl. tauto.
    + apply NoDup_ListNoDup, NoDup_app. split; [now apply NoDup_ListNoDup|].
      split; [|apply NoDup_singleton].
      intros x Hx Hx'. apply list_elem_of_In in Hx. apply list_elem_of_In in Hx'.
      destruct Hx' as [<-|[]]. contradiction.
    + apply (sorted_after_fill _ _ _ T); auto.
      intros i Hi. assert (load (blocks s) i <= T0); [|lia].
      apply Hl, Hin. now right.
    + intros i Hi. destruct (decide (i = w)) as [->|Hne].
      * rewrite load_insert_eq by exact Hw. cbn. lia.
      * rewrite load_insert_ne by exact Hne. specialize (Hl i Hi). lia.
    + rewrite decide_True by exact Hfull. unfold queue. cbn [fifoQueue].
      destruct q'; reflexivity.
  - (* a way is still invalid: way [m] *)
    destruct Hq as [Hq ->].
    assert (Hmlt : (m < length (blocks s))%nat) by lia.
    destruct (lookup_lt_is_Some_2 _ _ Hmlt) as [bm Hbm].
    assert (Hbmv : valid bm = false).
    { rewrite (Hv m bm Hbm). apply bool_decide_eq_false_2. lia. }
    destruct (find_index_from_found (fun b => negb (valid b)) (blocks s) 0 m bm Hbm)
      as [j Hj]; [now rewrite Hbmv|].
    fold (find_index (fun b => negb (valid b)) (blocks s)) in Hj.
    pose proof (find_index_Some _ _ _ Hj) as (x & Hx & Hxv & Hbefore).
    assert (Hjm : j = m).
    { assert (m <= j)%nat.
      { destruct (le_lt_dec m j) as [|Hlt]; [assumption|].
        rewrite (Hv j x Hx), bool_decide_eq_true_2 in Hxv by exact Hlt. discriminate. }
      destruct (Nat.eq_dec j m) as [|Hne]; [assumption|].
      assert (Hlt : (m < j)%nat) by lia.
      pose proof (Hbefore m bm Hlt Hbm) as Hc. cbn in Hc. rewrite Hbmv in Hc.
      discriminate. }
    subst j. rewrite Hj in Hsel. cbn [default] in Hsel.
    assert (Hneq : Nat.eqb m (associativity s) = false) by (apply Nat.eqb_neq; lia).
    unfold id in Hsel. rewrite Hneq in Hsel. injection Hsel as <- <- <- <-.
    split; [|repeat split; assumption].
    unfold fifo_set, set_blocks. cbn [blocks associativity fifoQueue].
    rewrite length_insert.
    split; [exact Hlen|]. split; [exact Hpos|].
    exists (S m), (seq 0 m ++ [m]).
    split; [lia|]. split; [|split; [|split; [|split; [|split]]]].
    + intros i b Hb. destruct (decide (i = m)) as [->|Hne].
      * rewrite list_lookup_insert_eq in Hb by exact Hmlt. injection Hb as <-.
        cbn. symmetry. apply bool_decide_eq_true_2. lia.
      * rewrite list_lookup_insert_ne in Hb by congruence. rewrite (Hv i b Hb).
        apply bool_decide_ext. lia.
    + intros i. rewrite in_app_iff, in_seq. simpl. lia.
    + rewrite <- seq_S. apply seq_NoDup.
    + apply (sorted_after_fill _ _ _ T); auto.
      * rewrite in_seq. lia.
      * intros i Hi. apply in_seq in Hi. assert (load (blocks s) i <= T0); [|lia].
        apply Hl. lia.
    + intros i Hi. destruct (decide (i = m)) as [->|Hne].
      * rewrite load_insert_eq by exact Hmlt. cbn. lia.
      * rewrite load_insert_ne by exact Hne. assert (load (blocks s) i <= T0); [|lia].
        apply Hl. lia.
    + rewrite <- seq_S. unfold queue. cbn [fifoQueue blocks]. rewrite Hq, length_insert.
      destruct (decide (S m = length (blocks s))) as [->|]; auto.
Qed.

(** A counting probe of a level that runs FIFO changes no set. *)
Lemma probe_fifo l a r h l' r' :
  policy l = FIFO -> 0 <= global_time l -> global_time l + 1 < size_t_modulus ->
  accessLevel l a r true false = (h, l', r') ->
  sets l' = sets l /\ policy l' = FIFO /\ global_time l' = global_time l + 1.
Proof.
  intros Hp Hg0 Hg1. unfold accessLevel. cbv zeta.
  rewrite (wrap_small (global_time l + 1)) by lia.
  set (l1 := set_global_time l (global_time l + 1)).
  change (sets l1) with (sets l). change (extractSetIndex l1 a) with (extractSetIndex l a).
  destruct (sets l !! Z.to_nat (extractSetIndex l a)) as [s|] eqn:Hs.
  2:{ intros [= _ <- _]. repeat split; assumption. }
  destruct (find_index (is_hit (extractTag l1 a)) (blocks s)) as [i|].
  - intros [= _ <- _]. unfold store_set.
    change (policy (set_hits l1 (wrap (hits l1 + 1)))) with (policy l). rewrite Hp.
    cbn [updateReplacementData sets set_sets policy global_time]. split; [|split].
    + change (sets (set_hits l1 (wrap (hits l1 + 1)))) with (sets l).
      now apply list_insert_id.
    + exact Hp.
    + reflexivity.
  - intros [= _ <- _]. repeat split; assumption.
Qed.

(** A fill of a level that runs FIFO, after the probe that moved its
    clock. *)
Lemma fill_fifo l a r h l' r' :
  policy l = FIFO ->
  (forall k s, sets l !! k = Some s -> fifo_set (global_time l - 1) s) ->
  accessLevel l a r false true = (h, l', r') ->
  policy l' = FIFO /\ global_time l' = global_time l
  /\ forall k s, sets l' !! k = Some s -> fifo_set (global_time l) s.
Proof.
  intros Hp Hsets. unfold accessLevel. cbv zeta.
  assert (Hold : forall k s, sets l !! k = Some s -> fifo_set (global_time l) s).
  { intros k s Hs. apply (fifo_set_mono (global_time l - 1)); [lia|eauto]. }
  destruct (sets l !! Z.to_nat (extractSetIndex l a)) as [s|] eqn:Hs.
  2:{ intros [= _ <- _]. auto. }
  destruct (find_index (is_hit (extractTag l a)) (blocks s)) as [i|].
  { intros [= _ <- _]. auto. }
  cbn [negb].
  destruct (select_victim l s (extractSetIndex l a) r) as [[[v sv] l3] r3] eqn:Hsel.
  destruct (fill_fifo_set (global_time l - 1) (global_time l) l s _ r v sv l3 r3
              (extractTag l a) (Hsets _ _ Hs) ltac:(lia) Hp Hsel)
    as (Hset & Hp3 & Hg3 & Hs3).
  intros [= _ <- _]. rewrite Hp3, Hg3. cbn [updateReplacementData].
  unfold store_set. cbn [policy global_time sets set_sets]. rewrite Hs3.
  split; [exact Hp3|]. split; [exact Hg3|].
  intros k s' Hk. rewrite list_lookup_insert in Hk. case_decide.
  - injection Hk as <-. exact Hset.
  - eauto.
Qed.

Lemma access_fifo N c a r c' :
  fifo_level N (l1_cache c) -> fifo_level N (l2_cache c) -> N + 1 < size_t_modulus ->
  access c a = (r, c') ->
  fifo_level (N + 1) (l1_cache c') /\ fifo_level (N + 1) (l2_cache c').
Proof.
  intros (Hp1 & Hg1 & Hs1) (Hp2 & Hg2 & Hs2) HN H. unfold access in H.
  assert (Hkeep : forall l, fifo_level N l -> fifo_level (N + 1) l).
  { intros l (Hp & Hg & Hs). split; [exact Hp|]. split; [lia|exact Hs]. }
  assert (Hprobe : forall l rr h l' r',
            fifo_level N l -> accessLevel l a rr true false = (h, l', r') ->
            fifo_level (N + 1) l'
            /\ policy l' = FIFO
            /\ forall k s, sets l' !! k = Some s -> fifo_set (global_time l' - 1) s).
  { intros l rr h l' r' (Hp & Hg & Hs) E.
    destruct (probe_fifo l a rr h l' r' Hp) as (Es & Ep & Eg); [lia|lia|exact E|].
    split; [|split; [exact Ep|]].
    - split; [exact Ep|]. split; [lia|]. intros k s Hk. rewrite Es in Hk.
      apply (fifo_set_mono (global_time l)); [lia|eauto].
    - intros k s Hk. rewrite Es in Hk. rewrite Eg.
      replace (global_time l + 1 - 1) with (global_time l) by lia. eauto. }
  assert (Hfill : forall l rr h l' r',
            fifo_level (N + 1) l -> policy l = FIFO ->
            (forall k s, sets l !! k = Some s -> fifo_set (global_time l - 1) s) ->
            accessLevel l a rr false true = (h, l', r') -> fifo_level (N + 1) l').
  { intros l rr h l' r' (_ & Hg & _) Hp Hs E.
    destruct (fill_fifo l a rr h l' r' Hp Hs E) as (Ep & Eg & Hs').
    split; [exact Ep|]. split; [lia|]. intros k s Hk. rewrite Eg. eauto. }
  destruct (accessLevel (l1_cache c) a _ true false) as [[h1 l1] r1] eqn:E1.
  destruct (Hprobe _ _ _ _ _ (conj Hp1 (conj Hg1 Hs1)) E1) as (Hl1 & Hp1' & Hs1').
  destruct h1.
  - injection H as _ <-. cbn [l1_cache l2_cache]. split; [exact Hl1|].
    apply Hkeep. exact (conj Hp2 (conj Hg2 Hs2)).
  - destruct (accessLevel (l2_cache c) a _ true false) as [[h2 l2] r2] eqn:E2.
    destruct (Hprobe _ _ _ _ _ (conj Hp2 (conj Hg2 Hs2)) E2) as (Hl2 & Hp2' & Hs2').
    destruct h2.
    + destruct (accessLevel l1 a _ false true) as [[h3 l1'] r3] eqn:E3.
      injection H as _ <-. cbn [l1_cache l2_cache]. split; [|exact Hl2].
      exact (Hfill l1 _ h3 l1' r3 Hl1 Hp1' Hs1' E3).
    + destruct (accessLevel l2 a _ false true) as [[h3 l2'] r3] eqn:E3.
      destruct (accessLevel l1 a r3 false true) as [[h4 l1'] r4] eqn:E4.
      injection H as _ <-. cbn [l1_cache l2_cache]. split.
      * exact (Hfill l1 _ h4 l1' r4 Hl1 Hp1' Hs1' E4).
      * exact (Hfill l2 _ h3 l2' r3 Hl2 Hp2' Hs2' E3).
Qed.

Lemma run_fifo addrs : forall c c' rs N,
  fifo_level N (l1_cache c) -> fifo_level N (l2_cache c) ->
  N + Z.of_nat (length addrs) < size_t_modulus ->
  run c (map CallAccess addrs) = (c', rs) ->
  fifo_level (N + Z.of_nat (length addrs)) (l1_cache c')
  /\ fifo_level (N + Z.of_nat (length addrs)) (l2_cache c').
Proof.
  induction addrs as [|a addrs IH]; intros c c' rs N H1 H2 HN H.
  - injection H as <- _. simpl. rewrite Z.add_0_r. auto.
  - cbn [map run] in H. destruct (access c a) as [r c1] eqn:Ea.
    destruct (run c1 (map CallAccess addrs)) as [c2 rs'] eqn:Er.
    injection H as <- _. cbn [length] in *.
    destruct (access_fifo N c a r c1 H1 H2 ltac:(lia) Ea) as [H1' H2'].
    replace (N + Z.of_nat (S (length addrs))) with (N + 1 + Z.of_nat (length addrs)) by lia.
    apply (IH c1 c2 rs' (N + 1)); auto. lia.
Qed.

Lemma initCacheLevel_fifo n sz bs assoc l :
  0 <= assoc -> initCacheLevel n sz bs assoc FIFO = Some l -> fifo_level 0 l.
Proof.
  intros Ha H. unfold initCacheLevel in H.
  destruct (Z.eqb_spec (wrap (bs * assoc)) 0) as [|Hdiv]; [discriminate|].
  destruct (_ || _); [discriminate|]. injection H as <-.
  assert (Hassoc : 0 < assoc).
  { destruct (Z.eq_dec assoc 0) as [->|]; [|lia].
    rewrite Z.mul_0_r in Hdiv. now contradiction Hdiv. }
  split; [reflexivity|]. split; [cbn; lia|].
  intros k s Hs. cbn [sets global_time] in *.
  apply lookup_replicate in Hs as [-> _]. now apply fifo_set_empty.
Qed.

(** In a full set under FIFO the head of the queue is the line loaded
    first. *)
Lemma fifo_set_victim T s :
  fifo_set T s ->
  (forall i b, blocks s !! i = Some b -> valid b = true) ->
  exists b,
    blocks s !! fst (findVictimFIFO s) = Some b
    /\ forall j b', j <> fst (findVictimFIFO s) -> blocks s !! j = Some b' ->
         load_time b < load_time b'.
Proof.
  intros (Hlen & Hpos & m & ord & Hm & Hv & Hin & Hnd & Hs & Hl & Hq) Hall.
  assert (Hfull : m = length (blocks s)).
  { assert (Hlast : (length (blocks s) - 1 < length (blocks s))%nat) by lia.
    destruct (lookup_lt_is_Some_2 _ _ Hlast) as [b Hb].
    pose proof (Hv _ _ Hb) as Hvb. rewrite (Hall _ _ Hb) in Hvb.
    symmetry in Hvb. apply bool_decide_eq_true_1 in Hvb. lia. }
  rewrite decide_True in Hq by exact Hfull.
  rewrite findVictimFIFO_queue, Hq. cbn [fst].
  assert (H0 : In 0%nat ord) by (apply Hin; lia).
  destruct ord as [|w q']; [destruct H0|]. cbn [hd].
  assert (Hw : (w < length (blocks s))%nat) by (rewrite <- Hfull; apply Hin; now left).
  destruct (lookup_lt_is_Some_2 _ _ Hw) as [b Hb]. exists b. split; [exact Hb|].
  intros j b' Hne Hb'.
  assert (Hj : In j (w :: q')).
  { apply Hin. rewrite Hfull. apply lookup_lt_is_Some. eauto. }
  destruct Hj as [->|Hj]; [contradiction|].
  apply StronglySorted_inv in Hs as [_ Hlt].
  pose proof (proj1 (Forall_forall _ _) Hlt j (proj2 (list_elem_of_In _ _) Hj)) as Hc.
  unfold load in Hc.
  now rewrite (nth_lookup_Some _ _ _ _ Hb), (nth_lookup_Some _ _ _ _ Hb') in Hc.
Qed.

(** X20: in a hierarchy built with FIFO and after any sequence of
    accesses, the way [findVictimFIFO] takes from a full set, at either
    level, holds the line with the least load time of the set: the line
    loaded first is evicted first. *)
Theorem fifo_evicts_oldest_line s1 b1 a1 s2 b2 a2 c0 addrs c rs l k s :
  0 <= a1 -> 0 <= a2 ->
  new_CacheSimulator s1 b1 a1 s2 b2 a2 FIFO = Some c0 ->
  run c0 (map CallAccess addrs) = (c, rs) ->
  Z.of_nat (length addrs) < size_t_modulus ->
  l = l1_cache c \/ l = l2_cache c ->
  sets l !! k = Some s ->
  (forall i b, blocks s !! i = Some b -> valid b = true) ->
  exists b,
    blocks s !! fst (findVictimFIFO s) = Some b
    /\ forall j b', j <> fst (findVictimFIFO s) -> blocks s !! j = Some b' ->
         load_time b < load_time b'.
Proof.
  intros Ha1 Ha2 Hnew Hrun Hlen Hl Hs Hall. unfold new_CacheSimulator in Hnew.
  destruct (initCacheLevel 1 s1 b1 a1 FIFO) as [l1|] eqn:E1; [|discriminate].
  destruct (initCacheLevel 2 s2 b2 a2 FIFO) as [l2|] eqn:E2; [|discriminate].
  injection Hnew as <-.
  apply initCacheLevel_fifo in E1; [|exact Ha1]. apply initCacheLevel_fifo in E2; [|exact Ha2].
  destruct (run_fifo addrs (mkCacheSimulator l1 l2 FIFO) c rs 0 E1 E2 ltac:(lia) Hrun)
    as [(_ & _ & F1) (_ & _ & F2)].
  destruct Hl as [-> | ->]; eapply fifo_set_victim; eauto.
Qed.

Lemma fifo_evicts_oldest_line_witness :
  let addrs := [0; 128; 256; 0; 384] in
  let c := fst (run (small_cache FIFO) (map CallAccess addrs)) in
  let s := default (empty_set 2) (sets (l1_cache c) !! 0%nat) in
  exists b,
    blocks s !! fst (findVictimFIFO s) = Some b
    /\ forall j b', j <> fst (findVictimFIFO s) -> blocks s !! j = Some b' ->
         load_time b < load_time b'.
Proof.
  intros addrs c s.
  apply (fifo_evicts_oldest_line 128 16 2 1024 16 4 (small_cache FIFO) addrs c
           (snd (run (small_cache FIFO) (map CallAccess addrs))) (l1_cache c) 0 s).
  - lia.
  - lia.
  - reflexivity.
  - subst c. apply surjective_pairing.
  - vm_compute. reflexivity.
  - now left.
  - vm_compute. reflexivity.
  - intros i b Hb. vm_compute in Hb.
    destruct i as [|[|i]]; [| |discriminate]; injection Hb as <-; reflexivity.
Defined.

End CacheFacts.

(** ** The allocator *)
Module AllocatorFacts.
Import Allocator.

#[local] Opaque maxIterations_coalesce maxIterations_findBestFit maxIterations_walk.

(** *** Stores and the free list leave sizes and flags alone *)

Lemma header_store mm p f o :
  header (store mm p f) o = if decide (o = p) then f (header mm p) else header mm o.
Proof.
  unfold header, store. cbn [physicalMemory with_memory].
  rewrite lookup_insert. destruct (decide (p = o)) as [->|Hne].
  - rewrite decide_True by reflexivity. reflexivity.
  - rewrite decide_False by congruence. reflexivity.
Qed.

Lemma relinked_refl mm : relinked mm mm.
Proof. repeat split. Qed.

Lemma relinked_trans m1 m2 m3 : relinked m1 m2 -> relinked m2 m3 -> relinked m1 m3.
Proof.
  intros (a1 & a2 & a3 & a4 & a5 & a6 & a7 & a8) (b1 & b2 & b3 & b4 & b5 & b6 & b7 & b8).
  repeat split; first [congruence | intros o; now rewrite b8].
Qed.

Lemma relinked_store_link mm X p f :
  (forall h, payload (f h) = payload h) -> relinked mm X -> relinked mm (store X p f).
Proof.
  intros Hf HX. apply (relinked_trans _ X); [exact HX|].
  repeat split. intros o. rewrite header_store.
  destruct (decide (o = p)) as [->|]; [apply Hf|reflexivity].
Qed.

Lemma relinked_head mm X h : relinked mm X -> relinked mm (with_freeListHead X h).
Proof. intros HX. apply (relinked_trans _ X); [exact HX|]. repeat split. Qed.

Ltac relink :=
  repeat first
    [ assumption
    | apply relinked_refl
    | apply relinked_head
    | apply relinked_store_link; [reflexivity|]
    | match goal with
      | |- relinked _ (match ?x with _ => _ end) => destruct x
      end ].

Lemma removeFromFreeList_relinked mm X b :
  relinked mm X -> relinked mm (removeFromFreeList X b).
Proof. intros HX. unfold removeFromFreeList. cbv zeta. relink. Qed.

Lemma addToFreeList_relinked mm X b :
  relinked mm X -> relinked mm (addToFreeList X b).
Proof.
  intros HX. unfold addToFreeList. cbv zeta.
  assert (H1 : forall c : bool, relinked mm (if c then removeFromFreeList X b else X)).
  { intros []; [now apply removeFromFreeList_relinked|exact HX]. }
  relink.
Qed.

Lemma relinked_size m m' o : relinked m m' -> size (header m' o) = size (header m o).
Proof. intros (_ & _ & _ & _ & _ & _ & _ & H). specialize (H o). now injection H. Qed.

Lemma relinked_is_free m m' o : relinked m m' -> is_free (header m' o) = is_free (header m o).
Proof. intros (_ & _ & _ & _ & _ & _ & _ & H). specialize (H o). now injection H. Qed.

Lemma relinked_block_id m m' o : relinked m m' -> block_id (header m' o) = block_id (header m o).
Proof. intros (_ & _ & _ & _ & _ & _ & _ & H). specialize (H o). now injection H. Qed.

(** *** Tilings *)

Lemma tiles_cons_inv mm o x bs e :
  tiles mm o (x :: bs) e ->
  x = o /\ 0 < size (header mm o) /\ tiles mm (o + size (header mm o)) bs e.
Proof. intros H. inversion H; subst. auto. Qed.

Lemma tiles_nil_inv mm o e : tiles mm o [] e -> e = o.
Proof. intros H. now inversion H. Qed.

Lemma tiles_app mm l1 : forall o l2 e,
  tiles mm o (l1 ++ l2) e <-> exists m, tiles mm o l1 m /\ tiles mm m l2 e.
Proof.
  induction l1 as [|x l1 IH]; intros o l2 e; simpl.
  - split.
    + intros H. exists o. split; [constructor|exact H].
    + intros (m & H1 & H2). apply tiles_nil_inv in H1. now subst.
  - split.
    + intros H. apply tiles_cons_inv in H as (-> & Hpos & H).
      apply IH in H as (m & H1 & H2). exists m. split; [now constructor|exact H2].
    + intros (m & H1 & H2). apply tiles_cons_inv in H1 as (-> & Hpos & H1).
      constructor; [exact Hpos|]. apply IH. eauto.
Qed.

Lemma tiles_bounds mm o bs e :
  tiles mm o bs e ->
  o <= e /\ forall x, In x bs ->
              o <= x /\ 0 < size (header mm x) /\ x + size (header mm x) <= e.
Proof.
  induction 1 as [o|o bs e Hpos Ht [IH1 IH2]].
  - split; [lia|]. intros x [].
  - split; [lia|]. intros x [<-|Hx]; [lia|].
    destruct (IH2 x Hx) as (? & ? & ?). lia.
Qed.

Lemma tiles_ext mm mm' o bs e :
  (forall x, In x bs -> size (header mm' x) = size (header mm x)) ->
  tiles mm o bs e -> tiles mm' o bs e.
Proof.
  intros Hsz Ht. induction Ht as [o|o bs e Hpos Ht IH].
  - constructor.
  - assert (E : size (header mm' o) = size (header mm o)) by (apply Hsz; now left).
    constructor; rewrite E; [exact Hpos|]. apply IH. intros x Hx. apply Hsz. now right.
Qed.

Lemma tiles_functional mm o bs : forall bs' e,
  tiles mm o bs e -> tiles mm o bs' e -> bs' = bs.
Proof.
  intros bs' e Ht. revert bs'. induction Ht as [o|o bs e Hpos Ht IH]; intros bs' Ht'.
  - destruct bs' as [|x bs']; [reflexivity|].
    apply tiles_cons_inv in Ht' as (-> & Hpos & Ht').
    apply tiles_bounds in Ht' as [Hle _]. lia.
  - destruct bs' as [|x bs'].
    + apply tiles_nil_inv in Ht'. apply tiles_bounds in Ht as [Hle _]. lia.
    + apply tiles_cons_inv in Ht' as (-> & _ & Ht'). f_equal. now apply IH.
Qed.

(** Absorbing a block into its left neighbour: the neighbour takes the sum of
    the two sizes, everything else keeps its size. *)
Lemma tiles_absorb mm mm' A x y B : forall o e,
  tiles mm o (A ++ x :: y :: B) e ->
  size (header mm' x) = size (header mm x) + size (header mm y) ->
  (forall z, z <> x -> size (header mm' z) = size (header mm z)) ->
  tiles mm' o (A ++ x :: B) e.
Proof.
  intros o e Ht Hx Hother.
  apply tiles_app in Ht as (m & HA & Ht).
  apply tiles_cons_inv in Ht as (-> & Hposx & Ht).
  apply tiles_cons_inv in Ht as (-> & Hposy & Ht).
  apply tiles_app. exists m. split.
  - apply (tiles_ext mm); [|exact HA]. intros z Hz. apply Hother.
    apply tiles_bounds in HA as [_ HA]. destruct (HA z Hz) as (? & ? & ?). lia.
  - constructor; [lia|]. rewrite Hx.
    replace (m + (size (header mm m) + size (header mm (m + size (header mm m)))))
      with (m + size (header mm m) + size (header mm (m + size (header mm m)))) by lia.
    apply (tiles_ext mm); [|exact Ht]. intros z Hz. apply Hother.
    apply tiles_bounds in Ht as [_ Ht]. destruct (Ht z Hz) as (? & ? & ?). lia.
Qed.

(** *** Adjacency of free flags *)

Lemma adjacent_cons f fs : adjacent (f :: fs) = (f && headb fs) || adjacent fs.
Proof. destruct fs as [|g fs]; simpl; [now rewrite andb_false_r|reflexivity]. Qed.

Lemma adjacent_app_cons l1 f l2 :
  adjacent (l1 ++ f :: l2) = adjacent (l1 ++ [f]) || adjacent (f :: l2).
Proof.
  induction l1 as [|a l1 IH].
  - reflexivity.
  - change ((a :: l1) ++ f :: l2) with (a :: (l1 ++ f :: l2)).
    change ((a :: l1) ++ [f]) with (a :: (l1 ++ [f])).
    assert (E : headb (l1 ++ f :: l2) = headb (l1 ++ [f])) by (destruct l1; reflexivity).
    rewrite (adjacent_cons a (l1 ++ f :: l2)), IH, (adjacent_cons a (l1 ++ [f])), E.
    apply orb_assoc.
Qed.

Lemma lastb_snoc l f : lastb (l ++ [f]) = f.
Proof. unfold lastb. now rewrite last_snoc. Qed.

Lemma adjacent_snoc l f : adjacent (l ++ [f]) = adjacent l || (lastb l && f).
Proof.
  induction l as [|a l IH]; [reflexivity|].
  change ((a :: l) ++ [f]) with (a :: (l ++ [f])).
  rewrite (adjacent_cons a (l ++ [f])), IH, (adjacent_cons a l). destruct l as [|b l].
  - unfold lastb, headb. simpl. now destruct a, f.
  - change (lastb (a :: b :: l)) with (lastb (b :: l)).
    change (headb ((b :: l) ++ [f])) with (headb (b :: l)).
    apply orb_assoc.
Qed.

Lemma adjacent_free_flags mm bs : adjacent_free (map (view mm) bs) = adjacent (flags mm bs).
Proof. unfold adjacent_free, flags. now rewrite map_map. Qed.

Lemma flags_app mm l1 l2 : flags mm (l1 ++ l2) = flags mm l1 ++ flags mm l2.
Proof. apply map_app. Qed.

Lemma flags_ext mm mm' bs :
  (forall x, In x bs -> is_free (header mm' x) = is_free (header mm x)) ->
  flags mm' bs = flags mm bs.
Proof. intros Hf. apply map_ext_in. exact Hf. Qed.

(** *** The predecessor search *)

Lemma find_prev_spec mm k : forall o L1 b,
  tiles mm o L1 b -> b < totalMemorySize mm ->
  find_prev k mm o b
  = match L1 with
    | [] => None
    | _ => if (length L1 <=? k)%nat then last L1 else None
    end.
Proof.
  induction k as [|k IH]; intros o L1 b Ht Hb.
  - simpl. destruct L1; reflexivity.
  - simpl. destruct L1 as [|x L1].
    + apply tiles_nil_inv in Ht. subst. now rewrite Z.eqb_refl.
    + apply tiles_cons_inv in Ht as (-> & Hpos & Ht).
      pose proof (tiles_bounds _ _ _ _ Ht) as [Hle Hin].
      destruct (Z.eqb_spec o b) as [E|_]; [lia|].
      destruct L1 as [|y L1].
      * apply tiles_nil_inv in Ht. subst b. rewrite Z.eqb_refl. reflexivity.
      * pose proof (tiles_cons_inv _ _ _ _ _ Ht) as (Ey & Hposy & Ht').
        pose proof (tiles_bounds _ _ _ _ Ht') as [Hle' _].
        destruct (Z.eqb_spec (o + size (header mm o)) b) as [E|_]; [lia|].
        destruct (Z.ltb_spec (o + size (header mm o)) (totalMemorySize mm)) as [_|E]; [|lia].
        rewrite (IH _ (y :: L1) b Ht Hb).
        change (length (o :: y :: L1)) with (S (length (y :: L1))).
        change (S (length (y :: L1)) <=? S k)%nat with (length (y :: L1) <=? k)%nat.
        reflexivity.
Qed.

(** *** Coalescing *)

Lemma snoc_cases {A} (l : list A) : l = [] \/ exists l' x, l = l' ++ [x].
Proof. induction l using rev_ind; [now left|right; eauto]. Qed.

Lemma coalesceBlocks_S fuel mm block :
  coalesceBlocks (S fuel) mm block
  = match find_prev maxIterations_coalesce (merge_next mm block)
            (firstBlock (merge_next mm block)) block with
    | Some p =>
        if is_free (header (merge_next mm block) p)
        then coalesceBlocks fuel (merge_into_prev (merge_next mm block) p block) p
        else Some (merge_next mm block)
    | None => Some (merge_next mm block)
    end.
Proof. reflexivity. Qed.


Lemma resized_refl mm x : resized mm mm x (size (header mm x)).
Proof. repeat split. destruct (decide (o = x)) as [->|]; reflexivity. Qed.

Lemma relinked_resized mm X x v :
  relinked mm X -> resized mm (store X x (put_size v)) x v.
Proof.
  intros HX. pose proof HX as (a1 & a2 & _ & _ & a5 & a6 & _ & _).
  repeat split; try assumption; rewrite header_store;
    destruct (decide (o = x)) as [->|]; simpl;
    auto using relinked_is_free, relinked_block_id, relinked_size.
Qed.

Lemma resized_arena mm mm' x v : resized mm mm' x v -> arena_ok mm -> arena_ok mm'.
Proof. intros (E1 & E2 & _) H. unfold arena_ok. now rewrite E1, E2. Qed.

Lemma resized_flags mm mm' x v bs : resized mm mm' x v -> flags mm' bs = flags mm bs.
Proof. intros (_ & _ & _ & _ & H). apply flags_ext. intros o _. apply H. Qed.

Lemma layout_last_free mm A p :
  lastb (flags mm (A ++ [p])) = is_free (header mm p).
Proof. rewrite flags_app. apply lastb_snoc. Qed.

Lemma layout_split mm L1 b L2 :
  layout mm (L1 ++ b :: L2) ->
  tiles mm 0 L1 b /\ 0 < size (header mm b)
  /\ tiles mm (b + size (header mm b)) L2 (totalMemorySize mm)
  /\ b + size (header mm b) <= totalMemorySize mm /\ 0 <= b.
Proof.
  intros Ht. apply tiles_app in Ht as (m & H1 & H2).
  apply tiles_cons_inv in H2 as (-> & Hpos & H2).
  pose proof (tiles_bounds _ _ _ _ H2) as [Hle _].
  pose proof (tiles_bounds _ _ _ _ H1) as [Hle1 _]. auto.
Qed.

Lemma merge_next_none mm L1 b L2 :
  layout mm (L1 ++ b :: L2) -> headb (flags mm L2) = false -> merge_next mm b = mm.
Proof.
  intros Ht Hh. apply layout_split in Ht as (_ & Hpos & Ht & Hle & _).
  unfold merge_next. destruct L2 as [|n L2].
  - apply tiles_nil_inv in Ht.
    destruct (Z.ltb_spec (b + size (header mm b)) (totalMemorySize mm)); [lia|reflexivity].
  - apply tiles_cons_inv in Ht as (-> & _ & _). unfold headb in Hh. simpl in Hh.
    rewrite Hh. now destruct (_ <? _).
Qed.

Lemma merge_next_some mm L1 b n L2 :
  arena_ok mm -> layout mm (L1 ++ b :: n :: L2) -> is_free (header mm n) = true ->
  resized mm (merge_next mm b) b (size (header mm b) + size (header mm n)).
Proof.
  intros [_ HM] Ht Hn. apply layout_split in Ht as (_ & Hpos & Ht & Hle & Hb0).
  pose proof (tiles_cons_inv _ _ _ _ _ Ht) as (-> & Hposn & Ht').
  pose proof (tiles_bounds _ _ _ _ Ht') as [Hlen _].
  unfold merge_next.
  destruct (Z.ltb_spec (b + size (header mm b)) (totalMemorySize mm)) as [_|E]; [|lia].
  rewrite Hn.
  set (X := removeFromFreeList mm (b + size (header mm b))).
  assert (HX : relinked mm X) by (apply removeFromFreeList_relinked, relinked_refl).
  rewrite !(relinked_size _ _ _ HX). rewrite wrap_small by lia.
  now apply relinked_resized.
Qed.

Lemma merge_into_prev_spec mm p b :
  0 <= size (header mm p) + size (header mm b) < size_t_modulus ->
  resized mm (merge_into_prev mm p b) p (size (header mm p) + size (header mm b)).
Proof.
  intros Hr. unfold merge_into_prev.
  set (X := removeFromFreeList mm b).
  assert (HX : relinked mm X) by (apply removeFromFreeList_relinked, relinked_refl).
  rewrite !(relinked_size _ _ _ HX). rewrite wrap_small by lia.
  now apply relinked_resized.
Qed.

Lemma find_prev_layout mm L1 b L2 :
  arena_ok mm -> layout mm (L1 ++ b :: L2) ->
  find_prev maxIterations_coalesce mm (firstBlock mm) b
  = match L1 with
    | [] => None
    | _ => if (length L1 <=? maxIterations_coalesce)%nat then last L1 else None
    end.
Proof.
  intros [-> _] Ht. apply layout_split in Ht as (Ht & Hpos & _ & Hle & _).
  apply find_prev_spec; [exact Ht|lia].
Qed.

(** Nothing to merge: the next block is not free and neither is the
    previous one. *)
Lemma coalesce_stable fuel mm L1 b L2 :
  arena_ok mm -> layout mm (L1 ++ b :: L2) ->
  headb (flags mm L2) = false -> lastb (flags mm L1) = false ->
  coalesceBlocks (S fuel) mm b = Some mm.
Proof.
  intros Hok Ht Hh Hl. rewrite coalesceBlocks_S.
  rewrite (merge_next_none _ _ _ _ Ht Hh). rewrite (find_prev_layout _ _ _ _ Hok Ht).
  destruct L1 as [|x L1]; [reflexivity|].
  destruct (_ <=? _)%nat; [|reflexivity].
  destruct (last (x :: L1)) as [p|] eqn:Hlast; [|reflexivity].
  apply last_Some in Hlast as [A HA]. rewrite HA, layout_last_free in Hl. now rewrite Hl.
Qed.

(** The next block is free and the previous one is not: the next block is
    absorbed and nothing else happens. *)
Lemma coalesce_absorb_next fuel mm L1 b n L2 :
  arena_ok mm -> layout mm (L1 ++ b :: n :: L2) ->
  is_free (header mm n) = true -> lastb (flags mm L1) = false ->
  coalesceBlocks (S fuel) mm b = Some (merge_next mm b)
  /\ resized mm (merge_next mm b) b (size (header mm b) + size (header mm n))
  /\ layout (merge_next mm b) (L1 ++ b :: L2).
Proof.
  intros Hok Ht Hn Hl.
  pose proof (merge_next_some _ _ _ _ _ Hok Ht Hn) as Hres.
  assert (Ht1 : layout (merge_next mm b) (L1 ++ b :: L2)).
  { unfold layout. destruct Hres as (-> & _ & _ & _ & Hh).
    apply (tiles_absorb mm _ L1 b n L2); [exact Ht| |].
    - destruct (Hh b) as (_ & _ & ->). now rewrite decide_True.
    - intros z Hz. destruct (Hh z) as (_ & _ & ->). now rewrite decide_False. }
  split; [|split; assumption].
  rewrite coalesceBlocks_S.
  rewrite (find_prev_layout _ L1 b L2 (resized_arena _ _ _ _ Hres Hok) Ht1).
  destruct L1 as [|x L1]; [reflexivity|].
  destruct (_ <=? _)%nat; [|reflexivity].
  destruct (last (x :: L1)) as [p|] eqn:Hlast; [|reflexivity].
  apply last_Some in Hlast as [A HA].
  rewrite HA, <- (resized_flags _ _ _ _ _ Hres), layout_last_free in Hl. now rewrite Hl.
Qed.

Lemma resized_trans_meta m1 m2 m3 x v y w :
  resized m1 m2 x v -> resized m2 m3 y w ->
  totalMemorySize m3 = totalMemorySize m1 /\ firstBlock m3 = firstBlock m1
  /\ addressToHeader m3 = addressToHeader m1 /\ idToHeader m3 = idToHeader m1
  /\ forall o, is_free (header m3 o) = is_free (header m1 o)
               /\ block_id (header m3 o) = block_id (header m1 o).
Proof.
  intros (a1 & a2 & a3 & a4 & a5) (b1 & b2 & b3 & b4 & b5).
  repeat split; try congruence.
  - destruct (a5 o) as (E & _), (b5 o) as (E' & _). congruence.
  - destruct (a5 o) as (_ & E & _), (b5 o) as (_ & E' & _). congruence.
Qed.

Lemma resized_absorb mm mm' A x y B :
  layout mm (A ++ x :: y :: B) ->
  resized mm mm' x (size (header mm x) + size (header mm y)) ->
  layout mm' (A ++ x :: B).
Proof.
  intros Ht (E & _ & _ & _ & Hh). unfold layout. rewrite E.
  apply (tiles_absorb mm _ A x y B); [exact Ht| |].
  - destruct (Hh x) as (_ & _ & ->). now rewrite decide_True.
  - intros z Hz. destruct (Hh z) as (_ & _ & ->). now rewrite decide_False.
Qed.

(** First half of [coalesceBlocks], whatever the next block is. *)
Lemma merge_next_post mm L1 b L2 :
  arena_ok mm -> layout mm (L1 ++ b :: L2) -> adjacent (flags mm L2) = false ->
  exists L2' v,
    resized mm (merge_next mm b) b v
    /\ layout (merge_next mm b) (L1 ++ b :: L2')
    /\ headb (flags mm L2') = false /\ adjacent (flags mm L2') = false.
Proof.
  intros Hok Ht Hadj. destruct (headb (flags mm L2)) eqn:Hh.
  - destruct L2 as [|n B]; [discriminate|]. unfold headb in Hh. simpl in Hh.
    change (flags mm (n :: B)) with (is_free (header mm n) :: flags mm B) in Hadj.
    rewrite adjacent_cons, Hh in Hadj. simpl in Hadj.
    apply orb_false_iff in Hadj as [HhB HadjB].
    pose proof (merge_next_some _ _ _ _ _ Hok Ht Hh) as Hres.
    exists B, (size (header mm b) + size (header mm n)).
    split; [exact Hres|]. split; [|auto]. eapply resized_absorb; eauto.
  - exists L2, (size (header mm b)). rewrite (merge_next_none _ _ _ _ Ht Hh).
    split; [apply resized_refl|]. auto.
Qed.

(** [coalesceBlocks] on a free block whose predecessor the search reaches:
    afterwards the arena is tiled and no two neighbours are both free. *)
Lemma coalesce_no_adjacent fuel mm L1 b L2 :
  arena_ok mm -> layout mm (L1 ++ b :: L2) -> is_free (header mm b) = true ->
  adjacent (flags mm L1) = false -> adjacent (flags mm L2) = false ->
  (length L1 <= maxIterations_coalesce)%nat ->
  exists mm' bs',
    coalesceBlocks (S (S fuel)) mm b = Some mm'
    /\ layout mm' bs' /\ adjacent (flags mm' bs') = false
    /\ arena_ok mm' /\ addressToHeader mm' = addressToHeader mm
    /\ idToHeader mm' = idToHeader mm.
Proof.
  intros Hok Ht Hb HadjL1 HadjL2 Hcap.
  destruct (merge_next_post _ _ _ _ Hok Ht HadjL2) as (L2' & v & Hres & Ht1 & Hh & Hadj2).
  set (mm1 := merge_next mm b) in *.
  pose proof (resized_arena _ _ _ _ Hres Hok) as Hok1.
  assert (Hfl : forall bs, flags mm1 bs = flags mm bs)
    by (intros bs; eapply resized_flags; eauto).
  assert (Htail : adjacent (true :: flags mm L2') = false).
  { rewrite adjacent_cons, Hh, Hadj2. reflexivity. }
  rewrite coalesceBlocks_S. fold mm1.
  rewrite (find_prev_layout _ _ _ _ Hok1 Ht1).
  assert (Hkeep : adjacent (flags mm L1) || (lastb (flags mm L1) && true) = false ->
            exists mm' bs', Some mm1 = Some mm'
              /\ layout mm' bs' /\ adjacent (flags mm' bs') = false
              /\ arena_ok mm' /\ addressToHeader mm' = addressToHeader mm
              /\ idToHeader mm' = idToHeader mm).
  { intros Hl. exists mm1, (L1 ++ b :: L2'). split; [reflexivity|]. split; [exact Ht1|].
    split; [|split; [exact Hok1|split; apply Hres]].
    rewrite Hfl, flags_app. change (flags mm (b :: L2')) with (is_free (header mm b) :: flags mm L2').
    rewrite Hb, adjacent_app_cons, adjacent_snoc, Hl, Htail. reflexivity. }
  destruct (snoc_cases L1) as [->|(A & p & ->)].
  - apply Hkeep. reflexivity.
  - rewrite last_snoc. apply Nat.leb_le in Hcap. rewrite Hcap.
    destruct (Hres) as (_ & _ & _ & _ & Hh1).
    destruct (Hh1 p) as (Efp & _).
    replace (match A ++ [p] with [] => None | _ :: _ => Some p end)
      with (Some p) by (destruct A; reflexivity).
    rewrite Efp. destruct (is_free (header mm p)) eqn:Hp.
    + (* the predecessor is free: merge into it, then nothing is left to merge *)
      rewrite flags_app in HadjL1. change (flags mm [p]) with [is_free (header mm p)] in HadjL1.
      rewrite Hp, adjacent_snoc in HadjL1. apply orb_false_iff in HadjL1 as [HadjA HlastA].
      rewrite andb_true_r in HlastA.
      rewrite <- app_assoc in Ht1. change ([p] ++ b :: L2') with (p :: b :: L2') in Ht1.
      pose proof (layout_split _ _ _ _ Ht1) as (_ & Hposp & Htb & _ & Hp0).
      pose proof (tiles_cons_inv _ _ _ _ _ Htb) as (Eb & Hposb & Htb').
      pose proof (tiles_bounds _ _ _ _ Htb') as [Hleb _].
      rewrite <- Eb in Hposb, Hleb.
      assert (Hrange : 0 <= size (header mm1 p) + size (header mm1 b) < size_t_modulus).
      { destruct Hok1 as [_ HM]. lia. }
      pose proof (merge_into_prev_spec mm1 p b Hrange) as Hres2.
      set (mm2 := merge_into_prev mm1 p b) in *.
      pose proof (resized_absorb _ _ _ _ _ _ Ht1 Hres2) as Ht2.
      pose proof (resized_arena _ _ _ _ Hres2 Hok1) as Hok2.
      assert (Hfl2 : forall bs, flags mm2 bs = flags mm bs).
      { intros bs. rewrite <- Hfl. eapply resized_flags; eauto. }
      exists mm2, (A ++ p :: L2').
      split; [apply (coalesce_stable _ _ A p L2'); auto; rewrite Hfl2; assumption|].
      split; [exact Ht2|]. split; [|split; [exact Hok2|]].
      * rewrite Hfl2, flags_app.
        change (flags mm (p :: L2')) with (is_free (header mm p) :: flags mm L2').
        rewrite Hp, adjacent_app_cons, adjacent_snoc, HadjA, HlastA, Htail. reflexivity.
      * destruct (resized_trans_meta _ _ _ _ _ _ _ Hres Hres2) as (_ & _ & E1 & E2 & _). auto.
    + apply Hkeep. rewrite HadjL1, layout_last_free, Hp. reflexivity.
Qed.

(** *** Release *)

Lemma adjacent_app l1 l2 :
  adjacent (l1 ++ l2) = false -> adjacent l1 = false /\ adjacent l2 = false.
Proof.
  destruct l2 as [|f l2]; [rewrite app_nil_r; auto|].
  rewrite adjacent_app_cons, adjacent_snoc.
  intros H. apply orb_false_iff in H as [H1 H2]. apply orb_false_iff in H1 as [H1 _]. auto.
Qed.

Lemma in_layout_split mm bs b :
  layout mm bs -> In b bs ->
  exists L1 L2, bs = L1 ++ b :: L2 /\ ~ In b L1 /\ ~ In b L2.
Proof.
  intros Ht Hb. apply in_split in Hb as (L1 & L2 & ->). exists L1, L2.
  split; [reflexivity|].
  apply layout_split in Ht as (H1 & Hpos & H2 & _).
  apply tiles_bounds in H1 as [_ H1]. apply tiles_bounds in H2 as [_ H2].
  split; intros Hin; [destruct (H1 b Hin) as (? & ? & ?)|destruct (H2 b Hin) as (? & ? & ?)]; lia.
Qed.

Section Release.

Variable H : Z.

Lemma mark_free_spec mm b :
  totalMemorySize (mark_free H mm b) = totalMemorySize mm
  /\ firstBlock (mark_free H mm b) = firstBlock mm
  /\ addressToHeader (mark_free H mm b) = addressToHeader mm
  /\ idToHeader (mark_free H mm b) = idToHeader mm
  /\ forall o, size (header (mark_free H mm b) o) = size (header mm o)
               /\ block_id (header (mark_free H mm b) o) = block_id (header mm o)
               /\ is_free (header (mark_free H mm b) o)
                  = if decide (o = b) then true else is_free (header mm o).
Proof.
  unfold mark_free. cbv zeta.
  match goal with |- context [addToFreeList ?X b] =>
    pose proof (addToFreeList_relinked X X b (relinked_refl X)) as HX;
    set (Y := addToFreeList X b) in *; set (X0 := X) in * end.
  pose proof HX as (a1 & a2 & _ & _ & a5 & a6 & _ & _).
  split; [exact a1|]. split; [exact a2|]. split; [exact a5|]. split; [exact a6|].
  intros o. rewrite (relinked_size _ _ o HX), (relinked_block_id _ _ o HX),
    (relinked_is_free _ _ o HX).
  subst X0. change (header (with_tracking ?m _ _ _ _) o) with (header m o).
  change (header (add_allocated ?m _) o) with (header m o).
  rewrite header_store. destruct (decide (o = b)) as [->|]; auto.
Qed.

Lemma untrack_header mm ptr b o : header (untrack mm ptr b) o = header mm o.
Proof. reflexivity. Qed.

Lemma layout_ext mm mm' bs :
  totalMemorySize mm' = totalMemorySize mm ->
  (forall x, size (header mm' x) = size (header mm x)) ->
  layout mm bs -> layout mm' bs.
Proof.
  intros E Hsz Ht. unfold layout. rewrite E. apply (tiles_ext mm); auto.
Qed.

(** A successful release keeps the arena tiled without adjacent free blocks
    when the predecessor search reaches the block released. *)
Lemma release_no_adjacent fuel mm bs ptr b :
  well_formed mm bs -> (length bs <= S maxIterations_coalesce)%nat ->
  getHeader mm ptr = Some b ->
  exists mm' bs',
    coalesceBlocks (S (S fuel)) (mark_free H mm b) b = Some mm'
    /\ layout (untrack mm' ptr b) bs' /\ no_adjacent_free (untrack mm' ptr b) bs'.
Proof.
  intros (Hok & Ht & Hadj & Hlive) Hlen Hget.
  pose proof (Hlive _ _ Hget) as Hb.
  destruct (in_layout_split _ _ _ Ht Hb) as (L1 & L2 & -> & HnL1 & HnL2).
  destruct (mark_free_spec mm b) as (E1 & E2 & E3 & E4 & Hh).
  set (m1 := mark_free H mm b) in *.
  assert (Hok1 : arena_ok m1) by (unfold arena_ok; now rewrite E1, E2).
  assert (Ht1 : layout m1 (L1 ++ b :: L2)).
  { apply (layout_ext mm); auto. intros x. apply Hh. }
  unfold no_adjacent_free in Hadj. rewrite adjacent_free_flags, flags_app in Hadj.
  apply adjacent_app in Hadj as [HadjL1 HadjL2].
  change (flags mm (b :: L2)) with (is_free (header mm b) :: flags mm L2) in HadjL2.
  rewrite adjacent_cons in HadjL2. apply orb_false_iff in HadjL2 as [_ HadjL2].
  assert (HfL1 : flags m1 L1 = flags mm L1).
  { apply flags_ext. intros x Hx. destruct (Hh x) as (_ & _ & ->).
    rewrite decide_False; [reflexivity|]. intros ->. contradiction. }
  assert (HfL2 : flags m1 L2 = flags mm L2).
  { apply flags_ext. intros x Hx. destruct (Hh x) as (_ & _ & ->).
    rewrite decide_False; [reflexivity|]. intros ->. contradiction. }
  destruct (coalesce_no_adjacent fuel m1 L1 b L2) as (mm' & bs' & Hc & Ht' & Hadj' & _); auto.
  - destruct (Hh b) as (_ & _ & ->). now rewrite decide_True.
  - now rewrite HfL1.
  - now rewrite HfL2.
  - rewrite length_app in Hlen. simpl in Hlen. lia.
  - exists mm', bs'. split; [exact Hc|]. split.
    + apply (layout_ext mm'); auto.
    + unfold no_adjacent_free. rewrite adjacent_free_flags. exact Hadj'.
Qed.

End Release.

(** *** Placement searches return nodes of the free list that fit *)

Lemma findFirstFit_loop_sound fuel mm : forall cur sz b,
  findFirstFit_loop fuel mm cur sz = Some (Some b) ->
  on_list mm cur b /\ fits mm sz b = true.
Proof.
  induction fuel as [|fuel IH]; intros [c|] sz b Hf; simpl in Hf; try discriminate.
  fold (fits mm sz c) in Hf. destruct (fits mm sz c) eqn:Hfit.
  - injection Hf as <-. split; [constructor|exact Hfit].
  - apply IH in Hf as [Hon Hfit']. split; [now constructor|exact Hfit'].
Qed.

Lemma findBestFit_loop_sound k mm : forall best cur sz b,
  findBestFit_loop k mm best cur sz = Some b ->
  best = Some b \/ (on_list mm cur b /\ fits mm sz b = true).
Proof.
  induction k as [|k IH]; intros best [c|] sz b Hf; simpl in Hf; auto.
  fold (fits mm sz c) in Hf. apply IH in Hf as [Hbest|[Hon Hfit]].
  - destruct (fits mm sz c) eqn:Hfit; simpl in Hbest; [|now left].
    destruct (better mm best c); [|now left].
    injection Hbest as <-. right. split; [constructor|exact Hfit].
  - right. split; [now constructor|exact Hfit].
Qed.

Lemma findWorstFit_loop_sound fuel mm : forall worst cur sz b,
  findWorstFit_loop fuel mm worst cur sz = Some (Some b) ->
  worst = Some b \/ (on_list mm cur b /\ fits mm sz b = true).
Proof.
  induction fuel as [|fuel IH]; intros worst [c|] sz b Hf; simpl in Hf;
    try discriminate; try (injection Hf as ->; now left).
  fold (fits mm sz c) in Hf. apply IH in Hf as [Hbest|[Hon Hfit]].
  - destruct (fits mm sz c) eqn:Hfit; simpl in Hbest; [|now left].
    destruct (worse mm worst c); [|now left].
    injection Hbest as <-. right. split; [constructor|exact Hfit].
  - right. split; [now constructor|exact Hfit].
Qed.

(** *** Allocation *)

Lemma header_removeFromFreeList_size mm b o :
  size (header (removeFromFreeList mm b) o) = size (header mm o).
Proof. apply relinked_size, removeFromFreeList_relinked, relinked_refl. Qed.

Lemma header_removeFromFreeList_is_free mm b o :
  is_free (header (removeFromFreeList mm b) o) = is_free (header mm o).
Proof. apply relinked_is_free, removeFromFreeList_relinked, relinked_refl. Qed.

Lemma header_addToFreeList_size mm b o :
  size (header (addToFreeList mm b) o) = size (header mm o).
Proof. apply relinked_size, addToFreeList_relinked, relinked_refl. Qed.

Lemma header_addToFreeList_is_free mm b o :
  is_free (header (addToFreeList mm b) o) = is_free (header mm o).
Proof. apply relinked_is_free, addToFreeList_relinked, relinked_refl. Qed.

Lemma meta_removeFromFreeList mm b :
  totalMemorySize (removeFromFreeList mm b) = totalMemorySize mm
  /\ firstBlock (removeFromFreeList mm b) = firstBlock mm
  /\ addressToHeader (removeFromFreeList mm b) = addressToHeader mm.
Proof.
  destruct (removeFromFreeList_relinked mm mm b (relinked_refl mm))
    as (a1 & a2 & _ & _ & a5 & _). auto.
Qed.

Lemma meta_addToFreeList mm b :
  totalMemorySize (addToFreeList mm b) = totalMemorySize mm
  /\ firstBlock (addToFreeList mm b) = firstBlock mm
  /\ addressToHeader (addToFreeList mm b) = addressToHeader mm.
Proof.
  destruct (addToFreeList_relinked mm mm b (relinked_refl mm))
    as (a1 & a2 & _ & _ & a5 & _). auto.
Qed.

Section Allocation.

Variable H : Z.
Hypothesis H_pos : 0 < H.
Hypothesis H_small : H + 8 < size_t_modulus.

Lemma no_split_claim mm b r :
  exists split : bool,
    (split = true -> H + 8 <= size (header mm b) - r)
    /\ totalMemorySize mm = totalMemorySize mm /\ firstBlock mm = firstBlock mm
    /\ addressToHeader mm = addressToHeader mm
    /\ forall o,
         size (header mm o)
         = (if split then
              if decide (o = b) then r
              else if decide (o = b + r) then size (header mm b) - r
              else size (header mm o)
            else size (header mm o))
         /\ is_free (header mm o)
            = (if split && bool_decide (o = b + r) then true
               else is_free (header mm o)).
Proof. exists false. split; [discriminate|]. repeat split. Qed.

Lemma maybe_split_spec mm b r :
  0 < r <= size (header mm b) -> size (header mm b) < size_t_modulus ->
  exists split : bool,
    (split = true -> H + 8 <= size (header mm b) - r)
    /\ totalMemorySize (maybe_split H mm b r) = totalMemorySize mm
    /\ firstBlock (maybe_split H mm b r) = firstBlock mm
    /\ addressToHeader (maybe_split H mm b r) = addressToHeader mm
    /\ forall o,
         size (header (maybe_split H mm b r) o)
         = (if split then
              if decide (o = b) then r
              else if decide (o = b + r) then size (header mm b) - r
              else size (header mm o)
            else size (header mm o))
         /\ is_free (header (maybe_split H mm b r) o)
            = (if split && bool_decide (o = b + r) then true
               else is_free (header mm o)).
Proof.
  intros Hr Hsz. unfold maybe_split.
  destruct (_ <=? _); [|apply no_split_claim].
  unfold splitBlock. rewrite (wrap_small (size (header mm b) - r)) by lia.
  rewrite (wrap_small (H + 8)) by lia.
  destruct (Z.ltb_spec (size (header mm b) - r) (H + 8)) as [_|Hrem]; [apply no_split_claim|].
  exists true. split; [intros _; exact Hrem|]. cbv zeta.
  match goal with |- context [addToFreeList ?X ?nb] =>
    destruct (meta_addToFreeList X nb) as (E1 & E2 & E3) end.
  split; [rewrite E1; reflexivity|]. split; [rewrite E2; reflexivity|].
  split; [rewrite E3; reflexivity|]. clear E1 E2 E3.
  intros o. rewrite header_addToFreeList_size, header_addToFreeList_is_free.
  rewrite !header_store.
  destruct (decide (o = b)) as [->|Hob]; [|destruct (decide (o = b + r)) as [->|Hor]].
  - rewrite !(decide_False (P := b = b + r)) by lia.
    rewrite bool_decide_eq_false_2 by lia. simpl. auto.
  - rewrite !(decide_True (P := b + r = b + r)) by reflexivity.
    rewrite bool_decide_eq_true_2 by reflexivity. simpl. auto.
  - rewrite bool_decide_eq_false_2 by assumption. simpl. auto.
Qed.

Lemma mark_allocated_spec m b :
  totalMemorySize (mark_allocated m b) = totalMemorySize m
  /\ firstBlock (mark_allocated m b) = firstBlock m
  /\ addressToHeader (mark_allocated m b) = addressToHeader m
  /\ forall o,
       size (header (mark_allocated m b) o) = size (header m o)
       /\ is_free (header (mark_allocated m b) o)
          = if decide (o = b) then false else is_free (header m o).
Proof.
  unfold mark_allocated. cbv zeta.
  match goal with |- context [removeFromFreeList ?X b] =>
    destruct (meta_removeFromFreeList X b) as (E1 & E2 & E3) end.
  split; [rewrite E1; reflexivity|]. split; [rewrite E2; reflexivity|].
  split; [rewrite E3; reflexivity|]. clear E1 E2 E3.
  intros o. rewrite header_removeFromFreeList_size, header_removeFromFreeList_is_free.
  change (header (with_tracking ?m0 ?a ?b0 ?c ?d) o) with (header m0 o).
  rewrite !header_store.
  destruct (decide (o = b)) as [->|Hob]; simpl; [|auto].
  rewrite !(decide_True (P := b = b)) by reflexivity. simpl. auto.
Qed.

Lemma track_spec m b n :
  totalMemorySize (track H m b n) = totalMemorySize m
  /\ firstBlock (track H m b n) = firstBlock m
  /\ addressToHeader (track H m b n) = <[b + H := b]> (addressToHeader m)
  /\ forall o, header (track H m b n) o = header m o.
Proof. repeat split. Qed.

Lemma claim_block_spec mm b n r :
  0 < r <= size (header mm b) -> size (header mm b) < size_t_modulus ->
  exists split,
    claimed H mm (claim_block H mm b n r) b r split
    /\ (split = true -> H + 8 <= size (header mm b) - r).
Proof.
  intros Hr Hsz.
  destruct (maybe_split_spec mm b r Hr Hsz) as (split & Hsplit & E1 & E2 & E3 & Hh).
  exists split. split; [|exact Hsplit].
  unfold claim_block.
  destruct (track_spec (mark_allocated (maybe_split H mm b r) b) b n) as (T1 & T2 & T3 & T4).
  destruct (mark_allocated_spec (maybe_split H mm b r) b) as (M1 & M2 & M3 & M4).
  unfold claimed. rewrite T1, T2, T3, M1, M2, M3, E1, E2, E3.
  split; [reflexivity|]. split; [reflexivity|]. split; [reflexivity|].
  intros o. rewrite T4. destruct (M4 o) as (-> & ->). destruct (Hh o) as (-> & ->).
  split; [reflexivity|].
  destruct (decide (o = b)); reflexivity.
Qed.

Lemma on_list_ext mm mm' p c :
  (forall o, header mm' o = header mm o) -> on_list mm p c -> on_list mm' p c.
Proof.
  intros Hh Hon. induction Hon as [c|c d Hon IH].
  - constructor.
  - constructor. now rewrite Hh.
Qed.

Lemma find_block_sound fuel mm r b :
  find_block fuel mm r = Some (Some b) ->
  on_list mm (freeListHead mm) b /\ fits mm r b = true.
Proof.
  unfold find_block. destruct (currentStrategy mm).
  - apply findFirstFit_loop_sound.
  - intros E. injection E as E. unfold findBestFit in E.
    apply findBestFit_loop_sound in E as [E|E]; [discriminate|exact E].
  - intros E. unfold findWorstFit in E.
    apply findWorstFit_loop_sound in E as [E|E]; [discriminate|exact E].
Qed.

Lemma views_eq mm mm' bs :
  (forall o, In o bs -> size (header mm' o) = size (header mm o)
                        /\ is_free (header mm' o) = is_free (header mm o)) ->
  map (view mm') bs = map (view mm) bs.
Proof.
  intros Hh. apply map_ext_in. intros o Ho. unfold view.
  destruct (Hh o Ho) as (-> & ->). reflexivity.
Qed.

Lemma layout_untrack mm ptr b bs : layout mm bs -> layout (untrack mm ptr b) bs.
Proof. intros Ht. apply (layout_ext mm); [reflexivity|reflexivity|exact Ht]. Qed.

Lemma views_untrack mm ptr b bs : map (view (untrack mm ptr b)) bs = map (view mm) bs.
Proof. reflexivity. Qed.

(** Allocation directly followed by the release of the block returned. *)
Lemma roundtrip fuel fuel' mm bs n ptr mm1 :
  0 <= n -> n + H < size_t_modulus ->
  well_formed mm bs -> free_list_live mm bs ->
  allocate H fuel mm n = Some (Some ptr, mm1) ->
  exists mm2,
    deallocate H (S fuel') mm1 ptr = Some (true, mm2)
    /\ layout mm2 bs /\ map (view mm2) bs = map (view mm) bs.
Proof.
  intros Hn0 Hn1 (Hok & Ht & Hadj & _) Hlive Halloc.
  unfold allocate in Halloc.
  destruct (Z.eqb_spec n 0) as [|Hnz]; [discriminate|].
  rewrite (wrap_small (n + H)) in Halloc by lia.
  set (ma := add_requested mm n) in *.
  destruct (find_block fuel ma (n + H)) as [[b|]|] eqn:Hfind; try discriminate.
  injection Halloc as <- <-.
  apply find_block_sound in Hfind as [Hon Hfit].
  apply (on_list_ext ma mm) in Hon; [|reflexivity].
  change (freeListHead ma) with (freeListHead mm) in Hon.
  unfold fits in Hfit. change (header ma b) with (header mm b) in Hfit.
  apply andb_true_iff in Hfit as [Hfree Hsz]. apply Z.leb_le in Hsz.
  pose proof (Hlive b Hon Hfree) as Hb.
  destruct (in_layout_split _ _ _ Ht Hb) as (L1 & L2 & -> & HnL1 & HnL2).
  pose proof (layout_split _ _ _ _ Ht) as (HtL1 & Hposb & HtL2 & Hend & Hb0).
  pose proof Hok as [Hfirst HM].
  unfold no_adjacent_free in Hadj. rewrite adjacent_free_flags, flags_app in Hadj.
  change (flags mm (b :: L2)) with (is_free (header mm b) :: flags mm L2) in Hadj.
  rewrite Hfree, adjacent_app_cons, adjacent_snoc, adjacent_cons in Hadj.
  apply orb_false_iff in Hadj as [HadjL HadjR].
  apply orb_false_iff in HadjL as [_ HlastL1]. rewrite andb_true_r in HlastL1.
  apply orb_false_iff in HadjR as [HheadL2 _]. simpl in HheadL2.
  destruct (claim_block_spec ma b n (n + H)) as (split & (C1 & C2 & C3 & Ch) & Hsplit).
  { change (header ma b) with (header mm b). lia. }
  { change (header ma b) with (header mm b). lia. }
  set (m1 := claim_block H ma b n (n + H)) in *.
  change (header ma) with (header mm) in Ch.
  change (header ma b) with (header mm b) in Hsplit.
  change (totalMemorySize ma) with (totalMemorySize mm) in C1.
  change (firstBlock ma) with (firstBlock mm) in C2.
  change (addressToHeader ma) with (addressToHeader mm) in C3.
  clearbody m1. clear ma.
  (* the release *)
  unfold deallocate, isValidPointer, getHeader.
  rewrite C1, C3, lookup_insert_eq.
  destruct (Z.leb_spec 0 (b + H)) as [_|]; [|lia].
  destruct (Z.ltb_spec (b + H) (totalMemorySize mm)) as [_|]; [|lia].
  cbn [andb negb].
  destruct (Ch b) as (_ & Eb). rewrite decide_True in Eb by reflexivity. rewrite Eb.
  destruct (mark_free_spec H m1 b) as (F1 & F2 & _ & _ & Fh).
  set (m2 := mark_free H m1 b) in *. clearbody m2.
  assert (Hok2 : arena_ok m2) by (unfold arena_ok; rewrite F1, F2, C1, C2; exact Hok).
  assert (HL1 : forall o, In o L1 -> o < b).
  { intros o Ho. apply tiles_bounds in HtL1 as [_ HtL1].
    destruct (HtL1 o Ho) as (? & ? & ?). lia. }
  assert (HL2 : forall o, In o L2 -> b + size (header mm b) <= o).
  { intros o Ho. apply tiles_bounds in HtL2 as [_ HtL2].
    destruct (HtL2 o Ho) as (? & ? & ?). lia. }
  assert (Hfl2 : forall o, o <> b -> (split = true -> o <> b + (n + H)) ->
            size (header m2 o) = size (header mm o)
            /\ is_free (header m2 o) = is_free (header mm o)).
  { intros o Hob Hos. destruct (Fh o) as (-> & _ & ->). destruct (Ch o) as (-> & ->).
    rewrite !(decide_False (P := o = b)) by assumption. destruct split; [|auto].
    specialize (Hos eq_refl). rewrite (decide_False (P := o = b + (n + H))) by assumption.
    rewrite bool_decide_eq_false_2 by assumption. auto. }
  assert (HflL1 : flags m2 L1 = flags mm L1).
  { apply flags_ext. intros o Ho. specialize (HL1 o Ho). apply Hfl2; lia. }
  destruct split.
  - (* the block was split: the release absorbs the remainder again *)
    specialize (Hsplit eq_refl).
    assert (Esb : size (header m2 b) = n + H).
    { destruct (Fh b) as (-> & _). destruct (Ch b) as (-> & _). now rewrite decide_True. }
    assert (Esn : size (header m2 (b + (n + H))) = size (header mm b) - (n + H)).
    { destruct (Fh (b + (n + H))) as (-> & _). destruct (Ch (b + (n + H))) as (-> & _).
      rewrite decide_False by lia. now rewrite decide_True. }
    assert (Efn : is_free (header m2 (b + (n + H))) = true).
    { destruct (Fh (b + (n + H))) as (_ & _ & ->). rewrite decide_False by lia.
      destruct (Ch (b + (n + H))) as (_ & ->). rewrite decide_False by lia.
      now rewrite bool_decide_eq_true_2. }
    assert (Ht2 : layout m2 (L1 ++ b :: (b + (n + H)) :: L2)).
    { unfold layout. rewrite F1, C1. apply tiles_app. exists b. split.
      - apply (tiles_ext mm); [|exact HtL1]. intros o Ho. specialize (HL1 o Ho).
        apply Hfl2; lia.
      - constructor; [rewrite Esb; lia|]. rewrite Esb.
        constructor; [rewrite Esn; lia|]. rewrite Esn.
        replace (b + (n + H) + (size (header mm b) - (n + H)))
          with (b + size (header mm b)) by lia.
        apply (tiles_ext mm); [|exact HtL2]. intros o Ho. specialize (HL2 o Ho).
        apply Hfl2; lia. }
    destruct (coalesce_absorb_next fuel' m2 L1 b (b + (n + H)) L2)
      as (Hc & Hres & Ht3);
      [exact Hok2|exact Ht2|exact Efn|rewrite HflL1; exact HlastL1|].
    rewrite Hc. exists (untrack (merge_next m2 b) (b + H) b). split; [reflexivity|].
    generalize dependent (merge_next m2 b). intros m3 _ Hres Ht3.
    destruct Hres as (R1 & _ & _ & _ & Rh).
    split.
    + apply layout_untrack. exact Ht3.
    + rewrite views_untrack. apply views_eq. intros o Ho.
      destruct (Rh o) as (-> & _ & ->).
      destruct (decide (o = b)) as [->|Hob].
      * rewrite Esb, Esn. destruct (Fh b) as (_ & _ & ->). rewrite decide_True by reflexivity.
        split; [lia|now rewrite Hfree].
      * apply Hfl2; [exact Hob|]. intros _.
        apply in_app_or in Ho as [Ho|[Ho|Ho]].
        -- specialize (HL1 o Ho). lia.
        -- congruence.
        -- specialize (HL2 o Ho). lia.
  - (* the block was taken whole: the release finds nothing to merge *)
    assert (Hall : forall o, size (header m2 o) = size (header mm o)
                             /\ is_free (header m2 o) = is_free (header mm o)).
    { intros o. destruct (decide (o = b)) as [->|Hob].
      - destruct (Fh b) as (-> & _ & ->). destruct (Ch b) as (-> & _).
        rewrite decide_True by reflexivity. now rewrite Hfree.
      - apply Hfl2; [exact Hob|discriminate]. }
    assert (Ht2 : layout m2 (L1 ++ b :: L2)).
    { apply (layout_ext mm); [now rewrite F1, C1| |exact Ht]. intros x. apply Hall. }
    rewrite (coalesce_stable fuel' m2 L1 b L2);
      [|exact Hok2|exact Ht2| |rewrite HflL1; exact HlastL1].
    + exists (untrack m2 (b + H) b). split; [reflexivity|]. split.
      * apply layout_untrack. exact Ht2.
      * rewrite views_untrack. apply views_eq. intros o _. apply Hall.
    + rewrite <- HheadL2. f_equal. apply flags_ext. intros o _. apply Hall.
Qed.

End Allocation.

(** *** Checking a concrete arena *)

Lemma covers_tiles n mm : forall o,
  covers n mm o = true -> tiles mm o (offsets (walk n mm o)) (totalMemorySize mm).
Proof.
  induction n as [|n IH]; intros o Hc; [discriminate|]. simpl in Hc. simpl.
  destruct (Z.eqb_spec o (totalMemorySize mm)) as [E|Hne].
  - destruct (Z.ltb_spec o (totalMemorySize mm)) as [Hlt|_]; [lia|]. simpl.
    rewrite E. constructor.
  - apply andb_true_iff in Hc as [Hc Hrest]. apply andb_true_iff in Hc as [Hpos Hlt].
    rewrite Hlt. apply Z.ltb_lt in Hpos. simpl. constructor; [exact Hpos|]. now apply IH.
Qed.

Lemma walk_views n mm : forall o, map (view mm) (offsets (walk n mm o)) = walk n mm o.
Proof.
  induction n as [|n IH]; intros o; [reflexivity|]. simpl.
  destruct (o <? totalMemorySize mm); [|reflexivity]. simpl. now rewrite IH.
Qed.

Lemma chain_of_sound n mm : forall p cs, chain_of n mm p = Some cs -> chain mm p cs.
Proof.
  induction n as [|n IH]; intros [c|] cs Hc; simpl in Hc; try discriminate;
    try (injection Hc as <-; constructor).
  destruct (chain_of n mm (next (header mm c))) as [cs'|] eqn:E; [|discriminate].
  injection Hc as <-. constructor. now apply IH.
Qed.

Lemma chain_on_list mm p cs c : chain mm p cs -> on_list mm p c -> In c cs.
Proof.
  intros Hc Hon. revert cs Hc. induction Hon as [c|c d Hon IH]; intros cs Hc.
  - inversion Hc; subst. now left.
  - inversion Hc; subst. right. now apply IH.
Qed.

Lemma listed_In (l : list Z) (x : Z) : listed (table_of l) x = true -> In x l.
Proof.
  unfold listed. induction l as [|y l IH]; simpl.
  - rewrite lookup_empty. discriminate.
  - rewrite lookup_insert. destruct (decide (y = x)) as [->|Hne]; [now left|].
    intros Hx. right. now apply IH.
Qed.

Lemma check_arena_sound n mm :
  check_arena n mm = true ->
  well_formed mm (offsets (walk n mm 0)) /\ free_list_live mm (offsets (walk n mm 0)).
Proof.
  unfold check_arena. cbv zeta. intros Hc.
  repeat (apply andb_true_iff in Hc as [Hc ?]).
  apply Z.eqb_eq in Hc.
  match goal with H : (0 <=? _) = true |- _ => apply Z.leb_le in H end.
  match goal with H : (_ <? _) = true |- _ => apply Z.ltb_lt in H end.
  match goal with H : negb _ = true |- _ => apply negb_true_iff in H end.
  split.
  - split; [split; [assumption|lia]|]. split; [now apply covers_tiles|]. split.
    + unfold no_adjacent_free. now rewrite walk_views.
    + intros p b Hpb. apply listed_In.
      match goal with H : forallb _ (map_to_list _) = true |- _ =>
        rewrite forallb_forall in H; apply (H (p, b)) end.
      apply list_elem_of_In. now apply elem_of_map_to_list.
  - destruct (chain_of n mm (freeListHead mm)) as [cs|] eqn:Ecs; [|discriminate].
    intros c Hon Hfree. apply chain_of_sound in Ecs.
    pose proof (chain_on_list _ _ _ _ Ecs Hon) as Hin.
    match goal with H : forallb _ cs = true |- _ =>
      rewrite forallb_forall in H; specialize (H c Hin) end.
    rewrite Hfree in *. simpl in *. now apply listed_In.
Qed.

(** *** The capped walks *)

Section Walks.

Variable H : Z.

Lemma tiles_step mm o bs :
  tiles mm o bs (totalMemorySize mm) -> totalMemorySize mm < size_t_modulus -> 0 <= o ->
  match bs with
  | [] => (o <? totalMemorySize mm) = false
  | x :: bs' =>
      x = o /\ (o <? totalMemorySize mm) = true
      /\ wrap (o + size (header mm o)) = o + size (header mm o)
      /\ 0 <= o + size (header mm o)
      /\ tiles mm (o + size (header mm o)) bs' (totalMemorySize mm)
  end.
Proof.
  intros Ht HM Ho. destruct bs as [|x bs'].
  - apply tiles_nil_inv in Ht. rewrite <- Ht. apply Z.ltb_irrefl.
  - apply tiles_cons_inv in Ht as (-> & Hpos & Ht).
    pose proof (tiles_bounds _ _ _ _ Ht) as [Hle _].
    split; [reflexivity|]. split; [apply Z.ltb_lt; lia|].
    split; [apply wrap_small; lia|]. split; [lia|exact Ht].
Qed.

Lemma getLargestFreeBlock_loop_spec mm k : forall o bs acc,
  tiles mm o bs (totalMemorySize mm) -> totalMemorySize mm < size_t_modulus -> 0 <= o ->
  getLargestFreeBlock_loop k mm o acc
  = fold_left largest_step (map (view mm) (firstn k bs)) acc.
Proof.
  induction k as [|k IH]; intros o bs acc Ht HM Ho; [reflexivity|].
  pose proof (tiles_step _ _ _ Ht HM Ho) as Hs. simpl. destruct bs as [|x bs'].
  - now rewrite Hs.
  - destruct Hs as (-> & -> & -> & Ho' & Ht'). simpl. now apply IH.
Qed.

Lemma getExternalFragmentation_loop_spec mm k : forall o bs t l,
  tiles mm o bs (totalMemorySize mm) -> totalMemorySize mm < size_t_modulus -> 0 <= o ->
  getExternalFragmentation_loop H k mm o t l
  = fold_left (frag_step H) (map (view mm) (firstn k bs)) (t, l).
Proof.
  induction k as [|k IH]; intros o bs t l Ht HM Ho; [reflexivity|].
  pose proof (tiles_step _ _ _ Ht HM Ho) as Hs. simpl. destruct bs as [|x bs'].
  - now rewrite Hs.
  - destruct Hs as (-> & -> & -> & Ho' & Ht'). simpl. now apply IH.
Qed.

Lemma dumpMemory_loop_spec mm k : forall o bs,
  tiles mm o bs (totalMemorySize mm) -> totalMemorySize mm < size_t_modulus -> 0 <= o ->
  dumpMemory_loop H k mm o
  = map (fun b => dump_line H b (header mm b)) (firstn k bs).
Proof.
  induction k as [|k IH]; intros o bs Ht HM Ho; [reflexivity|].
  pose proof (tiles_step _ _ _ Ht HM Ho) as Hs. simpl. destruct bs as [|x bs'].
  - now rewrite Hs.
  - destruct Hs as (-> & -> & -> & Ho' & Ht'). simpl. f_equal. now apply IH.
Qed.

Lemma dumpMemory_loop_length mm k : forall o, (length (dumpMemory_loop H k mm o) <= k)%nat.
Proof.
  induction k as [|k IH]; intros o; simpl; [lia|].
  destruct (o <? totalMemorySize mm); simpl; [|lia]. specialize (IH (wrap (o + size (header mm o)))). lia.
Qed.

End Walks.

Lemma findBestFit_loop_spec mm sz k : forall best cur cs,
  chain mm cur cs ->
  findBestFit_loop k mm best cur sz = fold_left (best_step mm sz) (firstn k cs) best.
Proof.
  induction k as [|k IH]; intros best cur cs Hc.
  - destruct cur; reflexivity.
  - inversion Hc as [|c cs' Hc']; subst; [reflexivity|]. simpl. now apply IH.
Qed.

Lemma findFirstFit_loop_spec mm sz fuel : forall cur cs,
  chain mm cur cs -> (length cs < fuel)%nat ->
  findFirstFit_loop fuel mm cur sz = Some (List.find (fits mm sz) cs).
Proof.
  induction fuel as [|fuel IH]; intros cur cs Hc Hlen; [lia|].
  inversion Hc as [|c cs' Hc']; subst; [reflexivity|]. simpl.
  fold (fits mm sz c). destruct (fits mm sz c); [reflexivity|].
  apply IH; [exact Hc'|]. simpl in Hlen. lia.
Qed.

(** *** The free list as a doubly linked list *)

Lemma head_In (cs : list Z) c : head cs = Some c -> In c cs.
Proof. destruct cs; [discriminate|]. intros [= ->]. now left. Qed.

Lemma succ_in_In cs : forall o d, succ_in cs o = Some d -> In o cs /\ In d cs.
Proof.
  induction cs as [|c rest IH]; intros o d; simpl; [discriminate|].
  destruct (decide (c = o)) as [->|Hne].
  - intros Hh. split; [now left|right; now apply head_In].
  - intros Hs. apply IH in Hs as [? ?]. auto.
Qed.

Lemma pred_in_In cs : forall o d, pred_in cs o = Some d -> In o cs /\ In d cs.
Proof.
  induction cs as [|c rest IH]; intros o d; simpl; [discriminate|].
  destruct (decide (head rest = Some o)) as [Hh|Hne].
  - intros [= <-]. split; [right; now apply head_In|now left].
  - intros Hs. apply IH in Hs as [? ?]. auto.
Qed.

Lemma succ_in_notin cs o : ~ In o cs -> succ_in cs o = None.
Proof.
  intros Hn. destruct (succ_in cs o) eqn:E; [|reflexivity].
  apply succ_in_In in E as [? _]. contradiction.
Qed.

Lemma pred_in_notin cs o : ~ In o cs -> pred_in cs o = None.
Proof.
  intros Hn. destruct (pred_in cs o) eqn:E; [|reflexivity].
  apply pred_in_In in E as [? _]. contradiction.
Qed.

Lemma pred_in_head cs c : List.NoDup cs -> head cs = Some c -> pred_in cs c = None.
Proof.
  destruct cs as [|x rest]; [discriminate|]. intros Hnd [= ->]. simpl.
  apply NoDup_cons_iff in Hnd as [Hn _].
  destruct (decide (head rest = Some c)) as [Hh|_].
  - apply head_In in Hh. contradiction.
  - now apply pred_in_notin.
Qed.

Lemma pred_in_None cs : forall c,
  List.NoDup cs -> In c cs -> pred_in cs c = None -> head cs = Some c.
Proof.
  induction cs as [|x rest IH]; intros c Hnd Hin; [destruct Hin|]. simpl.
  destruct (decide (head rest = Some c)) as [Hh|Hne]; [discriminate|].
  intros Hp. destruct Hin as [->|Hin]; [reflexivity|].
  apply NoDup_cons_iff in Hnd as [_ Hnd]. exfalso. apply Hne. now apply IH.
Qed.

Lemma succ_pred cs : forall o c,
  List.NoDup cs -> (succ_in cs o = Some c <-> pred_in cs c = Some o).
Proof.
  induction cs as [|x rest IH]; intros o c Hnd; simpl; [easy|].
  apply NoDup_cons_iff in Hnd as [Hx Hnd].
  destruct (decide (x = o)) as [->|Hne]; destruct (decide (head rest = Some c)) as [Hh|Hnh].
  - easy.
  - split; [contradiction|]. intros Hp. apply pred_in_In in Hp as [_ ?]. contradiction.
  - split.
    + intros Hs. apply IH in Hs; [|exact Hnd]. exfalso.
      rewrite (pred_in_head rest c Hnd Hh) in Hs. discriminate.
    + intros [= ?]. contradiction.
  - now apply IH.
Qed.

Lemma succ_in_self cs o : List.NoDup cs -> succ_in cs o <> Some o.
Proof.
  induction cs as [|x rest IH]; intros Hnd; simpl; [discriminate|].
  apply NoDup_cons_iff in Hnd as [Hx Hnd].
  destruct (decide (x = o)) as [->|Hne]; [|now apply IH].
  intros Hh. apply head_In in Hh. contradiction.
Qed.

Lemma pred_in_self cs o : List.NoDup cs -> pred_in cs o <> Some o.
Proof. intros Hnd Hp. apply succ_pred in Hp; [|exact Hnd]. now apply succ_in_self in Hp. Qed.

Lemma In_without c cs : forall x, List.NoDup cs -> (In x (without c cs) <-> In x cs /\ x <> c).
Proof.
  induction cs as [|y rest IH]; intros x Hnd; simpl; [tauto|].
  apply NoDup_cons_iff in Hnd as [Hy Hnd].
  destruct (decide (y = c)) as [->|Hne].
  - split.
    + intros Hin. split; [now right|]. intros ->. contradiction.
    + intros [[->|Hin] Hx]; [contradiction|exact Hin].
  - simpl. rewrite IH by exact Hnd. split.
    + intros [->|[Hin Hx]]; auto.
    + intros [[->|Hin] Hx]; auto.
Qed.

Lemma NoDup_without c cs : List.NoDup cs -> List.NoDup (without c cs).
Proof.
  induction cs as [|y rest IH]; intros Hnd; simpl; [constructor|].
  pose proof Hnd as Hnd0. apply NoDup_cons_iff in Hnd as [Hy Hnd].
  destruct (decide (y = c)); [exact Hnd|].
  apply NoDup_cons_iff. split; [|now apply IH].
  rewrite In_without by exact Hnd. tauto.
Qed.

Lemma without_notin c cs : ~ In c cs -> without c cs = cs.
Proof.
  induction cs as [|y rest IH]; intros Hn; simpl; [reflexivity|].
  destruct (decide (y = c)) as [->|_]; [exfalso; apply Hn; now left|].
  rewrite IH; [reflexivity|]. intros Hin. apply Hn. now right.
Qed.

Lemma length_without c cs : (length (without c cs) <= length cs)%nat.
Proof.
  induction cs as [|y rest IH]; simpl; [lia|].
  destruct (decide (y = c)); simpl; lia.
Qed.

Lemma head_without c cs :
  head (without c cs) = if decide (head cs = Some c) then succ_in cs c else head cs.
Proof.
  destruct cs as [|y rest]; [destruct (decide (head [] = Some c)); reflexivity|]. simpl.
  destruct (decide (y = c)) as [->|Hne].
  - rewrite decide_True by reflexivity. reflexivity.
  - rewrite decide_False by congruence. reflexivity.
Qed.

Lemma succ_in_without c cs : forall o,
  List.NoDup cs ->
  succ_in (without c cs) o
  = if decide (o = c) then None
    else if decide (succ_in cs o = Some c) then succ_in cs c else succ_in cs o.
Proof.
  induction cs as [|x rest IH]; intros o Hnd.
  - destruct (decide (o = c)); [reflexivity|].
    destruct (decide (_ = Some c)); reflexivity.
  - pose proof Hnd as Hnd0. apply NoDup_cons_iff in Hnd as [Hx Hnd].
    cbn [without]. destruct (decide (x = c)) as [->|Hxc].
    + destruct (decide (o = c)) as [->|Hoc]; [now apply succ_in_notin|].
      cbn [succ_in]. rewrite !(decide_False (P := c = o)) by congruence.
      rewrite decide_False; [reflexivity|].
      intros Hs. apply succ_in_In in Hs as [_ ?]. contradiction.
    + cbn [succ_in]. rewrite (decide_False (P := x = c)) by exact Hxc.
      destruct (decide (x = o)) as [->|Hxo].
      * rewrite (decide_False (P := o = c)) by exact Hxc. rewrite head_without.
        destruct (decide (head rest = Some c)); reflexivity.
      * apply IH. exact Hnd.
Qed.

Lemma pred_in_without c cs : forall o,
  List.NoDup cs ->
  pred_in (without c cs) o
  = if decide (o = c) then None
    else if decide (pred_in cs o = Some c) then pred_in cs c else pred_in cs o.
Proof.
  induction cs as [|x rest IH]; intros o Hnd.
  - destruct (decide (o = c)); [reflexivity|].
    destruct (decide (_ = Some c)); reflexivity.
  - pose proof Hnd as Hnd0. apply NoDup_cons_iff in Hnd as [Hx Hnd].
    cbn [without]. destruct (decide (x = c)) as [->|Hxc].
    + (* the node removed is the first *)
      destruct (decide (o = c)) as [->|Hoc]; [now apply pred_in_notin|].
      cbn [pred_in].
      destruct (decide (head rest = Some o)) as [Hh|Hnh].
      * rewrite decide_True by reflexivity.
        rewrite decide_False by (intros Hc; apply head_In in Hc; contradiction).
        rewrite (pred_in_notin rest c Hx). now apply pred_in_head.
      * rewrite decide_False; [reflexivity|].
        intros Hp. apply pred_in_In in Hp as [_ ?]. contradiction.
    + cbn [pred_in].
      destruct (decide (o = c)) as [->|Hoc].
      * assert (Hn : head (without c rest) <> Some c).
        { intros Hh. apply head_In in Hh. apply In_without in Hh; tauto. }
        rewrite (decide_False (P := head (without c rest) = Some c)) by exact Hn.
        rewrite IH by exact Hnd. now rewrite decide_True.
      * destruct (decide (head rest = Some c)) as [Hhc|Hhc].
        -- (* the node removed is the second *)
           destruct rest as [|y r']; [discriminate|]. injection Hhc as ->.
           apply NoDup_cons_iff in Hnd as [Hc Hnd'].
           cbn [without pred_in head]. rewrite !(decide_True (P := c = c)) by reflexivity.
           rewrite !(decide_False (P := Some c = Some o)) by congruence.
           destruct (decide (head r' = Some o)) as [Hho|Hho].
           ++ now rewrite decide_True.
           ++ rewrite decide_False; [reflexivity|].
              intros Hp. apply pred_in_In in Hp as [_ ?]. contradiction.
        -- rewrite head_without, (decide_False (P := head rest = Some c)) by exact Hhc.
           rewrite IH by exact Hnd. rewrite (decide_False (P := o = c)) by exact Hoc.
           destruct (decide (head rest = Some o)) as [Hho|Hho].
           ++ rewrite decide_False by congruence. reflexivity.
           ++ reflexivity.
Qed.

Ltac links :=
  repeat first
    [ rewrite header_store
    | match goal with
      | |- context [header (with_freeListHead ?m ?h)] =>
          change (header (with_freeListHead m h)) with (header m)
      end
    | case_decide
    | progress subst
    | progress cbn [next prev put_next put_prev] ];
  try congruence; try (split; congruence).

Lemma removeFromFreeList_links mm c :
  prev (header mm c) <> Some c -> next (header mm c) <> Some c ->
  let mm' := removeFromFreeList mm c in
  freeListHead mm'
  = (if decide (prev (header mm c) = None) then next (header mm c) else freeListHead mm)
  /\ forall o,
       next (header mm' o)
       = (if decide (o = c) then None
          else if decide (prev (header mm c) = Some o) then next (header mm c)
          else next (header mm o))
       /\ prev (header mm' o)
          = (if decide (o = c) then None
             else if decide (next (header mm c) = Some o) then prev (header mm c)
             else prev (header mm o)).
Proof.
  intros Hp Hn. unfold removeFromFreeList.
  destruct (prev (header mm c)) as [p|] eqn:Ep.
  - assert (Hpc : p <> c) by congruence.
    assert (E1 : header (store mm p (put_next (next (header mm c)))) c = header mm c).
    { rewrite header_store. now rewrite decide_False. }
    cbv zeta. rewrite E1, Ep.
    destruct (next (header mm c)) as [n|] eqn:En.
    + assert (Hnc : n <> c) by congruence.
      split; [reflexivity|]. intros o. links.
    + split; [reflexivity|]. intros o. links.
  - cbv zeta. change (header (with_freeListHead mm (next (header mm c))) c) with (header mm c).
    rewrite Ep. destruct (next (header mm c)) as [n|] eqn:En.
    + assert (Hnc : n <> c) by congruence.
      split; [reflexivity|]. intros o.
      change (header (with_freeListHead mm (Some n))) with (header mm). links.
    + split; [reflexivity|]. intros o.
      change (header (with_freeListHead mm None)) with (header mm). links.
Qed.

Lemma addToFreeList_links mm c :
  prev (header mm c) = None -> next (header mm c) = None -> freeListHead mm <> Some c ->
  let mm' := addToFreeList mm c in
  freeListHead mm' = Some c
  /\ forall o,
       next (header mm' o) = (if decide (o = c) then freeListHead mm else next (header mm o))
       /\ prev (header mm' o)
          = (if decide (freeListHead mm = Some o) then Some c
             else if decide (o = c) then None else prev (header mm o)).
Proof.
  intros Hp Hn Hh. unfold addToFreeList. rewrite Hp, Hn.
  assert (E : ptr_eqb (freeListHead mm) c = false).
  { unfold ptr_eqb. destruct (freeListHead mm) as [h|]; [|reflexivity].
    apply Z.eqb_neq. congruence. }
  rewrite E. cbn [is_null negb orb]. cbv zeta.
  change (freeListHead (store (store mm c (put_next (freeListHead mm))) c (put_prev None)))
    with (freeListHead mm).
  destruct (freeListHead mm) as [h|] eqn:Eh.
  - split; [reflexivity|]. intros o. links.
  - split; [reflexivity|]. intros o. links.
Qed.

Lemma linked_store_payload mm p f cs :
  (forall h, next (f h) = next h /\ prev (f h) = prev h) ->
  linked mm cs -> linked (store mm p f) cs.
Proof.
  intros Hf (Hh & Hnd & Hl). split; [exact Hh|]. split; [exact Hnd|].
  intros o. rewrite header_store. destruct (decide (o = p)) as [->|]; [|apply Hl].
  destruct (Hf (header mm p)) as [-> ->]. apply Hl.
Qed.

Lemma linked_chain mm cs : linked mm cs -> chain mm (freeListHead mm) cs.
Proof.
  intros (-> & Hnd & Hl).
  assert (Hn : forall o, In o cs -> next (header mm o) = succ_in cs o) by (intros; apply Hl).
  clear Hl. induction cs as [|c rest IH]; [constructor|].
  apply NoDup_cons_iff in Hnd as [Hc Hnd]. simpl. constructor.
  rewrite (Hn c) by now left. simpl. rewrite decide_True by reflexivity.
  apply IH; [exact Hnd|]. intros o Ho. rewrite (Hn o) by now right.
  simpl. rewrite decide_False; [reflexivity|]. intros ->. contradiction.
Qed.

Lemma removeFromFreeList_linked mm cs c :
  linked mm cs -> In c cs -> linked (removeFromFreeList mm c) (without c cs).
Proof.
  intros (Hh & Hnd & Hl) Hin.
  destruct (Hl c) as [Enc Epc].
  destruct (removeFromFreeList_links mm c) as [Hh' Hl'].
  { rewrite Epc. now apply pred_in_self. }
  { rewrite Enc. now apply succ_in_self. }
  split; [|split; [now apply NoDup_without|]].
  - rewrite Hh', head_without, Epc, Enc, Hh.
    destruct (decide (pred_in cs c = None)) as [E|E].
    + rewrite decide_True; [reflexivity|]. now apply pred_in_None.
    + rewrite decide_False; [reflexivity|].
      intros Hc. apply E. now apply pred_in_head.
  - intros o. destruct (Hl' o) as [-> ->]. destruct (Hl o) as [Eno Epo].
    rewrite succ_in_without, pred_in_without by exact Hnd.
    rewrite Enc, Epc, Eno, Epo.
    destruct (decide (o = c)) as [->|Hoc]; [auto|]. split.
    + destruct (decide (pred_in cs c = Some o)) as [E|E].
      * rewrite decide_True; [reflexivity|]. now apply succ_pred.
      * rewrite decide_False; [reflexivity|]. intros E'. apply E. now apply succ_pred.
    + destruct (decide (succ_in cs c = Some o)) as [E|E].
      * rewrite decide_True; [reflexivity|]. now apply succ_pred.
      * rewrite decide_False; [reflexivity|]. intros E'. apply E. now apply succ_pred.
Qed.

Lemma addToFreeList_linked mm cs c :
  linked mm cs -> ~ In c cs -> linked (addToFreeList mm c) (c :: cs).
Proof.
  intros (Hh & Hnd & Hl) Hin.
  destruct (Hl c) as [Enc Epc].
  destruct (addToFreeList_links mm c) as [Hh' Hl'].
  { rewrite Epc. now apply pred_in_notin. }
  { rewrite Enc. now apply succ_in_notin. }
  { rewrite Hh. intros Hc. apply head_In in Hc. contradiction. }
  split; [exact Hh'|]. split; [now apply NoDup_cons_iff|].
  intros o. destruct (Hl' o) as [-> ->]. destruct (Hl o) as [Eno Epo].
  rewrite Hh, Eno, Epo. simpl. split.
  - destruct (decide (o = c)) as [->|Hoc].
    + now rewrite decide_True.
    + rewrite decide_False by congruence. reflexivity.
  - destruct (decide (head cs = Some o)) as [E|E]; [reflexivity|].
    destruct (decide (o = c)) as [->|Hoc]; [|reflexivity].
    symmetry. now apply pred_in_notin.
Qed.

(** *** The invariant of the allocator *)

Lemma merge_into_prev_absorb mm p b : merge_into_prev mm p b = absorb mm p b.
Proof. reflexivity. Qed.

Lemma merge_next_absorb mm b :
  merge_next mm b
  = if b + size (header mm b) <? totalMemorySize mm then
      if is_free (header mm (b + size (header mm b)))
      then absorb mm b (b + size (header mm b)) else mm
    else mm.
Proof. reflexivity. Qed.

Lemma layout_NoDup mm bs : layout mm bs -> List.NoDup bs.
Proof.
  unfold layout. generalize 0 as o. induction bs as [|x bs IH]; intros o Ht; [constructor|].
  apply tiles_cons_inv in Ht as (-> & Hpos & Ht). constructor; [|now apply (IH _ Ht)].
  intros Hin. apply tiles_bounds in Ht as [_ Hb]. destruct (Hb _ Hin) as (? & ? & ?). lia.
Qed.

Lemma absorb_coherent mm A x y B cs :
  coherent mm (A ++ x :: y :: B) cs -> is_free (header mm y) = true ->
  coherent (absorb mm x y) (A ++ x :: B) (without y cs)
  /\ resized mm (absorb mm x y) x (size (header mm x) + size (header mm y)).
Proof.
  intros (Hok & Ht & Hl & Hex) Hy.
  pose proof (layout_NoDup _ _ Ht) as Hnd.
  pose proof (layout_split _ _ _ _ Ht) as (_ & Hposx & Htx & _ & Hx0).
  pose proof (tiles_cons_inv _ _ _ _ _ Htx) as (Ey & Hposy & Hty).
  pose proof (tiles_bounds _ _ _ _ Hty) as [Hle _].
  rewrite <- Ey in Hposy, Hle.
  assert (Hres : resized mm (absorb mm x y) x (size (header mm x) + size (header mm y))).
  { rewrite <- merge_into_prev_absorb. apply merge_into_prev_spec.
    destruct Hok as [_ HM]. lia. }
  split; [|exact Hres].
  assert (Hyin : In y cs).
  { apply Hex. split; [|exact Hy]. apply in_or_app. right. right. now left. }
  split; [eapply resized_arena; eauto|]. split; [eapply resized_absorb; eauto|].
  split.
  - unfold absorb. cbv zeta. apply linked_store_payload; [intros h; split; reflexivity|].
    now apply removeFromFreeList_linked.
  - intros c. destruct Hl as (_ & Hndc & _). rewrite In_without by exact Hndc.
    destruct Hres as (_ & _ & _ & _ & Hh). destruct (Hh c) as (-> & _). rewrite Hex.
    assert (Hsplit : In c (A ++ x :: y :: B) <-> In c (A ++ x :: B) \/ c = y).
    { rewrite !in_app_iff. simpl. intuition. }
    assert (Hny : ~ In y (A ++ x :: B)).
    { replace (A ++ x :: B) with ((A ++ [x]) ++ B) by now rewrite <- app_assoc.
      apply NoDup_remove_2. now rewrite <- app_assoc. }
    rewrite Hsplit. split.
    + intros [[[Hin| ->] Hf] Hne]; [auto|contradiction].
    + intros [Hin Hf]. split; [auto|]. intros ->. contradiction.
Qed.

Lemma merge_next_coherent mm L1 b L2 cs :
  coherent mm (L1 ++ b :: L2) cs -> adjacent (flags mm L2) = false ->
  exists L2' cs' v,
    coherent (merge_next mm b) (L1 ++ b :: L2') cs'
    /\ resized mm (merge_next mm b) b v
    /\ headb (flags mm L2') = false /\ adjacent (flags mm L2') = false
    /\ (forall o, In o L2' -> In o L2)
    /\ (forall o, In o L2 -> ~ In o L2' -> is_free (header mm o) = true)
    /\ (length L2' <= length L2)%nat.
Proof.
  intros Hco Hadj. pose proof Hco as (Hok & Ht & _).
  destruct (headb (flags mm L2)) eqn:Hh.
  - destruct L2 as [|n B]; [discriminate|]. unfold headb in Hh. simpl in Hh.
    change (flags mm (n :: B)) with (is_free (header mm n) :: flags mm B) in Hadj.
    rewrite adjacent_cons, Hh in Hadj. simpl in Hadj.
    apply orb_false_iff in Hadj as [HhB HadjB].
    destruct (absorb_coherent mm L1 b n B cs Hco Hh) as [Hco' Hres].
    assert (E : merge_next mm b = absorb mm b n).
    { rewrite merge_next_absorb.
      pose proof (layout_split _ _ _ _ Ht) as (_ & Hpos & Htb & _ & _).
      pose proof (tiles_cons_inv _ _ _ _ _ Htb) as (En & Hposn & Htn).
      pose proof (tiles_bounds _ _ _ _ Htn) as [Hle _].
      destruct (Z.ltb_spec (b + size (header mm b)) (totalMemorySize mm)); [|lia].
      now rewrite <- En, Hh. }
    rewrite E. exists B, (without n cs), (size (header mm b) + size (header mm n)).
    split; [exact Hco'|]. split; [exact Hres|]. split; [exact HhB|]. split; [exact HadjB|].
    split; [intros o Ho; now right|]. split; [|simpl; lia].
    intros o [<-|Ho] Hn; [exact Hh|contradiction].
  - exists L2, cs, (size (header mm b)). rewrite (merge_next_none _ _ _ _ Ht Hh).
    split; [exact Hco|]. split; [apply resized_refl|]. split; [exact Hh|]. split; [exact Hadj|].
    split; [auto|]. split; [intros; contradiction|lia].
Qed.

(** [coalesceBlocks] on a free block whose predecessor the search reaches:
    the blocks absorbed leave the tiling and the free list together, and
    afterwards no two neighbours are both free. *)
Lemma coalesce_coherent fuel mm L1 b L2 cs :
  coherent mm (L1 ++ b :: L2) cs -> is_free (header mm b) = true ->
  adjacent (flags mm L1) = false -> adjacent (flags mm L2) = false ->
  (length L1 <= maxIterations_coalesce)%nat ->
  exists mm' bs' cs',
    coalesceBlocks (S (S fuel)) mm b = Some mm'
    /\ coherent mm' bs' cs' /\ adjacent (flags mm' bs') = false
    /\ addressToHeader mm' = addressToHeader mm /\ idToHeader mm' = idToHeader mm
    /\ (forall o, is_free (header mm' o) = is_free (header mm o))
    /\ (forall o, In o bs' -> In o (L1 ++ b :: L2))
    /\ (forall o, In o (L1 ++ b :: L2) -> ~ In o bs' ->
          is_free (header mm o) = true /\ 0 < o)
    /\ (length bs' <= length (L1 ++ b :: L2))%nat.
Proof.
  intros Hco Hb HadjL1 HadjL2 Hcap.
  destruct (merge_next_coherent _ _ _ _ _ Hco HadjL2)
    as (L2' & cs1 & v & Hco1 & Hres & Hh & Hadj2 & Hsub & Hgone & Hlen).
  set (mm1 := merge_next mm b) in *.
  pose proof Hco1 as (Hok1 & Ht1 & _).
  assert (Hfl : forall bs, flags mm1 bs = flags mm bs)
    by (intros bs; eapply resized_flags; eauto).
  assert (Hfree1 : forall o, is_free (header mm1 o) = is_free (header mm o)).
  { intros o. destruct Hres as (_ & _ & _ & _ & Hh1). apply Hh1. }
  assert (Htail : adjacent (true :: flags mm L2') = false).
  { rewrite adjacent_cons, Hh, Hadj2. reflexivity. }
  pose proof (layout_split _ _ _ _ (proj1 (proj2 Hco))) as (HtL1 & Hposb & HtL2 & _ & Hb0).
  assert (HL2pos : forall o, In o L2 -> 0 < o).
  { intros o Ho. apply tiles_bounds in HtL2 as [_ HtL2].
    destruct (HtL2 o Ho) as (? & ? & ?). lia. }
  rewrite coalesceBlocks_S. fold mm1.
  rewrite (find_prev_layout _ _ _ _ Hok1 Ht1).
  assert (Hkeep : adjacent (flags mm L1) || (lastb (flags mm L1) && true) = false ->
            exists mm' bs' cs', Some mm1 = Some mm'
              /\ coherent mm' bs' cs' /\ adjacent (flags mm' bs') = false
              /\ addressToHeader mm' = addressToHeader mm
              /\ idToHeader mm' = idToHeader mm
              /\ (forall o, is_free (header mm' o) = is_free (header mm o))
              /\ (forall o, In o bs' -> In o (L1 ++ b :: L2))
              /\ (forall o, In o (L1 ++ b :: L2) -> ~ In o bs' ->
                    is_free (header mm o) = true /\ 0 < o)
              /\ (length bs' <= length (L1 ++ b :: L2))%nat).
  { intros Hl. exists mm1, (L1 ++ b :: L2'), cs1. split; [reflexivity|]. split; [exact Hco1|].
    split.
    { rewrite Hfl, flags_app.
      change (flags mm (b :: L2')) with (is_free (header mm b) :: flags mm L2').
      rewrite Hb, adjacent_app_cons, adjacent_snoc, Hl, Htail. reflexivity. }
    split; [apply Hres|]. split; [apply Hres|]. split; [exact Hfree1|].
    split.
    { intros o Ho. apply in_app_iff in Ho as [Ho|[Ho|Ho]]; apply in_app_iff; simpl; auto. }
    split.
    { intros o Ho Hn. apply in_app_iff in Ho as [Ho|[Ho|Ho]].
      - exfalso. apply Hn. apply in_app_iff. auto.
      - exfalso. apply Hn. apply in_app_iff. simpl. auto.
      - split; [|now apply HL2pos]. apply Hgone; [exact Ho|].
        intros Ho'. apply Hn. apply in_app_iff. simpl. auto. }
    rewrite !length_app. simpl. lia. }
  destruct (snoc_cases L1) as [->|(A & p & ->)].
  - apply Hkeep. reflexivity.
  - rewrite last_snoc. apply Nat.leb_le in Hcap. rewrite Hcap.
    replace (match A ++ [p] with [] => None | _ :: _ => Some p end)
      with (Some p) by (destruct A; reflexivity).
    rewrite Hfree1. destruct (is_free (header mm p)) eqn:Hp.
    + (* the predecessor is free: merge into it, then nothing is left to merge *)
      rewrite flags_app in HadjL1. change (flags mm [p]) with [is_free (header mm p)] in HadjL1.
      rewrite Hp, adjacent_snoc in HadjL1. apply orb_false_iff in HadjL1 as [HadjA HlastA].
      rewrite andb_true_r in HlastA.
      assert (Hco1' : coherent mm1 (A ++ p :: b :: L2') cs1).
      { replace (A ++ p :: b :: L2') with ((A ++ [p]) ++ b :: L2'); [exact Hco1|].
        now rewrite <- app_assoc. }
      assert (Hb1 : is_free (header mm1 b) = true) by now rewrite Hfree1.
      destruct (absorb_coherent mm1 A p b L2' cs1 Hco1' Hb1) as [Hco2 Hres2].
      rewrite merge_into_prev_absorb.
      set (mm2 := absorb mm1 p b) in *.
      pose proof Hco2 as (Hok2 & Ht2 & _).
      assert (Hfl2 : forall bs, flags mm2 bs = flags mm bs).
      { intros bs. rewrite <- Hfl. eapply resized_flags; eauto. }
      pose proof (layout_split _ _ _ _ (proj1 (proj2 Hco1'))) as (_ & Hposp & _ & _ & Hp0).
      pose proof (tiles_app mm (A ++ [p]) 0 (b :: L2) (totalMemorySize mm)) as [Hsp _].
      exists mm2, (A ++ p :: L2'), (without b cs1).
      split; [apply (coalesce_stable _ _ A p L2'); auto; rewrite Hfl2; assumption|].
      split; [exact Hco2|]. split.
      { rewrite Hfl2, flags_app.
        change (flags mm (p :: L2')) with (is_free (header mm p) :: flags mm L2').
        rewrite Hp, adjacent_app_cons, adjacent_snoc, HadjA, HlastA, Htail. reflexivity. }
      destruct (resized_trans_meta _ _ _ _ _ _ _ Hres Hres2) as (_ & _ & E1 & E2 & Hf2).
      split; [exact E1|]. split; [exact E2|]. split; [intros o; apply Hf2|].
      split.
      { intros o Ho. apply in_app_iff in Ho as [Ho|[Ho|Ho]]; rewrite !in_app_iff; simpl; auto. }
      split.
      { intros o Ho Hn. rewrite !in_app_iff in Ho. simpl in Ho.
        destruct Ho as [[Ho|[Ho|[]]]|[Ho|Ho]].
        - exfalso. apply Hn. apply in_app_iff. auto.
        - exfalso. apply Hn. apply in_app_iff. simpl. auto.
        - subst o. split; [exact Hb|]. assert (Hbp : 0 < b); [|exact Hbp].
          apply tiles_bounds in HtL1 as [_ HtL1].
          destruct (HtL1 p) as (? & ? & ?); [apply in_app_iff; simpl; auto|]. lia.
        - split; [|now apply HL2pos]. apply Hgone; [exact Ho|].
          intros Ho'. apply Hn. apply in_app_iff. simpl. auto. }
      rewrite !length_app; simpl; rewrite ?length_app; simpl; lia.
    + apply Hkeep. rewrite HadjL1, layout_last_free, Hp. reflexivity.
Qed.

Section Tracking.

Variable H : Z.

Lemma consistent_well_formed mm bs cs :
  consistent H mm bs cs -> well_formed mm bs /\ free_list_live mm bs.
Proof.
  intros ((Hok & Ht & Hl & Hex) & Hadj & Htr). split.
  - split; [exact Hok|]. split; [exact Ht|]. split; [exact Hadj|].
    intros p b Hp. now apply (Htr p b).
  - intros c Hon _. apply Hex. eapply chain_on_list; [|exact Hon]. now apply linked_chain.
Qed.

Lemma mark_free_coherent mm bs cs b :
  coherent mm bs cs -> is_free (header mm b) = false -> In b bs ->
  coherent (mark_free H mm b) bs (b :: cs).
Proof.
  intros (Hok & Ht & Hl & Hex) Hb Hin.
  destruct (mark_free_spec H mm b) as (E1 & E2 & _ & _ & Hh).
  split; [unfold arena_ok; now rewrite E1, E2|].
  split; [apply (layout_ext mm); auto; intros x; apply Hh|].
  split.
  - unfold mark_free. cbv zeta. apply addToFreeList_linked.
    + apply (linked_store_payload mm b (put_is_free true) cs); [intros h; split; reflexivity|].
      exact Hl.
    + intros Hc. apply Hex in Hc as [_ Hc]. congruence.
  - intros c. destruct (Hh c) as (_ & _ & ->). simpl. rewrite Hex.
    destruct (decide (c = b)) as [->|Hne]; [tauto|].
    split; [intros [Hc|Hc]; [congruence|exact Hc]|auto].
Qed.

Lemma coherent_untrack mm bs cs ptr b :
  coherent mm bs cs -> coherent (untrack mm ptr b) bs cs.
Proof.
  intros (Hok & Ht & Hl & Hex). split; [exact Hok|].
  split; [now apply layout_untrack|]. split; [exact Hl|exact Hex].
Qed.

Lemma release_consistent fuel mm bs cs ptr b :
  consistent H mm bs cs -> (length bs <= S maxIterations_coalesce)%nat ->
  addressToHeader mm !! ptr = Some b -> is_free (header mm b) = false ->
  exists mm' bs' cs',
    coalesceBlocks (S (S fuel)) (mark_free H mm b) b = Some mm'
    /\ consistent H (untrack mm' ptr b) bs' cs'
    /\ (length bs' <= length bs)%nat.
Proof.
  intros (Hco & Hadj & Htr) Hlen Hget Hb.
  pose proof Hco as (Hok & Ht & _).
  destruct (Htr _ _ Hget) as [Hin Hcase].
  pose proof (mark_free_coherent mm bs cs b Hco Hb Hin) as Hco1.
  destruct (in_layout_split _ _ _ Ht Hin) as (L1 & L2 & -> & HnL1 & HnL2).
  destruct (mark_free_spec H mm b) as (E1 & E2 & E3 & E4 & Hh).
  set (m1 := mark_free H mm b) in *.
  unfold no_adjacent_free in Hadj. rewrite adjacent_free_flags, flags_app in Hadj.
  apply adjacent_app in Hadj as [HadjL1 HadjL2].
  change (flags mm (b :: L2)) with (is_free (header mm b) :: flags mm L2) in HadjL2.
  rewrite adjacent_cons in HadjL2. apply orb_false_iff in HadjL2 as [_ HadjL2].
  assert (HfL1 : flags m1 L1 = flags mm L1).
  { apply flags_ext. intros x Hx. destruct (Hh x) as (_ & _ & ->).
    rewrite decide_False; [reflexivity|]. intros ->. contradiction. }
  assert (HfL2 : flags m1 L2 = flags mm L2).
  { apply flags_ext. intros x Hx. destruct (Hh x) as (_ & _ & ->).
    rewrite decide_False; [reflexivity|]. intros ->. contradiction. }
  assert (Hb1 : is_free (header m1 b) = true).
  { destruct (Hh b) as (_ & _ & ->). now rewrite decide_True. }
  destruct (coalesce_coherent fuel m1 L1 b L2 (b :: cs))
    as (mm' & bs' & cs' & Hc & Hco' & Hadj' & A1 & A2 & Hfree & Hsub & Hgone & Hlen');
    [exact Hco1|exact Hb1|now rewrite HfL1|now rewrite HfL2| |].
  { rewrite length_app in Hlen. simpl in Hlen. lia. }
  exists mm', bs', cs'. split; [exact Hc|]. split; [|exact Hlen'].
  clearbody m1. clear Hc.
  split; [now apply coherent_untrack|]. split.
  - unfold no_adjacent_free. rewrite adjacent_free_flags. exact Hadj'.
  - intros p b0 Hp. change (addressToHeader (untrack mm' ptr b)) with
      (delete ptr (addressToHeader mm')) in Hp.
    apply lookup_delete_Some in Hp as [Hne Hp]. rewrite A1, E3 in Hp.
    destruct (Htr _ _ Hp) as [Hin0 Hcase0].
    change (header (untrack mm' ptr b) b0) with (header mm' b0).
    rewrite Hfree. destruct (Hh b0) as (_ & _ & Ef).
    assert (Hnb : b0 <> 0 -> b0 <> b).
    { intros Hz ->. destruct Hcase0 as [|[-> _]]; [contradiction|].
      destruct Hcase as [|[-> _]]; [contradiction|]. contradiction. }
    split.
    + destruct (in_dec Z.eq_dec b0 bs') as [Hyes|Hno]; [exact Hyes|].
      destruct (Hgone b0 Hin0 Hno) as [Hf Hpos]. exfalso.
      rewrite Ef in Hf. rewrite decide_False in Hf by (apply Hnb; lia).
      destruct Hcase0 as [|[_ Hf0]]; [lia|congruence].
    + destruct Hcase0 as [Hz|[Hpe Hf0]]; [now left|].
      destruct (decide (b0 = 0)) as [Hz|Hz]; [now left|]. right. split; [exact Hpe|].
      rewrite Ef. rewrite decide_False by now apply Hnb. exact Hf0.
Qed.

End Tracking.

Lemma coherent_ext mm mm' bs cs :
  totalMemorySize mm' = totalMemorySize mm -> firstBlock mm' = firstBlock mm ->
  freeListHead mm' = freeListHead mm -> (forall o, header mm' o = header mm o) ->
  coherent mm bs cs -> coherent mm' bs cs.
Proof.
  intros E1 E2 E3 Hh (Hok & Ht & (Hhd & Hnd & Hl) & Hex).
  split; [unfold arena_ok; now rewrite E1, E2|].
  split; [apply (layout_ext mm); auto; intros x; now rewrite Hh|].
  split.
  - split; [now rewrite E3|]. split; [exact Hnd|]. intros o. rewrite Hh. apply Hl.
  - intros c. rewrite Hh. apply Hex.
Qed.

Section ClaimInvariant.

Variable H : Z.
Hypothesis H_pos : 0 < H.
Hypothesis H_small : H + 8 < size_t_modulus.

Lemma maybe_split_cases mm b r :
  0 < r <= size (header mm b) -> size (header mm b) < size_t_modulus ->
  maybe_split H mm b r
  = if H + 8 <=? size (header mm b) - r
    then addToFreeList
           (store (store (store (store mm (b + r) (put_size (size (header mm b) - r)))
                           (b + r) (put_is_free true)) (b + r) (put_block_id 0))
              b (put_size r)) (b + r)
    else mm.
Proof.
  intros Hr Hsz. unfold maybe_split, splitBlock.
  rewrite (wrap_small (size (header mm b) - r)) by lia.
  rewrite (wrap_small (H + 8)) by lia.
  destruct (Z.leb_spec (H + 8) (size (header mm b) - r)) as [Hs|Hs].
  - rewrite (wrap_small (r + H)) by lia. rewrite (wrap_small (r + H + 8)) by lia.
    destruct (Z.leb_spec (r + H + 8) (size (header mm b))); [|lia].
    destruct (Z.ltb_spec (size (header mm b) - r) (H + 8)); [lia|]. reflexivity.
  - destruct (_ <=? _); [|reflexivity].
    destruct (Z.ltb_spec (size (header mm b) - r) (H + 8)); [reflexivity|lia].
Qed.

Lemma maybe_split_coherent mm L1 b L2 cs r :
  coherent mm (L1 ++ b :: L2) cs -> 0 < r <= size (header mm b) ->
  let split := H + 8 <=? size (header mm b) - r in
  let m' := maybe_split H mm b r in
  coherent m' (L1 ++ b :: (if split then [b + r] else []) ++ L2)
    (if split then (b + r) :: cs else cs)
  /\ addressToHeader m' = addressToHeader mm
  /\ (forall o, is_free (header m' o)
                = if split && bool_decide (o = b + r) then true else is_free (header mm o))
  /\ (split = true -> ~ In (b + r) (L1 ++ b :: L2)).
Proof.
  intros Hco Hr split m'. pose proof Hco as (Hok & Ht & Hl & Hex).
  pose proof (layout_split _ _ _ _ Ht) as (HtL1 & Hposb & HtL2 & Hend & Hb0).
  pose proof Hok as [Hfirst HM].
  subst m'. rewrite maybe_split_cases by lia. fold split.
  destruct split eqn:Hs;
    [|simpl; split; [exact Hco|]; split; [reflexivity|]; split; [reflexivity|discriminate]].
  subst split. apply Z.leb_le in Hs.
  assert (HL1 : forall o, In o L1 -> o < b).
  { intros o Ho. apply tiles_bounds in HtL1 as [_ HtL1].
    destruct (HtL1 o Ho) as (? & ? & ?). lia. }
  assert (HL2 : forall o, In o L2 -> b + size (header mm b) <= o).
  { intros o Ho. apply tiles_bounds in HtL2 as [_ HtL2].
    destruct (HtL2 o Ho) as (? & ? & ?). lia. }
  assert (Hnew : ~ In (b + r) (L1 ++ b :: L2)).
  { intros Hin. apply in_app_iff in Hin as [Hin|[Hin|Hin]].
    - specialize (HL1 _ Hin). lia.
    - lia.
    - specialize (HL2 _ Hin). lia. }
  match goal with |- context [addToFreeList ?X ?nb] => set (X0 := X) end.
  destruct (meta_addToFreeList X0 (b + r)) as (E1 & E2 & E3).
  assert (Hsz : forall o, size (header (addToFreeList X0 (b + r)) o)
                          = if decide (o = b) then r
                            else if decide (o = b + r) then size (header mm b) - r
                            else size (header mm o)).
  { intros o. rewrite header_addToFreeList_size. subst X0. rewrite !header_store.
    destruct (decide (o = b)) as [->|Hob]; [reflexivity|].
    destruct (decide (o = b + r)) as [->|Hor]; [|reflexivity].
    rewrite !(decide_True (P := b + r = b + r)) by reflexivity. reflexivity. }
  assert (Hfr : forall o, is_free (header (addToFreeList X0 (b + r)) o)
                          = if bool_decide (o = b + r) then true else is_free (header mm o)).
  { intros o. rewrite header_addToFreeList_is_free. subst X0. rewrite !header_store.
    destruct (decide (o = b)) as [->|Hob].
    - rewrite !(decide_False (P := b = b + r)) by lia.
      rewrite bool_decide_eq_false_2 by lia. reflexivity.
    - destruct (decide (o = b + r)) as [->|Hor].
      + rewrite !(decide_True (P := b + r = b + r)) by reflexivity.
        now rewrite bool_decide_eq_true_2.
      + now rewrite bool_decide_eq_false_2. }
  assert (HlX : linked X0 cs).
  { subst X0. repeat (apply linked_store_payload; [intros h; split; reflexivity|]). exact Hl. }
  assert (Hncs : ~ In (b + r) cs).
  { intros Hin. apply Hex in Hin as [Hin _]. contradiction. }
  split; [|split; [exact E3|split; [exact Hfr|intros _; exact Hnew]]].
  split; [unfold arena_ok; rewrite E1, E2; exact Hok|].
  split.
  { unfold layout. rewrite E1. change (totalMemorySize X0) with (totalMemorySize mm).
    apply tiles_app. exists b. split.
    - apply (tiles_ext mm); [|exact HtL1]. intros o Ho. specialize (HL1 o Ho).
      rewrite Hsz. rewrite !decide_False by lia. reflexivity.
    - simpl. constructor; [rewrite Hsz, decide_True by reflexivity; lia|].
      rewrite (Hsz b), decide_True by reflexivity.
      constructor; [rewrite Hsz, decide_False, decide_True by lia; lia|].
      rewrite (Hsz (b + r)), decide_False, decide_True by lia.
      replace (b + r + (size (header mm b) - r)) with (b + size (header mm b)) by lia.
      apply (tiles_ext mm); [|exact HtL2]. intros o Ho. specialize (HL2 o Ho).
      rewrite Hsz. rewrite !decide_False by lia. reflexivity. }
  split; [now apply addToFreeList_linked|].
  intros c. rewrite Hfr. cbn [In]. rewrite Hex, !in_app_iff. cbn [In app].
  rewrite in_app_iff in Hnew. cbn [In] in Hnew.
  destruct (bool_decide_reflect (c = b + r)) as [->|Hne].
  - tauto.
  - intuition congruence.
Qed.

Lemma mark_allocated_coherent m bs cs b :
  coherent m bs cs -> In b cs ->
  coherent (mark_allocated m b) bs (without b cs).
Proof.
  intros (Hok & Ht & Hl & Hex) Hin.
  destruct (mark_allocated_spec m b) as (E1 & E2 & _ & Hh).
  split; [unfold arena_ok; now rewrite E1, E2|].
  split; [apply (layout_ext m); auto; intros x; apply Hh|].
  split.
  - unfold mark_allocated. cbv zeta. apply removeFromFreeList_linked; [|exact Hin].
    match goal with |- linked (with_tracking ?X _ _ _ _) _ =>
      change (linked X cs) end.
    repeat (apply linked_store_payload; [intros h; split; reflexivity|]). exact Hl.
  - intros c. destruct Hl as (_ & Hnd & _). rewrite In_without by exact Hnd.
    destruct (Hh c) as (_ & ->). rewrite Hex.
    destruct (decide (c = b)) as [->|Hne]; [intuition congruence|tauto].
Qed.

Lemma consistent_ext mm mm' bs cs :
  totalMemorySize mm' = totalMemorySize mm -> firstBlock mm' = firstBlock mm ->
  freeListHead mm' = freeListHead mm -> addressToHeader mm' = addressToHeader mm ->
  (forall o, header mm' o = header mm o) ->
  consistent H mm bs cs -> consistent H mm' bs cs.
Proof.
  intros E1 E2 E3 E4 Hh (Hco & Hadj & Htr).
  split; [now apply (coherent_ext mm)|]. split.
  - unfold no_adjacent_free in *. rewrite <- Hadj. f_equal. apply views_eq.
    intros o _. now rewrite Hh.
  - intros p b. rewrite E4, Hh. apply Htr.
Qed.

Lemma track_freeListHead m b n : freeListHead (track H m b n) = freeListHead m.
Proof. reflexivity. Qed.

Lemma claim_consistent mm bs cs b n r :
  consistent H mm bs cs -> In b cs -> 0 < r <= size (header mm b) ->
  exists bs' cs',
    consistent H (claim_block H mm b n r) bs' cs' /\ (length bs' <= S (length bs))%nat.
Proof.
  intros (Hco & Hadj & Htr) Hbcs Hr.
  pose proof Hco as (Hok & Ht & Hl & Hex).
  destruct (proj1 (Hex b) Hbcs) as [Hb Hfree].
  destruct (in_layout_split _ _ _ Ht Hb) as (L1 & L2 & -> & HnL1 & HnL2).
  destruct (maybe_split_coherent mm L1 b L2 cs r Hco Hr) as (Hco2 & A2 & Hf2 & Hnew).
  set (sp := H + 8 <=? size (header mm b) - r) in *.
  set (m2 := maybe_split H mm b r) in *.
  set (bs2 := L1 ++ b :: (if sp then [b + r] else []) ++ L2) in *.
  set (cs2 := if sp then (b + r) :: cs else cs) in *.
  assert (Hbcs2 : In b cs2) by (subst cs2; destruct sp; [now right|assumption]).
  pose proof (mark_allocated_coherent m2 bs2 cs2 b Hco2 Hbcs2) as Hco3.
  destruct (mark_allocated_spec m2 b) as (_ & _ & A3 & Hh3).
  set (m3 := mark_allocated m2 b) in *.
  destruct (track_spec H m3 b n) as (T1 & T2 & T3 & T4).
  pose proof (track_freeListHead m3 b n) as T5.
  unfold claim_block. fold m2 m3.
  set (m4 := track H m3 b n) in *.
  assert (Hfr : forall o, is_free (header m4 o)
                          = if decide (o = b) then false
                            else if sp && bool_decide (o = b + r) then true
                            else is_free (header mm o)).
  { intros o. rewrite T4. destruct (Hh3 o) as (_ & ->). now rewrite Hf2. }
  clearbody m4 m3 m2.
  (* the flags around the block *)
  unfold no_adjacent_free in Hadj. rewrite adjacent_free_flags, flags_app in Hadj.
  change (flags mm (b :: L2)) with (is_free (header mm b) :: flags mm L2) in Hadj.
  rewrite Hfree, adjacent_app_cons, adjacent_snoc, adjacent_cons in Hadj.
  apply orb_false_iff in Hadj as [HadjL HadjR].
  apply orb_false_iff in HadjL as [HadjL1 HlastL1]. rewrite andb_true_r in HlastL1.
  apply orb_false_iff in HadjR as [HheadL2 HadjL2]. simpl in HheadL2.
  assert (Hkeep : forall o, In o (L1 ++ L2) -> is_free (header m4 o) = is_free (header mm o)).
  { intros o Ho. rewrite Hfr.
    assert (o <> b) by (intros ->; apply in_app_iff in Ho as [?|?]; contradiction).
    rewrite decide_False by assumption.
    destruct sp; [|reflexivity]. rewrite bool_decide_eq_false_2; [reflexivity|].
    intros ->. apply (Hnew eq_refl). apply in_app_iff in Ho as [?|?]; apply in_app_iff; simpl; auto. }
  exists bs2, (without b cs2). split; [|subst bs2; destruct sp; rewrite !length_app; simpl; lia].
  split; [apply (coherent_ext m3); auto|]. split.
  - unfold no_adjacent_free. rewrite adjacent_free_flags. subst bs2.
    rewrite flags_app.
    change (flags m4 (b :: ?X)) with (is_free (header m4 b) :: flags m4 X).
    rewrite (Hfr b), decide_True by reflexivity.
    rewrite (flags_ext mm m4 L1) by (intros x Hx; apply Hkeep, in_app_iff; auto).
    rewrite adjacent_app_cons, adjacent_snoc, HadjL1, HlastL1, adjacent_cons. simpl.
    rewrite flags_app.
    rewrite (flags_ext mm m4 L2) by (intros x Hx; apply Hkeep, in_app_iff; auto).
    destruct sp; cbn [flags map app]; [|exact HadjL2].
    rewrite (Hfr (b + r)), decide_False by lia.
    rewrite bool_decide_eq_true_2 by reflexivity. cbn [andb].
    fold (flags mm L2). rewrite adjacent_cons, HheadL2, HadjL2. reflexivity.
  - intros p b0. rewrite T3, A3, A2. rewrite Hfr. intros Hp.
    apply lookup_insert_Some in Hp as [[<- <-]|[Hne Hp]].
    + split; [subst bs2; apply in_app_iff; simpl; auto|].
      right. now rewrite decide_True.
    + destruct (Htr _ _ Hp) as [Hin Hcase]. split.
      * subst bs2. apply in_app_iff in Hin as [Hin|[Hin|Hin]]; rewrite !in_app_iff; simpl; auto.
        right. right. apply in_app_iff. auto.
      * destruct Hcase as [Hz|[Hpe Hf0]]; [now left|]. right. split; [exact Hpe|].
        destruct (decide (b0 = b)); [reflexivity|].
        destruct sp; [|exact Hf0]. rewrite bool_decide_eq_false_2; [exact Hf0|].
        intros ->. now apply (Hnew eq_refl).
Qed.

Lemma findWorstFit_loop_total mm sz fuel : forall worst cur cs,
  chain mm cur cs -> (length cs < fuel)%nat ->
  exists w, findWorstFit_loop fuel mm worst cur sz = Some w.
Proof.
  induction fuel as [|fuel IH]; intros worst cur cs Hc Hlen; [lia|].
  inversion Hc as [|c cs' Hc']; subst; [now exists worst|]. simpl.
  eapply IH; [exact Hc'|]. simpl in Hlen. lia.
Qed.

Lemma find_block_total fuel mm cs sz :
  chain mm (freeListHead mm) cs -> (length cs < fuel)%nat ->
  exists w, find_block fuel mm sz = Some w.
Proof.
  intros Hc Hlen. unfold find_block. destruct (currentStrategy mm).
  - unfold findFirstFit. rewrite (findFirstFit_loop_spec _ _ _ _ _ Hc Hlen). eauto.
  - eauto.
  - unfold findWorstFit. eapply findWorstFit_loop_total; eauto.
Qed.

Lemma header_new_MemoryManager total s o :
  header (new_MemoryManager total s) o
  = if decide (o = 0) then mkBlockHeader total true 0 None None else zero_header.
Proof.
  unfold header, new_MemoryManager. cbn [physicalMemory].
  destruct (decide (o = 0)) as [->|Hne].
  - now rewrite lookup_singleton_eq.
  - now rewrite lookup_singleton_ne.
Qed.

Lemma new_MemoryManager_consistent total s :
  0 < total < size_t_modulus -> consistent H (new_MemoryManager total s) [0] [0].
Proof.
  intros Ht. split; [split; [|split; [|split]]|split].
  - split; [reflexivity|]. cbn [totalMemorySize new_MemoryManager]. lia.
  - unfold layout. constructor.
    + rewrite header_new_MemoryManager. simpl. lia.
    + rewrite header_new_MemoryManager. simpl. constructor.
  - split; [reflexivity|]. split; [repeat constructor; intros []|].
    intros o. rewrite header_new_MemoryManager. simpl.
    destruct (decide (o = 0)) as [->|Hne]; simpl.
    + split; reflexivity.
    + rewrite decide_False by congruence. split; reflexivity.
  - intros c. rewrite header_new_MemoryManager. simpl. split.
    + intros [<-|[]]. rewrite decide_True by reflexivity. auto.
    + tauto.
  - unfold no_adjacent_free, adjacent_free. reflexivity.
  - intros p b Hp. cbn [addressToHeader new_MemoryManager] in Hp.
    apply lookup_singleton_Some in Hp as [<- <-]. split; [now left|now left].
Qed.

Lemma linked_length mm bs cs : coherent mm bs cs -> (length cs <= length bs)%nat.
Proof.
  intros (_ & _ & (_ & Hnd & _) & Hex). apply NoDup_incl_length; [exact Hnd|].
  intros c Hc. now apply Hex.
Qed.

Lemma allocate_consistent fuel mm bs cs n :
  0 <= n -> n + H < size_t_modulus -> consistent H mm bs cs -> (length cs < fuel)%nat ->
  exists r mm' bs' cs',
    allocate H fuel mm n = Some (r, mm')
    /\ consistent H mm' bs' cs' /\ (length bs' <= S (length bs))%nat.
Proof.
  intros Hn0 Hn1 Hcon Hfuel. unfold allocate.
  destruct (Z.eqb_spec n 0) as [|Hnz].
  { exists None, (count_failure mm), bs, cs. split; [reflexivity|]. split; [|lia].
    apply (consistent_ext mm); auto. }
  rewrite (wrap_small (n + H)) by lia.
  assert (Hcon1 : consistent H (add_requested mm n) bs cs)
    by (apply (consistent_ext mm); auto).
  set (ma := add_requested mm n) in *. clearbody ma. clear Hcon.
  pose proof Hcon1 as ((Hok & Ht & Hl & Hex) & _).
  pose proof (linked_chain _ _ Hl) as Hchain.
  destruct (find_block_total fuel ma cs (n + H) Hchain Hfuel) as [w Hw]. rewrite Hw.
  destruct w as [b|].
  - apply find_block_sound in Hw as [Hon Hfit].
    pose proof (chain_on_list _ _ _ _ Hchain Hon) as Hb.
    unfold fits in Hfit. apply andb_true_iff in Hfit as [_ Hsz]. apply Z.leb_le in Hsz.
    destruct (claim_consistent ma bs cs b n (n + H) Hcon1 Hb) as (bs' & cs' & Hc' & Hlen');
      [lia|].
    exists (Some (b + H)), (claim_block H ma b n (n + H)), bs', cs'. auto.
  - exists None, (count_failure ma), bs, cs. split; [reflexivity|]. split; [|lia].
    apply (consistent_ext ma); auto.
Qed.

End ClaimInvariant.

Section ReleaseInvariant.

Variable H : Z.

Lemma deallocate_consistent fuel mm bs cs r :
  consistent H mm bs cs -> (length bs <= S maxIterations_coalesce)%nat -> (2 <= fuel)%nat ->
  exists res mm' bs' cs',
    deallocate_ref H fuel mm r = Some (res, mm')
    /\ consistent H mm' bs' cs' /\ (length bs' <= length bs)%nat.
Proof.
  intros Hcon Hlen Hfuel.
  assert (Hptr : forall ptr, exists res mm' bs' cs',
            deallocate H fuel mm ptr = Some (res, mm')
            /\ consistent H mm' bs' cs' /\ (length bs' <= length bs)%nat).
  { intros ptr.
    assert (Hsame : exists res mm' bs' cs',
              Some (false, mm) = Some (res, mm')
              /\ consistent H mm' bs' cs' /\ (length bs' <= length bs)%nat).
    { exists false, mm, bs, cs. auto. }
    unfold deallocate.
    destruct (negb (isValidPointer mm ptr)); [exact Hsame|].
    unfold getHeader.
    destruct (addressToHeader mm !! ptr) as [b|] eqn:Hget; [|exact Hsame].
    destruct (is_free (header mm b)) eqn:Hb; [exact Hsame|].
    destruct fuel as [|[|fuel]]; [lia|lia|].
    destruct (release_consistent H fuel mm bs cs ptr b Hcon Hlen Hget Hb)
      as (mm' & bs' & cs' & Hc & Hcon' & Hlen').
    rewrite Hc. exists true, (untrack mm' ptr b), bs', cs'. auto. }
  destruct r as [ptr|id]; simpl; [apply Hptr|].
  unfold deallocate_id. destruct (idToHeader mm !! id) as [b|]; [apply Hptr|].
  exists false, mm, bs, cs. auto.
Qed.

End ReleaseInvariant.

Section ServedSessions.

Variable H : Z.
Hypothesis H_pos : 0 < H.
Hypothesis H_small : H + 8 < size_t_modulus.

Lemma serve_all_consistent fuel rqs : forall mm bs cs (k : nat),
  consistent H mm bs cs -> (length bs <= k)%nat ->
  Forall (in_range H) rqs ->
  (k + length rqs <= S maxIterations_coalesce)%nat -> (k + length rqs < fuel)%nat ->
  (2 <= fuel)%nat ->
  exists mm' bs' cs',
    serve_all H fuel mm rqs = Some mm' /\ consistent H mm' bs' cs'
    /\ (length bs' <= k + length rqs)%nat.
Proof.
  induction rqs as [|rq rest IH]; intros mm bs cs k Hcon Hk Hrange Hcap Hfuel H2.
  - exists mm, bs, cs. simpl. split; [reflexivity|]. split; [exact Hcon|lia].
  - apply Forall_cons_iff in Hrange as [Hrq Hrange]. simpl in Hcap, Hfuel. simpl.
    destruct rq as [n|r|s]; simpl.
    + destruct Hrq as [Hn0 Hn1].
      pose proof (linked_length _ _ _ (proj1 Hcon)) as Hcs.
      destruct (allocate_consistent H H_pos H_small fuel mm bs cs n Hn0 Hn1 Hcon)
        as (res & mm1 & bs1 & cs1 & -> & Hcon1 & Hlen1); [lia|]. simpl.
      destruct (IH mm1 bs1 cs1 (S k) Hcon1) as (mm' & bs' & cs' & E & Hcon' & Hlen');
        [lia|exact Hrange|lia|lia|exact H2|].
      exists mm', bs', cs'. split; [exact E|]. split; [exact Hcon'|lia].
    + destruct (deallocate_consistent H fuel mm bs cs r Hcon)
        as (res & mm1 & bs1 & cs1 & -> & Hcon1 & Hlen1); [lia|exact H2|]. simpl.
      destruct (IH mm1 bs1 cs1 k Hcon1) as (mm' & bs' & cs' & E & Hcon' & Hlen');
        [lia|exact Hrange|lia|lia|exact H2|].
      exists mm', bs', cs'. split; [exact E|]. split; [exact Hcon'|lia].
    + destruct (IH (setAllocationStrategy mm s) bs cs k) as (mm' & bs' & cs' & E & Hcon' & Hlen');
        [apply (consistent_ext H mm); auto|exact Hk|exact Hrange|lia|lia|exact H2|].
      exists mm', bs', cs'. split; [exact E|]. split; [exact Hcon'|lia].
Qed.

(** In every session of at most 10000 requests on a fresh arena, none
    asking for a size that overflows, every call returns and leaves the
    arena tiled, without two free neighbours, its free list the list of its
    free blocks; each allocation adds at most one block. *)
Theorem sessions_stay_consistent total s rqs fuel :
  0 < total < size_t_modulus -> Forall (in_range H) rqs ->
  (length rqs <= maxIterations_coalesce)%nat -> (length rqs + 2 <= fuel)%nat ->
  exists mm bs cs,
    serve_all H fuel (new_MemoryManager total s) rqs = Some mm
    /\ consistent H mm bs cs /\ (length bs <= S (length rqs))%nat.
Proof.
  intros Ht Hr Hlen Hfuel.
  destruct (serve_all_consistent fuel rqs (new_MemoryManager total s) [0] [0] 1)
    as (mm & bs & cs & E & Hcon & Hbs); auto.
  - now apply new_MemoryManager_consistent.
  - lia.
  - lia.
  - lia.
  - exists mm, bs, cs. auto.
Qed.

(** So the states of such a session are well formed, their free lists
    offer blocks of the tiling only, and the search for a predecessor
    reaches every block. *)
Corollary session_states_well_formed total s rqs fuel :
  0 < total < size_t_modulus -> Forall (in_range H) rqs ->
  (length rqs <= maxIterations_coalesce)%nat -> (length rqs + 2 <= fuel)%nat ->
  exists mm bs,
    serve_all H fuel (new_MemoryManager total s) rqs = Some mm
    /\ well_formed mm bs /\ free_list_live mm bs
    /\ (length bs <= S maxIterations_coalesce)%nat.
Proof.
  intros Ht Hr Hlen Hfuel.
  destruct (sessions_stay_consistent total s rqs fuel Ht Hr Hlen Hfuel)
    as (mm & bs & cs & E & Hcon & Hbs).
  destruct (consistent_well_formed H mm bs cs Hcon) as [Hwf Hlive].
  exists mm, bs. split; [exact E|]. split; [exact Hwf|]. split; [exact Hlive|lia].
Qed.

End ServedSessions.

(** ** The claims about the allocator *)

Import Sessions.

Lemma maxIterations_coalesce_eq : maxIterations_coalesce = 10000%nat.
Proof. reflexivity. Qed.

Lemma maxIterations_walk_eq : maxIterations_walk = 1000%nat.
Proof. reflexivity. Qed.

Lemma maxIterations_findBestFit_eq : maxIterations_findBestFit = 10000%nat.
Proof. reflexivity. Qed.

(** *** Placement *)

(** C3, as stated, fails: after three allocations of 100 bytes and the
    release of the first and the third (header size 32), the arena holds a
    free block at offset 0 (132 bytes) and one at offset 264; both suffice
    for a request of 50 bytes, yet first fit takes the one at offset 264,
    the head of the free list, and returns address 296. *)
Lemma first_fit_takes_higher_block :
  walk 8 (holes 32) 0 = [(0, 132, true); (132, 132, false); (264, 3832, true)]
  /\ fits (holes 32) (wrap (50 + 32)) 0 = true
  /\ fits (holes 32) (wrap (50 + 32)) 264 = true
  /\ fst <$> allocate 32 8 (holes 32) 50 = Some (Some (264 + 32)).
Proof. vm_compute. repeat split. Qed.

(** C3, amended: under first fit, a request of [n] bytes is served from the
    first node of the free list, in list order, that is free and of size at
    least [n + H] (wrapped to a [size_t]); the list is in the order blocks
    were put on it, most recent first, not in offset order. *)
Theorem first_fit_takes_first_listed H fuel mm cs n b :
  currentStrategy mm = FIRST_FIT ->
  chain mm (freeListHead mm) cs -> (length cs < fuel)%nat ->
  n <> 0 ->
  List.find (fits mm (wrap (n + H))) cs = Some b ->
  allocate H fuel mm n
  = Some (Some (b + H), claim_block H (add_requested mm n) b n (wrap (n + H))).
Proof.
  intros Hs Hc Hlen Hn Hfind. unfold allocate.
  destruct (Z.eqb_spec n 0) as [|_]; [contradiction|].
  unfold find_block. change (currentStrategy (add_requested mm n)) with (currentStrategy mm).
  rewrite Hs. unfold findFirstFit.
  change (freeListHead (add_requested mm n)) with (freeListHead mm).
  assert (Hc' : chain (add_requested mm n) (freeListHead mm) cs).
  { clear -Hc. induction Hc; constructor. assumption. }
  rewrite (findFirstFit_loop_spec _ _ _ _ _ Hc' Hlen).
  change (fits (add_requested mm n)) with (fits mm). now rewrite Hfind.
Qed.

Lemma first_fit_takes_first_listed_witness :
  allocate 32 8 (holes 32) 50
  = Some (Some (264 + 32),
          claim_block 32 (add_requested (holes 32) 50) 264 50 (wrap (50 + 32))).
Proof.
  apply (first_fit_takes_first_listed 32 8 (holes 32) [264; 0] 50 264).
  - reflexivity.
  - apply (chain_of_sound 8). vm_compute. reflexivity.
  - simpl. lia.
  - lia.
  - vm_compute. reflexivity.
Defined.

(** *** Failed releases *)




(** Every release that returns [false] has changed nothing. *)
Lemma release_all_or_nothing H fuel mm r mm' :
  deallocate_ref H fuel mm r = Some (false, mm') -> mm' = mm.
Proof.
  assert (Hptr : forall ptr, deallocate H fuel mm ptr = Some (false, mm') -> mm' = mm).
  { intros ptr. unfold deallocate.
    destruct (negb (isValidPointer mm ptr)); [now intros [= <-]|].
    destruct (getHeader mm ptr) as [b|]; [|now intros [= <-]].
    destruct (is_free (header mm b)); [now intros [= <-]|].
    destruct (coalesceBlocks fuel (mark_free H mm b) b); discriminate. }
  destruct r as [ptr|id]; simpl; [apply Hptr|].
  unfold deallocate_id. destruct (idToHeader mm !! id); [apply Hptr|now intros [= <-]].
Qed.

(** A release by an address that was never given out: with one block
    allocated in a fresh arena (header size 32), the only allocated block
    has user address 32; address 0 is the address of no allocation, yet
    releasing it succeeds and frees that block, through the entry
    [initializeMemory] makes in [addressToHeader] for the header at the
    arena base.  That entry is known to the tracking maps, so this is not a
    case of the amended C4. *)
Lemma base_address_release_succeeds :
  walk 8 (one_block 32) 0 = [(0, 132, false); (132, 3964, true)]
  /\ Forall (fun v => fst (fst v) + 32 <> 0) (walk 8 (one_block 32) 0)
  /\ (fun r => (fst r, walk 8 (snd r) 0)) <$> deallocate_ref 32 8 (one_block 32) (ByPointer 0)
     = Some (true, [(0, 4096, true)]).
Proof.
  split; [vm_compute; reflexivity|]. split; [|vm_compute; reflexivity].
  vm_compute. repeat constructor; discriminate.
Qed.

(** *** No two adjacent free blocks *)

(** C5, as stated, fails: in an arena of a million bytes with 10002
    one-byte allocations (header size 32) and block 10001 released, the
    arena is well formed; the release of block 10002 succeeds, merges the
    block with the free tail behind it, but does not reach its predecessor,
    block 10001, within the 10000 iterations of the search, and leaves the
    two free blocks side by side. *)
Lemma release_beyond_search_cap :
  exists mm bs mm' bs',
    crowded 32 = Some mm /\ well_formed mm bs
    /\ deallocate_ref 32 2 mm (ByBlockId 10002) = Some (true, mm')
    /\ layout mm' bs' /\ adjacent_free (map (view mm') bs') = true.
Proof.
  assert (Hc : crowded_release_check 32 = true) by (vm_compute; reflexivity).
  unfold crowded_release_check in Hc.
  destruct (crowded 32) as [mm|] eqn:Emm; [|discriminate Hc].
  apply andb_true_iff in Hc as [Hwf Hc].
  destruct (deallocate_ref 32 2 mm (ByBlockId 10002)) as [[[|] mm']|] eqn:Erel;
    try discriminate Hc.
  apply andb_true_iff in Hc as [Hcov Hadj].
  exists mm, (offsets (walk (Z.to_nat 10010) mm 0)),
         mm', (offsets (walk (Z.to_nat 10010) mm' 0)).
  split; [reflexivity|]. split; [now apply check_arena_sound|].
  split; [exact Erel|]. split; [now apply covers_tiles|].
  now rewrite walk_views.
Qed.

(** C5, amended: in an arena that is tiled by at most 10001 blocks, no two
    neighbours free, and whose address map refers to blocks of the tiling,
    every release (by pointer or by id, successful or not) returns, and
    leaves the arena tiled with no two neighbouring blocks both free.  The
    bound is the reach of the predecessor search of [coalesceBlocks]. *)
Theorem release_keeps_no_adjacent_free H fuel mm bs r :
  well_formed mm bs -> (length bs <= 10001)%nat -> (2 <= fuel)%nat ->
  exists res mm' bs',
    deallocate_ref H fuel mm r = Some (res, mm')
    /\ layout mm' bs' /\ no_adjacent_free mm' bs'.
Proof.
  intros Hwf Hlen Hfuel.
  assert (Hptr : forall ptr, exists res mm' bs',
            deallocate H fuel mm ptr = Some (res, mm')
            /\ layout mm' bs' /\ no_adjacent_free mm' bs').
  { intros ptr.
    assert (Hsame : exists res mm' bs',
              Some (false, mm) = Some (res, mm')
              /\ layout mm' bs' /\ no_adjacent_free mm' bs').
    { exists false, mm, bs. destruct Hwf as (_ & Ht & Hadj & _). auto. }
    unfold deallocate.
    destruct (negb (isValidPointer mm ptr)); [exact Hsame|].
    destruct (getHeader mm ptr) as [b|] eqn:Hget; [|exact Hsame].
    destruct (is_free (header mm b)); [exact Hsame|].
    destruct fuel as [|[|fuel]]; [lia|lia|].
    destruct (release_no_adjacent H fuel mm bs ptr b Hwf) as (mm' & bs' & Hc & Ht' & Hadj').
    { rewrite maxIterations_coalesce_eq. exact Hlen. }
    { exact Hget. }
    rewrite Hc. exists true, (untrack mm' ptr b), bs'. auto. }
  destruct r as [ptr|id]; simpl; [apply Hptr|].
  unfold deallocate_id. destruct (idToHeader mm !! id) as [b|]; [apply Hptr|].
  exists false, mm, bs. destruct Hwf as (_ & Ht & Hadj & _). auto.
Qed.

Lemma holes_checked : check_arena 8 (holes 32) = true.
Proof. vm_compute. reflexivity. Qed.

Lemma release_keeps_no_adjacent_free_witness :
  exists res mm' bs',
    deallocate_ref 32 8 (holes 32) (ByBlockId 2) = Some (res, mm')
    /\ layout mm' bs' /\ no_adjacent_free mm' bs'.
Proof.
  apply (release_keeps_no_adjacent_free 32 8 (holes 32) (offsets (walk 8 (holes 32) 0))).
  - apply check_arena_sound. exact holes_checked.
  - vm_compute. lia.
  - lia.
Defined.

(** *** Allocation followed by release *)

(** C8, as stated, fails: in the crowded arena above after the release of
    block 10002, switched to best fit, [malloc 1] takes the free 33-byte
    block at offset 330000, and the release of the block just returned
    merges it with the free neighbour behind it: the layout is not the one
    before the allocation. *)
Lemma roundtrip_in_crowded_arena :
  exists mm ptr mm1 mm2 bs bs2,
    crowded_best_fit 32 = Some mm
    /\ allocate 32 4 mm 1 = Some (Some ptr, mm1)
    /\ deallocate_ref 32 2 mm1 (ByPointer ptr) = Some (true, mm2)
    /\ layout mm bs /\ layout mm2 bs2
    /\ map (view mm2) bs2 <> map (view mm) bs.
Proof.
  assert (Hc : crowded_roundtrip_check 32 = true) by (vm_compute; reflexivity).
  unfold crowded_roundtrip_check in Hc.
  destruct (crowded_best_fit 32) as [mm|] eqn:Emm; [|discriminate Hc].
  destruct (allocate 32 4 mm 1) as [[[ptr|] mm1]|] eqn:Ealloc; try discriminate Hc.
  destruct (deallocate_ref 32 2 mm1 (ByPointer ptr)) as [[[|] mm2]|] eqn:Erel;
    try discriminate Hc.
  apply andb_true_iff in Hc as [Hc Hne]. apply andb_true_iff in Hc as [Hcov Hcov2].
  exists mm, ptr, mm1, mm2, (offsets (walk (Z.to_nat 10010) mm 0)),
         (offsets (walk (Z.to_nat 10010) mm2 0)).
  split; [reflexivity|]. split; [exact Ealloc|]. split; [exact Erel|].
  split; [now apply covers_tiles|]. split; [now apply covers_tiles|].
  rewrite !walk_views. intros E. unfold views_eqb in Hne.
  rewrite bool_decide_eq_true_2 in Hne by (symmetry; exact E). discriminate Hne.
Qed.

(** C8, amended: in an arena that is tiled with no two neighbours free and
    whose free list only offers blocks of the tiling, for every request of
    [n] bytes with [n + H] below 2^64 for which [allocate] succeeds, the
    release of the block just returned succeeds and leaves every block of
    the tiling with the offset, size and free flag it had before the
    allocation. *)
Theorem allocate_release_restores_layout H fuel fuel' mm bs n ptr mm1 :
  0 < H -> H + 8 < size_t_modulus -> 0 <= n -> n + H < size_t_modulus ->
  well_formed mm bs -> free_list_live mm bs ->
  allocate H fuel mm n = Some (Some ptr, mm1) ->
  (1 <= fuel')%nat ->
  exists mm2,
    deallocate_ref H fuel' mm1 (ByPointer ptr) = Some (true, mm2)
    /\ layout mm2 bs /\ map (view mm2) bs = map (view mm) bs.
Proof.
  intros HH HH8 Hn0 Hn1 Hwf Hlive Halloc Hfuel.
  destruct fuel' as [|fuel']; [lia|]. simpl.
  eapply roundtrip; eauto.
Qed.

Lemma allocate_release_restores_layout_witness :
  exists mm2,
    deallocate_ref 32 8 (snd (default (None, holes 32) (allocate 32 8 (holes 32) 50)))
      (ByPointer 296) = Some (true, mm2)
    /\ layout mm2 (offsets (walk 8 (holes 32) 0))
    /\ map (view mm2) (offsets (walk 8 (holes 32) 0))
       = map (view (holes 32)) (offsets (walk 8 (holes 32) 0)).
Proof.
  apply (allocate_release_restores_layout 32 8 8 (holes 32)
           (offsets (walk 8 (holes 32) 0)) 50 296).
  - lia.
  - rewrite size_t_modulus_eq. lia.
  - lia.
  - rewrite size_t_modulus_eq. lia.
  - apply check_arena_sound. exact holes_checked.
  - apply check_arena_sound. exact holes_checked.
  - vm_compute. reflexivity.
  - lia.
Defined.

(** How the size arithmetic of [allocate] goes wrong beyond the range the
    amended C8 covers: a request of 2^64 - 32 bytes makes the required size
    wrap to 0, the allocation "succeeds" on the whole arena, and after the
    release the arena is one free block of size 0 that is on no list. *)
Lemma wrapped_request_destroys_arena :
  (let '(p, mm1) := default (None, empty_manager)
                      (allocate 32 8 (new_MemoryManager 4096 FIRST_FIT)
                         (size_t_modulus - 32)) in
   (p, (fun r => (fst r, view (snd r) 0, freeListHead (snd r)))
         <$> deallocate_ref 32 8 mm1 (ByPointer 32)))
  = (Some 32, Some (true, (0, 0, true), None)).
Proof. vm_compute. reflexivity. Qed.

(** *** The README session *)


(** The same session where [sizeof(BlockHeader)] is 40, as it is under the
    LP64 data model: the blocks sit 8 bytes further apart. *)
Lemma readme_session_lp64 :
  readme_session 40
  = Some (Some (1, 40), Some (2, 180), true, Some (3, 40),
          [(0, 90, false); (90, 50, true); (140, 240, false); (380, 3716, true)]).
Proof. vm_compute. reflexivity. Qed.

(** *** The capped walks *)

(** C10: the four capped walks are total functions of the manager, and each
    is determined by a prefix of what it walks.  In an arena tiled by the
    blocks [bs] and with free-list nodes [cs]: [findBestFit] is the best fit
    among the first 10000 nodes; [getLargestFreeBlock],
    [getExternalFragmentation] and [dumpMemory] are computed from the first
    1000 blocks, whatever follows them; the dump has at most 1000 lines in
    any state. *)
Theorem capped_walks H mm bs cs sz :
  arena_ok mm -> layout mm bs -> chain mm (freeListHead mm) cs ->
  findBestFit mm sz = best_of mm sz (firstn 10000 cs)
  /\ getLargestFreeBlock mm = largest_of (map (view mm) (firstn 1000 bs))
  /\ getExternalFragmentation H mm
     = (if totalMemorySize mm =? 0 then (0, 1)
        else fragmentation_quotient (totalMemorySize mm)
               (frag_of H (map (view mm) (firstn 1000 bs))))
  /\ dumpMemory H mm = map (fun b => dump_line H b (header mm b)) (firstn 1000 bs)
  /\ (length (dumpMemory H mm) <= 1000)%nat.
Proof.
  intros [_ [HM0 HM]] Ht Hc. unfold layout in Ht.
  split; [|split; [|split; [|split]]].
  - unfold findBestFit, best_of. rewrite maxIterations_findBestFit_eq.
    now apply findBestFit_loop_spec.
  - unfold getLargestFreeBlock, largest_of. rewrite maxIterations_walk_eq.
    apply getLargestFreeBlock_loop_spec; auto. lia.
  - unfold getExternalFragmentation, frag_of. rewrite maxIterations_walk_eq.
    rewrite (getExternalFragmentation_loop_spec H mm _ 0 bs 0 0 Ht HM); [reflexivity|lia].
  - unfold dumpMemory. rewrite maxIterations_walk_eq.
    apply dumpMemory_loop_spec; auto. lia.
  - unfold dumpMemory. rewrite maxIterations_walk_eq. apply dumpMemory_loop_length.
Qed.

Lemma capped_walks_witness :
  findBestFit (holes 32) 82 = best_of (holes 32) 82 (firstn 10000 [264; 0])
  /\ getLargestFreeBlock (holes 32)
     = largest_of (map (view (holes 32)) (firstn 1000 (offsets (walk 8 (holes 32) 0))))
  /\ getExternalFragmentation 32 (holes 32)
     = (if totalMemorySize (holes 32) =? 0 then (0, 1)
        else fragmentation_quotient (totalMemorySize (holes 32))
               (frag_of 32 (map (view (holes 32))
                              (firstn 1000 (offsets (walk 8 (holes 32) 0))))))
  /\ dumpMemory 32 (holes 32)
     = map (fun b => dump_line 32 b (header (holes 32) b))
         (firstn 1000 (offsets (walk 8 (holes 32) 0)))
  /\ (length (dumpMemory 32 (holes 32)) <= 1000)%nat.
Proof.
  apply (capped_walks 32 (holes 32) (offsets (walk 8 (holes 32) 0)) [264; 0] 82).
  - apply (check_arena_sound 8). exact holes_checked.
  - apply (check_arena_sound 8). exact holes_checked.
  - apply (chain_of_sound 8). vm_compute. reflexivity.
Defined.

(** A block beyond the cap is not seen: after 1000 one-byte allocations the
    only free block is the 1001st of the arena, and [getLargestFreeBlock]
    answers 0; the dump stops after the 1000 allocated blocks. *)
Lemma free_block_beyond_the_cap :
  (mm ← allocate_many 32 (Z.to_nat 1000) 1 (new_MemoryManager 1000000 FIRST_FIT);
   Some (getLargestFreeBlock mm, length (dumpMemory 32 mm),
         skipn 999 (walk (Z.to_nat 1002) mm 0)))
  = Some (0, 1000%nat, [(32967, 33, false); (33000, 967000, true)]).
Proof. vm_compute. reflexivity. Qed.

(** *** Further properties of the allocator *)

Lemma findWorstFit_loop_spec mm sz fuel : forall worst cur cs,
  chain mm cur cs -> (length cs < fuel)%nat ->
  findWorstFit_loop fuel mm worst cur sz = Some (fold_left (worst_step mm sz) cs worst).
Proof.
  induction fuel as [|fuel IH]; intros worst cur cs Hc Hlen; [lia|].
  inversion Hc as [|c cs' Hc']; subst; [reflexivity|]. simpl.
  fold (fits mm sz c). fold (worst_step mm sz worst c).
  apply IH; [exact Hc'|]. simpl in Hlen. lia.
Qed.

(** The best fit among [cs]: nothing when no node fits, else the first of
    the fitting nodes of least size. *)
Lemma best_of_spec mm sz cs :
  (best_of mm sz cs = None /\ forall c, In c cs -> fits mm sz c = false)
  \/ exists l1 b l2,
       cs = l1 ++ b :: l2 /\ best_of mm sz cs = Some b /\ fits mm sz b = true
       /\ (forall c, In c l1 -> fits mm sz c = true -> size (header mm b) < size (header mm c))
       /\ (forall c, In c l2 -> fits mm sz c = true -> size (header mm b) <= size (header mm c)).
Proof.
  unfold best_of. induction cs as [|x cs IH] using rev_ind.
  - left. split; [reflexivity|]. intros c [].
  - rewrite fold_left_app. cbn [fold_left].
    destruct (fits mm sz x) eqn:Hx.
    + destruct IH as [[E Hnone]|(l1 & b & l2 & -> & E & Hb & H1 & H2)];
        rewrite E; unfold best_step; rewrite Hx; cbn [andb better].
      * right. exists cs, x, []. split; [reflexivity|].
        split; [reflexivity|]. split; [exact Hx|]. split.
        -- intros c Hc Hf. rewrite Hnone in Hf by exact Hc. discriminate.
        -- intros c [].
      * right.
        destruct (Z.ltb_spec (size (header mm x)) (size (header mm b))) as [Hlt|Hge].
        -- exists ((l1 ++ b :: l2)), x, []. split; [reflexivity|].
           split; [reflexivity|]. split; [exact Hx|]. split; [|intros c []].
           intros c Hc Hf. apply in_app_iff in Hc as [Hc|[<-|Hc]].
           ++ specialize (H1 c Hc Hf). lia.
           ++ exact Hlt.
           ++ specialize (H2 c Hc Hf). lia.
        -- exists l1, b, (l2 ++ [x]). split; [now rewrite <- app_assoc|].
           split; [reflexivity|]. split; [exact Hb|]. split; [exact H1|].
           intros c Hc Hf. apply in_app_iff in Hc as [Hc|[<-|[]]]; [now apply H2|lia].
    + destruct IH as [[E Hnone]|(l1 & b & l2 & -> & E & Hb & H1 & H2)];
        rewrite E; unfold best_step, worst_step; rewrite Hx; cbn [andb].
      * left. split; [reflexivity|]. intros c Hc. apply in_app_iff in Hc as [Hc|[<-|[]]]; auto.
      * right. exists l1, b, (l2 ++ [x]). split; [now rewrite <- app_assoc|].
        split; [reflexivity|]. split; [exact Hb|]. split; [exact H1|].
        intros c Hc Hf. apply in_app_iff in Hc as [Hc|[<-|[]]]; [now apply H2|congruence].
Qed.

(** The worst fit among [cs]: nothing when no node fits, else the first of
    the fitting nodes of greatest size. *)
Lemma worst_of_spec mm sz cs :
  (worst_of mm sz cs = None /\ forall c, In c cs -> fits mm sz c = false)
  \/ exists l1 b l2,
       cs = l1 ++ b :: l2 /\ worst_of mm sz cs = Some b /\ fits mm sz b = true
       /\ (forall c, In c l1 -> fits mm sz c = true -> size (header mm c) < size (header mm b))
       /\ (forall c, In c l2 -> fits mm sz c = true -> size (header mm c) <= size (header mm b)).
Proof.
  unfold worst_of. induction cs as [|x cs IH] using rev_ind.
  - left. split; [reflexivity|]. intros c [].
  - rewrite fold_left_app. cbn [fold_left].
    destruct (fits mm sz x) eqn:Hx.
    + destruct IH as [[E Hnone]|(l1 & b & l2 & -> & E & Hb & H1 & H2)];
        rewrite E; unfold worst_step; rewrite Hx; cbn [andb worse].
      * right. exists cs, x, []. split; [reflexivity|].
        split; [reflexivity|]. split; [exact Hx|]. split.
        -- intros c Hc Hf. rewrite Hnone in Hf by exact Hc. discriminate.
        -- intros c [].
      * right.
        destruct (Z.ltb_spec (size (header mm b)) (size (header mm x))) as [Hlt|Hge].
        -- exists ((l1 ++ b :: l2)), x, []. split; [reflexivity|].
           split; [reflexivity|]. split; [exact Hx|]. split; [|intros c []].
           intros c Hc Hf. apply in_app_iff in Hc as [Hc|[<-|Hc]].
           ++ specialize (H1 c Hc Hf). lia.
           ++ exact Hlt.
           ++ specialize (H2 c Hc Hf). lia.
        -- exists l1, b, (l2 ++ [x]). split; [now rewrite <- app_assoc|].
           split; [reflexivity|]. split; [exact Hb|]. split; [exact H1|].
           intros c Hc Hf. apply in_app_iff in Hc as [Hc|[<-|[]]]; [now apply H2|lia].
    + destruct IH as [[E Hnone]|(l1 & b & l2 & -> & E & Hb & H1 & H2)];
        rewrite E; unfold best_step, worst_step; rewrite Hx; cbn [andb].
      * left. split; [reflexivity|]. intros c Hc. apply in_app_iff in Hc as [Hc|[<-|[]]]; auto.
      * right. exists l1, b, (l2 ++ [x]). split; [now rewrite <- app_assoc|].
        split; [reflexivity|]. split; [exact Hb|]. split; [exact H1|].
        intros c Hc Hf. apply in_app_iff in Hc as [Hc|[<-|[]]]; [now apply H2|congruence].
Qed.

Lemma chain_ext mm mm' p cs :
  (forall o, header mm' o = header mm o) -> chain mm p cs -> chain mm' p cs.
Proof.
  intros Hh Hc. induction Hc as [|c cs Hc IH]; constructor. now rewrite Hh.
Qed.

Section Placement.

Variable H : Z.

Lemma allocate_found fuel mm n ptr mm' :
  allocate H fuel mm n = Some (Some ptr, mm') ->
  n <> 0
  /\ find_block fuel (add_requested mm n) (wrap (n + H)) = Some (Some (ptr - H))
  /\ mm' = claim_block H (add_requested mm n) (ptr - H) n (wrap (n + H)).
Proof.
  unfold allocate. destruct (Z.eqb_spec n 0) as [|Hn]; [discriminate|].
  destruct (find_block fuel (add_requested mm n) (wrap (n + H))) as [[b|]|]; try discriminate.
  intros [= <- <-]. replace (b + H - H) with b by lia. auto.
Qed.

(** The block a placement search finds, by strategy, in a list the searches
    walk to its end. *)
Lemma find_block_spec fuel mm cs sz :
  chain mm (freeListHead mm) cs -> (length cs < fuel)%nat ->
  (length cs <= maxIterations_findBestFit)%nat ->
  find_block fuel mm sz
  = Some match currentStrategy mm with
         | FIRST_FIT => List.find (fits mm sz) cs
         | BEST_FIT => best_of mm sz cs
         | WORST_FIT => worst_of mm sz cs
         end.
Proof.
  intros Hc Hlen Hcap. unfold find_block. destruct (currentStrategy mm).
  - unfold findFirstFit. now apply findFirstFit_loop_spec.
  - unfold findBestFit, best_of. rewrite (findBestFit_loop_spec _ _ _ _ _ _ Hc).
    now rewrite firstn_all2.
  - unfold findWorstFit, worst_of. now apply findWorstFit_loop_spec.
Qed.

End Placement.

(** * What [coalesceBlocks] leaves alone *)

Lemma kept_refl mm : kept mm mm.
Proof. repeat split. Qed.

Lemma kept_trans m1 m2 m3 : kept m1 m2 -> kept m2 m3 -> kept m1 m3.
Proof.
  intros (a1 & a2 & a3 & a4 & a5 & a6 & a7 & a8 & a9 & a10 & a11 & a12)
         (b1 & b2 & b3 & b4 & b5 & b6 & b7 & b8 & b9 & b10 & b11 & b12).
  repeat split; try congruence.
  - destruct (a12 o) as [E _], (b12 o) as [E' _]. congruence.
  - destruct (a12 o) as [_ E], (b12 o) as [_ E']. congruence.
Qed.

Lemma kept_store mm p f :
  (forall h, is_free (f h) = is_free h /\ block_id (f h) = block_id h) ->
  kept mm (store mm p f).
Proof.
  intros Hf. repeat split; rewrite header_store;
    (destruct (decide (o = p)) as [->|]; [apply Hf|reflexivity]).
Qed.

Lemma kept_head mm h : kept mm (with_freeListHead mm h).
Proof. repeat split. Qed.

Ltac keep :=
  repeat first
    [ apply kept_refl
    | (eapply kept_trans; [|apply kept_store; intros ?; split; reflexivity])
    | (eapply kept_trans; [|apply kept_head]) ].

Lemma removeFromFreeList_kept mm b : kept mm (removeFromFreeList mm b).
Proof.
  unfold removeFromFreeList.
  destruct (prev (header mm b)) as [p|].
  - set (m1 := store mm p (put_next (next (header mm b)))).
    assert (K1 : kept mm m1) by (subst m1; keep).
    clearbody m1. cbv zeta.
    destruct (next (header m1 b)) as [n|].
    + eapply kept_trans; [exact K1|]. keep.
    + eapply kept_trans; [exact K1|]. keep.
  - set (m1 := with_freeListHead mm (next (header mm b))).
    assert (K1 : kept mm m1) by (subst m1; keep).
    clearbody m1. cbv zeta.
    destruct (next (header m1 b)) as [n|].
    + eapply kept_trans; [exact K1|]. keep.
    + eapply kept_trans; [exact K1|]. keep.
Qed.

Lemma addToFreeList_kept mm b : kept mm (addToFreeList mm b).
Proof.
  unfold addToFreeList.
  assert (K1 : kept mm (if negb (is_null (prev (header mm b)))
                           || negb (is_null (next (header mm b)))
                           || ptr_eqb (freeListHead mm) b
                        then removeFromFreeList mm b else mm)).
  { destruct (_ || _); [apply removeFromFreeList_kept|apply kept_refl]. }
  match type of K1 with kept _ ?X => set (m1 := X) in * end.
  clearbody m1. cbv zeta.
  set (m2 := store (store m1 b (put_next (freeListHead m1))) b (put_prev None)).
  assert (K2 : kept mm m2) by (eapply kept_trans; [exact K1|]; subst m2; keep).
  clearbody m2.
  destruct (freeListHead m2) as [h|]; (eapply kept_trans; [exact K2|]; keep).
Qed.

Lemma absorb_kept mm x y :
  kept mm (absorb mm x y)
  /\ forall o, o <> x -> size (header (absorb mm x y) o) = size (header mm o).
Proof.
  unfold absorb. cbv zeta. split.
  - eapply kept_trans; [apply removeFromFreeList_kept|].
    apply kept_store. intros h. split; reflexivity.
  - intros o Ho. rewrite header_store, decide_False by exact Ho.
    apply header_removeFromFreeList_size.
Qed.

Lemma merge_next_kept mm b :
  kept mm (merge_next mm b)
  /\ forall o, o <> b -> size (header (merge_next mm b) o) = size (header mm o).
Proof.
  rewrite merge_next_absorb.
  destruct (_ <? _); [|split; [apply kept_refl|reflexivity]].
  destruct (is_free _); [apply absorb_kept|split; [apply kept_refl|reflexivity]].
Qed.

(** Whatever the state, [coalesceBlocks] changes no flag, id, map or
    counter, and no size of a block that is not free. *)
Lemma coalesceBlocks_kept fuel : forall mm b mm',
  coalesceBlocks fuel mm b = Some mm' ->
  kept mm mm'
  /\ forall o, o <> b -> is_free (header mm o) = false ->
       size (header mm' o) = size (header mm o).
Proof.
  induction fuel as [|fuel IH]; intros mm b mm' Hc; [discriminate|].
  rewrite coalesceBlocks_S in Hc.
  destruct (merge_next_kept mm b) as [K1 S1].
  set (m1 := merge_next mm b) in *. clearbody m1.
  destruct (find_prev maxIterations_coalesce m1 (firstBlock m1) b) as [p|].
  - destruct (is_free (header m1 p)) eqn:Hp.
    + rewrite merge_into_prev_absorb in Hc.
      destruct (absorb_kept m1 p b) as [K2 S2].
      set (m2 := absorb m1 p b) in *. clearbody m2.
      apply IH in Hc as [K3 S3]. split.
      * eapply kept_trans; [exact K1|]. eapply kept_trans; [exact K2|exact K3].
      * intros o Hob Hfree.
        assert (Hop : o <> p).
        { intros ->. destruct K1 as (_ & _ & _ & _ & _ & _ & _ & _ & _ & _ & _ & Kh).
          destruct (Kh p) as [E _]. congruence. }
        rewrite S3, S2, S1; auto.
        destruct K1 as (_ & _ & _ & _ & _ & _ & _ & _ & _ & _ & _ & Kh1).
        destruct K2 as (_ & _ & _ & _ & _ & _ & _ & _ & _ & _ & _ & Kh2).
        destruct (Kh1 o) as [E1 _], (Kh2 o) as [E2 _]. congruence.
    + injection Hc as <-. split; [exact K1|]. intros o Ho _. now apply S1.
  - injection Hc as <-. split; [exact K1|]. intros o Ho _. now apply S1.
Qed.

Section ReleaseFacts.

Variable H : Z.

Lemma mark_free_meta mm b :
  nextBlockId (mark_free H mm b) = nextBlockId mm
  /\ currentStrategy (mark_free H mm b) = currentStrategy mm
  /\ idToRequestedSize (mark_free H mm b)
     = delete (block_id (header mm b)) (idToRequestedSize mm)
  /\ allocationSuccessCount (mark_free H mm b) = allocationSuccessCount mm
  /\ allocationFailureCount (mark_free H mm b) = allocationFailureCount mm
  /\ totalRequestedSize (mark_free H mm b) = totalRequestedSize mm.
Proof.
  unfold mark_free. cbv zeta.
  match goal with |- context [addToFreeList ?X b] =>
    destruct (addToFreeList_kept X b) as (_ & _ & k3 & k4 & _ & _ & k7 & k8 & k9 & k10 & _)
  end.
  rewrite k3, k4, k7, k8, k9, k10. cbn.
  repeat split.
  match goal with |- context [header (add_allocated ?m ?z) b] =>
    change (header (add_allocated m z) b) with (header m b) end.
  rewrite header_store, decide_True by reflexivity. reflexivity.
Qed.

(** What a call of [deallocate] has done when it returns: on success the
    pointer was in the arena and led to a header that was not free, that
    block is free now and has left the maps, and no other flag and no size
    of an allocated block has changed; on failure nothing has changed. *)
Lemma deallocate_spec fuel mm ptr res mm' :
  deallocate H fuel mm ptr = Some (res, mm') ->
  if res then
    exists b,
      isValidPointer mm ptr = true /\ getHeader mm ptr = Some b
      /\ is_free (header mm b) = false
      /\ (totalMemorySize mm' = totalMemorySize mm /\ firstBlock mm' = firstBlock mm
          /\ currentStrategy mm' = currentStrategy mm /\ nextBlockId mm' = nextBlockId mm
          /\ allocationSuccessCount mm' = allocationSuccessCount mm
          /\ allocationFailureCount mm' = allocationFailureCount mm
          /\ totalRequestedSize mm' = totalRequestedSize mm)
      /\ idToRequestedSize mm'
         = delete (block_id (header mm b)) (idToRequestedSize mm)
      /\ addressToHeader mm' = delete ptr (addressToHeader mm)
      /\ idToHeader mm' = delete (block_id (header mm b)) (idToHeader mm)
      /\ (forall o, is_free (header mm' o)
                    = if decide (o = b) then true else is_free (header mm o))
      /\ (forall o, block_id (header mm' o) = block_id (header mm o))
      /\ (forall o, o <> b -> is_free (header mm o) = false ->
            size (header mm' o) = size (header mm o))
  else mm' = mm
       /\ (isValidPointer mm ptr = false \/ getHeader mm ptr = None
           \/ exists b, getHeader mm ptr = Some b /\ is_free (header mm b) = true).
Proof.
  unfold deallocate.
  destruct (isValidPointer mm ptr) eqn:Hv; cbn [negb];
    [|intros [= <- <-]; split; [reflexivity|now left]].
  destruct (getHeader mm ptr) as [b|] eqn:Hg;
    [|intros [= <- <-]; split; [reflexivity|right; now left]].
  destruct (is_free (header mm b)) eqn:Hb;
    [intros [= <- <-]; split; [reflexivity|right; right; eauto]|].
  destruct (coalesceBlocks fuel (mark_free H mm b) b) as [mc|] eqn:Hc; [|discriminate].
  intros [= <- <-]. exists b.
  destruct (coalesceBlocks_kept _ _ _ _ Hc) as [K S].
  destruct (mark_free_spec H mm b) as (E1 & E2 & E3 & E4 & Hh).
  pose proof K as (k1 & k2 & k3 & k4 & k5 & k6 & k7 & k8 & k9 & k10 & k11 & Kh).
  destruct (mark_free_meta mm b) as (M1 & M2 & M3 & M4 & M5 & M6).
  split; [reflexivity|]. split; [reflexivity|]. split; [exact Hb|].
  split.
  { cbn. rewrite k1, k2, k3, k4, k8, k9, k10, E1, E2, M1, M2, M4, M5, M6. repeat split. }
  split; [cbn; now rewrite k7, M3|].
  split; [cbn; now rewrite k5, E3|].
  split.
  { cbn. rewrite k6, E4. destruct (Kh b) as [_ ->]. destruct (Hh b) as (_ & -> & _).
    reflexivity. }
  split.
  { intros o. rewrite untrack_header. destruct (Kh o) as [-> _]. apply Hh. }
  split.
  { intros o. rewrite untrack_header. destruct (Kh o) as [_ ->]. apply Hh. }
  intros o Ho Hf. rewrite untrack_header. rewrite S.
  - apply Hh.
  - exact Ho.
  - destruct (Hh o) as (_ & _ & ->). now rewrite decide_False.
Qed.

End ReleaseFacts.

Section AllocationFacts.

Variable H : Z.

Lemma kept_same_books mm mm' : kept mm mm' -> same_books mm mm'.
Proof.
  intros (k1 & k2 & k3 & k4 & k5 & k6 & k7 & k8 & k9 & k10 & _). repeat split; assumption.
Qed.

Lemma maybe_split_meta mm b r :
  same_books mm (maybe_split H mm b r)
  /\ forall o, o <> b + r ->
       is_free (header (maybe_split H mm b r) o) = is_free (header mm o)
       /\ block_id (header (maybe_split H mm b r) o) = block_id (header mm o).
Proof.
  unfold maybe_split. destruct (_ <=? _); [|split; [repeat split|auto]].
  unfold splitBlock. destruct (_ <? _); [split; [repeat split|auto]|]. cbv zeta.
  match goal with |- context [addToFreeList ?X ?nb] =>
    pose proof (addToFreeList_kept X nb) as K end.
  split.
  - apply kept_same_books in K. exact K.
  - intros o Ho.
    destruct K as (_ & _ & _ & _ & _ & _ & _ & _ & _ & _ & _ & Kh).
    destruct (Kh o) as [-> ->]. rewrite !header_store.
    destruct (decide (o = b)) as [->|Hob].
    + rewrite !(decide_False (P := b = b + r)) by exact Ho. auto.
    + rewrite !(decide_False (P := o = b + r)) by exact Ho. auto.
Qed.

Lemma mark_allocated_meta m b :
  nextBlockId (mark_allocated m b) = wrap (nextBlockId m + 1)
  /\ currentStrategy (mark_allocated m b) = currentStrategy m
  /\ idToHeader (mark_allocated m b) = idToHeader m
  /\ idToRequestedSize (mark_allocated m b) = idToRequestedSize m
  /\ allocationSuccessCount (mark_allocated m b) = allocationSuccessCount m
  /\ allocationFailureCount (mark_allocated m b) = allocationFailureCount m
  /\ totalRequestedSize (mark_allocated m b) = totalRequestedSize m
  /\ forall o, block_id (header (mark_allocated m b) o)
               = if decide (o = b) then nextBlockId m else block_id (header m o).
Proof.
  unfold mark_allocated. cbv zeta.
  match goal with |- context [removeFromFreeList ?X b] => set (X0 := X) end.
  destruct (removeFromFreeList_kept X0 b)
    as (_ & _ & k3 & k4 & _ & k6 & k7 & k8 & k9 & k10 & _ & Kh).
  rewrite k3, k4, k6, k7, k8, k9, k10.
  split; [reflexivity|]. split; [reflexivity|]. split; [reflexivity|].
  split; [reflexivity|]. split; [reflexivity|]. split; [reflexivity|].
  split; [reflexivity|].
  intros o. destruct (Kh o) as [_ ->]. subst X0.
  change (header (with_tracking ?m0 ?a ?b0 ?c ?d) o) with (header m0 o).
  rewrite !header_store.
  destruct (decide (o = b)) as [->|Hob]; reflexivity.
Qed.

Lemma track_books m b n :
  nextBlockId (track H m b n) = nextBlockId m
  /\ currentStrategy (track H m b n) = currentStrategy m
  /\ idToHeader (track H m b n) = <[block_id (header m b) := b]> (idToHeader m)
  /\ idToRequestedSize (track H m b n) = <[block_id (header m b) := n]> (idToRequestedSize m)
  /\ allocationSuccessCount (track H m b n) = wrap (allocationSuccessCount m + 1)
  /\ allocationFailureCount (track H m b n) = allocationFailureCount m
  /\ totalRequestedSize (track H m b n) = totalRequestedSize m.
Proof. repeat split. Qed.

(** What [claim_block] does to ids, maps and counters. *)
Lemma claim_block_books mm b n r :
  let mm' := claim_block H mm b n r in
  nextBlockId mm' = wrap (nextBlockId mm + 1)
  /\ currentStrategy mm' = currentStrategy mm
  /\ idToHeader mm' = <[nextBlockId mm := b]> (idToHeader mm)
  /\ idToRequestedSize mm' = <[nextBlockId mm := n]> (idToRequestedSize mm)
  /\ allocationSuccessCount mm' = wrap (allocationSuccessCount mm + 1)
  /\ allocationFailureCount mm' = allocationFailureCount mm
  /\ totalRequestedSize mm' = totalRequestedSize mm
  /\ block_id (header mm' b) = nextBlockId mm
  /\ forall o, o <> b -> o <> b + r -> block_id (header mm' o) = block_id (header mm o).
Proof.
  intros mm'. subst mm'. unfold claim_block.
  destruct (maybe_split_meta mm b r)
    as ((_ & _ & s3 & s4 & _ & s6 & s7 & s8 & s9 & s10) & Sh).
  set (m2 := maybe_split H mm b r) in *. clearbody m2.
  destruct (mark_allocated_meta m2 b) as (a1 & a2 & a3 & a4 & a5 & a6 & a7 & Ah).
  set (m3 := mark_allocated m2 b) in *. clearbody m3.
  assert (Eb : block_id (header m3 b) = nextBlockId mm).
  { rewrite Ah, decide_True by reflexivity. exact s4. }
  destruct (track_books m3 b n) as (t1 & t2 & t3 & t4 & t5 & t6 & t7).
  destruct (track_spec H m3 b n) as (_ & _ & _ & T).
  set (m4 := track H m3 b n) in *. clearbody m4.
  rewrite t1, t2, t3, t4, t5, t6, t7, T, Eb, a1, a2, a3, a4, a5, a6, a7,
    s3, s4, s6, s7, s8, s9, s10.
  repeat (split; [reflexivity|]).
  intros o Hob Hor. rewrite T, Ah, decide_False by exact Hob. now apply Sh.
Qed.

Lemma allocate_failure_spec fuel mm n mm' :
  allocate H fuel mm n = Some (None, mm') ->
  (forall o, header mm' o = header mm o)
  /\ totalMemorySize mm' = totalMemorySize mm /\ firstBlock mm' = firstBlock mm
  /\ freeListHead mm' = freeListHead mm /\ currentStrategy mm' = currentStrategy mm
  /\ nextBlockId mm' = nextBlockId mm /\ addressToHeader mm' = addressToHeader mm
  /\ idToHeader mm' = idToHeader mm /\ idToRequestedSize mm' = idToRequestedSize mm
  /\ allocationSuccessCount mm' = allocationSuccessCount mm
  /\ allocationFailureCount mm' = wrap (allocationFailureCount mm + 1).
Proof.
  unfold allocate. destruct (n =? 0); [intros [= <-]; repeat split|].
  destruct (find_block _ _ _) as [[b|]|]; try discriminate.
  intros [= <-]. repeat split.
Qed.

End AllocationFacts.

(** * Accounting of the allocated blocks *)

Section Accounting.

Variable H : Z.
Hypothesis H_pos : 0 < H.
Hypothesis H_small : H + 8 < size_t_modulus.

Lemma claim_block_payload mm b n r :
  0 < r <= size (header mm b) -> size (header mm b) < size_t_modulus ->
  let sp := H + 8 <=? size (header mm b) - r in
  forall o,
    size (header (claim_block H mm b n r) o)
    = (if sp then
         if decide (o = b) then r
         else if decide (o = b + r) then size (header mm b) - r
         else size (header mm o)
       else size (header mm o))
    /\ is_free (header (claim_block H mm b n r) o)
       = (if decide (o = b) then false
          else if sp && bool_decide (o = b + r) then true
          else is_free (header mm o))
    /\ block_id (header (claim_block H mm b n r) o)
       = (if decide (o = b) then nextBlockId mm
          else if sp && bool_decide (o = b + r) then 0
          else block_id (header mm o)).
Proof.
  intros Hr Hsz sp o. unfold claim_block.
  destruct (track_spec H (mark_allocated (maybe_split H mm b r) b) b n) as (_ & _ & _ & T4).
  rewrite T4.
  destruct (mark_allocated_spec (maybe_split H mm b r) b) as (_ & _ & _ & Mh).
  destruct (mark_allocated_meta (maybe_split H mm b r) b) as (_ & _ & _ & _ & _ & _ & _ & Ah).
  destruct (maybe_split_meta H mm b r) as ((_ & _ & _ & s4 & _) & _).
  destruct (Mh o) as [-> ->]. rewrite Ah, s4.
  rewrite (maybe_split_cases H H_pos H_small) by lia. fold sp.
  destruct sp; [|repeat split; reflexivity].
  match goal with |- context [addToFreeList ?X ?nb] =>
    destruct (addToFreeList_kept X nb) as (_ & _ & _ & _ & _ & _ & _ & _ & _ & _ & _ & Kh) end.
  destruct (Kh o) as [_ ->].
  rewrite header_addToFreeList_size, header_addToFreeList_is_free, !header_store.
  destruct (decide (o = b)) as [->|Hob].
  - rewrite !(decide_False (P := b = b + r)) by lia. auto.
  - destruct (decide (o = b + r)) as [->|Hor].
    + rewrite !(decide_True (P := b + r = b + r)) by reflexivity.
      rewrite bool_decide_eq_true_2 by reflexivity. auto.
    + rewrite bool_decide_eq_false_2 by assumption. auto.
Qed.

Lemma claim_sound mm bs cs b n :
  consistent H mm bs cs -> accounted H mm bs -> In b cs ->
  0 < n -> n + H < size_t_modulus -> n + H <= size (header mm b) ->
  nextBlockId mm + 1 < size_t_modulus ->
  exists bs' cs',
    consistent H (claim_block H mm b n (n + H)) bs' cs'
    /\ accounted H (claim_block H mm b n (n + H)) bs'
    /\ (length bs' <= S (length bs))%nat.
Proof.
  intros Hcon (I1 & I2 & I3 & I4) Hb Hn Hover Hfit Hid.
  destruct (claim_consistent H H_pos H_small mm bs cs b n (n + H) Hcon Hb)
    as (bs' & cs' & Hcon' & Hlen); [lia|].
  exists bs', cs'. split; [exact Hcon'|]. split; [|exact Hlen].
  pose proof Hcon as ((Hok & Ht & Hl & Hex) & Hadj & Htr).
  pose proof Hcon' as ((_ & Ht' & _) & _).
  destruct (proj1 (Hex b) Hb) as [Hbin Hfree].
  destruct (in_layout_split _ _ _ Ht Hbin) as (L1 & L2 & -> & HnL1 & HnL2).
  pose proof (layout_split _ _ _ _ Ht) as (HtL1 & Hposb & HtL2 & Hend & Hb0).
  pose proof Hok as [Hfirst HM].
  assert (HL1 : forall o, In o L1 -> o < b).
  { intros o Ho. apply tiles_bounds in HtL1 as [_ HtL1].
    destruct (HtL1 o Ho) as (? & ? & ?). lia. }
  assert (HL2 : forall o, In o L2 -> b + size (header mm b) <= o).
  { intros o Ho. apply tiles_bounds in HtL2 as [_ HtL2].
    destruct (HtL2 o Ho) as (? & ? & ?). lia. }
  pose proof (claim_block_payload mm b n (n + H)) as Hpay.
  specialize (Hpay ltac:(lia) ltac:(lia)). cbv zeta in Hpay.
  destruct (claim_block_books H mm b n (n + H)) as (B1 & _ & B3 & B4 & _).
  destruct (claim_block_spec H H_pos H_small mm b n (n + H)) as (sp0 & (C1 & _ & C3 & _) & _);
    [lia|lia|].
  set (sp := H + 8 <=? size (header mm b) - (n + H)) in *.
  set (mm' := claim_block H mm b n (n + H)) in *. clearbody mm'. clear sp0.
  assert (Hsp : sp = true <-> H + 8 <= size (header mm b) - (n + H))
    by (subst sp; apply Z.leb_le).
  clearbody sp.
  rewrite wrap_small in B1 by lia.
  assert (Hnew : sp = true -> ~ In (b + (n + H)) (L1 ++ b :: L2)).
  { intros Hs Hin. apply Hsp in Hs.
    apply in_app_iff in Hin as [Hin|[Hin|Hin]].
    - specialize (HL1 _ Hin). lia.
    - lia.
    - specialize (HL2 _ Hin). lia. }
  (* the blocks afterwards *)
  assert (Ebs : bs' = L1 ++ b :: (if sp then [b + (n + H)] else []) ++ L2).
  { apply (tiles_functional mm' 0 _ _ (totalMemorySize mm')); [|exact Ht'].
    rewrite C1. apply tiles_app. exists b. split.
    - apply (tiles_ext mm); [|exact HtL1]. intros o Ho. specialize (HL1 o Ho).
      destruct (Hpay o) as (-> & _). destruct sp; [|reflexivity].
      rewrite !decide_False by lia. reflexivity.
    - destruct (Hpay b) as (Esb & _). rewrite decide_True in Esb by reflexivity.
      destruct sp eqn:Hs.
      + pose proof (proj1 Hsp eq_refl) as Hs'. cbn [app].
        constructor; [rewrite Esb; lia|]. rewrite Esb.
        destruct (Hpay (b + (n + H))) as (Esn & _).
        rewrite decide_False, decide_True in Esn by lia.
        constructor; [rewrite Esn; lia|]. rewrite Esn.
        replace (b + (n + H) + (size (header mm b) - (n + H)))
          with (b + size (header mm b)) by lia.
        apply (tiles_ext mm); [|exact HtL2]. intros o Ho. specialize (HL2 o Ho).
        destruct (Hpay o) as (-> & _). rewrite !decide_False by lia. reflexivity.
      + cbn [app]. constructor; [rewrite Esb; lia|]. rewrite Esb.
        apply (tiles_ext mm); [|exact HtL2]. intros o Ho.
        destruct (Hpay o) as (-> & _). reflexivity. }
  assert (Hold : forall o, In o (L1 ++ b :: L2) -> In o bs').
  { intros o Ho. rewrite Ebs. apply in_app_iff in Ho as [Ho|[Ho|Ho]];
      rewrite !in_app_iff; cbn [In]; rewrite ?in_app_iff; auto. }
  assert (Hkeep : forall o, In o (L1 ++ b :: L2) -> o <> b ->
            size (header mm' o) = size (header mm o)
            /\ is_free (header mm' o) = is_free (header mm o)
            /\ block_id (header mm' o) = block_id (header mm o)).
  { intros o Ho Hob. destruct (Hpay o) as (-> & -> & ->).
    rewrite !(decide_False (P := o = b)) by exact Hob.
    destruct sp; [|auto].
    assert (o <> b + (n + H)) by (intros ->; now apply (Hnew eq_refl)).
    rewrite !decide_False by assumption. rewrite bool_decide_eq_false_2 by assumption. auto. }
  assert (Hnewb : forall o, In o bs' -> In o (L1 ++ b :: L2) \/ is_free (header mm' o) = true).
  { intros o Ho. rewrite Ebs in Ho. rewrite !in_app_iff in Ho. cbn [In] in Ho.
    rewrite in_app_iff in Ho. destruct Ho as [Ho|[Ho|[Ho|Ho]]].
    - left. apply in_app_iff. auto.
    - left. apply in_app_iff. cbn. auto.
    - right. destruct sp eqn:Hs; [|destruct Ho]. destruct Ho as [<-|[]].
      destruct (Hpay (b + (n + H))) as (_ & -> & _). rewrite decide_False by lia.
      now rewrite bool_decide_eq_true_2.
    - left. apply in_app_iff. cbn. auto. }
  split; [|split; [|split]].
  - intros id b0. rewrite B3. intros Hlk.
    apply lookup_insert_Some in Hlk as [[<- <-]|[Hne Hlk]].
    + split; [apply Hold, in_app_iff; cbn; auto|].
      destruct (Hpay b) as (_ & -> & ->). rewrite !decide_True by reflexivity.
      split; [reflexivity|]. split; [reflexivity|]. lia.
    + destruct (I1 _ _ Hlk) as (Hin0 & Hf0 & Hid0 & Hr0).
      assert (b0 <> b) by congruence.
      destruct (Hkeep b0 Hin0) as (_ & -> & ->); [assumption|].
      split; [now apply Hold|]. split; [exact Hf0|]. split; [exact Hid0|]. lia.
  - intros b1 Hin1 Hf1.
    destruct (decide (b1 = b)) as [->|Hne].
    + destruct (Hpay b) as (Esb & _ & ->). rewrite decide_True in * by reflexivity.
      rewrite B3, B4, C3, !lookup_insert_eq. split; [reflexivity|]. split; [reflexivity|].
      exists n. split; [reflexivity|]. split; [lia|]. rewrite Esb.
      destruct sp eqn:Hs; [lia|].
      assert (~ H + 8 <= size (header mm b) - (n + H)) by (intros Hc; apply Hsp in Hc; discriminate).
      lia.
    + destruct (Hnewb b1 Hin1) as [Hin|Hf]; [|congruence].
      destruct (Hkeep b1 Hin Hne) as (Es & Ef & Ei). rewrite Es, Ei. rewrite Ef in Hf1.
      destruct (I2 b1 Hin Hf1) as (J1 & J2 & nn & J3 & J4 & J5).
      destruct (I1 _ _ J1) as (_ & _ & _ & Hr1).
      rewrite B3, B4, C3, !lookup_insert_ne by lia. eauto 10.
  - intros p b0. rewrite C3. intros Hlk.
    apply lookup_insert_Some in Hlk as [[<- <-]|[Hne Hlk]]; [now left|]. now apply I3.
  - lia.
Qed.

Lemma release_sound fuel mm bs cs ptr b :
  consistent H mm bs cs -> accounted H mm bs ->
  (length bs <= S maxIterations_coalesce)%nat ->
  addressToHeader mm !! ptr = Some b -> is_free (header mm b) = false ->
  exists mm' bs' cs',
    coalesceBlocks (S (S fuel)) (mark_free H mm b) b = Some mm'
    /\ consistent H (untrack mm' ptr b) bs' cs'
    /\ accounted H (untrack mm' ptr b) bs'
    /\ (length bs' <= length bs)%nat.
Proof.
  intros Hcon (I1 & I2 & I3 & I4) Hlen Hget Hb.
  destruct (release_consistent H fuel mm bs cs ptr b Hcon Hlen Hget Hb)
    as (mm' & bs' & cs' & Hc & Hcon' & Hlen').
  exists mm', bs', cs'. split; [exact Hc|]. split; [exact Hcon'|]. split; [|exact Hlen'].
  pose proof Hcon as (Hco & Hadj & Htr).
  pose proof Hco as (Hok & Ht & _).
  destruct (Htr _ _ Hget) as [Hin _].
  (* the same call, seen through the tiling *)
  pose proof (mark_free_coherent H mm bs cs b Hco Hb Hin) as Hco1.
  destruct (in_layout_split _ _ _ Ht Hin) as (L1 & L2 & -> & HnL1 & HnL2).
  destruct (mark_free_spec H mm b) as (E1 & E2 & E3 & E4 & Hh).
  destruct (mark_free_meta H mm b) as (M1 & _ & M3 & _).
  destruct (coalesceBlocks_kept _ _ _ _ Hc) as [K S].
  set (m1 := mark_free H mm b) in *.
  unfold no_adjacent_free in Hadj. rewrite adjacent_free_flags, flags_app in Hadj.
  apply adjacent_app in Hadj as [HadjL1 HadjL2].
  change (flags mm (b :: L2)) with (is_free (header mm b) :: flags mm L2) in HadjL2.
  rewrite adjacent_cons in HadjL2. apply orb_false_iff in HadjL2 as [_ HadjL2].
  assert (HfL1 : flags m1 L1 = flags mm L1).
  { apply flags_ext. intros x Hx. destruct (Hh x) as (_ & _ & ->).
    rewrite decide_False; [reflexivity|]. intros ->. contradiction. }
  assert (HfL2 : flags m1 L2 = flags mm L2).
  { apply flags_ext. intros x Hx. destruct (Hh x) as (_ & _ & ->).
    rewrite decide_False; [reflexivity|]. intros ->. contradiction. }
  assert (Hb1 : is_free (header m1 b) = true).
  { destruct (Hh b) as (_ & _ & ->). now rewrite decide_True. }
  destruct (coalesce_coherent fuel m1 L1 b L2 (b :: cs))
    as (mm2 & bs2 & cs2 & Hc2 & Hco2 & _ & _ & _ & _ & Hsub & Hgone & _);
    [exact Hco1|exact Hb1|now rewrite HfL1|now rewrite HfL2| |].
  { rewrite length_app in Hlen. simpl in Hlen. lia. }
  rewrite Hc in Hc2. injection Hc2 as <-.
  assert (Ebs : bs2 = bs').
  { destruct Hco2 as (_ & Ht2 & _). destruct Hcon' as ((_ & Ht' & _) & _).
    apply (tiles_functional mm' 0 _ _ (totalMemorySize mm')); [|exact Ht2].
    apply (layout_ext (untrack mm' ptr b)); [reflexivity|reflexivity|exact Ht']. }
  subst bs2. clear Hco2 Hcon' Hco1.
  pose proof K as (_ & _ & _ & k4 & k5 & k6 & k7 & _ & _ & _ & _ & Kh).
  clearbody m1.
  assert (Hfl : forall o, is_free (header mm' o)
                          = if decide (o = b) then true else is_free (header mm o)).
  { intros o. destruct (Kh o) as [-> _]. apply Hh. }
  assert (Hbid : forall o, block_id (header mm' o) = block_id (header mm o)).
  { intros o. destruct (Kh o) as [_ ->]. apply Hh. }
  assert (Hsz : forall o, o <> b -> is_free (header mm o) = false ->
            size (header mm' o) = size (header mm o)).
  { intros o Ho Hf. rewrite S; [apply Hh|exact Ho|].
    destruct (Hh o) as (_ & _ & ->). now rewrite decide_False. }
  assert (Hstay : forall o, In o (L1 ++ b :: L2) -> o <> b ->
            is_free (header mm o) = false -> In o bs').
  { intros o Ho Hob Hf. destruct (in_dec Z.eq_dec o bs') as [Hyes|Hno]; [exact Hyes|].
    destruct (Hgone o Ho Hno) as [Hf1 _]. destruct (Hh o) as (_ & _ & Ef).
    rewrite Ef, decide_False in Hf1 by exact Hob. congruence. }
  destruct (I2 b Hin Hb) as (Jb1 & Jb2 & _).
  assert (Hidb : forall o, In o (L1 ++ b :: L2) -> is_free (header mm o) = false ->
            o <> b -> block_id (header mm o) <> block_id (header mm b)).
  { intros o Ho Hf Hob E. destruct (I2 o Ho Hf) as (J1 & _). rewrite E, Jb1 in J1. congruence. }
  unfold accounted.
  change (idToHeader (untrack mm' ptr b)) with (delete (block_id (header mm' b)) (idToHeader mm')).
  change (addressToHeader (untrack mm' ptr b)) with (delete ptr (addressToHeader mm')).
  change (idToRequestedSize (untrack mm' ptr b)) with (idToRequestedSize mm').
  change (nextBlockId (untrack mm' ptr b)) with (nextBlockId mm').
  change (header (untrack mm' ptr b)) with (header mm').
  rewrite Hbid, k4, k5, k6, k7, M1, M3, E3, E4.
  split; [|split; [|split]].
  - intros id b0 Hlk. apply lookup_delete_Some in Hlk as [Hne Hlk].
    destruct (I1 _ _ Hlk) as (Hin0 & Hf0 & Hid0 & Hr0).
    assert (b0 <> b) by (intros ->; congruence).
    rewrite Hfl, Hbid, decide_False by assumption.
    split; [now apply Hstay|]. auto.
  - intros b1 Hin1. rewrite Hfl, Hbid. destruct (decide (b1 = b)) as [->|Hne]; [discriminate|].
    intros Hf1. pose proof (Hsub _ Hin1) as Hin1'.
    destruct (I2 b1 Hin1' Hf1) as (J1 & J2 & nn & J3 & J4 & J5).
    pose proof (Hidb b1 Hin1' Hf1 Hne) as Hidne.
    rewrite !lookup_delete_ne by congruence.
    rewrite Hsz by assumption. eauto 10.
  - intros p b0 Hlk. apply lookup_delete_Some in Hlk as [_ Hlk]. now apply I3.
  - exact I4.
Qed.

Lemma new_MemoryManager_accounted total s : accounted H (new_MemoryManager total s) [0].
Proof.
  split; [|split; [|split]].
  - intros id b Hlk. cbn in Hlk. rewrite lookup_empty in Hlk. discriminate.
  - intros b [<-|[]]. rewrite header_new_MemoryManager. cbn. discriminate.
  - intros p b Hlk. cbn in Hlk. apply lookup_singleton_Some in Hlk as [<- <-]. now right.
  - cbn. lia.
Qed.

Lemma accounted_ext mm mm' bs :
  nextBlockId mm' = nextBlockId mm -> addressToHeader mm' = addressToHeader mm ->
  idToHeader mm' = idToHeader mm -> idToRequestedSize mm' = idToRequestedSize mm ->
  (forall o, header mm' o = header mm o) ->
  accounted H mm bs -> accounted H mm' bs.
Proof.
  intros E1 E2 E3 E4 Hh (I1 & I2 & I3 & I4). unfold accounted.
  rewrite E1, E2, E3, E4. split; [|split; [|split]]; try assumption.
  - intros id b. rewrite Hh. apply I1.
  - intros b. rewrite Hh. apply I2.
Qed.

Lemma allocate_sound fuel mm bs cs n :
  0 <= n -> n + H < size_t_modulus -> consistent H mm bs cs -> accounted H mm bs ->
  (length cs < fuel)%nat -> nextBlockId mm + 1 < size_t_modulus ->
  exists r mm' bs' cs',
    allocate H fuel mm n = Some (r, mm')
    /\ consistent H mm' bs' cs' /\ accounted H mm' bs'
    /\ (length bs' <= S (length bs))%nat
    /\ nextBlockId mm <= nextBlockId mm' <= nextBlockId mm + 1.
Proof.
  intros Hn0 Hn1 Hcon Hacc Hfuel Hid. unfold allocate.
  destruct (Z.eqb_spec n 0) as [|Hnz].
  { exists None, (count_failure mm), bs, cs. split; [reflexivity|].
    split; [apply (consistent_ext H mm); auto|]. split; [apply (accounted_ext mm); auto|].
    split; [lia|]. cbn. lia. }
  rewrite (wrap_small (n + H)) by lia.
  assert (Hcon1 : consistent H (add_requested mm n) bs cs)
    by (apply (consistent_ext H mm); auto).
  assert (Hacc1 : accounted H (add_requested mm n) bs)
    by (apply (accounted_ext mm); auto).
  change (nextBlockId mm) with (nextBlockId (add_requested mm n)) in Hid |- *.
  set (ma := add_requested mm n) in *. clearbody ma. clear Hcon Hacc.
  pose proof Hcon1 as ((Hok & Ht & Hl & Hex) & _).
  pose proof (linked_chain _ _ Hl) as Hchain.
  destruct (find_block_total fuel ma cs (n + H) Hchain Hfuel) as [w Hw]. rewrite Hw.
  destruct w as [b|].
  - apply find_block_sound in Hw as [Hon Hfit].
    pose proof (chain_on_list _ _ _ _ Hchain Hon) as Hb.
    unfold fits in Hfit. apply andb_true_iff in Hfit as [_ Hsz]. apply Z.leb_le in Hsz.
    destruct (claim_sound ma bs cs b n Hcon1 Hacc1 Hb) as (bs' & cs' & Hc' & Ha' & Hlen');
      [lia|lia|lia|lia|].
    destruct (claim_block_books H ma b n (n + H)) as (B1 & _).
    rewrite wrap_small in B1 by (destruct Hacc1 as (_ & _ & _ & ?); lia).
    exists (Some (b + H)), (claim_block H ma b n (n + H)), bs', cs'.
    split; [reflexivity|]. split; [exact Hc'|]. split; [exact Ha'|]. split; [exact Hlen'|]. lia.
  - exists None, (count_failure ma), bs, cs. split; [reflexivity|].
    split; [apply (consistent_ext H ma); auto|]. split; [apply (accounted_ext ma); auto|].
    split; [lia|]. cbn. lia.
Qed.

Lemma deallocate_sound fuel mm bs cs r :
  consistent H mm bs cs -> accounted H mm bs ->
  (length bs <= S maxIterations_coalesce)%nat -> (2 <= fuel)%nat ->
  exists res mm' bs' cs',
    deallocate_ref H fuel mm r = Some (res, mm')
    /\ consistent H mm' bs' cs' /\ accounted H mm' bs'
    /\ (length bs' <= length bs)%nat /\ nextBlockId mm' = nextBlockId mm.
Proof.
  intros Hcon Hacc Hlen Hfuel.
  assert (Hptr : forall ptr, exists res mm' bs' cs',
            deallocate H fuel mm ptr = Some (res, mm')
            /\ consistent H mm' bs' cs' /\ accounted H mm' bs'
            /\ (length bs' <= length bs)%nat /\ nextBlockId mm' = nextBlockId mm).
  { intros ptr.
    assert (Hsame : exists res mm' bs' cs',
              Some (false, mm) = Some (res, mm')
              /\ consistent H mm' bs' cs' /\ accounted H mm' bs'
              /\ (length bs' <= length bs)%nat /\ nextBlockId mm' = nextBlockId mm).
    { exists false, mm, bs, cs. auto. }
    unfold deallocate.
    destruct (negb (isValidPointer mm ptr)); [exact Hsame|].
    unfold getHeader.
    destruct (addressToHeader mm !! ptr) as [b|] eqn:Hget; [|exact Hsame].
    destruct (is_free (header mm b)) eqn:Hb; [exact Hsame|].
    destruct fuel as [|[|fuel]]; [lia|lia|].
    destruct (release_sound fuel mm bs cs ptr b Hcon Hacc Hlen Hget Hb)
      as (mm' & bs' & cs' & Hc & Hcon' & Hacc' & Hlen').
    rewrite Hc. exists true, (untrack mm' ptr b), bs', cs'.
    split; [reflexivity|]. split; [exact Hcon'|]. split; [exact Hacc'|]. split; [exact Hlen'|].
    destruct (coalesceBlocks_kept _ _ _ _ Hc) as [(_ & _ & _ & k4 & _) _].
    destruct (mark_free_meta H mm b) as (M1 & _).
    cbn. now rewrite k4, M1. }
  destruct r as [ptr|id]; simpl; [apply Hptr|].
  unfold deallocate_id. destruct (idToHeader mm !! id) as [b|]; [apply Hptr|].
  exists false, mm, bs, cs. auto.
Qed.

Lemma serve_all_sound fuel rqs : forall mm bs cs (k : nat),
  consistent H mm bs cs -> accounted H mm bs -> (length bs <= k)%nat ->
  Forall (in_range H) rqs ->
  (k + length rqs <= S maxIterations_coalesce)%nat -> (k + length rqs < fuel)%nat ->
  (2 <= fuel)%nat -> nextBlockId mm + Z.of_nat (length rqs) < size_t_modulus ->
  exists mm' bs' cs',
    serve_all H fuel mm rqs = Some mm' /\ consistent H mm' bs' cs' /\ accounted H mm' bs'
    /\ (length bs' <= k + length rqs)%nat.
Proof.
  induction rqs as [|rq rest IH]; intros mm bs cs k Hcon Hacc Hk Hrange Hcap Hfuel H2 Hid.
  - exists mm, bs, cs. simpl. split; [reflexivity|]. split; [exact Hcon|].
    split; [exact Hacc|lia].
  - apply Forall_cons_iff in Hrange as [Hrq Hrange].
    cbn [length] in Hcap, Hfuel, Hid. cbn [serve_all].
    destruct rq as [n|r|s]; cbn [serve].
    + destruct Hrq as [Hn0 Hn1].
      pose proof (linked_length _ _ _ (proj1 Hcon)) as Hcs.
      destruct (allocate_sound fuel mm bs cs n Hn0 Hn1 Hcon Hacc)
        as (res & mm1 & bs1 & cs1 & -> & Hcon1 & Hacc1 & Hlen1 & Hid1); [lia|lia|]. simpl.
      destruct (IH mm1 bs1 cs1 (S k) Hcon1 Hacc1)
        as (mm' & bs' & cs' & E & Hcon' & Hacc' & Hlen');
        [lia|exact Hrange|lia|lia|exact H2|lia|].
      exists mm', bs', cs'. split; [exact E|]. split; [exact Hcon'|]. split; [exact Hacc'|lia].
    + destruct (deallocate_sound fuel mm bs cs r Hcon Hacc)
        as (res & mm1 & bs1 & cs1 & -> & Hcon1 & Hacc1 & Hlen1 & Hid1); [lia|exact H2|]. simpl.
      destruct (IH mm1 bs1 cs1 k Hcon1 Hacc1)
        as (mm' & bs' & cs' & E & Hcon' & Hacc' & Hlen');
        [lia|exact Hrange|lia|lia|exact H2|lia|].
      exists mm', bs', cs'. split; [exact E|]. split; [exact Hcon'|]. split; [exact Hacc'|lia].
    + destruct (IH (setAllocationStrategy mm s) bs cs k)
        as (mm' & bs' & cs' & E & Hcon' & Hacc' & Hlen');
        [apply (consistent_ext H mm); auto|apply (accounted_ext mm); auto
        |exact Hk|exact Hrange|lia|lia|exact H2|cbn; lia|].
      exists mm', bs', cs'. split; [exact E|]. split; [exact Hcon'|]. split; [exact Hacc'|].
      cbn [length]. lia.
Qed.

(** The states of a session of at most 10000 requests on a fresh arena. *)
Lemma session_sound total s rqs fuel :
  0 < total < size_t_modulus -> Forall (in_range H) rqs ->
  (length rqs <= maxIterations_coalesce)%nat -> (length rqs + 2 <= fuel)%nat ->
  exists mm bs cs,
    serve_all H fuel (new_MemoryManager total s) rqs = Some mm
    /\ consistent H mm bs cs /\ accounted H mm bs
    /\ (length bs <= S maxIterations_coalesce)%nat.
Proof.
  intros Ht Hr Hlen Hfuel.
  destruct (serve_all_sound fuel rqs (new_MemoryManager total s) [0] [0] 1)
    as (mm & bs & cs & E & Hcon & Hacc & Hbs).
  - now apply new_MemoryManager_consistent.
  - apply new_MemoryManager_accounted.
  - simpl. lia.
  - exact Hr.
  - lia.
  - lia.
  - lia.
  - cbn [nextBlockId new_MemoryManager].
    assert (Hcap : Z.of_nat maxIterations_coalesce = 10000) by (vm_compute; reflexivity).
    rewrite size_t_modulus_eq. lia.
  - exists mm, bs, cs. split; [exact E|]. split; [exact Hcon|]. split; [exact Hacc|lia].
Qed.

End Accounting.

Lemma best_fold_above mm sz b l : forall best,
  (forall x, best = Some x -> size (header mm b) < size (header mm x)) ->
  (forall c, In c l -> fits mm sz c = true -> size (header mm b) < size (header mm c)) ->
  forall x, fold_left (best_step mm sz) l best = Some x ->
            size (header mm b) < size (header mm x).
Proof.
  induction l as [|c l IH]; intros best Hbest Hl x; simpl; [apply Hbest|].
  apply IH.
  - intros y. unfold best_step. destruct (fits mm sz c) eqn:Hc; simpl.
    + destruct (better mm best c); [|apply Hbest].
      intros [= <-]. apply Hl; [now left|exact Hc].
    + apply Hbest.
  - intros d Hd. apply Hl. now right.
Qed.

Lemma best_fold_keeps mm sz b l :
  (forall c, In c l -> fits mm sz c = true -> size (header mm b) <= size (header mm c)) ->
  fold_left (best_step mm sz) l (Some b) = Some b.
Proof.
  induction l as [|c l IH]; intros Hl; simpl; [reflexivity|].
  replace (best_step mm sz (Some b) c) with (Some b); [apply IH; intros d Hd; apply Hl; now right|].
  unfold best_step. destruct (fits mm sz c) eqn:Hc; simpl; [|reflexivity].
  pose proof (Hl c (or_introl eq_refl) Hc) as Hle.
  destruct (Z.ltb_spec (size (header mm c)) (size (header mm b))); [lia|reflexivity].
Qed.

Lemma best_of_first_smallest mm sz l1 b l2 :
  fits mm sz b = true ->
  (forall c, In c l1 -> fits mm sz c = true -> size (header mm b) < size (header mm c)) ->
  (forall c, In c l2 -> fits mm sz c = true -> size (header mm b) <= size (header mm c)) ->
  best_of mm sz (l1 ++ b :: l2) = Some b.
Proof.
  intros Hb H1 H2. unfold best_of. rewrite fold_left_app. cbn [fold_left].
  pose proof (best_fold_above mm sz b l1 None (fun x E => ltac:(discriminate)) H1) as Ha.
  replace (best_step mm sz (fold_left (best_step mm sz) l1 None) b) with (Some b);
    [now apply best_fold_keeps|].
  set (r := fold_left (best_step mm sz) l1 None) in *. clearbody r.
  unfold best_step. rewrite Hb. simpl.
  destruct r as [x|]; simpl; [|reflexivity].
  specialize (Ha x eq_refl).
  destruct (Z.ltb_spec (size (header mm b)) (size (header mm x))); [reflexivity|lia].
Qed.

Lemma worst_fold_below mm sz b l : forall worst,
  (forall x, worst = Some x -> size (header mm x) < size (header mm b)) ->
  (forall c, In c l -> fits mm sz c = true -> size (header mm c) < size (header mm b)) ->
  forall x, fold_left (worst_step mm sz) l worst = Some x ->
            size (header mm x) < size (header mm b).
Proof.
  induction l as [|c l IH]; intros worst Hworst Hl x; simpl; [apply Hworst|].
  apply IH.
  - intros y. unfold worst_step. destruct (fits mm sz c) eqn:Hc; simpl.
    + destruct (worse mm worst c); [|apply Hworst].
      intros [= <-]. apply Hl; [now left|exact Hc].
    + apply Hworst.
  - intros d Hd. apply Hl. now right.
Qed.

Lemma worst_fold_keeps mm sz b l :
  (forall c, In c l -> fits mm sz c = true -> size (header mm c) <= size (header mm b)) ->
  fold_left (worst_step mm sz) l (Some b) = Some b.
Proof.
  induction l as [|c l IH]; intros Hl; simpl; [reflexivity|].
  replace (worst_step mm sz (Some b) c) with (Some b); [apply IH; intros d Hd; apply Hl; now right|].
  unfold worst_step. destruct (fits mm sz c) eqn:Hc; simpl; [|reflexivity].
  pose proof (Hl c (or_introl eq_refl) Hc) as Hle.
  destruct (Z.ltb_spec (size (header mm b)) (size (header mm c))); [lia|reflexivity].
Qed.

Lemma worst_of_first_largest mm sz l1 b l2 :
  fits mm sz b = true ->
  (forall c, In c l1 -> fits mm sz c = true -> size (header mm c) < size (header mm b)) ->
  (forall c, In c l2 -> fits mm sz c = true -> size (header mm c) <= size (header mm b)) ->
  worst_of mm sz (l1 ++ b :: l2) = Some b.
Proof.
  intros Hb H1 H2. unfold worst_of. rewrite fold_left_app. cbn [fold_left].
  pose proof (worst_fold_below mm sz b l1 None (fun x E => ltac:(discriminate)) H1) as Ha.
  replace (worst_step mm sz (fold_left (worst_step mm sz) l1 None) b) with (Some b);
    [now apply worst_fold_keeps|].
  set (r := fold_left (worst_step mm sz) l1 None) in *. clearbody r.
  unfold worst_step. rewrite Hb. simpl.
  destruct r as [x|]; simpl; [|reflexivity].
  specialize (Ha x eq_refl).
  destruct (Z.ltb_spec (size (header mm x)) (size (header mm b))); [reflexivity|lia].
Qed.

(** [allocate] on a manager whose placement search walks the list [cs] to
    its end. *)
Lemma allocate_by_search H fuel mm cs n :
  chain mm (freeListHead mm) cs -> (length cs < fuel)%nat ->
  (length cs <= maxIterations_findBestFit)%nat -> n <> 0 ->
  allocate H fuel mm n
  = Some match (match currentStrategy mm with
                | FIRST_FIT => List.find (fits mm (wrap (n + H))) cs
                | BEST_FIT => best_of mm (wrap (n + H)) cs
                | WORST_FIT => worst_of mm (wrap (n + H)) cs
                end) with
         | Some b => (Some (b + H), claim_block H (add_requested mm n) b n (wrap (n + H)))
         | None => (None, count_failure (add_requested mm n))
         end.
Proof.
  intros Hc Hlen Hcap Hn. unfold allocate.
  destruct (Z.eqb_spec n 0) as [|_]; [contradiction|].
  assert (Hc' : chain (add_requested mm n) (freeListHead (add_requested mm n)) cs).
  { apply (chain_ext mm); auto. }
  rewrite (find_block_spec fuel (add_requested mm n) cs (wrap (n + H)) Hc' Hlen Hcap).
  change (currentStrategy (add_requested mm n)) with (currentStrategy mm).
  change (fits (add_requested mm n)) with (fits mm).
  change (best_of (add_requested mm n)) with (best_of mm).
  change (worst_of (add_requested mm n)) with (worst_of mm).
  destruct (currentStrategy mm);
    match goal with |- context [match ?x with Some _ => _ | None => _ end] =>
      destruct x; reflexivity end.
Qed.

(** X7: under best fit, a request is served from the node of the free
    list that fits and is smaller than every fitting node before it and no
    larger than every fitting node after it: the first of the smallest
    fitting nodes, for lists of at most 10000 nodes. *)
Theorem best_fit_takes_first_smallest H fuel mm l1 b l2 n :
  currentStrategy mm = BEST_FIT ->
  chain mm (freeListHead mm) (l1 ++ b :: l2) ->
  (length (l1 ++ b :: l2) < fuel)%nat ->
  (length (l1 ++ b :: l2) <= maxIterations_findBestFit)%nat ->
  n <> 0 ->
  fits mm (wrap (n + H)) b = true ->
  (forall c, In c l1 -> fits mm (wrap (n + H)) c = true ->
             size (header mm b) < size (header mm c)) ->
  (forall c, In c l2 -> fits mm (wrap (n + H)) c = true ->
             size (header mm b) <= size (header mm c)) ->
  allocate H fuel mm n
  = Some (Some (b + H), claim_block H (add_requested mm n) b n (wrap (n + H))).
Proof.
  intros Hs Hc Hlen Hcap Hn Hb H1 H2.
  rewrite (allocate_by_search H fuel mm _ n Hc Hlen Hcap Hn), Hs.
  now rewrite (best_of_first_smallest mm _ l1 b l2 Hb H1 H2).
Qed.

Lemma best_fit_takes_first_smallest_witness :
  allocate 32 8 (setAllocationStrategy (holes 32) BEST_FIT) 50
  = Some (Some (0 + 32),
          claim_block 32 (add_requested (setAllocationStrategy (holes 32) BEST_FIT) 50)
            0 50 (wrap (50 + 32))).
Proof.
  apply (best_fit_takes_first_smallest 32 8 (setAllocationStrategy (holes 32) BEST_FIT)
           [264] 0 [] 50).
  - reflexivity.
  - apply (chain_of_sound 8). vm_compute. reflexivity.
  - simpl. lia.
  - apply Nat2Z.inj_le. vm_compute. discriminate.
  - lia.
  - vm_compute. reflexivity.
  - intros c [<-|[]] _. vm_compute. reflexivity.
  - intros c [].
Defined.

(** X8: under worst fit, a request is served from the node of the free
    list that fits and is larger than every fitting node before it and no
    smaller than every fitting node after it: the first of the largest
    fitting nodes. *)
Theorem worst_fit_takes_first_largest H fuel mm l1 b l2 n :
  currentStrategy mm = WORST_FIT ->
  chain mm (freeListHead mm) (l1 ++ b :: l2) ->
  (length (l1 ++ b :: l2) < fuel)%nat ->
  n <> 0 ->
  fits mm (wrap (n + H)) b = true ->
  (forall c, In c l1 -> fits mm (wrap (n + H)) c = true ->
             size (header mm c) < size (header mm b)) ->
  (forall c, In c l2 -> fits mm (wrap (n + H)) c = true ->
             size (header mm c) <= size (header mm b)) ->
  allocate H fuel mm n
  = Some (Some (b + H), claim_block H (add_requested mm n) b n (wrap (n + H))).
Proof.
  intros Hs Hc Hlen Hn Hb H1 H2. unfold allocate.
  destruct (Z.eqb_spec n 0) as [|_]; [contradiction|].
  unfold find_block. change (currentStrategy (add_requested mm n)) with (currentStrategy mm).
  rewrite Hs. unfold findWorstFit.
  assert (Hc' : chain (add_requested mm n) (freeListHead (add_requested mm n)) (l1 ++ b :: l2)).
  { apply (chain_ext mm); auto. }
  rewrite (findWorstFit_loop_spec _ _ _ _ _ _ Hc' Hlen).
  change (worst_step (add_requested mm n)) with (worst_step mm).
  fold (worst_of mm (wrap (n + H)) (l1 ++ b :: l2)).
  now rewrite (worst_of_first_largest mm _ l1 b l2 Hb H1 H2).
Qed.

Lemma worst_fit_takes_first_largest_witness :
  allocate 32 8 (setAllocationStrategy (holes 32) WORST_FIT) 50
  = Some (Some (264 + 32),
          claim_block 32 (add_requested (setAllocationStrategy (holes 32) WORST_FIT) 50)
            264 50 (wrap (50 + 32))).
Proof.
  apply (worst_fit_takes_first_largest 32 8 (setAllocationStrategy (holes 32) WORST_FIT)
           [] 264 [0] 50).
  - reflexivity.
  - apply (chain_of_sound 8). vm_compute. reflexivity.
  - simpl. lia.
  - lia.
  - vm_compute. reflexivity.
  - intros c [].
  - intros c [<-|[]] _. vm_compute. discriminate.
Defined.

Lemma placement_none mm sz cs s :
  match s with
  | FIRST_FIT => List.find (fits mm sz) cs
  | BEST_FIT => best_of mm sz cs
  | WORST_FIT => worst_of mm sz cs
  end = None
  <-> forall c, In c cs -> fits mm sz c = false.
Proof.
  destruct s.
  - split.
    + intros Hf c Hc. exact (find_none _ _ Hf c Hc).
    + intros Hall. destruct (List.find (fits mm sz) cs) as [b|] eqn:Hf; [|reflexivity].
      apply find_some in Hf as [Hin Hfit]. rewrite (Hall b Hin) in Hfit. discriminate.
  - destruct (best_of_spec mm sz cs) as [[E Hall]|(l1 & b & l2 & -> & E & Hb & _)].
    + split; auto.
    + split; [rewrite E; discriminate|].
      intros Hall. rewrite (Hall b) in Hb; [discriminate|]. apply in_elt.
  - destruct (worst_of_spec mm sz cs) as [[E Hall]|(l1 & b & l2 & -> & E & Hb & _)].
    + split; auto.
    + split; [rewrite E; discriminate|].
      intros Hall. rewrite (Hall b) in Hb; [discriminate|]. apply in_elt.
Qed.



#[local] Instance key_le_total : Total key_le.
Proof. intros x y. unfold key_le. lia. Qed.

#[local] Instance key_le_trans : Transitive key_le.
Proof. intros x y z. unfold key_le. lia. Qed.

Lemma in_key_order_perm (m : gmap Z Z) : in_key_order m ≡ₚ map_to_list m.
Proof. apply merge_sort_Permutation. Qed.

Lemma in_key_order_sorted (m : gmap Z Z) : StronglySorted key_le (in_key_order m).
Proof. apply StronglySorted_merge_sort; apply _. Qed.

Lemma in_key_order_lookup (m : gmap Z Z) id b :
  In (id, b) (in_key_order m) <-> m !! id = Some b.
Proof.
  rewrite <- list_elem_of_In, in_key_order_perm. apply elem_of_map_to_list.
Qed.

Lemma total_of_perm f l l' : l ≡ₚ l' -> total_of f l = total_of f l'.
Proof. induction 1; simpl; lia. Qed.

Lemma total_of_app f l l' : total_of f (l ++ l') = total_of f l + total_of f l'.
Proof. induction l; simpl; lia. Qed.

Lemma total_of_nonneg f l : (forall x, In x l -> 0 <= f x) -> 0 <= total_of f l.
Proof.
  induction l as [|x l IH]; intros Hf; simpl; [lia|].
  pose proof (Hf x (or_introl eq_refl)). assert (0 <= total_of f l) by (apply IH; intros; apply Hf; now right). lia.
Qed.

Lemma tiles_total mm o bs e :
  tiles mm o bs e -> o + total_of (fun b => size (header mm b)) bs = e.
Proof. induction 1; simpl; lia. Qed.

Lemma used_free_split mm bs :
  total_of (used_size mm) bs + total_of (free_size mm) bs
  = total_of (fun b => size (header mm b)) bs.
Proof.
  induction bs as [|b bs IH]; simpl; [reflexivity|].
  unfold used_size at 1, free_size at 1. destruct (is_free (header mm b)); lia.
Qed.

(** The blocks [idToHeader] leads to are the allocated blocks of the tiling,
    each once. *)
Lemma tracked_blocks H mm bs :
  List.NoDup bs -> accounted H mm bs ->
  (map_to_list (idToHeader mm)).*2
  ≡ₚ List.filter (fun b => negb (is_free (header mm b))) bs.
Proof.
  intros Hnd (I1 & I2 & _). apply NoDup_Permutation.
  - apply NoDup_fmap_2_strong; [|apply NoDup_map_to_list].
    intros [i b] [j c] Hi Hj Hbc. simpl in Hbc. subst c.
    apply elem_of_map_to_list in Hi, Hj.
    destruct (I1 i b Hi) as (_ & _ & <- & _). destruct (I1 j b Hj) as (_ & _ & <- & _).
    reflexivity.
  - apply NoDup_ListNoDup. apply List.NoDup_filter. exact Hnd.
  - intros b. rewrite list_elem_of_fmap, list_elem_of_In, filter_In. split.
    + intros ([i c] & -> & Hi). simpl. apply elem_of_map_to_list in Hi.
      destruct (I1 i c Hi) as (Hin & Hfree & _). rewrite Hfree. auto.
    + intros [Hin Hfree]. apply negb_true_iff in Hfree.
      destruct (I2 b Hin Hfree) as (Hlk & _).
      exists (block_id (header mm b), b). split; [reflexivity|].
      now apply elem_of_map_to_list.
Qed.

Lemma total_of_filter_used mm bs :
  total_of (fun b => size (header mm b))
    (List.filter (fun b => negb (is_free (header mm b))) bs)
  = total_of (used_size mm) bs.
Proof.
  induction bs as [|b bs IH]; simpl; [reflexivity|].
  unfold used_size at 1. destruct (is_free (header mm b)); simpl; lia.
Qed.

Lemma used_fold mm (l : list (Z * Z)) : forall acc,
  (forall p, In p l -> is_free (header mm (snd p)) = false) ->
  0 <= acc < size_t_modulus ->
  fold_left (used_step mm) l acc
  = wrap (acc + total_of (fun b => size (header mm b)) (l.*2)).
Proof.
  induction l as [|p l IH]; intros acc Hl Hacc.
  - simpl. rewrite Z.add_0_r. symmetry. now apply wrap_small.
  - cbn [fold_left]. rewrite IH; [|intros q Hq; apply Hl; now right|].
    + unfold used_step. rewrite (Hl p (or_introl eq_refl)). cbn [negb fmap list_fmap].
      unfold wrap. rewrite Zplus_mod_idemp_l. f_equal. simpl. lia.
    + unfold used_step. rewrite (Hl p (or_introl eq_refl)). cbn [negb]. apply wrap_range.
Qed.

Section Counting.

Variable H : Z.

Lemma claim_block_total mm b n r :
  totalMemorySize (claim_block H mm b n r) = totalMemorySize mm.
Proof.
  unfold claim_block.
  destruct (maybe_split_meta H mm b r) as ((s1 & _) & _).
  destruct (track_spec H (mark_allocated (maybe_split H mm b r) b) b n) as (-> & _).
  unfold mark_allocated. cbv zeta.
  match goal with |- context [removeFromFreeList ?X b] =>
    destruct (removeFromFreeList_kept X b) as (-> & _) end.
  exact s1.
Qed.

Lemma serve_counts fuel mm rq mm' :
  serve H fuel mm rq = Some mm' ->
  totalMemorySize mm' = totalMemorySize mm
  /\ if is_malloc rq then
       (allocationSuccessCount mm' = wrap (allocationSuccessCount mm + 1)
        /\ allocationFailureCount mm' = allocationFailureCount mm
        /\ nextBlockId mm' = wrap (nextBlockId mm + 1))
       \/ (allocationSuccessCount mm' = allocationSuccessCount mm
           /\ allocationFailureCount mm' = wrap (allocationFailureCount mm + 1)
           /\ nextBlockId mm' = nextBlockId mm)
     else allocationSuccessCount mm' = allocationSuccessCount mm
          /\ allocationFailureCount mm' = allocationFailureCount mm
          /\ nextBlockId mm' = nextBlockId mm.
Proof.
  destruct rq as [n|r|s]; cbn [serve is_malloc].
  - destruct (allocate H fuel mm n) as [[[ptr|] m1]|] eqn:E; [| |discriminate];
      intros [= <-].
    + apply allocate_found in E as (_ & _ & ->).
      destruct (claim_block_books H (add_requested mm n) (ptr - H) n (wrap (n + H)))
        as (B1 & _ & _ & _ & B5 & B6 & _).
      split; [now rewrite claim_block_total|]. left. auto.
    + apply allocate_failure_spec in E
        as (_ & F1 & _ & _ & _ & F5 & _ & _ & _ & F9 & F10).
      split; [exact F1|]. right. auto.
  - assert (Hptr : forall ptr res m1, deallocate H fuel mm ptr = Some (res, m1) ->
              totalMemorySize m1 = totalMemorySize mm
              /\ allocationSuccessCount m1 = allocationSuccessCount mm
              /\ allocationFailureCount m1 = allocationFailureCount mm
              /\ nextBlockId m1 = nextBlockId mm).
    { intros ptr res m1 E. apply deallocate_spec in E. destruct res.
      - destruct E as (b & _ & _ & _ & (D1 & _ & _ & D4 & D5 & D6 & _) & _). auto.
      - destruct E as [-> _]. auto. }
    destruct (deallocate_ref H fuel mm r) as [[res m1]|] eqn:E; [|discriminate].
    intros [= <-]. destruct r as [ptr|id]; cbn [deallocate_ref] in E.
    + apply Hptr in E. tauto.
    + unfold deallocate_id in E. destruct (idToHeader mm !! id).
      * apply Hptr in E. tauto.
      * injection E as _ <-. auto.
  - intros [= <-]. auto.
Qed.

Lemma serve_all_counts fuel rqs : forall mm mm' (k : nat),
  serve_all H fuel mm rqs = Some mm' ->
  0 <= allocationSuccessCount mm -> 0 <= allocationFailureCount mm ->
  allocationSuccessCount mm + allocationFailureCount mm = Z.of_nat k ->
  nextBlockId mm = allocationSuccessCount mm + 1 ->
  Z.of_nat (k + mallocs rqs) + 1 < size_t_modulus ->
  totalMemorySize mm' = totalMemorySize mm
  /\ 0 <= allocationSuccessCount mm' /\ 0 <= allocationFailureCount mm'
  /\ allocationSuccessCount mm' + allocationFailureCount mm' = Z.of_nat (k + mallocs rqs)
  /\ nextBlockId mm' = allocationSuccessCount mm' + 1.
Proof.
  induction rqs as [|rq rest IH]; intros mm mm' k E H0 H1 Hk Hid Hcap.
  - injection E as <-. unfold mallocs. simpl. rewrite Nat.add_0_r. auto.
  - cbn [serve_all] in E. destruct (serve H fuel mm rq) as [m1|] eqn:E1; [|discriminate].
    cbn in E. apply serve_counts in E1 as [T E1].
    unfold mallocs in *. cbn [List.filter] in *.
    destruct (is_malloc rq); cbn [length] in *.
    + assert (Hs : 0 <= allocationSuccessCount m1 /\ 0 <= allocationFailureCount m1
                   /\ allocationSuccessCount m1 + allocationFailureCount m1 = Z.of_nat (S k)
                   /\ nextBlockId m1 = allocationSuccessCount m1 + 1).
      { destruct E1 as [(-> & -> & ->)|(-> & -> & ->)];
          rewrite !wrap_small by lia; lia. }
      destruct Hs as (S0 & S1 & Sk & Sid).
      destruct (IH m1 mm' (S k) E S0 S1 Sk Sid) as (T' & R); [lia|].
      split; [congruence|]. replace (k + S (length (List.filter is_malloc rest)))%nat
        with (S k + length (List.filter is_malloc rest))%nat by lia. exact R.
    + destruct E1 as (Es & Ef & Eid).
      destruct (IH m1 mm' k E) as (T' & R); [lia|lia|lia|lia|lia|].
      split; [congruence|exact R].
Qed.

End Counting.

Lemma tiles_disjoint mm o bs e :
  tiles mm o bs e ->
  forall x y, In x bs -> In y bs -> x <> y ->
    x + size (header mm x) <= y \/ y + size (header mm y) <= x.
Proof.
  induction 1 as [|o bs e Hpos Ht IH]; intros x y Hx Hy Hxy; [destruct Hx|].
  pose proof (tiles_bounds _ _ _ _ Ht) as [_ Hb].
  destruct Hx as [<-|Hx], Hy as [<-|Hy].
  - contradiction.
  - left. apply Hb in Hy. lia.
  - right. apply Hb in Hx. lia.
  - now apply IH.
Qed.

Lemma adjacent_all_free fs :
  (forall f, In f fs -> f = true) -> adjacent fs = false -> (length fs <= 1)%nat.
Proof.
  destruct fs as [|f1 [|f2 fs]]; simpl; intros Hall Hadj; try lia.
  rewrite (Hall f1), (Hall f2) in Hadj by auto. discriminate.
Qed.

Lemma largest_fold vs r : forall acc,
  r <= fold_left largest_step vs acc
  <-> r <= acc \/ exists o sz, In (o, sz, true) vs /\ r <= sz.
Proof.
  induction vs as [|[[o sz] f] vs IH]; intros acc; simpl.
  - split; [auto|]. intros [?|(? & ? & [] & _)]. assumption.
  - rewrite IH. destruct f; simpl.
    + destruct (Z.ltb_spec acc sz).
      * split.
        -- intros [Hr|(o' & sz' & Hin & Hr)]; right; eauto 6.
        -- intros [Hr|(o' & sz' & [[= <- <-]|Hin] & Hr)]; [left; lia|now left|right; eauto].
      * split.
        -- intros [Hr|(o' & sz' & Hin & Hr)]; [now left|right; eauto 6].
        -- intros [Hr|(o' & sz' & [[= <- <-]|Hin] & Hr)]; [now left|left; lia|right; eauto].
    + split.
      * intros [Hr|(o' & sz' & Hin & Hr)]; [now left|right; eauto 6].
      * intros [Hr|(o' & sz' & [[=]|Hin] & Hr)]; [now left|right; eauto].
Qed.

Lemma sorted_strictly (l : list (Z * Z)) :
  StronglySorted key_le l -> NoDup (l.*1) ->
  StronglySorted (fun x y => fst x < fst y) l.
Proof.
  induction 1 as [|x l Hs IH Hall]; intros Hnd; constructor.
  - apply IH. now apply NoDup_cons_1_2 in Hnd.
  - apply NoDup_cons in Hnd as [Hx _]. apply Forall_forall. intros y Hy.
    pose proof (proj1 (Forall_forall _ _) Hall y Hy) as Hle. unfold key_le in Hle.
    assert (fst x <> fst y); [|lia].
    intros Heq. apply Hx. rewrite Heq. apply list_elem_of_fmap. eauto.
Qed.

Lemma sorted_map {A B} (R : A -> A -> Prop) (R' : B -> B -> Prop) (f : A -> B) l :
  (forall x y, In x l -> In y l -> R x y -> R' (f x) (f y)) ->
  StronglySorted R l -> StronglySorted R' (map f l).
Proof.
  intros Hf Hs. induction Hs as [|x l Hs IH Hall]; simpl; constructor.
  - apply IH. intros a b Ha Hb. apply Hf; now right.
  - apply Forall_forall. intros y Hy.
    apply list_elem_of_In, in_map_iff in Hy as (a & <- & Ha).
    apply Hf; [now left|now right|].
    apply (proj1 (Forall_forall _ _) Hall). now apply list_elem_of_In.
Qed.

Lemma total_of_le f g l :
  (forall x, In x l -> f x <= g x) -> total_of f l <= total_of g l.
Proof.
  induction l as [|x l IH]; intros Hfg; simpl; [lia|].
  pose proof (Hfg x (or_introl eq_refl)).
  assert (total_of f l <= total_of g l) by (apply IH; intros; apply Hfg; now right). lia.
Qed.

(** The loop of [getInternalFragmentation] over entries of allocated
    blocks with their requested sizes on record: no sum wraps, and each
    block wastes less than a header and eight bytes. *)
Lemma internal_fold H mm (l : list (Z * Z)) : forall a r,
  (forall p, In p l ->
     is_free (header mm (snd p)) = false
     /\ exists n, idToRequestedSize mm !! block_id (header mm (snd p)) = Some n
          /\ 0 < n /\ n + H <= size (header mm (snd p)) < n + H + (H + 8)) ->
  0 <= r <= a ->
  a + total_of (fun b => size (header mm b) - H) (l.*2) < size_t_modulus ->
  exists a' r',
    fold_left (internal_step H mm) l (a, r) = (a', r')
    /\ a' = a + total_of (fun b => size (header mm b) - H) (l.*2)
    /\ r + Z.of_nat (length l) <= r'
    /\ a - r <= a' - r' <= a - r + (H + 7) * Z.of_nat (length l).
Proof.
  induction l as [|p l IH]; intros a r Hl Hr Ha.
  - exists a, r. simpl. split; [reflexivity|]. lia.
  - destruct (Hl p (or_introl eq_refl)) as (Hf & n & Hn & Hn0 & Hsz).
    assert (Hrest : 0 <= total_of (fun b => size (header mm b) - H) (l.*2)).
    { apply total_of_nonneg. intros b Hb. apply in_map_iff in Hb as (q & <- & Hq).
      destruct (Hl q (or_intror Hq)) as (_ & m & _ & ? & ?). lia. }
    cbn [fmap list_fmap total_of fold_right] in Ha.
    fold (total_of (fun b => size (header mm b) - H) (l.*2)) in Ha.
    cbn [fold_left]. unfold internal_step at 2. rewrite Hf, Hn. cbn [negb fst snd].
    rewrite (wrap_small (size (header mm p.2) - H)) by lia.
    rewrite (wrap_small (a + _)) by lia. rewrite (wrap_small (r + n)) by lia.
    destruct (IH (a + (size (header mm p.2) - H)) (r + n)) as (a' & r' & E & Ea & Er & Ew).
    + intros q Hq. apply Hl. now right.
    + lia.
    + lia.
    + exists a', r'. split; [exact E|].
      cbn [fmap list_fmap total_of fold_right length].
      fold (total_of (fun b => size (header mm b) - H) (l.*2)).
      split; [lia|]. split; [lia|]. nia.
Qed.

Section SessionStates.

Variable H : Z.
Variable total : Z.
Variable s : AllocationStrategy.
Variable rqs : list Request.
Variable fuel : nat.

Hypothesis H_pos : 0 < H.
Hypothesis H_small : H + 8 < size_t_modulus.
Hypothesis total_range : 0 < total < size_t_modulus.
Hypothesis requests_in_range : Forall (in_range H) rqs.
Hypothesis session_length : (length rqs <= maxIterations_coalesce)%nat.
Hypothesis enough_fuel : (length rqs + 2 <= fuel)%nat.

(** The state a session ends in, with the invariants it satisfies. *)
Lemma session_state :
  exists mm bs cs,
    serve_all H fuel (new_MemoryManager total s) rqs = Some mm
    /\ consistent H mm bs cs /\ accounted H mm bs
    /\ (length bs <= S (length rqs))%nat
    /\ totalMemorySize mm = total
    /\ allocationSuccessCount mm + allocationFailureCount mm = Z.of_nat (mallocs rqs)
    /\ nextBlockId mm = allocationSuccessCount mm + 1.
Proof.
  destruct (serve_all_sound H H_pos H_small fuel rqs (new_MemoryManager total s) [0] [0] 1)
    as (mm & bs & cs & E & Hcon & Hacc & Hbs).
  - now apply new_MemoryManager_consistent.
  - apply new_MemoryManager_accounted.
  - simpl. lia.
  - exact requests_in_range.
  - lia.
  - lia.
  - lia.
  - cbn [nextBlockId new_MemoryManager].
    assert (Hcap : Z.of_nat maxIterations_coalesce = 10000) by (vm_compute; reflexivity).
    rewrite size_t_modulus_eq. lia.
  - exists mm, bs, cs. split; [exact E|]. split; [exact Hcon|]. split; [exact Hacc|].
    split; [lia|].
    destruct (serve_all_counts H fuel rqs (new_MemoryManager total s) mm 0 E)
      as (T & _ & _ & C & N).
    + cbn. lia.
    + cbn. lia.
    + reflexivity.
    + reflexivity.
    + assert (Hcap : Z.of_nat maxIterations_coalesce = 10000) by (vm_compute; reflexivity).
      assert (mallocs rqs <= length rqs)%nat by apply filter_length_le.
      rewrite size_t_modulus_eq. lia.
    + split; [exact T|]. split; [exact C|exact N].
Qed.








(** X6: when such a session ends with no block allocated, the arena is a
    single free block of the full size again, whatever was allocated and
    released on the way. *)
Theorem all_released_leaves_one_block mm :
  serve_all H fuel (new_MemoryManager total s) rqs = Some mm ->
  idToHeader mm = ∅ ->
  layout mm [0] /\ view mm 0 = (0, total, true).
Proof.
  intros Eq Hnone.
  destruct session_state as (mm0 & bs & cs & E & Hcon & Hacc & _ & T & _).
  rewrite Eq in E. injection E as <-.
  destruct Hcon as ((_ & Hlay & _) & Hadj & _). destruct Hacc as (_ & I2 & _).
  assert (Hfree : forall b, In b bs -> is_free (header mm b) = true).
  { intros b Hin. destruct (is_free (header mm b)) eqn:Hf; [reflexivity|].
    destruct (I2 b Hin Hf) as (Hlk & _). rewrite Hnone, lookup_empty in Hlk. discriminate. }
  unfold no_adjacent_free in Hadj. rewrite adjacent_free_flags in Hadj.
  assert (Hlen : (length (flags mm bs) <= 1)%nat).
  { apply adjacent_all_free; [|exact Hadj]. intros f Hf. unfold flags in Hf.
    apply in_map_iff in Hf as (b & <- & Hin). now apply Hfree. }
  unfold flags in Hlen. rewrite length_map in Hlen.
  unfold layout in Hlay. destruct bs as [|x [|y bs]]; [| |simpl in Hlen; lia].
  - apply tiles_nil_inv in Hlay. lia.
  - pose proof (Hfree x (or_introl eq_refl)) as Hx.
    apply tiles_cons_inv in Hlay as (-> & Hpos & Hrest). apply tiles_nil_inv in Hrest.
    split.
    + unfold layout. constructor; [exact Hpos|]. rewrite Hrest. constructor.
    + unfold view. rewrite Hx. f_equal. f_equal. lia.
Qed.





End SessionStates.

(** The side conditions of the session theorems, on [short_session] with a
    header of 32 bytes in an arena of 4096 bytes. *)
Ltac short_session_ok :=
  first
    [ lia
    | rewrite size_t_modulus_eq; lia
    | unfold short_session; repeat first [apply List.Forall_nil | apply List.Forall_cons];
      cbn; rewrite ?size_t_modulus_eq; first [lia | exact I]
    | apply Nat2Z.inj_le; vm_compute; discriminate
    | apply Nat2Z.inj_lt; vm_compute; reflexivity ].








Lemma all_released_leaves_one_block_witness :
  layout (served 32 emptied_session) [0]
  /\ view (served 32 emptied_session) 0 = (0, 4096, true).
Proof.
  apply (all_released_leaves_one_block 32 4096 FIRST_FIT emptied_session 8);
    first [short_session_ok
          | unfold emptied_session;
            repeat first [apply List.Forall_nil | apply List.Forall_cons];
            cbn; rewrite ?size_t_modulus_eq; first [lia | exact I]
          | vm_compute; reflexivity].
Defined.





End AllocatorFacts.

(** ** The command line *)
Module CommandLineFacts.
Import Allocator AllocatorFacts CLI Sessions.

#[local] Opaque maxIterations_coalesce maxIterations_findBestFit maxIterations_walk.

Section CommandLine.

Variable H : Z.
Hypothesis H_pos : 0 < H.
Hypothesis H_small : H + 8 < size_t_modulus.

Lemma handleMalloc_in_step fuel cli bs cs n :
  0 <= n -> n + H < size_t_modulus ->
  consistent H (memoryManager cli) bs cs -> accounted H (memoryManager cli) bs ->
  in_step H cli ->
  (length cs < fuel)%nat -> Allocator.nextBlockId (memoryManager cli) + 1 < size_t_modulus ->
  exists out cli' bs' cs',
    handleMalloc H fuel cli n = Some (out, cli')
    /\ consistent H (memoryManager cli') bs' cs' /\ accounted H (memoryManager cli') bs'
    /\ in_step H cli'
    /\ (length bs' <= S (length bs))%nat
    /\ Allocator.nextBlockId (memoryManager cli')
       <= Allocator.nextBlockId (memoryManager cli) + 1.
Proof.
  intros Hn0 Hn1 Hcon Hacc (Hid & Hmap) Hfuel Hnext. unfold handleMalloc.
  destruct (allocate_sound H H_pos H_small fuel (memoryManager cli) bs cs n
              Hn0 Hn1 Hcon Hacc Hfuel Hnext)
    as (res & mm' & bs' & cs' & E & Hcon' & Hacc' & Hlen' & Hid').
  rewrite E. destruct res as [ptr|].
  - eexists _, _, bs', cs'. split; [reflexivity|]. cbn [memoryManager].
    split; [exact Hcon'|]. split; [exact Hacc'|].
    apply allocate_found in E as (_ & _ & ->).
    destruct (claim_block_books H (add_requested (memoryManager cli) n) (ptr - H) n
                (wrap (n + H))) as (B1 & _ & B3 & _).
    change (Allocator.nextBlockId (add_requested (memoryManager cli) n))
      with (Allocator.nextBlockId (memoryManager cli)) in B1, B3.
    change (idToHeader (add_requested (memoryManager cli) n))
      with (idToHeader (memoryManager cli)) in B3.
    split; [|split; [exact Hlen'|lia]].
    split.
    + cbn [CLI.nextBlockId memoryManager]. now rewrite B1, Hid.
    + intros id p. cbn [blockIdToAddress memoryManager]. rewrite B3, Hid.
      rewrite lookup_insert_Some, Hmap. split.
      * intros [[<- <-]|[Hne (b & Hb & ->)]].
        -- exists (ptr - H). split; [|lia]. apply lookup_insert_Some. left. split; reflexivity.
        -- exists b. split; [|reflexivity]. apply lookup_insert_Some. right. split; assumption.
      * intros (b & Hb & ->). apply lookup_insert_Some in Hb as [[<- <-]|[Hne Hb]].
        -- left. split; [reflexivity|lia].
        -- right. split; [exact Hne|]. eauto.
  - eexists _, _, bs', cs'. split; [reflexivity|]. cbn [memoryManager].
    split; [exact Hcon'|]. split; [exact Hacc'|].
    apply allocate_failure_spec in E as (_ & _ & _ & _ & _ & F5 & _ & F7 & _).
    split; [|split; [exact Hlen'|lia]].
    split.
    + cbn [CLI.nextBlockId memoryManager]. now rewrite F5.
    + intros id p. cbn [blockIdToAddress memoryManager]. rewrite F7. apply Hmap.
Qed.

Lemma handleFree_in_step fuel cli bs cs id :
  consistent H (memoryManager cli) bs cs -> accounted H (memoryManager cli) bs ->
  in_step H cli ->
  (length bs <= S maxIterations_coalesce)%nat -> (2 <= fuel)%nat ->
  exists cli' bs' cs',
    handleFree H fuel cli id = Some (bool_decide (is_Some (blockIdToAddress cli !! id)), cli')
    /\ consistent H (memoryManager cli') bs' cs' /\ accounted H (memoryManager cli') bs'
    /\ in_step H cli'
    /\ (length bs' <= length bs)%nat
    /\ Allocator.nextBlockId (memoryManager cli') = Allocator.nextBlockId (memoryManager cli).
Proof.
  intros Hcon Hacc (Hid & Hmap) Hlen Hfuel. unfold handleFree.
  destruct (blockIdToAddress cli !! id) as [p|] eqn:Hp.
  2:{ exists cli, bs, cs. rewrite bool_decide_eq_false_2 by (intros [? ?]; discriminate).
      split; [reflexivity|]. split; [exact Hcon|]. split; [exact Hacc|].
      split; [split; assumption|]. split; [lia|reflexivity]. }
  rewrite bool_decide_eq_true_2 by eauto.
  apply Hmap in Hp as (b & Hb & ->).
  destruct (deallocate_sound H fuel (memoryManager cli) bs cs (ByPointer (b + H)) Hcon Hacc
              Hlen Hfuel) as (res & mm' & bs' & cs' & E & Hcon' & Hacc' & Hlen' & Hid').
  cbn [deallocate_ref] in E. rewrite E.
  pose proof (deallocate_spec H fuel _ _ _ _ E) as Hspec.
  pose proof Hacc as (I1 & I2 & _). destruct (I1 id b Hb) as (Hin & Hf & Hbid & _).
  destruct (I2 b Hin Hf) as (_ & Ha & n & _ & Hn0 & Hsz).
  destruct Hcon as ((Har & Hlay & Hl & Hex) & Hadj & Htr). unfold layout in Hlay.
  pose proof (tiles_bounds _ _ _ _ Hlay) as [_ Hbd]. destruct (Hbd b Hin) as (? & ? & ?).
  destruct res.
  - destruct Hspec as (b' & _ & Hg & _ & _ & _ & _ & Hi' & _).
    unfold getHeader in Hg. rewrite Ha in Hg. injection Hg as <-. rewrite Hbid in Hi'.
    eexists _, bs', cs'. split; [reflexivity|]. cbn [memoryManager].
    split; [exact Hcon'|]. split; [exact Hacc'|].
    split; [|split; [exact Hlen'|exact Hid']].
    split.
    + cbn [CLI.nextBlockId memoryManager]. now rewrite Hid', Hid.
    + intros id' p. cbn [blockIdToAddress memoryManager]. rewrite Hi'.
      rewrite lookup_delete_Some, Hmap. split.
      * intros [Hne (b0 & Hb0 & ->)]. exists b0. split; [|reflexivity].
        apply lookup_delete_Some. auto.
      * intros (b0 & Hb0 & ->). apply lookup_delete_Some in Hb0 as [Hne Hb0]. eauto.
  - exfalso. destruct Hspec as (_ & [Hv|[Hg|(b' & Hg & Hf')]]).
    + unfold isValidPointer in Hv. apply andb_false_iff in Hv as [Hv|Hv].
      * apply Z.leb_gt in Hv. lia.
      * apply Z.ltb_ge in Hv. lia.
    + unfold getHeader in Hg. congruence.
    + unfold getHeader in Hg. rewrite Ha in Hg. injection Hg as <-. congruence.
Qed.

Lemma execute_all_in_step fuel cmds : forall cli bs cs (k : nat),
  consistent H (memoryManager cli) bs cs -> accounted H (memoryManager cli) bs ->
  in_step H cli -> (length bs <= k)%nat ->
  Forall (command_in_range H) cmds ->
  (k + length cmds <= S maxIterations_coalesce)%nat -> (k + length cmds < fuel)%nat ->
  (2 <= fuel)%nat ->
  Allocator.nextBlockId (memoryManager cli) + Z.of_nat (length cmds) < size_t_modulus ->
  exists cli' bs' cs',
    execute_all H fuel cli cmds = Some cli'
    /\ consistent H (memoryManager cli') bs' cs' /\ accounted H (memoryManager cli') bs'
    /\ in_step H cli'
    /\ (length bs' <= S maxIterations_coalesce)%nat.
Proof.
  induction cmds as [|cmd rest IH];
    intros cli bs cs k Hcon Hacc Hstep Hk Hrange Hcap Hfuel H2 Hid.
  - exists cli, bs, cs. cbn [length] in Hcap. split; [reflexivity|].
    split; [exact Hcon|]. split; [exact Hacc|]. split; [exact Hstep|lia].
  - apply Forall_cons_iff in Hrange as [Hcmd Hrange].
    cbn [length] in Hcap, Hfuel, Hid. cbn [execute_all].
    assert (Hid' : Allocator.nextBlockId (memoryManager cli) + Z.of_nat (length rest)
                   < size_t_modulus) by lia.
    destruct cmd as [n|id|s]; cbn [execute].
    + destruct Hcmd as [Hn0 Hn1].
      pose proof (linked_length _ _ _ (proj1 Hcon)) as Hcs.
      destruct (handleMalloc_in_step fuel cli bs cs n Hn0 Hn1 Hcon Hacc Hstep)
        as (out & cli1 & bs1 & cs1 & -> & Hcon1 & Hacc1 & Hstep1 & Hlen1 & Hid1); [lia|lia|].
      simpl. apply (IH cli1 bs1 cs1 (S k));
        [exact Hcon1|exact Hacc1|exact Hstep1|lia|exact Hrange|lia|lia|exact H2|lia].
    + destruct (handleFree_in_step fuel cli bs cs id Hcon Hacc Hstep)
        as (cli1 & bs1 & cs1 & -> & Hcon1 & Hacc1 & Hstep1 & Hlen1 & Hid1); [lia|exact H2|].
      simpl. apply (IH cli1 bs1 cs1 k);
        [exact Hcon1|exact Hacc1|exact Hstep1|lia|exact Hrange|lia|lia|exact H2|lia].
    + apply (IH (handleSet cli s) bs cs k);
        [apply (consistent_ext H (memoryManager cli)); auto
        |apply (accounted_ext H (memoryManager cli)); auto
        |exact Hstep|exact Hk|exact Hrange|lia|lia|exact H2|exact Hid'].
Qed.

End CommandLine.

Section CommandSessions.

Variable H : Z.
Variable total : Z.
Variable cmds : list Command.
Variable fuel : nat.

Hypothesis H_pos : 0 < H.
Hypothesis H_small : H + 8 < size_t_modulus.
Hypothesis total_range : 0 < total < size_t_modulus.
Hypothesis commands_in_range : Forall (command_in_range H) cmds.
Hypothesis session_length : (length cmds <= maxIterations_coalesce)%nat.
Hypothesis enough_fuel : (length cmds + 2 <= fuel)%nat.


End CommandSessions.

Ltac short_commands_ok :=
  first
    [ lia
    | rewrite size_t_modulus_eq; lia
    | unfold short_commands; repeat first [apply List.Forall_nil | apply List.Forall_cons];
      cbn; rewrite ?size_t_modulus_eq; first [lia | exact I]
    | apply Nat2Z.inj_le; vm_compute; discriminate ].


End CommandLineFacts.

(** ** The statistics *)
Module StatsFacts.
Import Stats.

Lemma log_calls_counts calls : forall st (N : Z),
  0 <= N -> N + Z.of_nat (length calls) < size_t_modulus ->
  0 <= successfulAllocations st -> 0 <= failedAllocations st ->
  totalAllocations st = successfulAllocations st + failedAllocations st ->
  totalAllocations st <= N ->
  0 <= pageFaults st <= N -> 0 <= pageHits st <= N ->
  let st' := log_calls st calls in
  successfulAllocations st' = successfulAllocations st + count (is_allocation true) calls
  /\ failedAllocations st' = failedAllocations st + count (is_allocation false) calls
  /\ totalAllocations st' = successfulAllocations st' + failedAllocations st'
  /\ pageFaults st' = pageFaults st + count (is_page false) calls
  /\ pageHits st' = pageHits st + count (is_page true) calls.
Proof.
  unfold log_calls, count.
  induction calls as [|call calls IH]; intros st N HN Hlen Hs Hf Ht HtN Hpf Hph.
  - simpl. lia.
  - cbn [fold_left length List.filter] in *.
    assert (Hstep : 0 <= successfulAllocations (log_call st call)
                    /\ 0 <= failedAllocations (log_call st call)
                    /\ totalAllocations (log_call st call)
                       = successfulAllocations (log_call st call)
                         + failedAllocations (log_call st call)
                    /\ totalAllocations (log_call st call) <= N + 1
                    /\ 0 <= pageFaults (log_call st call) <= N + 1
                    /\ 0 <= pageHits (log_call st call) <= N + 1
                    /\ successfulAllocations (log_call st call)
                       = successfulAllocations st
                         + (if is_allocation true call then 1 else 0)
                    /\ failedAllocations (log_call st call)
                       = failedAllocations st
                         + (if is_allocation false call then 1 else 0)
                    /\ pageFaults (log_call st call)
                       = pageFaults st + (if is_page false call then 1 else 0)
                    /\ pageHits (log_call st call)
                       = pageHits st + (if is_page true call then 1 else 0)).
    { destruct call as [sz [|]|lv hit| | |h1 m1 h2 m2|i e u|t u f];
        cbn [log_call logMemoryAllocation logPageFault logPageHit setCacheStats
             setFragmentationMetrics setMemoryStats with_allocations with_pages with_cache
             totalAllocations successfulAllocations failedAllocations pageFaults pageHits
             is_allocation is_page eqb negb];
        rewrite ?wrap_small by lia; try lia.
      unfold logCacheAccess. destruct (lv =? 1), (lv =? 2), hit; cbn; lia. }
    destruct Hstep as (S0 & F0 & T0 & TN & PF & PH & Es & Ef & Epf & Eph).
    destruct (IH (log_call st call) (N + 1)) as (Rs & Rf & Rt & Rpf & Rph);
      try assumption; try lia.
    rewrite Rs, Rf, Rpf, Rph, Es, Ef, Epf, Eph.
    destruct (is_allocation true call), (is_allocation false call),
      (is_page false call), (is_page true call); cbn [length]; lia.
Qed.

(** X24: after fewer than 2^64 calls on a fresh [StatsManager], the total
    of allocations is the sum of the successful and the failed ones, which
    are the numbers of [logMemoryAllocation] calls with [true] and with
    [false], and the page counters are the numbers of [logPageFault] and
    [logPageHit] calls, whatever the setters were given in between. *)
Theorem allocation_statistics_add_up calls :
  Z.of_nat (length calls) < size_t_modulus ->
  let st := log_calls new_StatsManager calls in
  totalAllocations st = successfulAllocations st + failedAllocations st
  /\ successfulAllocations st = count (is_allocation true) calls
  /\ failedAllocations st = count (is_allocation false) calls
  /\ pageFaults st = count (is_page false) calls
  /\ pageHits st = count (is_page true) calls.
Proof.
  intros Hlen st.
  destruct (log_calls_counts calls new_StatsManager 0) as (Rs & Rf & Rt & Rpf & Rph);
    cbn; try lia.
  subst st. cbn in Rs, Rf, Rpf, Rph. rewrite Rs, Rf, Rpf, Rph in *. lia.
Qed.

Lemma allocation_statistics_add_up_witness :
  let calls := [LogMemoryAllocation 100 true; LogMemoryAllocation 5000 false;
                SetCacheStats 3 1 0 1; LogPageFault; LogMemoryAllocation 50 true] in
  let st := log_calls new_StatsManager calls in
  totalAllocations st = successfulAllocations st + failedAllocations st
  /\ successfulAllocations st = count (is_allocation true) calls
  /\ failedAllocations st = count (is_allocation false) calls
  /\ pageFaults st = count (is_page false) calls
  /\ pageHits st = count (is_page true) calls.
Proof.
  intros calls. apply (allocation_statistics_add_up calls). vm_compute. reflexivity.
Defined.

End StatsFacts.
